(** * PMOIRED [oifits.py]: a shallow embedding and its verified properties

    The embedding follows [src/pmoired/oifits.py].  Numbers that the code
    holds as finite float64 values are exact rationals ([Q], compared with
    [==]) in the table model and reals ([R]) in the rebinner, whose kernel
    needs [exp].  Python dictionaries iterated by the code are insertion
    ordered association lists ([odict]); the field dictionary of one table,
    whose order is never observed, is a [gmap string field].  Python
    exceptions are the [Raise] results of the [result] monad. *)

From Stdlib Require Import QArith Qabs Reals Lra Lia.
From stdpp Require Import gmap strings list fin_maps option.

Open Scope string_scope.
Open Scope list_scope.

(** ** Exceptions and the error monad *)

Inductive exn : Type :=
| KeyError (k : string)
| IndexError
| ValueError
| TypeError
| NameError (v : string)
| AssertionError (msg : string)
| OSError (path : string).

Inductive result (A : Type) : Type :=
| Ok (a : A)
| Raise (e : exn).
Arguments Ok {A} a.
Arguments Raise {A} e.

#[global] Instance result_ret : MRet result := fun A a => Ok a.
#[global] Instance result_bind : MBind result := fun A B f m =>
  match m with Ok a => f a | Raise e => Raise e end.
#[global] Instance result_fmap : FMap result := fun A B f m =>
  match m with Ok a => Ok (f a) | Raise e => Raise e end.

Definition is_Ok {A} (r : result A) : Prop :=
  match r with Ok _ => True | Raise _ => False end.

(** [for x in xs: st = body(st, x)], stopping at the first exception. *)
Fixpoint foldM {A S : Type} (body : S -> A -> result S) (st : S) (xs : list A)
  : result S :=
  match xs with
  | [] => Ok st
  | x :: xs' => st' ← body st x; foldM body st' xs'
  end.

(** ** Insertion-ordered dictionaries

    [d[k]], [k in d], [d[k] = v] (in place when the key exists, appended
    otherwise), [d.pop(k)] and [d.keys()]. *)

Definition odict (V : Type) : Type := list (string * V).

Fixpoint oget {V} (d : odict V) (k : string) : option V :=
  match d with
  | [] => None
  | (k', v) :: d' => if String.eqb k k' then Some v else oget d' k
  end.

Definition omem {V} (d : odict V) (k : string) : bool :=
  match oget d k with Some _ => true | None => false end.

Fixpoint oset {V} (d : odict V) (k : string) (v : V) : odict V :=
  match d with
  | [] => [(k, v)]
  | (k', v') :: d' =>
      if String.eqb k k' then (k, v) :: d' else (k', v') :: oset d' k v
  end.

Fixpoint opop {V} (d : odict V) (k : string) : odict V :=
  match d with
  | [] => []
  | (k', v') :: d' => if String.eqb k k' then d' else (k', v') :: opop d' k
  end.

Definition okeys {V} (d : odict V) : list string := map fst d.

Definition oitem {V} (d : odict V) (k : string) : result V :=
  match oget d k with Some v => Ok v | None => Raise (KeyError k) end.

(** ** Strings and lists as the code uses them *)

(** [k[a:b]] and [k[a:]] on a [str]; like Python, both clamp at the end. *)
Definition slice (a b : nat) (k : string) : string :=
  String.substring a (b - a) k.
Definition slice_from (a : nat) (k : string) : string :=
  String.substring a (String.length k - a) k.

(** [x in l] for a list of [str]. *)
Definition inb (x : string) (l : list string) : bool :=
  existsb (String.eqb x) l.

(** [l.index(x)]: the first position, [ValueError] when absent. *)
Fixpoint index_of (x : string) (l : list string) : result nat :=
  match l with
  | [] => Raise ValueError
  | y :: l' => if String.eqb x y then Ok 0%nat else S <$> index_of x l'
  end.

(** [l.remove(x)]: drops the first occurrence. *)
Fixpoint remove_first (x : string) (l : list string) : list string :=
  match l with
  | [] => []
  | y :: l' => if String.eqb x y then l' else y :: remove_first x l'
  end.

(** [list(set(l))] keeps one copy of each element; the iteration order of a
    Python set is unspecified, the model keeps first occurrences in order. *)
Fixpoint dedup_str (l : list string) : list string :=
  match l with
  | [] => []
  | x :: l' => if inb x l' then dedup_str l' else x :: dedup_str l'
  end.

(** [l[i]] with Python's [IndexError]. *)
Definition item {A} (l : list A) (i : nat) : result A :=
  match l !! i with Some a => Ok a | None => Raise IndexError end.

(** ** Closure reconciliation, the scan of one triangle (loadOI, l. 420-458) *)

(** The three legs of triangle name [k], [n] characters per station: the
    forward and the reverse name of each. *)
Definition fwd1 (n : nat) (k : string) : string := slice 0 (2 * n) k.
Definition rev1 (n : nat) (k : string) : string := slice n (2 * n) k +:+ slice 0 n k.
Definition fwd2 (n : nat) (k : string) : string := slice_from n k.
Definition rev2 (n : nat) (k : string) : string :=
  slice (2 * n) (3 * n) k +:+ slice n (2 * n) k.
Definition fwd3 (n : nat) (k : string) : string := slice (2 * n) (3 * n) k +:+ slice 0 n k.
Definition rev3 (n : nat) (k : string) : string := slice 0 n k +:+ slice (2 * n) (3 * n) k.

(** One leg's outcome: the baseline name, its sign and the ledger [M]. *)
Definition leg : Type := string * Z * list string.

(** "first baseline": the [elif] tests the reverse name against [sta2] but the
    forward name against the ledger. *)
Definition leg1 (n : nat) (sta2 M : list string) (k : string) : leg :=
  if inb (fwd1 n k) sta2 || inb (fwd1 n k) M then (fwd1 n k, 1%Z, M)
  else if inb (rev1 n k) sta2 || inb (fwd1 n k) M then (rev1 n k, (-1)%Z, M)
  else (fwd1 n k, 1%Z, M ++ [fwd1 n k]).

(** "second baseline". *)
Definition leg2 (n : nat) (sta2 M : list string) (k : string) : leg :=
  if inb (fwd2 n k) sta2 || inb (fwd2 n k) M then (fwd2 n k, 1%Z, M)
  else if inb (rev2 n k) sta2 || inb (rev2 n k) M then (rev2 n k, (-1)%Z, M)
  else (fwd2 n k, 1%Z, M ++ [fwd2 n k]).

(** "third baseline". *)
Definition leg3 (n : nat) (sta2 M : list string) (k : string) : leg :=
  if inb (fwd3 n k) sta2 || inb (fwd3 n k) M then (fwd3 n k, 1%Z, M)
  else if inb (rev3 n k) sta2 || inb (rev3 n k) M then (rev3 n k, (-1)%Z, M)
  else (fwd3 n k, 1%Z, M ++ [fwd3 n k]).

(** "find triangles": the lists [t] and [s] of one triangle and the ledger
    after it. *)
Definition find_triangle (n : nat) (sta2 M : list string) (k : string)
  : list string * list Z * list string :=
  let '(t1, s1, M1) := leg1 n sta2 M k in
  let '(t2, s2, M2) := leg2 n sta2 M1 k in
  let '(t3, s3, M3) := leg3 n sta2 M2 k in
  ([t1; t2; t3], [s1; s2; s3], M3).

(** [for k in set(sta3)]: the formulas found, by triangle, and the ledger. *)
Fixpoint scan_triangles (n : nat) (sta2 M : list string) (ks : list string)
  : odict (list string * list Z) * list string :=
  match ks with
  | [] => ([], M)
  | k :: ks' =>
      let '(t, s, M') := find_triangle n sta2 M k in
      let '(fs, M'') := scan_triangles n sta2 M' ks' in
      ((k, (t, s)) :: fs, M'')
  end.

(** The rule of the specification for one leg with forward name [f] and
    reverse name [r]. *)
Definition leg_rule (sta2 M : list string) (f r : string) : leg :=
  if inb f sta2 || inb f M then (f, 1%Z, M)
  else if inb r sta2 || inb r M then (r, (-1)%Z, M)
  else (f, 1%Z, M ++ [f]).


(** ** Numbers, vectors and matrices (numpy arrays of finite values) *)

Definition vec : Type := list Q.
Definition mat : Type := list (list Q).
Definition bmat : Type := list (list bool).

Definition Qltb (x y : Q) : bool := negb (Qle_bool y x).

(** [x in a] for a float array. *)
Definition qinb (x : Q) (a : vec) : bool := existsb (Qeq_bool x) a.

(** Python's [min] over a sequence ([ValueError] when it is empty). *)
Definition pymin (l : vec) : result Q :=
  match l with
  | [] => Raise ValueError
  | x :: l' => Ok (fold_left (fun m y => if Qltb y m then y else m) l' x)
  end.

(** [np.argmin]: the first index of a least element. *)
Fixpoint argmin (l : vec) : nat :=
  match l with
  | [] => 0%nat
  | x :: l' =>
      match l' with
      | [] => 0%nat
      | _ => if Qle_bool x (nth (argmin l') l' 0%Q) then 0%nat else S (argmin l')
      end
  end.

(** [np.abs(M - e)]. *)
Definition absdiff (M : vec) (e : Q) : vec := map (fun x => Qabs (x - e)) M.

(** [np.zeros((r, c))], [np.ones((r, c))], [np.ones((r, c), dtype=bool)]. *)
Definition zeros (r c : nat) : mat := replicate r (replicate c 0%Q).
Definition ones (r c : nat) : mat := replicate r (replicate c 1%Q).
Definition trues (r c : nat) : bmat := replicate r (replicate c true).

(** [u[:,None]/WL[None,:]]. *)
Definition outer_div (u WL : vec) : mat :=
  map (fun ui => map (fun w => ui / w)%Q WL) u.

(** Element-wise binary operation on two matrices of one shape. *)
Definition mat_map2 {A B C} (f : A -> B -> C) (a : list (list A)) (b : list (list B))
  : list (list C) :=
  zip_with (zip_with f) a b.

(** ** Tables

    One baseline, triangle or telescope table is a dictionary from field name
    to array.  The closure formula of a triangle is the tuple [(s, t)] during
    the scan, the list [[s, t, w0, w1, w2]] after reconciliation, and after a
    collapse the list [[(s0, s1, s2), ('all','all','all'), w0, w1, w2]]; the
    collapse holds one tuple per row in between. *)

Inductive formula : Type :=
| FTuple (s : list Z) (t : list string)
| FList (s : list Z) (t : list string) (w0 w1 w2 : list nat).

Inductive field : Type :=
| Vec (v : vec)
| Mat (m : mat)
| Flags (m : bmat)
| Names (l : list string)
| Form (f : formula)
| Forms (fs : list formula)
| FormAll (s0 s1 s2 : list Z) (w0 w1 w2 : list nat)
| NoForm.

Abbreviation table := (gmap string field).

Definition tget (T : table) (k : string) : result field :=
  match T !! k with Some f => Ok f | None => Raise (KeyError k) end.

Definition tvec (T : table) (k : string) : result vec :=
  f ← tget T k; match f with Vec v => Ok v | _ => Raise TypeError end.
Definition tmat (T : table) (k : string) : result mat :=
  f ← tget T k; match f with Mat m => Ok m | _ => Raise TypeError end.
Definition tflags (T : table) (k : string) : result bmat :=
  f ← tget T k; match f with Flags m => Ok m | _ => Raise TypeError end.

(** Number of rows of a field, [None] for a field that is not an array. *)
Definition field_rows (f : field) : option nat :=
  match f with
  | Vec v => Some (length v)
  | Mat m => Some (length m)
  | Flags m => Some (length m)
  | Names l => Some (length l)
  | _ => None
  end.

(** Every row of a 2D field has [c] columns. *)
Definition field_cols_ok (c : nat) (f : field) : bool :=
  match f with
  | Mat m => forallb (fun r => Nat.eqb (length r) c) m
  | Flags m => forallb (fun r => Nat.eqb (length r) c) m
  | _ => true
  end.

(** The shape invariant of one table: every array field has [r] rows and every
    2D field has [c] columns. *)
Definition table_shape (r c : nat) (T : table) : Prop :=
  forall k f, T !! k = Some f ->
    (forall n, field_rows f = Some n -> n = r) /\ field_cols_ok c f = true.

Definition table_shapeb (r c : nat) (T : table) : bool :=
  forallb (fun kf => match field_rows kf.2 with
                     | Some n => Nat.eqb n r
                     | None => true
                     end && field_cols_ok c kf.2) (map_to_list T).

(** Presence of a field with the array type the code expects. *)
Definition is_vec (T : table) (k : string) : bool :=
  match T !! k with Some (Vec _) => true | _ => false end.
Definition is_mat (T : table) (k : string) : bool :=
  match T !! k with Some (Mat _) => true | _ => false end.
Definition is_flags (T : table) (k : string) : bool :=
  match T !! k with Some (Flags _) => true | _ => false end.
Definition has_row (T : table) (i : nat) (k : string) : bool :=
  match T !! k with Some (Vec v) => bool_decide (i < length v)%nat | _ => false end.

(** ** Closure reconciliation against the baseline tables (loadOI, l. 546-720)

    [npsqrt] and [npangle re im] stand for [np.sqrt] and
    [np.angle(re + 1j*im, deg=True)], which have no exact rational value;
    every result below holds whatever these two functions are. *)

Section Reconcile.

Variable npsqrt : Q -> Q.
Variable npangle : Q -> Q -> Q.

(** [isVIS] tells whether [key] is ['OI_VIS'] (else ['OI_VIS2']); [WL] is the
    wavelength grid. *)
Variable isVIS : bool.
Variable WL : vec.

(** The columns of the [key] category that hold data, in the order the code
    writes them; [true] marks an error column. *)
Definition data_cols : list (string * bool) :=
  if isVIS then [("|V|", false); ("E|V|", true); ("PHI", false); ("EPHI", true)]
  else [("V2", false); ("EV2", true)].

Definition neg_sum (a b : vec) : vec := zip_with (fun x y => - x - y)%Q a b.

(** The coordinates given to a fabricated baseline found at position [idx] of
    [t] (l. 556-564); the third leg takes [v] from [v2] twice. *)
Definition fake_uv (T : table) (idx : nat) : result (vec * vec) :=
  match idx with
  | 0%nat => u ← tvec T "u1"; v ← tvec T "v1"; Ok (u, v)
  | 1%nat => u ← tvec T "u2"; v ← tvec T "v2"; Ok (u, v)
  | 2%nat =>
      u1 ← tvec T "u1"; u2 ← tvec T "u2"; v2 ← tvec T "v2";
      Ok (neg_sum u1 u2, neg_sum v2 v2)
  | _ => Raise (NameError "u")
  end.

Definition bwl_of (uwl vwl : mat) : mat :=
  mat_map2 (fun a b => npsqrt (a ^ 2 + b ^ 2)%Q) uwl vwl.

Definition pa_of (vwl uwl : mat) : mat := mat_map2 npangle vwl uwl.

(** The table fabricated for a missing baseline from triangle table [T]
    (l. 566-583). *)
Definition fake_table (T : table) (idx : nat) : result table :=
  '(u, v) ← fake_uv T idx;
  mjd ← tvec T "MJD";
  let r := length mjd in
  let c := length WL in
  let tmp : table :=
    fold_left (fun tmp '(k, err) => <[k := Mat (if err : bool then ones r c else zeros r c)]> tmp)
              data_cols ∅ in
  Ok (<["MJD" := Vec mjd]>
      (<["FLAG" := Flags (trues r c)]>
      (<["B/wl" := Mat (bwl_of (outer_div u WL) (outer_div v WL))]>
      (<["v/wl" := Mat (outer_div v WL)]>
      (<["u/wl" := Mat (outer_div u WL)]>
      (<["v" := Vec v]> (<["u" := Vec u]> tmp))))))).

(** What the fabricated table holds: the fields of l. 566-583. *)
Definition fabricated (T tmp : table) (idx : nat) : Prop :=
  exists mjd u1 v1 u2 v2,
    T !! "MJD" = Some (Vec mjd) /\ T !! "u1" = Some (Vec u1) /\ T !! "v1" = Some (Vec v1) /\
    T !! "u2" = Some (Vec u2) /\ T !! "v2" = Some (Vec v2) /\
    tmp !! "MJD" = Some (Vec mjd) /\
    tmp !! "FLAG" = Some (Flags (trues (length mjd) (length WL))) /\
    Forall (fun kerr : string * bool =>
              tmp !! kerr.1 = Some (Mat (if kerr.2 then ones (length mjd) (length WL)
                                         else zeros (length mjd) (length WL))))
           data_cols /\
    tmp !! "u" = Some (Vec (match idx with
                            | 0%nat => u1 | 1%nat => u2 | _ => neg_sum u1 u2 end)) /\
    (idx = 0%nat -> tmp !! "v" = Some (Vec v1)) /\
    (idx = 1%nat -> tmp !! "v" = Some (Vec v2)).

(** [for m in M: if m in t: ... A[m] = tmp] (l. 553-583). *)
Definition missing_tables (T : table) (t M : list string) : result (odict table) :=
  foldM (fun A m =>
           if inb m t then
             idx ← index_of m t; tmp ← fake_table T idx; Ok (oset A m tmp)
           else Ok A) [] M.

(** [for m in A: res[key][m] = A[m]; M.remove(m)] (l. 584-588). *)
Definition add_missing (A : odict table) (vis : odict table) (M : list string)
  : odict table * list string :=
  fold_left (fun '(vis, M) '(m, tmp) => (oset vis m tmp, remove_first m M)) A (vis, M).

(** What a placeholder row holds for leg [j] of row [i] of triangle table [T]
    (l. 601-618, 642-659, 682-702): the entries appended to [u], [v], and the
    rows appended to [u/wl], [v/wl] and [B/wl]. *)
Definition fake_row (j : nat) (s : list Z) (T : table) (i : nat)
  : result (Q * Q * vec * vec * vec) :=
  sj ← inject_Z <$> item s j;
  match j with
  | 0%nat =>
      a ← tvec T "u1" ≫= (fun u => item u i);
      b ← tvec T "v1" ≫= (fun v => item v i);
      Ok (sj * a, sj * b,
          map (fun w => sj * (a / w)) WL,
          map (fun w => sj * (b / w)) WL,
          map (fun w => npsqrt (a ^ 2 + b ^ 2) / w) WL)%Q
  | 1%nat =>
      a ← tvec T "u2" ≫= (fun u => item u i);
      b ← tvec T "v2" ≫= (fun v => item v i);
      Ok (sj * a, sj * b,
          map (fun w => sj * (a / w)) WL,
          map (fun w => sj * (b / w)) WL,
          map (fun w => npsqrt (a ^ 2 + b ^ 2) / w) WL)%Q
  | _ =>
      a1 ← tvec T "u1" ≫= (fun u => item u i);
      a2 ← tvec T "u2" ≫= (fun u => item u i);
      b1 ← tvec T "v1" ≫= (fun v => item v i);
      b2 ← tvec T "v2" ≫= (fun v => item v i);
      Ok (- sj * a1 - sj * a2, - sj * b1 - sj * b2,
          map (fun w => sj * ((- a1 - a2) / w)) WL,
          map (fun w => (- b1 - b2) / w) WL,
          map (fun w => npsqrt ((a1 + a2) ^ 2 + (b1 + b2) ^ 2) / w) WL)%Q
  end.

(** [np.append(B[k], row, axis=0)] of one row, on a 2D float field. *)
Definition append_row (B : table) (k : string) (row : vec) : result table :=
  m ← tmat B k; Ok (<[k := Mat (m ++ [row])]> B).

(** "add fake data for MJD": the placeholder row for epoch [mjd] appended to
    baseline table [B], in the order of the code. *)
Definition append_fake (j : nat) (s : list Z) (T : table) (i : nat) (mjd : Q) (B : table)
  : result table :=
  bm ← tvec B "MJD";
  let B := <["MJD" := Vec (bm ++ [mjd])]> B in
  '(un, vn, uwl, vwl, bwl) ← fake_row j s T i;
  bu ← tvec B "u";
  let B := <["u" := Vec (bu ++ [un])]> B in
  bv ← tvec B "v";
  let B := <["v" := Vec (bv ++ [vn])]> B in
  B ← append_row B "u/wl" uwl;
  B ← append_row B "v/wl" vwl;
  vw ← tmat B "v/wl"; uw ← tmat B "u/wl";
  let B := <["PA" := Mat (pa_of vw uw)]> B in
  B ← append_row B "B/wl" bwl;
  fl ← tflags B "FLAG";
  let B := <["FLAG" := Flags (fl ++ [replicate (length WL) true])]> B in
  foldM (fun B '(k, err) =>
           append_row B k (map (fun w => if err : bool then w * 0 + 1 else w * 0)%Q WL))
        B data_cols.

(** The tolerance [1e-4] on epochs. *)
Definition tol : Q := 1 # 10000.

(** The epoch alignment of leg [j] for row [i] (epoch [mjd]) of triangle table
    [T] (l. 595-598, 636-639, 676-679): the row index to record, and the
    baseline tables, where a miss has appended a placeholder row. *)
Definition align_leg (j : nat) (s : list Z) (t : list string) (T : table) (i : nat)
    (mjd : Q) (vis : odict table) : result (nat * odict table) :=
  tj ← item t j;
  B ← oitem vis tj;
  bm ← tvec B "MJD";
  d ← pymin (absdiff bm mjd);
  if Qltb d tol then Ok (argmin (absdiff bm mjd), vis)
  else
    B' ← append_fake j s T i mjd B;
    Ok (length bm, oset vis tj B').

(** A baseline table of the [key] category holds the fields that the
    alignment extends; row [i] of a triangle table holds its coordinates. *)
Definition baseline_ok (B : table) : bool :=
  forallb (is_vec B) ["MJD"; "u"; "v"] && forallb (is_mat B) ["u/wl"; "v/wl"; "B/wl"]
  && is_flags B "FLAG" && forallb (is_mat B) (map fst data_cols).

Definition triangle_row_ok (T : table) (i : nat) : bool :=
  forallb (has_row T i) ["u1"; "v1"; "u2"; "v2"].

(** [B'] is [B] with one placeholder row more: zero signal, unit errors, all
    flags set. *)
Definition placeholder_row (B B' : table) : Prop :=
  (exists F, B !! "FLAG" = Some (Flags F) /\
             B' !! "FLAG" = Some (Flags (F ++ [replicate (length WL) true])))
  /\ Forall (fun kerr : string * bool =>
               exists m row, B !! kerr.1 = Some (Mat m) /\
                 B' !! kerr.1 = Some (Mat (m ++ [row])) /\
                 length row = length WL /\
                 Forall (fun x => x == (if kerr.2 then 1 else 0))%Q row) data_cols.

(** One iteration of [for i, mjd in enumerate(res['OI_T3'][k]['MJD'])]. *)
Definition align_row (s : list Z) (t : list string) (T : table)
    (st : list nat * list nat * list nat * odict table) (imjd : nat * Q)
  : result (list nat * list nat * list nat * odict table) :=
  let '(w0, w1, w2, vis) := st in
  let '(i, mjd) := imjd in
  '(i0, vis) ← align_leg 0 s t T i mjd vis;
  '(i1, vis) ← align_leg 1 s t T i mjd vis;
  '(i2, vis) ← align_leg 2 s t T i mjd vis;
  Ok (w0 ++ [i0], w1 ++ [i1], w2 ++ [i2], vis).

(** The state of the pass: [res[key]], [res['OI_T3']] and the ledger [M]. *)
Record rstate : Type := RState {
  r_vis : odict table;
  r_t3 : odict table;
  r_M : list string
}.

(** The body of [for k in res['OI_T3'].keys()] (l. 549-720). *)
(** The dictionary [A] while [for m in M] runs: each entry is the table
    fabricated for the position of its name in [t], and no name is held
    twice. *)
Definition A_inv (T : table) (t : list string) (A : odict table) : Prop :=
  List.NoDup (okeys A) /\
  forall m tmp, oget A m = Some tmp ->
    exists idx, index_of m t = Ok idx /\ fake_table T idx = Ok tmp.

Definition reconcile_triangle (st : rstate) (k : string) : result rstate :=
  T ← oitem (r_t3 st) k;
  f ← tget T "formula";
  '(s, t) ← match f with
            | Form (FTuple s t) => Ok (s, t)
            | _ => Raise ValueError
            end;
  A ← missing_tables T t (r_M st);
  let '(vis, M) := add_missing A (r_vis st) (r_M st) in
  mjds ← tvec T "MJD";
  '(w0, w1, w2, vis) ← foldM (align_row s t T) ([], [], [], vis) (imap pair mjds);
  Ok (RState vis (oset (r_t3 st) k (<["formula" := Form (FList s t w0 w1 w2)]> T)) M).

Definition reconcile (st : rstate) : result rstate :=
  foldM reconcile_triangle st (okeys (r_t3 st)).

End Reconcile.

(** The epoch clause of the claim on fabricated baselines: after the pass
    [st -> st'], the table of a ledger name holds exactly the epochs of the
    triangles whose formula names it. *)
Definition ledger_epochs_are_union (st st' : rstate) : Prop :=
  forall m B bm, In m (r_M st) -> oget (r_vis st') m = Some B ->
    B !! "MJD" = Some (Vec bm) ->
    forall e, qinb e bm = true <->
      exists k T s t w0 w1 w2 tm,
        oget (r_t3 st') k = Some T /\
        T !! "formula" = Some (Form (FList s t w0 w1 w2)) /\ In m t /\
        T !! "MJD" = Some (Vec tm) /\ qinb e tm = true.


(** ** Datasets

    The dictionary [oi] returned by [loadOI]: the entries the modelled
    functions read.  [ds_cats] holds the entries whose key starts with
    ['OI_'], in key order; ['fit'] is optional. *)

Abbreviation config := (gmap string (gmap string Q)).

Record dataset : Type := Dataset {
  ds_insname : string;
  ds_filename : string;
  ds_WL : vec;
  ds_cats : odict (odict table);
  ds_telescopes : list string;
  ds_baselines : list string;
  ds_triangles : list string;
  ds_fit : option config
}.

(** ** The Collapser ([_allInOneOI], l. 1214-1302) *)

(** Dictionaries keyed by an epoch (a float): [fluxes], [weights], [names]
    share their keys and are kept as one dictionary of triples. *)
Fixpoint qget {V} (d : list (Q * V)) (k : Q) : option V :=
  match d with
  | [] => None
  | (k', v) :: d' => if Qeq_bool k k' then Some v else qget d' k
  end.

Fixpoint qset {V} (d : list (Q * V)) (k : Q) (v : V) : list (Q * V) :=
  match d with
  | [] => [(k, v)]
  | (k', v') :: d' =>
      if Qeq_bool k k' then (k', v) :: d' else (k', v') :: qset d' k v
  end.

(** [a[mask] += x[mask]] on one row. *)
Definition masked_add (a : vec) (mask : list bool) (x : vec) : vec :=
  zip_with (fun am y => if am.2 : bool then am.1 + y else am.1)%Q (zip a mask) x.

(** The body of [for j, mjd in enumerate(oi['OI_FLUX'][k]['MJD'])]
    (l. 1229-1238). *)
Definition flux_accumulate (nwl : nat) (k : string) (T : table)
    (acc : list (Q * (vec * vec * string))) (jm : nat * Q)
  : result (list (Q * (vec * vec * string))) :=
  let '(j, mjd) := jm in
  frow ← tflags T "FLAG" ≫= (fun F => item F j);
  let mask := map negb frow in
  let '(f, w, nm) := match qget acc mjd with
                     | Some x => x
                     | None => (replicate nwl 0%Q, replicate nwl 0%Q, "")
                     end in
  x ← tmat T "FLUX" ≫= (fun X => item X j);
  e ← tmat T "EFLUX" ≫= (fun E => item E j);
  let f' := masked_add f mask (zip_with Qdiv x e) in
  e ← tmat T "EFLUX" ≫= (fun E => item E j);
  let w' := masked_add w mask (map (fun y => 1 / y)%Q e) in
  Ok (qset acc mjd (f', w', nm +:+ k)).

Definition flux_table_accumulate (nwl : nat)
    (acc : list (Q * (vec * vec * string))) (kT : string * table)
  : result (list (Q * (vec * vec * string))) :=
  mjds ← tvec kT.2 "MJD";
  foldM (flux_accumulate nwl kT.1 kT.2) acc (imap pair mjds).

(** The averaged flux table (l. 1239-1253). *)
Definition flux_all (acc : list (Q * (vec * vec * string))) : table :=
  let mask (w : vec) := map (fun x => Qltb 0 x) w in
  let fl := map (fun '(_, (f, w, _)) =>
                   zip_with (fun x y => if Qltb 0 y then x / y else x)%Q f w) acc in
  let ef := map (fun '(_, (_, w, _)) =>
                   map (fun y => if Qltb 0 y then 1 / y else 0)%Q w) acc in
  let fg := map (fun '(_, (_, w, _)) => map negb (mask w)) acc in
  <["FLUX" := Mat fl]> (<["EFLUX" := Mat ef]> (<["FLAG" := Flags fg]>
  (<["NAME" := Names (map (fun '(_, (_, _, nm)) => nm) acc)]>
  (<["MJD" := Vec (map fst acc)]> ∅)))).

Definition collapse_flux (nwl : nat) (cats : odict (odict table))
  : result (odict (odict table)) :=
  match oget cats "OI_FLUX" with
  | None => Ok cats
  | Some fx =>
      acc ← foldM (flux_table_accumulate nwl) [] fx;
      Ok (oset cats "OI_FLUX" (oset fx "all" (flux_all acc)))
  end.

(** One data type [d] of one table folded into [tmp] (l. 1259-1274); [rows]
    is [len(oi[e][k]['MJD'])]. *)
Definition collapse_field (rows : nat) (tmp : table) (df : string * field)
  : result table :=
  let '(d, f) := df in
  match tmp !! d with
  | None =>
      match f with
      | Form (FList s t w0 w1 w2) =>
          Ok (<[d := Forms (replicate rows (FList s t w0 w1 w2))]> tmp)
      | Forms _ | FormAll _ _ _ _ _ _ => Raise TypeError
      | _ => Ok (<[d := f]> tmp)
      end
  | Some g =>
      match f, g with
      | Form (FList s t w0 w1 w2), Forms fs =>
          Ok (<[d := Forms (fs ++ replicate rows (FList s t w0 w1 w2))]> tmp)
      | Vec v, Vec a => Ok (<[d := Vec (a ++ v)]> tmp)
      | Mat m, Mat a => Ok (<[d := Mat (a ++ m)]> tmp)
      | Flags m, Flags a => Ok (<[d := Flags (a ++ m)]> tmp)
      | Names l, Names a => Ok (<[d := Names (a ++ l)]> tmp)
      | Form (FTuple _ _), _ | NoForm, _ => Ok tmp
      | _, _ => Raise TypeError
      end
  end.

(** One table [k] folded into [tmp] (l. 1257-1274). *)
Definition collapse_table (tmp : table) (kT : string * table) : result table :=
  let '(k, T) := kT in
  mjds ← tvec T "MJD";
  nm ← match tmp !! "NAME" with
       | Some (Names l) => Ok l
       | _ => Raise TypeError
       end;
  let tmp := <["NAME" := Names (nm ++ replicate (length mjds) k)]> tmp in
  foldM (collapse_field (length mjds)) tmp (map_to_list T).

(** One category [e] collapsed into the pseudo-table ['all'] (l. 1255-1276). *)
Definition collapse_cat (cats : odict (odict table)) (e : string)
  : result (odict (odict table)) :=
  match oget cats e with
  | None => Ok cats
  | Some c =>
      tmp ← foldM collapse_table (<["NAME" := Names []]> ∅)
                  (List.filter (fun kT => negb (String.eqb kT.1 "all")) c);
      Ok (oset cats e (oset c "all" tmp))
  end.

(** [np.argmin(abs(MJD - mjd) + (NAME != t))] (l. 1290-1292). *)
Definition argmin_named (mjds : vec) (names : list string) (mjd : Q) (t : string)
  : result nat :=
  let d := zip_with (fun m nm => Qabs (m - mjd) + (if String.eqb nm t then 0 else 1))%Q
                    mjds names in
  match d with [] => Raise ValueError | _ => Ok (argmin d) end.

(** One row of the formula of the collapsed triangles (l. 1285-1292). *)
Definition collapse_formula_row (fs : list formula) (B : table)
    (acc : list Z * list Z * list Z * list nat * list nat * list nat) (im : nat * Q)
  : result (list Z * list Z * list Z * list nat * list nat * list nat) :=
  let '(s0, s1, s2, w0, w1, w2) := acc in
  let '(i, mjd) := im in
  f ← item fs i;
  match f with
  | FList s t _ _ _ =>
      a0 ← item s 0; a1 ← item s 1; a2 ← item s 2;
      bm ← tvec B "MJD";
      nm ← tget B "NAME" ≫= (fun f => match f with Names l => Ok l | _ => Raise TypeError end);
      i0 ← item t 0 ≫= argmin_named bm nm mjd;
      i1 ← item t 1 ≫= argmin_named bm nm mjd;
      i2 ← item t 2 ≫= argmin_named bm nm mjd;
      Ok (s0 ++ [a0], s1 ++ [a1], s2 ++ [a2], w0 ++ [i0], w1 ++ [i1], w2 ++ [i2])
  | _ => Raise ValueError
  end.

(** "recompute formula for T3" (l. 1278-1294). *)
Definition collapse_formula (cats : odict (odict table)) : result (odict (odict table)) :=
  match oget cats "OI_T3" with
  | None => Ok cats
  | Some c3 =>
      let key := if omem cats "OI_VIS" then "OI_VIS" else "OI_VIS2" in
      T ← oitem c3 "all";
      mjds ← tvec T "MJD";
      '(s0, s1, s2, w0, w1, w2) ←
        foldM (fun acc im =>
                 T ← oitem c3 "all";
                 fs ← tget T "formula" ≫=
                        (fun f => match f with Forms fs => Ok fs | _ => Raise TypeError end);
                 B ← oitem cats key ≫= (fun c => oitem c "all");
                 collapse_formula_row fs B acc im)
              ([], [], [], [], [], []) (imap pair mjds);
      Ok (oset cats "OI_T3"
            (oset c3 "all" (<["formula" := FormAll s0 s1 s2 w0 w1 w2]> T)))
  end.

(** [for k in list(oi[e].keys()): if k!='all': oi[e].pop(k)] (l. 1295-1298). *)
Definition keep_all (cats : odict (odict table)) : odict (odict table) :=
  map (fun '(e, c) => (e, List.filter (fun kT => String.eqb kT.1 "all") c)) cats.

Definition _allInOneOI (oi : dataset) : result dataset :=
  cats ← collapse_flux (length (ds_WL oi)) (ds_cats oi);
  cats ← foldM collapse_cat cats ["OI_VIS"; "OI_VIS2"; "OI_T3"];
  cats ← collapse_formula cats;
  Ok (Dataset (ds_insname oi) (ds_filename oi) (ds_WL oi) (keep_all cats)
              ["all"] ["all"] ["all"] (ds_fit oi)).

(** ** The Error-Filter Applicator ([_filtErr], [_filtFlag], l. 1149-1212) *)

Definition mat_mean (m : mat) : Q :=
  (fold_right Qplus 0 (concat m) / inject_Z (Z.of_nat (length (concat m))))%Q.

(** [ext[k].mean()] of a float array. *)
Definition field_mean (f : field) : result Q :=
  match f with
  | Mat m => Ok (mat_mean m)
  | Vec v => Ok (mat_mean [v])
  | _ => Raise TypeError
  end.

Definition rule (filt : config) (kind t : string) : option Q :=
  filt !! kind ≫= (fun d => d !! t).

(** [_filtErr(t, ext, filt)]: the edited copy of [ext['E'+t]]. *)
Definition _filtErr (t : string) (ext : table) (filt : config) : result mat :=
  err ← tmat ext ("E" +:+ t);
  let err := match rule filt "mult error" t with
             | Some c => map (map (fun e => e * c)%Q) err
             | None => err
             end in
  let err := match rule filt "min error" t with
             | Some c => map (map (fun e => if Qltb e c then c else e)) err
             | None => err
             end in
  match rule filt "min relative error" t with
  | Some c =>
      x ← tmat ext t;
      Ok (mat_map2 (fun e y => let b := (c * Qabs y)%Q in if Qltb e b then b else e) err x)
  | None => Ok err
  end.

(** [flag += ext['E'+k] >= bound], the bound given per sample. *)
Definition flag_ge (flag : bmat) (err bound : mat) : bmat :=
  mat_map2 (fun f eb => f || Qle_bool eb.2 eb.1) flag (mat_map2 pair err bound).

(** The body of [for k in filt['max error']] (l. 1199-1205). *)
Definition max_error_step (ext : table) (me : gmap string Q) (flag : bmat) (k : string)
  : result bmat :=
  let k := if String.eqb k "DPHI" then "PHI" else k in
  match me !! k, ext !! ("E" +:+ k) with
  | Some c, Some _ =>
      err ← tmat ext ("E" +:+ k);
      Ok (flag_ge flag err (map (map (fun _ => c)) err))
  | _, _ => Ok flag
  end.

(** The body of [for k in filt['max relative error']] (l. 1207-1211). *)
Definition max_relative_step (ext : table) (mr : gmap string Q) (flag : bmat) (k : string)
  : result bmat :=
  match mr !! k, ext !! ("E" +:+ k) with
  | Some c, Some _ =>
      err ← tmat ext ("E" +:+ k);
      x ← tmat ext k;
      Ok (flag_ge flag err (map (map (fun y => c * Qabs y)%Q) x))
  | _, _ => Ok flag
  end.

(** The flags of [_filtFlag] once the configuration has been edited. *)
Definition filt_flags (ext : table) (filt : config) (flag : bmat) : result bmat :=
  flag ← match filt !! "max error" with
         | Some me => foldM (max_error_step ext me) flag (map fst (map_to_list me))
         | None => Ok flag
         end;
  match filt !! "max relative error" with
  | Some mr => foldM (max_relative_step ext mr) flag (map fst (map_to_list mr))
  | None => Ok flag
  end.

(** [_filtFlag(ext, filt)].  The dictionary [filt] is the caller's object and
    line 1196 assigns into it, so the model returns the configuration the
    caller holds after the call beside what the call returns or raises. *)
Definition _filtFlag (ext : table) (filt : config) : config * result bmat :=
  match tflags ext "FLAG" with
  | Raise e => (filt, Raise e)
  | Ok flag =>
      match filt !! "max error", filt !! "max relative error" with
      | None, None => (filt, Ok flag)
      | _, _ =>
          match ext !! "FLUX", filt !! "max error" with
          | Some fx, Some me =>
              match me !! "NFLUX" with
              | Some c =>
                  match field_mean fx with
                  | Raise e => (filt, Raise e)
                  | Ok mu =>
                      let filt' := <["max error" := <["FLUX" := (c * mu)%Q]> me]> filt in
                      (filt', filt_flags ext filt' flag)
                  end
              | None => (filt, filt_flags ext filt flag)
              end
          | _, _ => (filt, filt_flags ext filt flag)
          end
      end
  end.

(** ** The Merger: matching OI_VIS against OI_VIS2 (mergeOI, l. 1001-1078) *)

(** [list(set(a))], and [a[w]] for a boolean mask [w]. *)
Fixpoint qdedup (l : vec) : vec :=
  match l with
  | [] => []
  | x :: l' => if qinb x l' then qdedup l' else x :: qdedup l'
  end.

Definition select {A} (w : list bool) (a : list A) : list A :=
  map snd (List.filter (fun bx => bx.1) (zip w a)).

Definition count_true (w : list bool) : nat := length (List.filter (fun b => b) w).

(** [1+0*m]. *)
Definition ones_like (m : mat) : mat := map (map (fun x => 1 + 0 * x)%Q) m.

(** [np.logical_or(F, True)]. *)
Definition all_true (F : bmat) : bmat := map (map (fun b => b || true)) F.

(** The fields copied to a fabricated table. *)
Definition copied_keys : list string :=
  ["MJD"; "u"; "v"; "u/wl"; "v/wl"; "B/wl"; "PA"; "FLAG"].

(** A table fabricated for the side that lacks name [k] (l. 1008-1017 and
    1020-1029): [src] is the table of the other side, [ref] its reference
    column and [cols] the columns set to [1+0*ref]. *)
Definition fabricate_side (src : table) (ref : string) (cols : list string) : result table :=
  T ← foldM (fun T x => f ← tget src x; Ok (<[x := f]> T)) ∅ copied_keys;
  F ← tflags T "FLAG";
  let T := <["FLAG" := Flags (all_true F)]> T in
  foldM (fun T x => m ← tmat src ref; Ok (<[x := Mat (ones_like m)]> T)) T cols.

(** [m.reshape(n, -1)] of the [n] selected rows: numpy refuses [n = 0]. *)
Definition reshape_rows {A} (n : nat) (m : list (list A)) : result (list (list A)) :=
  if Nat.eqb n 0 then Raise ValueError else Ok m.

(** One 2D field [x] of [dst] extended by the selected rows of [src], or by
    [1+0*src[ref]] when [src] has no such field (l. 1042-1047, 1071-1076). *)
Definition extend_field (w : list bool) (src : table) (ref : string) (dst : table)
    (x : string) : result table :=
  d ← tget dst x;
  match src !! x with
  | Some (Mat m) =>
      m' ← reshape_rows (count_true w) (select w m);
      match d with
      | Mat a => Ok (<[x := Mat (a ++ m')]> dst)
      | _ => Raise TypeError
      end
  | Some (Flags m) =>
      m' ← reshape_rows (count_true w) (select w m);
      match d with
      | Flags a => Ok (<[x := Flags (a ++ m')]> dst)
      | _ => Raise TypeError
      end
  | Some _ => Raise TypeError
  | None =>
      m ← tmat src ref;
      m' ← reshape_rows (count_true w) (select w m);
      match d with
      | Mat a => Ok (<[x := Mat (a ++ ones_like m')]> dst)
      | _ => Raise TypeError
      end
  end.

(** [F[-n:,:] = np.logical_or(F[-n:,:], True)]; [F[-0:,:]] is all of [F]. *)
Definition flag_last (n : nat) (F : bmat) : bmat :=
  if Nat.eqb n 0 then all_true F
  else take (length F - n) F ++ all_true (drop (length F - n) F).

(** The rows of [src] whose epoch [dst] lacks, appended to [dst]
    (l. 1033-1049 and 1062-1078). *)
Definition extend_side (src dst : table) (ref : string) (cols : list string) : result table :=
  dm ← tvec dst "MJD";
  sm ← tvec src "MJD";
  let w := map (fun x => negb (qinb x dm)) sm in
  dst ← foldM (fun dst x =>
                 d ← tvec dst x; sx ← tvec src x;
                 Ok (<[x := Vec (d ++ select w sx)]> dst))
              dst ["MJD"; "u"; "v"];
  dst ← foldM (extend_field w src ref) dst cols;
  F ← tflags dst "FLAG";
  Ok (<["FLAG" := Flags (flag_last (count_true w) F)]> dst).

Definition vis_cols : list string :=
  ["u/wl"; "v/wl"; "B/wl"; "FLAG"; "PA"; "|V|"; "E|V|"; "PHI"; "EPHI"].
Definition vis2_cols : list string :=
  ["u/wl"; "v/wl"; "B/wl"; "FLAG"; "PA"; "V2"; "EV2"].

(** The body of [for k in kz] on the pair [(r['OI_VIS'], r['OI_VIS2'])],
    first part (l. 1006-1029): the table of a side that lacks name [k]. *)
Definition fabricate_name (vv : odict table * odict table) (k : string)
  : result (odict table * odict table) :=
  let '(V, V2) := vv in
  if negb (omem V k) then
    src ← oitem V2 k;
    T ← fabricate_side src "V2" ["|V|"; "E|V|"; "PHI"; "EPHI"];
    Ok (oset V k T, V2)
  else if negb (omem V2 k) then
    src ← oitem V k;
    T ← fabricate_side src "|V|" ["V2"; "EV2"];
    Ok (V, oset V2 k T)
  else Ok (V, V2).

(** Second part (l. 1030-1078): the epochs that one side lacks. *)
Definition match_epochs (vv : odict table * odict table) (k : string)
  : result (odict table * odict table) :=
  let '(V, V2) := vv in
  a ← oitem V k ≫= (fun T => tvec T "MJD");
  b ← oitem V2 k ≫= (fun T => tvec T "MJD");
  let mjd := qdedup (a ++ b) in
  V ← (if Nat.ltb (length a) (length mjd) then
         dst ← oitem V k; src ← oitem V2 k;
         T ← extend_side src dst "V2" vis_cols;
         Ok (oset V k T)
       else Ok V);
  b ← oitem V2 k ≫= (fun T => tvec T "MJD");
  if negb (Nat.eqb (length b) (length mjd)) then
    dst ← oitem V2 k; src ← oitem V k;
    T ← extend_side src dst "|V|" vis2_cols;
    Ok (V, oset V2 k T)
  else Ok (V, V2).

Definition match_name (vv : odict table * odict table) (k : string)
  : result (odict table * odict table) :=
  vv ← fabricate_name vv k; match_epochs vv k.

(** "make sure there is a 1-to-1 correspondance between VIS and VIS2" for one
    merged dataset [r]. *)
Definition match_vis_vis2 (r : dataset) : result dataset :=
  match oget (ds_cats r) "OI_VIS", oget (ds_cats r) "OI_VIS2" with
  | Some V, Some V2 =>
      let kz := dedup_str (okeys V ++ okeys V2) in
      '(V, V2) ← foldM match_name (V, V2) kz;
      Ok (Dataset (ds_insname r) (ds_filename r) (ds_WL r)
            (oset (oset (ds_cats r) "OI_VIS" V) "OI_VIS2" V2)
            (ds_telescopes r) (ds_baselines r) (ds_triangles r) (ds_fit r))
  | _, _ => Ok r
  end.

(** The value and error columns of the two categories. *)
Definition vis_vals : list string := ["|V|"; "E|V|"; "PHI"; "EPHI"].
Definition vis2_vals : list string := ["V2"; "EV2"].

Fixpoint qnodupb (l : vec) : bool :=
  match l with
  | [] => true
  | x :: l' => negb (qinb x l') && qnodupb l'
  end.

(** The fields of a table of one side, [vals] its value and error columns:
    one row per epoch in every 2D field, and none of the columns [others] of
    the other category. *)
Definition fields_ok (vals others : list string) (T : table) : bool :=
  match T !! "MJD" with
  | Some (Vec mjd) =>
      is_vec T "u" && is_vec T "v"
      && forallb (fun x => match T !! x with
                           | Some (Mat m) => Nat.eqb (length m) (length mjd)
                           | _ => false
                           end) (["u/wl"; "v/wl"; "B/wl"; "PA"] ++ vals)
      && match T !! "FLAG" with
         | Some (Flags F) => Nat.eqb (length F) (length mjd)
         | _ => false
         end
      && forallb (fun x => match T !! x with None => true | _ => false end) others
  | _ => false
  end.

(** A table of one side as [loadOI] and the concatenation of [mergeOI] leave
    it: its fields, and pairwise distinct epochs. *)
Definition side_ok (vals others : list string) (T : table) : bool :=
  fields_ok vals others T
  && match T !! "MJD" with Some (Vec mjd) => qnodupb mjd | _ => false end.

(** Rows of unit value, rows of set flags. *)
Definition unit_rows (m : mat) : Prop := Forall (Forall (fun x => x == 1)%Q) m.
Definition set_rows (F : bmat) : Prop := Forall (Forall (fun b => b = true)) F.

(** [T] is the table [old] of a side (no table when the side lacked the name)
    with fabricated rows appended: the rows added to the columns [vals] are
    unit rows and the rows added to the flag mask are set, one per epoch
    added. *)
Definition grown (vals : list string) (old : option table) (T : table) : Prop :=
  exists e0 e1 F0 F1,
    match old with
    | Some T0 => T0 !! "MJD" = Some (Vec e0) /\ T0 !! "FLAG" = Some (Flags F0)
    | None => e0 = [] /\ F0 = []
    end /\
    T !! "MJD" = Some (Vec (e0 ++ e1)) /\
    T !! "FLAG" = Some (Flags (F0 ++ F1)) /\ length F1 = length e1 /\ set_rows F1 /\
    Forall (fun c => exists m0 m1,
              match old with
              | Some T0 => T0 !! c = Some (Mat m0)
              | None => m0 = []
              end /\
              T !! c = Some (Mat (m0 ++ m1)) /\ length m1 = length e1 /\ unit_rows m1)
           vals.

(** Under [k], a table of one side or the other that repeats an epoch (or
    lacks a field). *)
Definition repeated_epoch (V V2 : odict table) (k : string) : Prop :=
  (exists T, oget V k = Some T /\ side_ok vis_vals vis2_vals T = false)
  \/ (exists T, oget V2 k = Some T /\ side_ok vis2_vals vis_vals T = false).

(** ** The Ingestor: resolving one file and loading a batch (loadOI, l. 37-145)

    A file is the sequence of its extensions; of each, the model keeps what
    the resolution reads: the header entries [EXTNAME] and [INSNAME], the
    rows [(TARGET, TARGET_ID)] of an [OI_TARGET] table and the columns
    [EFF_WAVE], [EFF_BAND] of an [OI_WAVELENGTH] table.  [disk] maps a path
    to the file [fits.open] finds there. *)

Record hdu : Type := HDU {
  h_extname : option string;
  h_insname : string;
  h_targets : list (string * Z);
  h_eff_wave : vec;
  h_eff_band : vec
}.

Definition fitsfile : Type := list hdu.

(** What [loadOI] has resolved for one instrument of one file when the
    assertions of l. 73, 86 and 145 have passed. *)
Record loaded : Type := Loaded {
  ld_filename : string;
  ld_insname : string;
  ld_targname : string;
  ld_WL : vec;
  ld_dWL : vec
}.

Definition is_ext (name : string) (h : hdu) : bool :=
  match h_extname h with Some e => String.eqb e name | None => false end.

(** [instruments] (l. 53-56). *)
Definition instruments_of (f : fitsfile) : list string :=
  map h_insname (List.filter (is_ext "OI_WAVELENGTH") f).

(** The dictionary [targets] built from one [OI_TARGET] table (l. 61-70): a
    name met again collects its identifiers. *)
Definition targets_of_hdu (h : hdu) : odict (list Z) :=
  fold_left (fun tg '(k, id) =>
               match oget tg k with
               | None => oset tg k [id]
               | Some ids => oset tg k (ids ++ [id])
               end) (h_targets h) [].

(** [targets] after the scan: that of the last [OI_TARGET] extension, unbound
    when the file has none. *)
Definition targets_of (f : fitsfile) : option (odict (list Z)) :=
  fold_left (fun tg h => if is_ext "OI_TARGET" h then Some (targets_of_hdu h) else tg)
            f None.

(** [res['WL']], [res['dWL']] (l. 125-130): the last matching extension. *)
Definition wavelengths_of (f : fitsfile) (insname : string) : option (vec * vec) :=
  fold_left (fun wl h =>
               if is_ext "OI_WAVELENGTH" h && String.eqb (h_insname h) insname
               then Some (map (fun x => x * 1000000)%Q (h_eff_wave h),
                          map (fun x => x * 1000000)%Q (h_eff_band h))
               else wl) f None.

(** [loadOI(filename, insname=insname)] with an instrument name: l. 73 and
    86-145. *)
Definition load_instrument (filename : string) (f : fitsfile) (targname : option string)
    (insname : string) : result loaded :=
  match targets_of f with
  | None => Raise (NameError "targets")
  | Some targets =>
      let targname :=
        match targname, targets with
        | None, [(k, _)] => Some k
        | _, _ => targname
        end in
      match targname with
      | Some tn =>
          if omem targets tn then
            if inb insname (instruments_of f) then
              match wavelengths_of f insname with
              | Some (wl, dwl) => Ok (Loaded filename insname tn wl dwl)
              | None => Raise (AssertionError "OIFITS is inconsistent: no wavelength table")
              end
            else Raise (AssertionError "unknown instrument")
          else Raise (AssertionError "unknown target")
      | None => Raise (AssertionError "unknown target")
      end
  end.

(** [loadOI(filename, ...)] for one path (l. 49-87): one dataset, or the list
    of one dataset per instrument when [insname] is not given and the file
    has several; the recursive calls of l. 83 do not pass [targname]. *)
Definition load_file (disk : odict fitsfile) (filename : string)
    (insname targname : option string) : result (list loaded) :=
  match oget disk filename with
  | None => Raise (OSError filename)
  | Some f =>
      match targets_of f with
      | None => Raise (NameError "targets")
      | Some targets =>
          let targname' :=
            match targname, targets with
            | None, [(k, _)] => Some k
            | _, _ => targname
            end in
          match targname' with
          | Some tn =>
              if omem targets tn then
                match insname, instruments_of f with
                | Some ins, _ => (fun d => [d]) <$> load_instrument filename f targname ins
                | None, [ins] => (fun d => [d]) <$> load_instrument filename f targname ins
                | None, inss => mapM (load_instrument filename f None) inss
                end
              else Raise (AssertionError "unknown target")
          | None => Raise (AssertionError "unknown target")
          end
      end
  end.

(** [loadOI(filename, ...)] for a list of paths (l. 37-47). *)
Definition load_batch (disk : odict fitsfile) (filenames : list string)
    (insname targname : option string) : result (list loaded) :=
  foldM (fun res f => tmp ← load_file disk f insname targname; Ok (res ++ tmp))
        [] filenames.

(** The datasets of the files that load, in order: what the claim on batch
    loads expects back. *)
Definition successes (disk : odict fitsfile) (filenames : list string)
    (insname targname : option string) : list loaded :=
  flat_map (fun f => match load_file disk f insname targname with
                     | Ok l => l
                     | Raise _ => []
                     end) filenames.

(** ** The Rebinner ([binOI], [_binVec], l. 807-844)

    The kernel is a real exponential, so the rebinner is embedded over [R].
    [_binVec] returns at l. 844; the statements after it, the only ones that
    read [medFilt], are never run. *)

Section Rebinner.

Local Open Scope R_scope.

(** [np.diff]. *)
Fixpoint npdiff (x : list R) : list R :=
  match x with
  | a :: (b :: _) as x' => (b - a) :: npdiff x'
  | _ => []
  end.

Fixpoint rinsert (a : R) (l : list R) : list R :=
  match l with
  | [] => [a]
  | b :: l' => if Rle_dec a b then a :: l else b :: rinsert a l'
  end.

Definition rsort (l : list R) : list R := fold_right rinsert [] l.

(** [np.median]: the middle element of the sorted values, the mean of the two
    middle ones for an even count. *)
Definition npmedian (l : list R) : R :=
  let s := rsort l in
  let n := length l in
  if Nat.even n then (nth (n / 2 - 1)%nat s 0 + nth (n / 2)%nat s 0) / 2
  else nth (n / 2)%nat s 0.

Definition rsum (l : list R) : R := fold_right Rplus 0 l.

(** [np.exp(-(X-x0)**2/(0.6*dx)**2)] for one sample [X]. *)
Definition kernel (dx x0 X : R) : R := exp (- (X - x0) ^ 2 / (6 / 10 * dx) ^ 2).

(** [_binVec(x, X, Y, E, medFilt)]; [E = None] stands for [np.ones(len(Y))]. *)
Definition _binVec (x X Y : list R) (E : option (list R)) (medFilt : option nat)
  : list R :=
  let dx := npmedian (npdiff x) in
  let E := match E with Some E => E | None => map (fun _ => 1) Y end in
  map (fun x0 =>
         let k := map (kernel dx x0) X in
         rsum (zip_with Rdiv (zip_with Rmult k Y) E) / rsum (zip_with Rdiv k E))
      x.

(** One row of [binOI]: the binned values and the binned flags. *)
Definition binOI_row (_wl WL : list R) (Trow : list R) (Frow : list bool)
    (Erow : option (list R)) (medFilt : option nat) : list R * list bool :=
  let w := map negb Frow in
  let flag := map (fun y => if Rlt_dec (1 / 2) y then true else false)
                  (_binVec _wl WL (map (fun b : bool => if b then 1 else 0) Frow) None None) in
  (_binVec _wl (select w WL) (select w Trow) (select w <$> Erow) medFilt, flag).

(** [binOI(_wl, WL, T, F, E, medFilt, retFlag=True)]: on rows that have the
    length of [WL] no exception arises in the [try] of l. 822. *)
Definition binOI (_wl WL : list R) (T : list (list R)) (F : list (list bool))
    (E : option (list (list R))) (medFilt : option nat)
  : list (list R) * list (list bool) :=
  let rows :=
    imap (fun i Trow =>
            binOI_row _wl WL Trow (nth i F [])
                      ((fun E => nth i E []) <$> E) medFilt) T in
  (map fst rows, map snd rows).

(** The claimed value of one output channel, following the words of the
    specification: sums over all samples of the old grid, the flagged ones
    left out, with [E_j = 1] when no error column is supplied. *)
Definition binned_spec (_wl WL Trow : list R) (Frow : list bool)
    (Erow : option (list R)) (x0 : R) : R :=
  let D := npmedian (npdiff _wl) in
  let valid j := negb (nth j Frow true) in
  let k j := exp (- (nth j WL 0 - x0) ^ 2 / (6 / 10 * D) ^ 2) in
  let Ej j := match Erow with Some E => nth j E 0 | None => 1 end in
  let idx := seq 0 (length WL) in
  rsum (map (fun j => if valid j then k j * nth j Trow 0 / Ej j else 0) idx)
  / rsum (map (fun j => if valid j then k j / Ej j else 0) idx).

(** The error weights [_binVec] divides by, for the samples a mask keeps. *)
Definition masked_E (w : list bool) (Y : list R) (E : option (list R)) : list R :=
  match select w <$> E with Some E => E | None => map (fun _ => 1) (select w Y) end.

Definition E_at (E : option (list R)) (j : nat) : R :=
  match E with Some E => nth j E 0 | None => 1 end.

Definition E_tail (E : option (list R)) : option (list R) := tail <$> E.

(** The samples of [g] lie at least one kernel width, [0.6] times the median
    spacing of [g], apart for each step of index. *)
Definition separated (g : list R) : Prop :=
  forall j l xj xl, g !! j = Some xj -> g !! l = Some xl ->
    Rabs (INR j - INR l) * (6 / 10 * Rabs (npmedian (npdiff g))) <= Rabs (xj - xl).

End Rebinner.

(** ** Worked inputs *)

(** Stand-ins for [np.sqrt] and [np.angle] where a statement needs closed
    terms: the integer square root of the floor, and the constant 0. *)
Definition sqrt_floor (q : Q) : Q := inject_Z (Z.sqrt (Qnum q / Z.pos (Qden q))).
Definition angle0 (re im : Q) : Q := 0%Q.

Definition ex_WL : vec := [2%Q; 3%Q].

(** A squared-visibility table of one row, as [loadOI] builds it (l. 250-269). *)
Definition vis2_table (mjd u v : Q) : table :=
  let uwl := outer_div [u] ex_WL in
  let vwl := outer_div [v] ex_WL in
  list_to_map
    [("V2", Mat [[1 # 2; 1 # 3]%Q]); ("EV2", Mat [[1 # 10; 1 # 10]%Q]);
     ("u", Vec [u]); ("v", Vec [v]); ("MJD", Vec [mjd]);
     ("u/wl", Mat uwl); ("v/wl", Mat vwl);
     ("FLAG", Flags [[false; false]]);
     ("B/wl", Mat (bwl_of sqrt_floor uwl vwl)); ("PA", Mat (pa_of angle0 vwl uwl))].

(** A closure table of one row, with the formula [(s, t)] of the scan
    (l. 476-487). *)
Definition t3_table (mjd : Q) (st : list string * list Z) : table :=
  list_to_map
    [("T3AMP", Mat [[1; 1]%Q]); ("ET3AMP", Mat [[1 # 10; 1 # 10]%Q]);
     ("T3PHI", Mat [[0; 0]%Q]); ("ET3PHI", Mat [[1; 1]%Q]);
     ("MJD", Vec [mjd]);
     ("u1", Vec [3%Q]); ("v1", Vec [4%Q]); ("u2", Vec [6%Q]); ("v2", Vec [8%Q]);
     ("formula", Form (FTuple st.2 st.1));
     ("FLAG", Flags [[false; false]])].

Definition ex_vis : odict table :=
  [("AB", vis2_table 5 3 4); ("CA", vis2_table 5 (-9) (-12))].

(** Two triangles that share the absent baseline B-C, observed 4.3 s apart
    (epochs 5 and 5.00005), with the formulas of the scan. *)
Definition c4_scan : odict (list string * list Z) * list string :=
  scan_triangles 1 ["AB"; "CA"; "CD"; "DB"] [] ["ABC"; "BCD"].

Definition c4_state : rstate :=
  RState [("AB", vis2_table 5 3 4); ("CA", vis2_table 5 (-9) (-12));
          ("CD", vis2_table (100001 # 20000) 6 8);
          ("DB", vis2_table (100001 # 20000) (-9) (-12))]
         [("ABC", t3_table 5 (default ([], []) (oget c4_scan.1 "ABC")));
          ("BCD", t3_table (100001 # 20000) (default ([], []) (oget c4_scan.1 "BCD")))]
         c4_scan.2.

(** A file with the baselines A-B and C-A and the triangle ABC: the scan
    leaves B-C in the ledger. *)
Definition c1_scan : odict (list string * list Z) * list string :=
  scan_triangles 1 ["AB"; "CA"] [] ["ABC"].

Definition c1_state : rstate :=
  RState ex_vis [("ABC", t3_table 5 (default ([], []) (oget c1_scan.1 "ABC")))] c1_scan.2.

(** The dataset [loadOI] returns for it, given the reconciled tables. *)
Definition c1_dataset (st : rstate) : dataset :=
  Dataset "INS" "file.fits" ex_WL [("OI_VIS2", r_vis st); ("OI_T3", r_t3 st)]
          ["A"; "B"; "C"] ["AB"; "BC"; "CA"] ["ABC"] None.

(** A dataset of two squared-visibility tables, and one with a reconciled
    triangle besides. *)
Definition c9_dataset : dataset :=
  Dataset "INS" "file.fits" ex_WL [("OI_VIS2", ex_vis)] ["A"; "B"; "C"] ["AB"; "CA"] [] None.

Definition c9_dataset_t3 : dataset :=
  Dataset "INS" "file.fits" ex_WL
    [("OI_VIS2", ex_vis ++ [("BC", vis2_table 5 6 8)]);
     ("OI_T3", [("ABC", <["formula" := Form (FList [1%Z; 1%Z; 1%Z] ["AB"; "BC"; "CA"]
                                                   [0%nat] [0%nat] [0%nat])]>
                          (t3_table 5 ([], [])))])]
    ["A"; "B"; "C"] ["AB"; "BC"; "CA"] ["ABC"] None.

(** The pseudo-table ['all'] of category [e]. *)
Definition all_of (ds : dataset) (e : string) : option table :=
  oget (ds_cats ds) e ≫= (fun c => oget c "all").

(** Two flux tables and a configuration with one [NFLUX] rule. *)
Definition flux_table (f1 f2 : Q) : table :=
  list_to_map
    [("FLUX", Mat [[f1; f2]]); ("EFLUX", Mat [[1 # 2; 1 # 2]%Q]);
     ("RFLUX", Mat [[f1; f2]]); ("FLAG", Flags [[false; false]]); ("MJD", Vec [5%Q])].

Definition c10_filt : config := {[ "max error" := {[ "NFLUX" := (1 # 10)%Q ]} ]}.

(** A file with one instrument and one target, and one with two targets. *)
Definition good_file : fitsfile :=
  [HDU None "" [] [] [];
   HDU (Some "OI_TARGET") "" [("HD1", 1%Z)] [] [];
   HDU (Some "OI_WAVELENGTH") "GRAVITY" [] [2 # 1000000; 3 # 1000000]%Q
       [1 # 10000000; 1 # 10000000]%Q].

Definition bad_file : fitsfile :=
  [HDU None "" [] [] [];
   HDU (Some "OI_TARGET") "" [("HD1", 1%Z); ("HD2", 2%Z)] [] [];
   HDU (Some "OI_WAVELENGTH") "GRAVITY" [] [2 # 1000000; 3 # 1000000]%Q
       [1 # 10000000; 1 # 10000000]%Q].

Definition c2_disk : odict fitsfile := [("bad.fits", bad_file); ("good.fits", good_file)].

(** A grid of three channels one unit apart, and a row with a peak. *)
Definition c7_grid : list R := [0; 1; 2]%R.
Definition c7_T : list (list R) := [[0; 1; 0]%R].
Definition c7_F : list (list bool) := [[false; false; false]].

(** A grid with two channels close together, and a row flagged at the first
    of the two. *)
Definition c7_uneven : list R := [0; 10; 11; 21]%R.
Definition c7_uneven_F : list (list bool) := [[false; true; false; false]].

(** A table of visibilities of one epoch. *)
Definition vis_table (mjd u v : Q) : table :=
  let uwl := outer_div [u] ex_WL in
  let vwl := outer_div [v] ex_WL in
  list_to_map
    [("|V|", Mat [[7 # 10; 3 # 5]%Q]); ("E|V|", Mat [[1 # 20; 1 # 20]%Q]);
     ("PHI", Mat [[10; -5]%Q]); ("EPHI", Mat [[1; 1]%Q]);
     ("u", Vec [u]); ("v", Vec [v]); ("MJD", Vec [mjd]);
     ("u/wl", Mat uwl); ("v/wl", Mat vwl);
     ("FLAG", Flags [[false; false]]);
     ("B/wl", Mat (bwl_of sqrt_floor uwl vwl)); ("PA", Mat (pa_of angle0 vwl uwl))].

(** A table of squared visibilities with two epochs. *)
Definition vis2_table2 (mjd1 mjd2 u v : Q) : table :=
  let uwl := outer_div [u; u] ex_WL in
  let vwl := outer_div [v; v] ex_WL in
  list_to_map
    [("V2", Mat [[1 # 2; 1 # 3]; [1 # 4; 1 # 5]]%Q);
     ("EV2", Mat [[1 # 10; 1 # 10]; [1 # 10; 1 # 10]]%Q);
     ("u", Vec [u; u]); ("v", Vec [v; v]); ("MJD", Vec [mjd1; mjd2]);
     ("u/wl", Mat uwl); ("v/wl", Mat vwl);
     ("FLAG", Flags [[false; false]; [false; true]]);
     ("B/wl", Mat (bwl_of sqrt_floor uwl vwl)); ("PA", Mat (pa_of angle0 vwl uwl))].

(** Visibilities of AB at one epoch; squared visibilities of AB at that epoch
    and another, and of CA. *)
Definition c3_V : odict table := [("AB", vis_table 5 10 0)].
Definition c3_V2 : odict table := [("AB", vis2_table2 5 6 10 0); ("CA", vis2_table 5 0 10)].
Definition c3_dataset : dataset :=
  Dataset "INS" "file.fits" ex_WL [("OI_VIS", c3_V); ("OI_VIS2", c3_V2)]
          ["A"; "B"; "C"] ["AB"; "CA"] [] None.

(** ** Further functions, predicates and inputs *)

(** The entry [m[i, j]] of a 2D array. *)
Definition mat_at {A} (m : list (list A)) (i j : nat) : option A :=
  m !! i ≫= (fun row => row !! j).

(** [F] has the shape of [F0] and every flag set in [F0] is set in [F]. *)
Definition covers (F0 F : bmat) : Prop :=
  Forall2 (Forall2 (fun b0 b : bool => b0 = true -> b = true)) F0 F.

(** A 2D array of [r] rows and [c] columns. *)
Definition shaped {A} (r c : nat) (m : list (list A)) : Prop :=
  length m = r /\ Forall (fun row => length row = c) m.

(** A table of fluxes of one epoch with its errors and flags. *)
Definition flux_table_err (f1 f2 e1 e2 : Q) (b1 b2 : bool) : table :=
  list_to_map [("FLUX", Mat [[f1; f2]]); ("EFLUX", Mat [[e1; e2]]);
               ("FLAG", Flags [[b1; b2]]); ("MJD", Vec [5%Q])].

(** A table of phases of one epoch whose errors, 5, are large. *)
Definition phi_table_err : table :=
  list_to_map [("PHI", Mat [[0; 0]%Q]); ("EPHI", Mat [[5; 5]%Q]);
               ("FLAG", Flags [[false; false]]); ("MJD", Vec [5%Q])].

(** [np.maximum(b, e)] as [_filtErr] applies it. *)
Definition at_least (b e : Q) : Q := if Qltb e b then b else e.

(** A table of squared visibilities of one epoch. *)
Definition v2_table_err (x1 x2 e1 e2 : Q) : table :=
  list_to_map [("V2", Mat [[x1; x2]]); ("EV2", Mat [[e1; e2]]);
               ("FLAG", Flags [[false; false]]); ("MJD", Vec [5%Q])].

(** The ledger [M] of the scan: no name twice, none a known baseline. *)
Definition ledger_ok (sta2 M : list string) : Prop :=
  List.NoDup M /\ forall m, In m M -> ~ In m sta2.

(** A leg as the scan records it: sign [+1] or [-1], and a name that is a
    known baseline or stands in the ledger. *)
Definition leg_ok (sta2 M : list string) (l : leg) : Prop :=
  (l.1.2 = 1%Z \/ l.1.2 = (-1)%Z) /\ (In l.1.1 sta2 \/ In l.1.1 l.2) /\
  exists N, l.2 = M ++ N.

(** A file of two instruments and one target, and one of two instruments and
    two targets. *)
Definition two_ins_file : fitsfile :=
  [HDU (Some "OI_TARGET") "" [("HD1", 1%Z)] [] [];
   HDU (Some "OI_WAVELENGTH") "GRAVITY_SC" [] [2 # 1000000; 3 # 1000000]%Q
       [1 # 10000000; 1 # 10000000]%Q;
   HDU (Some "OI_WAVELENGTH") "GRAVITY_FT" [] [2 # 1000000]%Q [1 # 1000000]%Q].

Definition two_ins_two_targets_file : fitsfile :=
  [HDU (Some "OI_TARGET") "" [("HD1", 1%Z); ("HD2", 2%Z)] [] [];
   HDU (Some "OI_WAVELENGTH") "GRAVITY_SC" [] [2 # 1000000; 3 # 1000000]%Q
       [1 # 10000000; 1 # 10000000]%Q;
   HDU (Some "OI_WAVELENGTH") "GRAVITY_FT" [] [2 # 1000000]%Q [1 # 1000000]%Q].

Section WholeLoad.

(** The statements of [loadOI] after the assertion of l. 145 (l. 147-798):
    from the file and from what the head has resolved they build the dataset,
    or raise (as l. 394 does, [sta2] being unbound, on a file without
    visibilities for the target).  What follows holds whatever they do. *)
Context {D : Type}.
Variable rest : fitsfile -> loaded -> result D.

(** [loadOI(filename, insname=insname)] from l. 73 to its end, the options
    that the calls of l. 83 do not pass on ([binning], [tellurics]) being
    [None]. *)
Definition loadOI_instrument (filename : string) (f : fitsfile) (targname : option string)
    (insname : string) : result D :=
  hd ← load_instrument filename f targname insname;
  rest f hd.

(** [loadOI(filename, ...)] for one path, to its end: [load_file] with every
    load of an instrument carried through. *)
Definition loadOI_file (disk : odict fitsfile) (filename : string)
    (insname targname : option string) : result (list D) :=
  match oget disk filename with
  | None => Raise (OSError filename)
  | Some f =>
      match targets_of f with
      | None => Raise (NameError "targets")
      | Some targets =>
          let targname' :=
            match targname, targets with
            | None, [(k, _)] => Some k
            | _, _ => targname
            end in
          match targname' with
          | Some tn =>
              if omem targets tn then
                match insname, instruments_of f with
                | Some ins, _ => (fun d => [d]) <$> loadOI_instrument filename f targname ins
                | None, [ins] => (fun d => [d]) <$> loadOI_instrument filename f targname ins
                | None, inss => mapM (loadOI_instrument filename f None) inss
                end
              else Raise (AssertionError "unknown target")
          | None => Raise (AssertionError "unknown target")
          end
      end
  end.

End WholeLoad.

(** A remainder that returns what the head has resolved, and one that fails
    as l. 394 does. *)
Definition rest_head (f : fitsfile) (d : loaded) : result loaded := Ok d.
Definition rest_unbound (f : fitsfile) (d : loaded) : result loaded :=
  Raise (NameError "sta2").

(** [wTarg(hdu, targname, targets)] (l. 800-804), [target_id] being the column
    [hdu.data['TARGET_ID']]: the rows of the target.  The identifiers of a
    name are kept as a list even when there is one (see [targets_of_hdu]), and
    [x == id] is [x in [id]]. *)
Definition wTarg (target_id : list Z) (targname : string) (targets : odict (list Z))
  : result (list bool) :=
  ids ← oitem targets targname;
  Ok (map (fun x => existsb (Z.eqb x) ids) target_id).

(** The identifiers that the rows of an [OI_TARGET] table give to name [k]. *)
Definition ids_of (rows : list (string * Z)) (k : string) : list Z :=
  map snd (List.filter (fun r => String.eqb r.1 k) rows).

(** ** The Merger: the closure formulas after a merge (mergeOI, l. 1081-1109) *)

(** [t[0] in c and t[1] in c and t[2] in c], evaluated from the left. *)
Definition legs_in (c : odict table) (t : list string) : result bool :=
  t0 ← item t 0;
  if negb (omem c t0) then Ok false else
  t1 ← item t 1;
  if negb (omem c t1) then Ok false else
  t2 ← item t 2;
  Ok (omem c t2).

(** [key] (l. 1087-1095): the category that holds the three legs, ['OI_VIS']
    first; [None] when neither does. *)
Definition formula_key (cats : odict (odict table)) (t : list string)
  : result (option string) :=
  v ← match oget cats "OI_VIS" with Some c => legs_in c t | None => Ok false end;
  if v : bool then Ok (Some "OI_VIS") else
  v2 ← match oget cats "OI_VIS2" with Some c => legs_in c t | None => Ok false end;
  Ok (if v2 : bool then Some "OI_VIS2" else None).

(** [np.argmin] of an array: [ValueError] on an empty one. *)
Definition npargmin (l : vec) : result nat :=
  match l with [] => Raise ValueError | _ => Ok (argmin l) end.

(** [np.argmin(np.abs(r[key][t[j]]['MJD']-mjd))] (l. 1098-1100); [r[None]] is
    a [KeyError]. *)
Definition nearest_row (cats : odict (odict table)) (key : option string)
    (t : list string) (j : nat) (mjd : Q) : result nat :=
  match key with
  | None => Raise (KeyError "None")
  | Some key =>
      c ← oitem cats key;
      tj ← item t j;
      B ← oitem c tj;
      M ← tvec B "MJD";
      npargmin (absdiff M mjd)
  end.

(** The body of the [try] (l. 1097-1101). *)
Definition nearest_rows (cats : odict (odict table)) (key : option string)
    (t : list string) (T : table) : result (list nat * list nat * list nat) :=
  mjds ← tvec T "MJD";
  foldM (fun '(w0, w1, w2) mjd =>
           i0 ← nearest_row cats key t 0 mjd;
           i1 ← nearest_row cats key t 1 mjd;
           i2 ← nearest_row cats key t 2 mjd;
           Ok (w0 ++ [i0], w1 ++ [i1], w2 ++ [i2]))
        ([], [], []) mjds.

(** One triangle (l. 1085-1107): its table with the recomputed formula, or
    [None] when the [except] clause marks it for removal.  The [except] clause
    reads [r[key]] itself, so with [key = None] what it catches is replaced by
    a [KeyError] that leaves the function. *)
Definition recompute_formula (cats : odict (odict table)) (T : table)
  : result (option table) :=
  f ← tget T "formula";
  match f with
  | Form (FList s t w0 w1 w2) =>
      key ← formula_key cats t;
      match nearest_rows cats key t T with
      | Ok (w0', w1', w2') => Ok (Some (<["formula" := Form (FList s t w0' w1' w2')]> T))
      | Raise _ =>
          match key with
          | None => Raise (KeyError "None")
          | Some key => _ ← oitem cats key; Ok None
          end
      end
  | _ => Raise ValueError
  end.

(** "special case for T3 formulas" for one merged dataset (l. 1082-1109). *)
Definition recompute_formulas (cats : odict (odict table)) : result (odict (odict table)) :=
  match oget cats "OI_T3" with
  | None => Ok cats
  | Some c3 =>
      c3' ← foldM (fun acc kT =>
                     o ← recompute_formula cats kT.2;
                     Ok (match o with
                         | Some T' => acc ++ [(kT.1, T')]
                         | None => acc
                         end))
                  [] c3;
      Ok (oset cats "OI_T3" c3')
  end.

(** Index [i] is a row of [M] nearest to [mjd]. *)
Definition nearest (M : vec) (mjd : Q) (i : nat) : Prop :=
  (i < length M)%nat /\ Forall (fun x => Qabs (nth i M 0 - mjd) <= Qabs (x - mjd))%Q M.

(** The three legs of [t] have tables with epochs in category [c]. *)
Definition legs_have_epochs (c : odict table) (t : list string) : Prop :=
  length t = 3%nat /\
  Forall (fun tj => exists B M, oget c tj = Some B /\ B !! "MJD" = Some (Vec M) /\ M <> []) t.

(** The formula [f] is [[s, t, w0, w1, w2]] with one row of each leg per
    epoch of [mjds], each a nearest row of the leg's table in [c]. *)
Definition formula_nearest (c : odict table) (s : list Z) (t : list string) (mjds : vec)
    (f : field) : Prop :=
  exists w0 w1 w2, f = Form (FList s t w0 w1 w2) /\
    Forall (fun jw : nat * list nat =>
              exists tj B M, t !! jw.1 = Some tj /\ oget c tj = Some B /\
                B !! "MJD" = Some (Vec M) /\
                Forall2 (fun mjd i => nearest M mjd i) mjds jw.2)
           [(0%nat, w0); (1%nat, w1); (2%nat, w2)].

(** A triangle table that the recomputation can serve: its formula is the
    list of the load, it has epochs, and the category chosen for its legs
    holds a table with epochs for each. *)
Definition triangle_ready (cats : odict (odict table)) (T : table) : Prop :=
  exists s t w0 w1 w2 mjds key c,
    T !! "formula" = Some (Form (FList s t w0 w1 w2)) /\ T !! "MJD" = Some (Vec mjds) /\
    formula_key cats t = Ok (Some key) /\ oget cats key = Some c /\ legs_have_epochs c t.

(** [T'] is [T] with its formula recomputed: the same signs and names, and
    nearest rows in the category [formula_key] chooses. *)
Definition triangle_recomputed (cats : odict (odict table)) (T T' : table) : Prop :=
  (forall k, k <> "formula" -> T' !! k = T !! k) /\
  exists s t w0 w1 w2 mjds key c f,
    T !! "formula" = Some (Form (FList s t w0 w1 w2)) /\ T !! "MJD" = Some (Vec mjds) /\
    formula_key cats t = Ok (Some key) /\ oget cats key = Some c /\
    T' !! "formula" = Some f /\ formula_nearest c s t mjds f.

(** A triangle of two epochs whose formula still holds the rows found at load
    time, with the baselines of [ex_vis]. *)
Definition merged_t3 : table :=
  <["formula" := Form (FList [1; 1; -1]%Z ["AB"; "BC"; "CA"] [0; 0] [0; 0] [0; 0]%nat)]>
    (<["MJD" := Vec [5; 6]%Q]> ∅).

Definition merged_cats : odict (odict table) :=
  [("OI_VIS2", [("AB", vis2_table2 5 6 10 0); ("BC", vis2_table 6 0 10);
                ("CA", vis2_table 5 (-10) (-10))]);
   ("OI_T3", [("ABC", merged_t3)])].

(** ** The Merger: the rows of one table (mergeOI, l. 958-993) *)

(** [ext1] and [ext2] (l. 961-973): the columns with one value per row and
    those with one value per row and channel.  The last test is an [if], not
    an [elif]; the loop runs on these four categories only, and the names are
    not bound for another one. *)
Definition merge_cols (l : string) : option (list string * list string) :=
  let c :=
    if String.eqb l "OI_FLUX" then
      Some (["MJD"], ["FLUX"; "EFLUX"; "FLAG"; "RFLUX"])
    else if String.eqb l "OI_VIS2" then
      Some (["u"; "v"; "MJD"], ["V2"; "EV2"; "FLAG"; "u/wl"; "v/wl"; "B/wl"; "PA"])
    else if String.eqb l "OI_VIS" then
      Some (["u"; "v"; "MJD"],
            ["|V|"; "E|V|"; "PHI"; "EPHI"; "FLAG"; "u/wl"; "v/wl"; "B/wl"; "PA"])
    else None in
  if String.eqb l "OI_T3" then
    Some (["u1"; "v1"; "u2"; "v2"; "MJD"; "B1"; "B2"; "B3"],
          ["T3AMP"; "ET3AMP"; "T3PHI"; "ET3PHI"; "FLAG"; "Bmax/wl"; "Bavg/wl"])
  else c.

(** [a.shape[1]] of a 2D array.  The lists do not record the width of an
    array without rows; [loadOI] makes a table only for [any(w)], so that a
    table has a row. *)
Definition width {A} (m : list (list A)) : nat :=
  match m with row :: _ => length row | [] => 0%nat end.

(** [a.reshape(n, c)] of a flat array: [n] rows of [c] values each, and a
    [ValueError] when the array does not hold [n*c] values. *)
Fixpoint rows_of {A} (n c : nat) (flat : list A) : list (list A) :=
  match n with
  | O => []
  | S n' => take c flat :: rows_of n' c (drop c flat)
  end.

Definition npreshape {A} (n c : nat) (flat : list A) : result (list (list A)) :=
  if Nat.eqb (length flat) (n * c) then Ok (rows_of n c flat) else Raise ValueError.

(** [res[i0][l][k][t] = np.append(res[i0][l][k][t], oi[l][k][t])] for a
    column of [ext1] (l. 976-978). *)
Definition merge_ext1 (oiT : table) (T : table) (t : string) : result table :=
  a ← tvec T t;
  b ← tvec oiT t;
  Ok (<[t := Vec (a ++ b)]> T).

(** [tmp] (l. 983-991): the column [t] of [oi[l][k]], edited when [oi] has a
    ['fit']; [_filtFlag] may write into that configuration, which is returned
    beside the column. *)
Definition merge_tmp (oiT : table) (fit : option config) (t : string)
  : option config * result field :=
  match fit with
  | Some filt =>
      if String.prefix "E" t && bool_decide (is_Some (oiT !! slice_from 1 t)) then
        (fit, Mat <$> _filtErr (slice_from 1 t) oiT filt)
      else if String.eqb t "FLAG" then
        let '(filt', F) := _filtFlag oiT filt in (Some filt', Flags <$> F)
      else (fit, tget oiT t)
  | None => (fit, tget oiT t)
  end.

(** The body of [for t in ext2] (l. 979-993): [np.append] without an axis
    flattens both arrays, and [reshape] cuts the result into rows of the
    width of the array of [res].  As elsewhere, [TypeError] stands for a
    field of a type that the tables of [loadOI] do not have there. *)
Definition merge_ext2 (oiT : table) (st : option config * table) (t : string)
  : result (option config * table) :=
  let '(fit, T) := st in
  a ← tget T t;
  b ← tget oiT t;
  n2 ← match field_rows b with Some n => Ok n | None => Raise TypeError end;
  let '(fit', tmp) := merge_tmp oiT fit t in
  tmp ← tmp;
  f ← match a, tmp with
       | Mat a, Mat m => Mat <$> npreshape (length a + n2) (width a) (concat a ++ concat m)
       | Flags a, Flags m =>
           Flags <$> npreshape (length a + n2) (width a) (concat a ++ concat m)
       | Vec _, (Vec _ | Mat _ | Flags _) => Raise IndexError
       | _, _ => Raise TypeError
       end;
  Ok (fit', <[t := f]> T).

(** "merging data (most complicated case)" (l. 958-993): the table
    [res[i0][l][k]] after the rows of [oi[l][k]] have been added, and
    [oi['fit']] as the calls leave it. *)
Definition merge_table (l : string) (oiT : table) (fit : option config) (T : table)
  : result (option config * table) :=
  match merge_cols l with
  | None => Raise (NameError "ext1")
  | Some (ext1, ext2) =>
      T ← foldM (merge_ext1 oiT) T ext1;
      foldM (merge_ext2 oiT) (fit, T) ext2
  end.

(** The column [t] of the merged table [T'] holds the rows of [T] followed by
    the array [f]. *)
Definition rows_appended (r c : nat) (T T' : table) (t : string) (f : field) : Prop :=
  (exists a b, T !! t = Some (Mat a) /\ f = Mat b /\ shaped r c b /\
               T' !! t = Some (Mat (a ++ b)))
  \/ (exists a b, T !! t = Some (Flags a) /\ f = Flags b /\ shaped r c b /\
                  T' !! t = Some (Flags (a ++ b))).

(** The columns of [ext1] are 1D arrays, ['FLAG'] is an array of flags and the
    other columns of [ext2] are 2D arrays of numbers. *)
Definition cols_typed (ext1 ext2 : list string) (T : table) : Prop :=
  (forall t, In t ext1 -> is_vec T t = true) /\
  (forall t, In t ext2 ->
     if String.eqb t "FLAG" then is_flags T t = true else is_mat T t = true).

(** What the filters read is there: a column ['E'+k] is a 2D array of numbers
    and comes with the column [k] of its values, and so is ['FLUX']. *)
Definition filter_ready (ext : table) : Prop :=
  (forall k, is_Some (ext !! ("E" +:+ k)) ->
     is_mat ext ("E" +:+ k) = true /\ is_mat ext k = true) /\
  (is_Some (ext !! "FLUX") -> is_mat ext "FLUX" = true).

(** The configuration that a pass of [for t in ext2] holds before the columns
    [ks] that remain: that of [oi] until ['FLAG'] has been met, and one with
    the same rules on errors after. *)
Definition fit_inv (fit fitc : option config) (ks : list string) : Prop :=
  match fit, fitc with
  | None, None => True
  | Some filt, Some fc =>
      (In "FLAG" ks -> fc = filt) /\
      (forall kind, kind <> "max error" -> fc !! kind = filt !! kind)
  | _, _ => False
  end.

(** A configuration that multiplies the errors of [V2] by two, and the table
    of one epoch after the merge of a table of two epochs of a dataset with
    this configuration. *)
Definition mult_fit : config := {[ "mult error" := {[ "V2" := 2%Q ]} ]}.

Definition merged_vis2 : table :=
  match merge_table "OI_VIS2" (vis2_table2 6 7 3 4) (Some mult_fit) (vis2_table 5 3 4) with
  | Ok (_, T') => T'
  | Raise _ => ∅
  end.

(** ** The configurations of each epoch (loadOI, l. 761-770) *)

(** The body of [for mjd in res[l][k]['MJD']] (l. 765-769). *)
Definition conf_add (k : string) (conf : list (Q * list string)) (mjd : Q)
  : list (Q * list string) :=
  match qget conf mjd with
  | None => qset conf mjd [k]
  | Some ks => if inb k ks then conf else qset conf mjd (ks ++ [k])
  end.

(** [confperMJD] (l. 761-770), from the categories of [res] in the order of
    its keys. *)
Definition confperMJD (cats : odict (odict table)) : result (list (Q * list string)) :=
  foldM (fun conf lc =>
           if inb lc.1 ["OI_VIS"; "OI_VIS2"; "OI_T3"; "OI_FLUX"] then
             foldM (fun conf kT =>
                      mjds ← tvec kT.2 "MJD";
                      Ok (fold_left (conf_add kT.1) mjds conf))
                   conf lc.2
           else Ok conf)
        [] cats.

(** The dictionary [conf] lists name [k] at epoch [mjd]. *)
Definition listed (conf : list (Q * list string)) (mjd : Q) (k : string) : Prop :=
  exists ks, qget conf mjd = Some ks /\ In k ks.

(** A table of name [k] in category [c] has a row of epoch [mjd]. *)
Definition seen_in (c : odict table) (mjd : Q) (k : string) : Prop :=
  exists T M m, In (k, T) c /\ T !! "MJD" = Some (Vec M) /\ In m M /\ (m == mjd)%Q.

(** A table of name [k] in one of the four categories of data has a row of
    epoch [mjd]. *)
Definition observed (cats : odict (odict table)) (mjd : Q) (k : string) : Prop :=
  exists l c, In (l, c) cats /\ In l ["OI_VIS"; "OI_VIS2"; "OI_T3"; "OI_FLUX"] /\
              seen_in c mjd k.

(** No list of [conf] holds a name twice. *)
Definition conf_nodup (conf : list (Q * list string)) : Prop :=
  forall mjd ks, qget conf mjd = Some ks -> List.NoDup ks.

(** Every table of the four categories of data has epochs. *)
Definition cats_have_epochs (cats : odict (odict table)) : Prop :=
  forall l c k T, In (l, c) cats -> In l ["OI_VIS"; "OI_VIS2"; "OI_T3"; "OI_FLUX"] ->
    In (k, T) c -> is_vec T "MJD" = true.

(** ** The binned wavelength grid (loadOI, l. 131-138) *)

(** [a.min()] and [a.max()]: a [ValueError] on an empty array. *)
Definition npmin (l : list R) : result R :=
  match l with [] => Raise ValueError | a :: l' => Ok (fold_left Rmin l' a) end.
Definition npmax (l : list R) : result R :=
  match l with [] => Raise ValueError | a :: l' => Ok (fold_left Rmax l' a) end.

(** [np.linspace(start, stop, num)]: no point, [start] alone, or [num] points
    [start + i*step] with [step = (stop-start)/(num-1)]. *)
Definition nplinspace (start stop : R) (num : nat) : list R :=
  match num with
  | O => []
  | S O => [start]
  | _ => map (fun i => start + INR i * ((stop - start) / INR (num - 1)))%R (seq 0 num)
  end.

(** [res['WL']] after l. 136-138, for the wavelengths [WL] of the file and a
    positive integer [binning]. *)
Definition binned_grid (WL : list R) (binning : positive) : result (list R) :=
  lo ← npmin WL;
  hi ← npmax WL;
  Ok (nplinspace lo hi (length WL / Pos.to_nat binning)).

(** ** The Merger: what is kept of ['fit'] (mergeOI, l. 1128-1145)

    [config] holds the entries of ['fit'] that are dictionaries; the test
    [type(r['fit'][k]) is dict] leaves the others out of [tmp]. *)

(** The body of [for p in ['DPHI', 'NFLUX']] (l. 1134-1141) for key [k]. *)
Definition trim_entry (fit : config) (k : string) (tmp : config) (p : string) : config :=
  match fit !! k with
  | Some d =>
      match d !! p with
      | Some v =>
          match tmp !! k with
          | Some tk => <[k := <[p := v]> tk]> tmp
          | None => <[k := {[ p := v ]}]> tmp
          end
      | None => tmp
      end
  | None => tmp
  end.

(** The body of [for k in r['fit'].keys()] (l. 1131-1141). *)
Definition trim_step (fit : config) (tmp : config) (k : string) : config :=
  fold_left (trim_entry fit k) ["DPHI"; "NFLUX"] tmp.

(** The keys copied whole (l. 1142-1144). *)
Definition kept_keys : list string := ["obs"; "wl ranges"; "continuum ranges"; "prior"].

(** [r['fit']] after l. 1130-1145; [update] lets [tmp] win. *)
Definition trim_fit (fit : config) : config :=
  let tmp := fold_left (trim_step fit) (map fst (map_to_list fit)) ∅ in
  let kept := fold_left (fun acc k => match fit !! k with
                                      | Some d => <[k := d]> acc
                                      | None => acc
                                      end) kept_keys ∅ in
  tmp ∪ kept.

(** The entries ['DPHI'] and ['NFLUX'] of a dictionary, when it has one. *)
Definition differential (d : option (gmap string Q)) : option (gmap string Q) :=
  match d with
  | Some d =>
      match d !! "DPHI", d !! "NFLUX" with
      | Some a, Some b => Some (<["NFLUX" := b]> {[ "DPHI" := a ]})
      | Some a, None => Some {[ "DPHI" := a ]}
      | None, Some b => Some {[ "NFLUX" := b ]}
      | None, None => None
      end
  | None => None
  end.

(** ** The Collapser on tables of one make *)

(** The columns of a table read as arrays, and its number of rows. *)
Definition vec_col (T : table) (d : string) : vec :=
  match T !! d with Some (Vec v) => v | _ => [] end.
Definition mat_col (T : table) (d : string) : mat :=
  match T !! d with Some (Mat m) => m | _ => [] end.
Definition flags_col (T : table) (d : string) : bmat :=
  match T !! d with Some (Flags m) => m | _ => [] end.
Definition nrows (T : table) : nat := length (vec_col T "MJD").

(** The formula list of a merged triangle, once per row. *)
Definition form_col (T : table) (d : string) : list formula :=
  match T !! d with
  | Some (Form (FList s t w0 w1 w2)) => replicate (nrows T) (FList s t w0 w1 w2)
  | _ => []
  end.
Definition is_flist (T : table) (d : string) : bool :=
  match T !! d with Some (Form (FList _ _ _ _ _)) => true | _ => false end.

(** The fields that [loadOI] and [mergeOI] give a table: arrays and,
    for a triangle, the formula list. *)
Definition loaded_field (f : field) : bool :=
  match f with
  | Vec _ | Mat _ | Flags _ | Form (FList _ _ _ _ _) => true
  | _ => false
  end.

Definition same_kind (f g : field) : bool :=
  match f, g with
  | Vec _, Vec _ | Mat _, Mat _ | Flags _, Flags _ => true
  | Form (FList _ _ _ _ _), Form (FList _ _ _ _ _) => true
  | _, _ => false
  end.

(** Tables of one make: each has epochs, no column ['NAME'], only fields as
    [loadOI] and [mergeOI] give them, and a column that two tables have is of
    the same kind in both. *)
Definition collapsible (c : odict table) : Prop :=
  Forall (fun kT : string * table =>
            is_vec kT.2 "MJD" = true /\ kT.2 !! "NAME" = None /\
            forall d f, kT.2 !! d = Some f -> loaded_field f = true) c /\
  forall kT kT' d f g, In kT c -> In kT' c ->
    kT.2 !! d = Some f -> kT'.2 !! d = Some g -> same_kind f g = true.

Definition collapsibleb (c : odict table) : bool :=
  forallb (fun kT : string * table =>
             is_vec kT.2 "MJD"
             && match kT.2 !! "NAME" with None => true | Some _ => false end
             && forallb (fun df : string * field => loaded_field df.2) (map_to_list kT.2)) c
  && forallb (fun kT : string * table =>
                forallb (fun kT' : string * table =>
                           forallb (fun df : string * field =>
                                      match kT'.2 !! df.1 with
                                      | Some g => same_kind df.2 g
                                      | None => true
                                      end) (map_to_list kT.2)) c) c.

(** Every table has the columns of every other. *)
Definition same_columns (c : odict table) : Prop :=
  forall kT kT' d, In kT c -> In kT' c -> is_Some (kT.2 !! d) -> is_Some (kT'.2 !! d).

Definition same_columnsb (c : odict table) : bool :=
  forallb (fun kT : string * table =>
             forallb (fun kT' : string * table =>
                        forallb (fun df : string * field =>
                                   match kT'.2 !! df.1 with Some _ => true | None => false end)
                                (map_to_list kT.2)) c) c.

(** What the collapse holds for a column and what one table adds to it. *)
Definition acc_kind (g f : field) : bool :=
  match g, f with
  | Vec _, Vec _ | Mat _, Mat _ | Flags _, Flags _ => true
  | Forms _, Form (FList _ _ _ _ _) => true
  | _, _ => false
  end.

Definition comb (rows : nat) (g : option field) (f : field) : field :=
  match g, f with
  | None, Form (FList s t w0 w1 w2) => Forms (replicate rows (FList s t w0 w1 w2))
  | None, f => f
  | Some (Forms fs), Form (FList s t w0 w1 w2) =>
      Forms (fs ++ replicate rows (FList s t w0 w1 w2))
  | Some (Vec a), Vec v => Vec (a ++ v)
  | Some (Mat a), Mat m => Mat (a ++ m)
  | Some (Flags a), Flags m => Flags (a ++ m)
  | Some g, _ => g
  end.

(** The collapse after the tables [c0]. *)
Definition collapse_inv (c0 : odict table) (tmp : table) : Prop :=
  tmp !! "NAME" = Some (Names (flat_map (fun kT => replicate (nrows kT.2) kT.1) c0)) /\
  (forall d g, d <> "NAME" -> tmp !! d = Some g ->
     exists kT f, In kT c0 /\ kT.2 !! d = Some f /\ acc_kind g f = true) /\
  (forall d, d <> "NAME" -> Forall (fun kT : string * table => kT.2 !! d = None) c0 ->
     tmp !! d = None) /\
  (forall d, d <> "NAME" -> c0 <> [] ->
     Forall (fun kT : string * table => is_vec kT.2 d = true) c0 ->
     tmp !! d = Some (Vec (flat_map (fun kT => vec_col kT.2 d) c0))) /\
  (forall d, d <> "NAME" -> c0 <> [] ->
     Forall (fun kT : string * table => is_mat kT.2 d = true) c0 ->
     tmp !! d = Some (Mat (flat_map (fun kT => mat_col kT.2 d) c0))) /\
  (forall d, d <> "NAME" -> c0 <> [] ->
     Forall (fun kT : string * table => is_flags kT.2 d = true) c0 ->
     tmp !! d = Some (Flags (flat_map (fun kT => flags_col kT.2 d) c0))) /\
  (forall d, d <> "NAME" -> c0 <> [] ->
     Forall (fun kT : string * table => is_flist kT.2 d = true) c0 ->
     tmp !! d = Some (Forms (flat_map (fun kT => form_col kT.2 d) c0))).

(** The tables of a category that the collapse stacks. *)
Definition stacked_tables (c : odict table) : odict table :=
  List.filter (fun kT => negb (String.eqb kT.1 "all")) c.

(** ** The head of a dataset (loadOI, l. 89-123)

    A card of the primary header holds a number or a string; [res] is the
    dictionary under construction, with the entries written before the
    wavelength table is read. *)
Inductive hval : Type :=
| HNum (q : Q)
| HStr (s : string).

Abbreviation header := (gmap string hval).

Inductive rval : Type :=
| RCard (v : hval)
| RStr (s : string)
| RHeader (h : header)
| ROPL (opl : list (hval * Q))
| RVec (v : vec).

(** [h[0].header[k]], and the same read as a number: arithmetic on a string
    is a [TypeError]. *)
Definition card (h : header) (k : string) : result hval :=
  match h !! k with Some v => Ok v | None => Raise (KeyError k) end.
Definition cardnum (h : header) (k : string) : result Q :=
  v ← card h k; match v with HNum q => Ok q | HStr _ => Raise TypeError end.

Definition hval_eqb (a b : hval) : bool :=
  match a, b with
  | HNum x, HNum y => Qeq_bool x y
  | HStr x, HStr y => String.eqb x y
  | _, _ => false
  end.

(** [OPL[T] = opl]. *)
Fixpoint opl_set (d : list (hval * Q)) (T : hval) (opl : Q) : list (hval * Q) :=
  match d with
  | [] => [(T, opl)]
  | (T', o') :: d' => if hval_eqb T T' then (T', opl) :: d' else (T', o') :: opl_set d' T opl
  end.

(** The loop of l. 110-115 on the stations 1 to 4. *)
Definition opl_of (h : header) : result (list (hval * Q)) :=
  foldM (fun OPL i =>
           T ← card h ("ESO ISS CONF STATION" +:+ i);
           a ← cardnum h ("ESO DEL DLT" +:+ i +:+ " OPL START");
           b ← cardnum h ("ESO DEL DLT" +:+ i +:+ " OPL END");
           l ← cardnum h ("ESO ISS CONF A" +:+ i +:+ "L");
           Ok (opl_set OPL T ((1 # 2) * (a + b) + l)%Q))
        [] ["1"; "2"; "3"; "4"].

Section Head.

(** [n_JHK(wl, T, P, H)] on an array of wavelengths; what follows holds
    whatever this function returns. *)
Variable n_JHK : vec -> Q -> Q -> Q -> vec.

(** The statements of the [try] after [res['OPL'] = OPL] (l. 117-121). *)
Definition n_lab_of (h : header) (res : gmap string rval) : result (gmap string rval) :=
  t1 ← cardnum h "ESO ISS TEMP TUN1";
  t2 ← cardnum h "ESO ISS TEMP TUN2";
  t3 ← cardnum h "ESO ISS TEMP TUN3";
  t4 ← cardnum h "ESO ISS TEMP TUN4";
  let T := ((t1 + t2 + t3 + t4) / 4)%Q in
  P ← cardnum h "ESO ISS AMBI PRES";
  H ← cardnum h "ESO ISS AMBI RHUM";
  wl ← match res !! "WL" with
       | Some (RVec wl) => Ok wl
       | Some _ => Raise TypeError
       | None => Raise (KeyError "WL")
       end;
  Ok (<["n_lab" := RVec (n_JHK wl ((27315 # 100) + T)%Q P H)]> res).

(** [try: ... except: pass] (l. 107-123): what has been written before the
    exception stays. *)
Definition vlti_block (h : header) (res : gmap string rval) : gmap string rval :=
  match opl_of h with
  | Raise _ => res
  | Ok OPL =>
      let res := <["OPL" := ROPL OPL]> res in
      match n_lab_of h res with
      | Ok res' => res'
      | Raise _ => res
      end
  end.

(** [res] after l. 89-123. *)
Definition load_head (filename insname targname : string) (h : header) (withHeader : bool)
  : gmap string rval :=
  let res := <["targname" := RStr targname]>
             (<["filename" := RStr filename]> (<["insname" := RStr insname]> ∅)) in
  let res := match h !! "ESO PRO REC1 PIPE ID" with
             | Some v => <["pipeline" := RCard v]> res
             | None => <["pipeline" := RStr ""]> res
             end in
  let res := if withHeader then <["header" := RHeader h]> res else res in
  vlti_block h res.

End Head.

(** ** The Merger: the configurations of each epoch (mergeOI, l. 922-930)

    The lists of names are objects that two dictionaries can share: a
    dictionary ['configurations per MJD'] maps an epoch to the address of its
    list, and the store maps an address to the list it holds. *)
Abbreviation store := (gmap nat (list string)).

Definition names_at (h : store) (l : nat) : list string := default [] (h !! l).

(** [for k in oi[...][mjd]: if not k in res[...][mjd]: res[...][mjd].append(k)]
    (l. 928-930), [lr] and [lo] being the addresses of the two lists. *)
Definition conf_extend (lr lo : nat) (h : store) : store :=
  fold_left (fun h k => if inb k (names_at h lr) then h
                        else <[lr := names_at h lr ++ [k]]> h)
            (names_at h lo) h.

(** The body of [for mjd in oi['configurations per MJD']] (l. 923-930): an
    epoch that [res] lacks gets the very list of [oi]. *)
Definition conf_merge_entry (st : store * list (Q * nat)) (e : Q * nat)
  : store * list (Q * nat) :=
  match qget st.2 e.1 with
  | None => (st.1, qset st.2 e.1 e.2)
  | Some lr => (conf_extend lr e.2 st.1, st.2)
  end.

(** The loop of l. 923-930 on the store and ['configurations per MJD'] of
    [res[i0]], for the dictionary of [oi]. *)
Definition conf_merge (st : store * list (Q * nat)) (oi : list (Q * nat))
  : store * list (Q * nat) :=
  fold_left conf_merge_entry oi st.

(** The loop stands inside [for l in ...] (l. 910): it runs once for each of
    the [n] categories of data that [oi] has. *)
Definition conf_merge_n (n : nat) (st : store * list (Q * nat)) (oi : list (Q * nat))
  : store * list (Q * nat) :=
  Nat.iter n (fun st => conf_merge st oi) st.

(** Every list of the store [h] is a prefix of the list that [h'] holds at
    its address. *)
Definition store_grows (h h' : store) : Prop :=
  forall l, exists more, names_at h' l = names_at h l ++ more.

(** * Properties *)

(** Proof steps shared below: splitting a boolean conjunction that holds, and
    the case analysis of a field whose presence a hypothesis guarantees. *)
Ltac split_andb :=
  repeat match goal with
         | H : _ && _ = true |- _ => apply andb_prop in H as [? ?]
         end.

Ltac field_case B k :=
  let E := fresh "E" in
  destruct (B !! k) as [[]|] eqn:E; try discriminate.

(** ** Ordered dictionaries *)

Lemma oget_oset_eq {V} (d : odict V) (k : string) (v : V) :
  oget (oset d k v) k = Some v.
Proof.
  induction d as [|[k' v'] d IH]; simpl.
  - now rewrite String.eqb_refl.
  - destruct (String.eqb k k') eqn:E; simpl.
    + now rewrite String.eqb_refl.
    + now rewrite E.
Qed.

Lemma oget_oset_ne {V} (d : odict V) (k k' : string) (v : V) :
  k <> k' -> oget (oset d k v) k' = oget d k'.
Proof.
  intros Hne. induction d as [|[k0 v0] d IH]; simpl.
  - destruct (String.eqb k' k) eqn:E; [|reflexivity].
    apply String.eqb_eq in E. congruence.
  - destruct (String.eqb k k0) eqn:E; simpl.
    + apply String.eqb_eq in E. subst k0.
      destruct (String.eqb k' k) eqn:E'; [|reflexivity].
      apply String.eqb_eq in E'. congruence.
    + now rewrite IH.
Qed.

Lemma oget_None_keys {V} (d : odict V) (k : string) :
  oget d k = None <-> ~ In k (okeys d).
Proof.
  induction d as [|[k' v'] d IH]; simpl.
  - tauto.
  - destruct (String.eqb k k') eqn:E.
    + apply String.eqb_eq in E. subst. split; [discriminate | tauto].
    + apply String.eqb_neq in E. rewrite IH. split; [intros H [?|?]; [congruence|tauto] | tauto].
Qed.

Lemma okeys_oset {V} (d : odict V) (k : string) (v : V) (x : string) :
  In x (okeys (oset d k v)) <-> x = k \/ In x (okeys d).
Proof.
  induction d as [|[k' v'] d IH]; simpl.
  - split; [intros [<-|[]]; now left | intros [->|[]]; now left].
  - destruct (String.eqb k k') eqn:E; simpl.
    + apply String.eqb_eq in E. subst. split; [intros [<-|?]; auto | intros [->|[<-|?]]; auto].
    + rewrite IH. tauto.
Qed.

Lemma okeys_oset_NoDup {V} (d : odict V) (k : string) (v : V) :
  List.NoDup (okeys d) -> List.NoDup (okeys (oset d k v)).
Proof.
  induction d as [|[k' v'] d IH]; simpl; intros H.
  - constructor; [intros []|constructor].
  - inversion H as [|? ? Hn Hd]; subst.
    destruct (String.eqb k k') eqn:E; simpl.
    + apply String.eqb_eq in E. subst. constructor; assumption.
    + apply String.eqb_neq in E. constructor; [|now apply IH].
      rewrite okeys_oset. intros [?|?]; [congruence | contradiction].
Qed.

(** ** Minimum and first position of the minimum *)

Lemma Qltb_lt (x y : Q) : Qltb x y = true <-> (x < y)%Q.
Proof.
  unfold Qltb. rewrite negb_true_iff. split.
  - intros H. apply Qnot_le_lt. intros Hle. apply Qle_bool_iff in Hle. congruence.
  - intros H. destruct (Qle_bool y x) eqn:E; [|reflexivity].
    apply Qle_bool_iff in E. exfalso. eapply Qlt_not_le; eauto.
Qed.

Lemma Qltb_ge (x y : Q) : Qltb x y = false <-> (y <= x)%Q.
Proof.
  unfold Qltb. rewrite negb_false_iff. apply Qle_bool_iff.
Qed.

Lemma fold_min_spec (l : vec) (x : Q) :
  let m := fold_left (fun m y => if Qltb y m then y else m) l x in
  In m (x :: l) /\ Forall (fun y => m <= y)%Q (x :: l).
Proof.
  revert x. induction l as [|a l IH]; intros x; simpl.
  - split; [now left|]. constructor; [apply Qle_refl | constructor].
  - destruct (Qltb a x) eqn:E.
    + destruct (IH a) as [Hin Hall]. simpl in *. split.
      * destruct Hin as [Hin|Hin]; [right; left; exact Hin | right; right; exact Hin].
      * apply Qltb_lt in E. inversion Hall as [|? ? Ha Hl]; subst.
        constructor; [|constructor; assumption].
        eapply Qle_trans; [exact Ha|]. now apply Qlt_le_weak.
    + destruct (IH x) as [Hin Hall]. simpl in *. split.
      * destruct Hin as [Hin|Hin]; [left; exact Hin | right; right; exact Hin].
      * apply Qltb_ge in E. inversion Hall as [|? ? Ha Hl]; subst.
        constructor; [assumption|]. constructor; [|assumption].
        eapply Qle_trans; eassumption.
Qed.

Lemma pymin_spec (l : vec) (m : Q) :
  pymin l = Ok m -> In m l /\ Forall (fun y => m <= y)%Q l.
Proof.
  destruct l as [|x l]; simpl; [discriminate|].
  intros [= <-]. apply fold_min_spec.
Qed.

Lemma pymin_Ok (l : vec) : l <> [] -> exists m, pymin l = Ok m.
Proof. destruct l; [congruence|]. intros _. eexists. reflexivity. Qed.

Lemma argmin_spec (l : vec) :
  l <> [] ->
  (argmin l < length l)%nat /\ Forall (fun y => nth (argmin l) l 0 <= y)%Q l.
Proof.
  induction l as [|x l IH]; [congruence|]. intros _.
  destruct l as [|y l'].
  - simpl. split; [lia|]. constructor; [apply Qle_refl|constructor].
  - destruct IH as [Hlt Hall]; [discriminate|].
    set (l := y :: l') in *.
    change (argmin (x :: l)) with
      (if Qle_bool x (nth (argmin l) l 0%Q) then 0%nat else S (argmin l)).
    destruct (Qle_bool x (nth (argmin l) l 0%Q)) eqn:E.
    + apply Qle_bool_iff in E. split; [cbn [length]; lia|].
      change (nth 0 (x :: l) 0%Q) with x.
      constructor; [apply Qle_refl|].
      eapply Forall_impl; [|exact Hall]. intros z Hz. cbv beta in Hz.
      eapply Qle_trans; eassumption.
    + split; [cbn [length]; lia|].
      change (nth (S (argmin l)) (x :: l) 0%Q) with (nth (argmin l) l 0%Q).
      constructor; [|exact Hall].
      apply Qlt_le_weak. apply Qnot_le_lt. intros Hle.
      apply Qle_bool_iff in Hle. congruence.
Qed.

(** ** The scan of a triangle (C5) *)

Lemma inb_In (x : string) (l : list string) : inb x l = true <-> In x l.
Proof.
  unfold inb. rewrite existsb_exists. split.
  - intros (y & Hy & He). apply String.eqb_eq in He. now subst.
  - intros H. exists x. split; [assumption | apply String.eqb_refl].
Qed.

(** The second and the third leg follow the rule of the specification. *)
Lemma leg2_follows_rule (n : nat) (sta2 M : list string) (k : string) :
  leg2 n sta2 M k = leg_rule sta2 M (fwd2 n k) (rev2 n k).
Proof. reflexivity. Qed.

Lemma leg3_follows_rule (n : nat) (sta2 M : list string) (k : string) :
  leg3 n sta2 M k = leg_rule sta2 M (fwd3 n k) (rev3 n k).
Proof. reflexivity. Qed.

(** The first leg follows it exactly when the reverse name is not one that
    only the ledger knows. *)
Lemma leg1_follows_rule_iff (n : nat) (sta2 M : list string) (k : string) :
  leg1 n sta2 M k = leg_rule sta2 M (fwd1 n k) (rev1 n k) <->
  ~ (inb (fwd1 n k) sta2 = false /\ inb (fwd1 n k) M = false /\
     inb (rev1 n k) sta2 = false /\ inb (rev1 n k) M = true).
Proof.
  unfold leg1, leg_rule.
  destruct (inb (fwd1 n k) sta2), (inb (fwd1 n k) M), (inb (rev1 n k) sta2),
    (inb (rev1 n k) M); simpl; split; intros H; try reflexivity;
    try (intros (? & ? & ? & ?); discriminate).
  exfalso. apply H. repeat split.
Qed.

(** C5 (code defect).  With known baselines [["CD"]] and the ledger left by
    triangle ["ABC"], the first leg of triangle ["BAD"] records ["BA"] with
    sign [+1], where the rule picks the ledger's ["AB"] with sign [-1]: after
    the two triangles the ledger holds the baseline A-B under both names. *)
Theorem C5_first_leg_misses_reversed_ledger_name :
  leg1 1 ["CD"] ["AB"; "BC"; "CA"] "BAD" = ("BA", 1%Z, ["AB"; "BC"; "CA"; "BA"])
  /\ leg_rule ["CD"] ["AB"; "BC"; "CA"] (fwd1 1 "BAD") (rev1 1 "BAD")
     = ("AB", (-1)%Z, ["AB"; "BC"; "CA"])
  /\ (scan_triangles 1 ["CD"] [] ["ABC"; "BAD"]).2
     = ["AB"; "BC"; "CA"; "BA"; "AD"; "DB"].
Proof. repeat split. Qed.

(** ** Fabrication of the missing baselines (C4) *)

Lemma index_of_lt (x : string) (l : list string) (i : nat) :
  index_of x l = Ok i -> (i < length l)%nat.
Proof.
  revert i. induction l as [|y l IH]; simpl; intros i H; [discriminate|].
  destruct (String.eqb x y).
  - injection H as <-. lia.
  - destruct (index_of x l) as [j|]; simpl in H; [|discriminate].
    injection H as <-. specialize (IH j eq_refl). lia.
Qed.

Lemma inb_index_of (x : string) (l : list string) :
  inb x l = true -> exists i, index_of x l = Ok i.
Proof.
  induction l as [|y l IH]; simpl; [discriminate|].
  destruct (String.eqb x y); simpl; [eauto|].
  intros H. destruct (IH H) as [i Hi]. rewrite Hi. simpl. eauto.
Qed.

Lemma In_remove_first (x y : string) (l : list string) :
  In x (remove_first y l) -> In x l.
Proof.
  induction l as [|z l IH]; simpl; [tauto|].
  destruct (String.eqb y z); simpl; tauto.
Qed.

Lemma NoDup_remove_first (y : string) (l : list string) :
  List.NoDup l -> List.NoDup (remove_first y l) /\ ~ In y (remove_first y l).
Proof.
  induction l as [|z l IH]; simpl; intros H.
  - split; [constructor | tauto].
  - inversion H as [|? ? Hn Hd]; subst.
    destruct (String.eqb y z) eqn:E.
    + apply String.eqb_eq in E. subst. tauto.
    + apply String.eqb_neq in E. destruct (IH Hd) as [H1 H2]. split.
      * constructor; [|assumption]. intros Hin. apply Hn. eapply In_remove_first; eauto.
      * simpl. intros [?|?]; [congruence | tauto].
Qed.

Section FabricateFacts.
Variables (npsqrt : Q -> Q) (isVIS : bool) (WL : vec).

Lemma fake_table_ok (T : table) (idx : nat) :
  forallb (is_vec T) ["MJD"; "u1"; "v1"; "u2"; "v2"] = true -> (idx < 3)%nat ->
  exists tmp, fake_table npsqrt isVIS WL T idx = Ok tmp /\ fabricated isVIS WL T tmp idx.
Proof.
  intros HT Hidx. unfold is_vec in HT. simpl in HT. split_andb.
  field_case T "MJD". field_case T "u1". field_case T "v1". field_case T "u2".
  field_case T "v2".
  unfold fake_table, fake_uv, tvec, tget, fabricated.
  destruct idx as [|[|[|idx]]]; [| | |lia]; rewrite ?E, ?E0, ?E1, ?E2, ?E3; simpl;
    rewrite ?E; simpl; (eexists; split; [reflexivity|]);
    exists v, v0, v1, v2, v3;
    destruct isVIS; simpl; repeat split; try (by simplify_map_eq);
    try discriminate; repeat constructor; simpl; by simplify_map_eq.
Qed.


Lemma missing_tables_fold (T : table) (t M : list string) (A0 : odict table) :
  forallb (is_vec T) ["MJD"; "u1"; "v1"; "u2"; "v2"] = true -> length t = 3%nat ->
  A_inv npsqrt isVIS WL T t A0 ->
  exists A,
    foldM (fun A m =>
             if inb m t then
               idx ← index_of m t; tmp ← fake_table npsqrt isVIS WL T idx; Ok (oset A m tmp)
             else Ok A) A0 M = Ok A /\
    A_inv npsqrt isVIS WL T t A /\
    (forall m, (In m M /\ inb m t = true) \/ omem A0 m = true -> omem A m = true).
Proof.
  intros HT Hlen. revert A0. induction M as [|m0 M IH]; intros A0 Hinv; simpl.
  - exists A0. split; [reflexivity|]. split; [assumption|]. intros m [[[] _]|H]. exact H.
  - destruct (inb m0 t) eqn:Hin.
    + destruct (inb_index_of _ _ Hin) as [idx Hidx]. rewrite Hidx. simpl.
      pose proof (index_of_lt _ _ _ Hidx) as Hlt. rewrite Hlen in Hlt.
      destruct (fake_table_ok T idx HT Hlt) as (tmp & Htmp & _). rewrite Htmp. simpl.
      destruct (IH (oset A0 m0 tmp)) as (A & HA & HinvA & Hcov).
      { destruct Hinv as [Hnd Hall]. split; [now apply okeys_oset_NoDup|].
        intros m tmp' Hget. destruct (String.eqb_spec m0 m) as [->|Hne].
        - rewrite oget_oset_eq in Hget. injection Hget as <-. eauto.
        - rewrite oget_oset_ne in Hget by assumption. eauto. }
      exists A. split; [exact HA|]. split; [exact HinvA|].
      intros m [[[->|Hm] Hb]|Hm]; apply Hcov.
      * right. unfold omem. now rewrite oget_oset_eq.
      * left. tauto.
      * right. unfold omem in *. destruct (String.eqb_spec m0 m) as [->|Hne].
        -- now rewrite oget_oset_eq.
        -- now rewrite oget_oset_ne.
    + destruct (IH A0 Hinv) as (A & HA & HinvA & Hcov).
      exists A. split; [exact HA|]. split; [exact HinvA|].
      intros m [[[->|Hm] Hb]|Hm]; [congruence | |]; apply Hcov; tauto.
Qed.

Lemma add_missing_other (A : odict table) (vis : odict table) (M : list string) (m : string) :
  ~ In m (okeys A) -> oget (add_missing A vis M).1 m = oget vis m.
Proof.
  unfold add_missing. revert vis M. induction A as [|[k v] A IH]; intros vis M Hn; simpl.
  - reflexivity.
  - simpl in Hn. rewrite IH by tauto. apply oget_oset_ne. tauto.
Qed.

Lemma add_missing_get (A : odict table) (vis : odict table) (M : list string)
    (m : string) (tmp : table) :
  List.NoDup (okeys A) -> oget A m = Some tmp ->
  oget (add_missing A vis M).1 m = Some tmp.
Proof.
  unfold add_missing. revert vis M. induction A as [|[k v] A IH]; intros vis M Hnd Hget; simpl in *.
  - discriminate.
  - inversion Hnd as [|? ? Hn Hd]; subst.
    destruct (String.eqb_spec m k) as [->|Hne].
    + injection Hget as ->.
      change (oget (add_missing A (oset vis k tmp) (remove_first k M)).1 k = Some tmp).
      rewrite add_missing_other by assumption. apply oget_oset_eq.
    + apply IH; assumption.
Qed.

Lemma add_missing_sub (A : odict table) (vis : odict table) (M : list string) (x : string) :
  In x (add_missing A vis M).2 -> In x M.
Proof.
  unfold add_missing. revert vis M. induction A as [|[k v] A IH]; intros vis M; simpl; [tauto|].
  intros H. apply IH in H. eapply In_remove_first; eauto.
Qed.

Lemma add_missing_NoDup (A : odict table) (vis : odict table) (M : list string) :
  List.NoDup M -> List.NoDup (add_missing A vis M).2.
Proof.
  unfold add_missing. revert vis M. induction A as [|[k v] A IH]; intros vis M H; simpl;
    [assumption|].
  apply IH. now apply NoDup_remove_first.
Qed.

Lemma add_missing_ledger (A : odict table) (vis : odict table) (M : list string) (m : string) :
  List.NoDup M -> In m (okeys A) -> ~ In m (add_missing A vis M).2.
Proof.
  revert vis M. induction A as [|[k v] A IH]; intros vis M Hnd Hin; simpl in *; [tauto|].
  destruct (NoDup_remove_first k M Hnd) as [Hnd' Hk].
  change (~ In m (add_missing A (oset vis k v) (remove_first k M)).2).
  destruct Hin as [->|Hin].
  - intros H. apply add_missing_sub in H. contradiction.
  - apply IH; assumption.
Qed.

(** C4 (amended).  A ledger name [m] standing at position [idx] of the
    formula of triangle table [T] gets, from that triangle, a table whose
    value columns are 0, error columns 1 and flags all set, whose epoch
    vector is the epoch vector of [T], and whose coordinates are those of the
    leg: [u = u1, v = v1] for the first, [u = u2, v = v2] for the second,
    [u = -u1-u2] for the third.  The table is stored under [m] and [m] leaves
    the ledger, so no later triangle fabricates it again. *)
Theorem C4_fabricated_baseline (T : table) (t M : list string) (vis : odict table)
    (m : string) (idx : nat) :
  forallb (is_vec T) ["MJD"; "u1"; "v1"; "u2"; "v2"] = true -> length t = 3%nat ->
  List.NoDup M -> In m M -> index_of m t = Ok idx ->
  exists A tmp,
    missing_tables npsqrt isVIS WL T t M = Ok A /\
    oget (add_missing A vis M).1 m = Some tmp /\
    ~ In m (add_missing A vis M).2 /\
    fabricated isVIS WL T tmp idx.
Proof.
  intros HT Hlen Hnd Hin Hidx.
  destruct (missing_tables_fold T t M [] HT Hlen) as (A & HA & [HndA Hall] & Hcov).
  { split; [constructor|]. intros ? ? H. discriminate. }
  assert (Hmem : omem A m = true).
  { apply Hcov. left. split; [assumption|].
    apply inb_In. clear -Hidx. revert idx Hidx.
    induction t as [|y t IH]; simpl; intros idx H; [discriminate|].
    destruct (String.eqb_spec m y) as [->|Hne]; [now left|].
    destruct (index_of m t) as [j|]; [|discriminate]. right. eapply IH. reflexivity. }
  unfold omem in Hmem. destruct (oget A m) as [tmp|] eqn:Hget; [|discriminate].
  destruct (Hall m tmp Hget) as (idx' & Hidx' & Htmp).
  rewrite Hidx in Hidx'. injection Hidx' as <-.
  pose proof (index_of_lt _ _ _ Hidx) as Hlt. rewrite Hlen in Hlt.
  destruct (fake_table_ok T idx HT Hlt) as (tmp' & Htmp' & Hfab).
  rewrite Htmp in Htmp'. injection Htmp' as <-.
  exists A, tmp. split; [exact HA|]. split; [now apply add_missing_get|].
  split; [|exact Hfab].
  apply add_missing_ledger; [assumption|].
  destruct (in_dec String.string_dec m (okeys A)) as [H|H]; [exact H|].
  apply oget_None_keys in H. congruence.
Qed.
End FabricateFacts.

(** C4, the claim as stated fails on its epoch clause: the table fabricated
    for B-C holds the epoch 5 of triangle ABC only, and the epoch 5.00005 of
    triangle BCD, which names B-C too, is matched to that row (it lies within
    the tolerance) instead of being added. *)
Lemma C4_counterexample_epochs_not_union :
  exists st', reconcile sqrt_floor angle0 false ex_WL c4_state = Ok st' /\
    ~ ledger_epochs_are_union c4_state st'.
Proof.
  assert (Q1 : (st ← reconcile sqrt_floor angle0 false ex_WL c4_state;
                B ← oitem (r_vis st) "BC"; tvec B "MJD") = Ok [5%Q])
    by (vm_compute; reflexivity).
  assert (Q2 : (st ← reconcile sqrt_floor angle0 false ex_WL c4_state;
                T ← oitem (r_t3 st) "BCD"; f ← tget T "formula"; m ← tvec T "MJD";
                Ok (f, m))
               = Ok (Form (FList [1%Z; 1%Z; 1%Z] ["BC"; "CD"; "DB"] [0%nat] [0%nat] [0%nat]),
                     [100001 # 20000]%Q))
    by (vm_compute; reflexivity).
  destruct (reconcile sqrt_floor angle0 false ex_WL c4_state) as [st'|]; [|discriminate].
  exists st'. split; [reflexivity|]. simpl in Q1, Q2. unfold oitem in Q1, Q2.
  destruct (oget (r_vis st') "BC") as [B|] eqn:HB; [|discriminate].
  destruct (oget (r_t3 st') "BCD") as [T|] eqn:HT; [|discriminate].
  simpl in Q1, Q2. unfold tvec, tget in Q1, Q2.
  destruct (B !! "MJD") as [[bm| | | | | | |]|] eqn:HM; try discriminate.
  destruct (T !! "formula") as [f|] eqn:Hf; [|discriminate].
  destruct (T !! "MJD") as [[tm| | | | | | |]|] eqn:HTm; try discriminate.
  simpl in Q1, Q2. injection Q1 as ->. injection Q2 as -> ->.
  intros H.
  destruct (H "BC" B _ (or_introl eq_refl) HB HM (100001 # 20000)%Q) as [_ Hback].
  assert (Hc : qinb (100001 # 20000) [5%Q] = true).
  { apply Hback. exists "BCD", T. do 6 eexists.
    split; [exact HT|]. split; [exact Hf|]. split; [left; reflexivity|].
    split; [exact HTm|]. reflexivity. }
  discriminate Hc.
Qed.

Lemma C4_fabricated_baseline_witness :
  exists A tmp,
    missing_tables sqrt_floor false ex_WL
      (t3_table 5 (["AB"; "BC"; "CA"], [1%Z; 1%Z; 1%Z])) ["AB"; "BC"; "CA"] ["BC"] = Ok A /\
    oget (add_missing A ex_vis ["BC"]).1 "BC" = Some tmp /\
    ~ In "BC" (add_missing A ex_vis ["BC"]).2 /\
    fabricated false ex_WL (t3_table 5 (["AB"; "BC"; "CA"], [1%Z; 1%Z; 1%Z])) tmp 1.
Proof.
  apply (C4_fabricated_baseline sqrt_floor false ex_WL
           (t3_table 5 (["AB"; "BC"; "CA"], [1%Z; 1%Z; 1%Z])) ["AB"; "BC"; "CA"] ["BC"]
           ex_vis "BC" 1);
    [reflexivity | reflexivity | repeat constructor; simpl; tauto | left; reflexivity
    | reflexivity].
Defined.

(** ** Epoch alignment (C8) *)

Section AlignFacts.
Variables (npsqrt : Q -> Q) (npangle : Q -> Q -> Q) (isVIS : bool) (WL : vec).

Lemma item_lt {A} (l : list A) (i : nat) :
  (i < length l)%nat -> exists a, item l i = Ok a.
Proof.
  intros H. apply lookup_lt_is_Some in H as [a Ha].
  exists a. unfold item. now rewrite Ha.
Qed.

Lemma fake_row_ok (j : nat) (s : list Z) (T : table) (i : nat) :
  is_Some (s !! j) -> triangle_row_ok T i = true ->
  exists r, fake_row npsqrt WL j s T i = Ok r.
Proof.
  intros [sj Hs] HT.
  unfold triangle_row_ok, has_row in HT. simpl in HT. split_andb.
  field_case T "u1". field_case T "v1". field_case T "u2". field_case T "v2".
  repeat match goal with H : bool_decide _ = true |- _ =>
    apply bool_decide_eq_true in H; apply item_lt in H as [? ?] end.
  assert (Hs' : item s j = Ok sj) by (unfold item; now rewrite Hs).
  unfold fake_row. rewrite Hs'. unfold tvec, tget.
  destruct j as [|[|j]]; simpl; rewrite ?E, ?E0, ?E1, ?E2; simpl;
    repeat match goal with H : item _ _ = Ok _ |- _ => rewrite H; clear H; simpl end;
    eexists; reflexivity.
Qed.

Lemma append_fake_ok (j : nat) (s : list Z) (T : table) (i : nat) (e : Q) (B : table) (M : vec) :
  is_Some (s !! j) -> B !! "MJD" = Some (Vec M) ->
  baseline_ok isVIS B = true -> triangle_row_ok T i = true ->
  exists B', append_fake npsqrt npangle isVIS WL j s T i e B = Ok B' /\
    B' !! "MJD" = Some (Vec (M ++ [e])) /\ placeholder_row isVIS WL B B'.
Proof.
  intros Hs HM HB HT.
  destruct (fake_row_ok j s T i Hs HT) as [[[[[un vn] uwl] vwl] bwl] Hr].
  unfold baseline_ok, is_vec, is_mat, is_flags in HB.
  destruct isVIS; simpl in HB; split_andb.
  all: field_case B "MJD"; field_case B "u"; field_case B "v".
  all: field_case B "u/wl"; field_case B "v/wl"; field_case B "B/wl"; field_case B "FLAG".
  all: injection HM as ->.
  all: unfold append_fake, append_row, tvec, tmat, tflags, tget; rewrite E; simpl.
  all: rewrite Hr; simpl.
  - field_case B "|V|". field_case B "E|V|". field_case B "PHI". field_case B "EPHI".
    simplify_map_eq. simpl. eexists. split; [reflexivity|].
    split; [by simplify_map_eq|]. split.
    + eexists. split; [eassumption|]. by simplify_map_eq.
    + repeat constructor; simpl; eexists _, _;
        (split; [eassumption|]); (split; [by simplify_map_eq|]);
        (split; [apply length_map|]);
        apply Forall_forall; intros x Hx; apply in_map_iff in Hx as (w & <- & _); ring.
  - field_case B "V2". field_case B "EV2".
    simplify_map_eq. simpl. eexists. split; [reflexivity|].
    split; [by simplify_map_eq|]. split.
    + eexists. split; [eassumption|]. by simplify_map_eq.
    + repeat constructor; simpl; eexists _, _;
        (split; [eassumption|]); (split; [by simplify_map_eq|]);
        (split; [apply length_map|]);
        apply Forall_forall; intros x Hx; apply in_map_iff in Hx as (w & <- & _); ring.
Qed.

Lemma absdiff_nth (M : vec) (e : Q) (i : nat) :
  (i < length M)%nat -> nth i (absdiff M e) 0%Q = Qabs (nth i M 0%Q - e).
Proof.
  intros H. unfold absdiff.
  rewrite (nth_indep _ 0%Q (Qabs (0 - e))) by (rewrite length_map; exact H).
  apply (map_nth (fun x => Qabs (x - e))).
Qed.

(** C8.  Leg [j] of row [i] (epoch [e]) of a triangle is aligned against the
    epochs [M] of its baseline table.  When an epoch of [M] lies within the
    tolerance (strictly below [1e-4]), the index recorded is one that
    minimises [|M_i - e|] and no table changes.  Otherwise the index recorded
    is the old row count, and the table gains one placeholder row for epoch
    [e]: value columns zero, error columns one, flags all set. *)
Theorem C8_epoch_alignment (j : nat) (s : list Z) (t : list string) (T : table)
    (i : nat) (e : Q) (vis : odict table) (tj : string) (B : table) (M : vec) :
  (j < 3)%nat -> is_Some (s !! j) -> t !! j = Some tj -> oget vis tj = Some B ->
  B !! "MJD" = Some (Vec M) -> M <> [] ->
  baseline_ok isVIS B = true -> triangle_row_ok T i = true ->
  (Exists (fun x => Qabs (x - e) < tol)%Q M ->
   exists i0, align_leg npsqrt npangle isVIS WL j s t T i e vis = Ok (i0, vis) /\
     (i0 < length M)%nat /\
     Forall (fun x => Qabs (nth i0 M 0 - e) <= Qabs (x - e))%Q M)
  /\ (Forall (fun x => tol <= Qabs (x - e))%Q M ->
      exists B', align_leg npsqrt npangle isVIS WL j s t T i e vis
                 = Ok (length M, oset vis tj B') /\
        B' !! "MJD" = Some (Vec (M ++ [e])) /\ placeholder_row isVIS WL B B').
Proof.
  intros _ Hs Ht Hv HM Hne HB HT.
  assert (Hd : absdiff M e <> []) by (destruct M; [congruence | discriminate]).
  destruct (pymin_Ok _ Hd) as [d Hmin].
  destruct (pymin_spec _ _ Hmin) as [Hin Hle].
  assert (Heq : align_leg npsqrt npangle isVIS WL j s t T i e vis =
                if Qltb d tol then Ok (argmin (absdiff M e), vis)
                else B' ← append_fake npsqrt npangle isVIS WL j s T i e B;
                     Ok (length M, oset vis tj B')).
  { unfold align_leg, item, oitem, tvec, tget. rewrite Ht. simpl. rewrite Hv. simpl.
    rewrite HM. simpl. rewrite Hmin. reflexivity. }
  rewrite Heq. clear Heq. split.
  - intros Hex. apply Exists_exists in Hex as (x & Hx & Hlt).
    assert (Hdt : Qltb d tol = true).
    { apply Qltb_lt. eapply Qle_lt_trans; [|exact Hlt].
      rewrite Forall_forall in Hle. apply Hle. unfold absdiff.
      apply in_map_iff. exists x. split; [reflexivity | exact Hx]. }
    rewrite Hdt. eexists. split; [reflexivity|].
    destruct (argmin_spec _ Hd) as [Hlt' Hall].
    assert (Hlen : length (absdiff M e) = length M) by apply length_map.
    split; [lia|].
    rewrite <- absdiff_nth by lia.
    apply Forall_forall. intros y Hy. rewrite Forall_forall in Hall. apply Hall.
    unfold absdiff. apply in_map_iff. exists y. split; [reflexivity | exact Hy].
  - intros Hall.
    assert (Hdt : Qltb d tol = false).
    { apply Qltb_ge. unfold absdiff in Hin. apply in_map_iff in Hin as (x & <- & Hx).
      rewrite Forall_forall in Hall. apply Hall. exact Hx. }
    rewrite Hdt.
    destruct (append_fake_ok j s T i e B M Hs HM HB HT) as (B' & HB' & Hm & Hp).
    rewrite HB'. exists B'. split; [reflexivity|]. split; assumption.
Qed.
End AlignFacts.

Lemma C8_epoch_alignment_witness :
  (exists i0,
     align_leg sqrt_floor angle0 false ex_WL 0 [1%Z; 1%Z; 1%Z] ["AB"; "BC"; "CA"]
       (t3_table 5 (["AB"; "BC"; "CA"], [1%Z; 1%Z; 1%Z])) 0 5 ex_vis = Ok (i0, ex_vis) /\
     (i0 < 1)%nat /\ Forall (fun x => Qabs (nth i0 [5%Q] 0 - 5) <= Qabs (x - 5))%Q [5%Q])
  /\ (exists B',
        align_leg sqrt_floor angle0 false ex_WL 0 [1%Z; 1%Z; 1%Z] ["AB"; "BC"; "CA"]
          (t3_table 6 (["AB"; "BC"; "CA"], [1%Z; 1%Z; 1%Z])) 0 6 ex_vis
        = Ok (1%nat, oset ex_vis "AB" B') /\
        B' !! "MJD" = Some (Vec [5%Q; 6%Q]) /\
        placeholder_row false ex_WL (vis2_table 5 3 4) B').
Proof.
  split.
  - apply (C8_epoch_alignment sqrt_floor angle0 false ex_WL 0 [1%Z; 1%Z; 1%Z]
             ["AB"; "BC"; "CA"] (t3_table 5 (["AB"; "BC"; "CA"], [1%Z; 1%Z; 1%Z]))
             0 5 ex_vis "AB" (vis2_table 5 3 4) [5%Q]);
      [lia | eexists; reflexivity | reflexivity | reflexivity | reflexivity
      | discriminate | reflexivity | reflexivity | ].
    constructor. reflexivity.
  - apply (C8_epoch_alignment sqrt_floor angle0 false ex_WL 0 [1%Z; 1%Z; 1%Z]
             ["AB"; "BC"; "CA"] (t3_table 6 (["AB"; "BC"; "CA"], [1%Z; 1%Z; 1%Z]))
             0 6 ex_vis "AB" (vis2_table 5 3 4) [5%Q]);
      [lia | eexists; reflexivity | reflexivity | reflexivity | reflexivity
      | discriminate | reflexivity | reflexivity | ].
    constructor; [|constructor]. discriminate.
Defined.

(** ** Shape of the tables (C1) and the second collapse (C9) *)

Lemma table_shape_rows (r c : nat) (T : table) (k : string) (f : field) (n : nat) :
  table_shape r c T -> T !! k = Some f -> field_rows f = Some n -> n = r.
Proof. intros H Hk Hn. destruct (H k f Hk) as [Hr _]. now apply Hr. Qed.

Lemma table_shapeb_spec (r c : nat) (T : table) :
  table_shapeb r c T = true <-> table_shape r c T.
Proof.
  unfold table_shapeb, table_shape. rewrite forallb_forall. split.
  - intros H k f Hk.
    specialize (H (k, f)). simpl in H.
    assert (Hin : In (k, f) (map_to_list T)).
    { apply list_elem_of_In. now apply elem_of_map_to_list. }
    apply H in Hin. apply andb_prop in Hin as [H1 H2]. split; [|exact H2].
    intros n Hn. rewrite Hn in H1. apply Nat.eqb_eq in H1. exact H1.
  - intros H [k f] Hin. simpl.
    apply list_elem_of_In in Hin. apply elem_of_map_to_list in Hin.
    destruct (H k f Hin) as [H1 H2]. rewrite H2, andb_true_r.
    destruct (field_rows f) as [n|]; [|reflexivity].
    apply Nat.eqb_eq. now apply H1.
Qed.

(** C1 (code defect).  The table fabricated for a missing baseline has no
    ['PA'] field (l. 566-583), although every table read from the file and
    every placeholder row (l. 612) has one.  The tables of the ingested
    dataset satisfy the shape invariant with one row each; after the collapse
    the pseudo-table ['all'] of the squared visibilities has three epochs and
    a ['PA'] matrix of two rows, so no row count fits it. *)
Theorem C1_collapse_of_fabricated_baseline_breaks_shape (npsqrt : Q -> Q) (npangle : Q -> Q -> Q) :
  exists st ds all,
    reconcile npsqrt npangle false ex_WL c1_state = Ok st /\
    forallb (fun kT => table_shapeb 1 (length ex_WL) kT.2) (r_vis st ++ r_t3 st) = true /\
    _allInOneOI (c1_dataset st) = Ok ds /\
    all_of ds "OI_VIS2" = Some all /\
    field_rows <$> all !! "MJD" = Some (Some 3%nat) /\
    field_rows <$> all !! "PA" = Some (Some 2%nat) /\
    forall r, ~ table_shape r (length ex_WL) all.
Proof.
  assert (Q1 : (st ← reconcile npsqrt npangle false ex_WL c1_state;
                ds ← _allInOneOI (c1_dataset st);
                Ok (forallb (fun kT => table_shapeb 1 (length ex_WL) kT.2) (r_vis st ++ r_t3 st),
                    (fun all => (field_rows <$> all !! "MJD", field_rows <$> all !! "PA"))
                      <$> all_of ds "OI_VIS2"))
               = Ok (true, Some (Some (Some 3%nat), Some (Some 2%nat))))
    by (vm_compute; reflexivity).
  destruct (reconcile npsqrt npangle false ex_WL c1_state) as [st|] eqn:E1; [|discriminate].
  simpl in Q1.
  destruct (_allInOneOI (c1_dataset st)) as [ds|] eqn:E2; [|discriminate].
  simpl in Q1.
  destruct (all_of ds "OI_VIS2") as [all|] eqn:Hall; [|discriminate].
  simpl in Q1. injection Q1 as Q1 Q2 Q3.
  exists st, ds, all. repeat (split; [done|]).
  intros r Hshape.
  destruct (all !! "MJD") as [f1|] eqn:H1; [|discriminate].
  destruct (all !! "PA") as [f2|] eqn:H2; [|discriminate].
  simpl in Q2, Q3. injection Q2 as Q2. injection Q3 as Q3.
  pose proof (table_shape_rows _ _ _ _ _ _ Hshape H1 Q2).
  pose proof (table_shape_rows _ _ _ _ _ _ Hshape H2 Q3). lia.
Qed.

(** C9 (code defect).  The collapse skips the table ['all'] when it gathers
    the rows (l. 1257) and then stores what it gathered under ['all']
    (l. 1276): collapsing a collapsed dataset replaces its visibility table
    by one without rows, and raises [KeyError: 'MJD'] at l. 1285 when the
    dataset has closure triangles. *)
Theorem C9_second_collapse_loses_the_tables :
  (exists d1 d2 all1 all2,
     _allInOneOI c9_dataset = Ok d1 /\
     (ds_telescopes d1, ds_baselines d1, ds_triangles d1) = (["all"], ["all"], ["all"]) /\
     all_of d1 "OI_VIS2" = Some all1 /\
     all1 !! "NAME" = Some (Names ["AB"; "CA"]) /\ all1 !! "MJD" = Some (Vec [5%Q; 5%Q]) /\
     _allInOneOI d1 = Ok d2 /\
     all_of d2 "OI_VIS2" = Some all2 /\
     all2 !! "NAME" = Some (Names []) /\ all2 !! "MJD" = None /\ all2 !! "V2" = None)
  /\ (exists d1, _allInOneOI c9_dataset_t3 = Ok d1 /\
        (ds_telescopes d1, ds_baselines d1, ds_triangles d1) = (["all"], ["all"], ["all"]) /\
        _allInOneOI d1 = Raise (KeyError "MJD")).
Proof.
  split.
  - assert (Q1 : (d1 ← _allInOneOI c9_dataset; d2 ← _allInOneOI d1;
                  Ok ((ds_telescopes d1, ds_baselines d1, ds_triangles d1),
                      (fun a => (a !! "NAME", a !! "MJD")) <$> all_of d1 "OI_VIS2",
                      (fun a => (a !! "NAME", a !! "MJD", a !! "V2")) <$> all_of d2 "OI_VIS2"))
                 = Ok ((["all"], ["all"], ["all"]),
                       Some (Some (Names ["AB"; "CA"]), Some (Vec [5%Q; 5%Q])),
                       Some (Some (Names []), None, None)))
      by (vm_compute; reflexivity).
    destruct (_allInOneOI c9_dataset) as [d1|] eqn:E1; [|discriminate]. simpl in Q1.
    destruct (_allInOneOI d1) as [d2|] eqn:E2; [|discriminate]. simpl in Q1.
    destruct (all_of d1 "OI_VIS2") as [all1|] eqn:E3; [|discriminate].
    destruct (all_of d2 "OI_VIS2") as [all2|] eqn:E4; [|discriminate].
    simpl in Q1. injection Q1 as Q1 Q2 Q3 Q4 Q5 Q6 Q7 Q8.
    exists d1, d2, all1, all2. rewrite Q1, Q2, Q3. repeat (split; [done|]). done.
  - assert (Q1 : (d1 ← _allInOneOI c9_dataset_t3;
                  Ok ((ds_telescopes d1, ds_baselines d1, ds_triangles d1), _allInOneOI d1))
                 = Ok ((["all"], ["all"], ["all"]), Raise (KeyError "MJD")))
      by (vm_compute; reflexivity).
    destruct (_allInOneOI c9_dataset_t3) as [d1|] eqn:E1; [|discriminate]. simpl in Q1.
    injection Q1 as Q1 Q2 Q3 Q4. exists d1. rewrite Q1, Q2, Q3. repeat (split; [done|]). done.
Qed.

(** ** The flag filter edits its configuration (C10) *)

Lemma filtFlag_config (ext : table) (filt : config) (me : gmap string Q) (c mu : Q)
    (fx : field) (F : bmat) :
  ext !! "FLAG" = Some (Flags F) -> ext !! "FLUX" = Some fx -> field_mean fx = Ok mu ->
  filt !! "max error" = Some me -> me !! "NFLUX" = Some c ->
  (_filtFlag ext filt).1 = <["max error" := <["FLUX" := (c * mu)%Q]> me]> filt.
Proof.
  intros HF Hfx Hmu Hme Hc. unfold _filtFlag, tflags, tget.
  rewrite HF. simpl. rewrite Hme, Hfx, Hc, Hmu. reflexivity.
Qed.

(** C10.  On a table whose flux column is the array [m], under a
    configuration whose ['max error'] rules hold [NFLUX = c], [_filtFlag]
    leaves in the caller's configuration the entry ['max error']['FLUX']
    = c * mean(m), the mean being the sum of the samples of [m] over their
    number (the quotient by 0 of the rationals on an empty array, where numpy
    gives nan); [NFLUX] stays.  The configuration differs from the one
    passed in, and after a second table, of flux [m'], it holds
    c * mean(m') and no longer c * mean(m): where the two bounds differ, the
    two calls leave different configurations. *)
Theorem C10_filtFlag_mutates_configuration (ext1 ext2 : table) (filt : config)
    (me : gmap string Q) (c : Q) (m1 m2 : mat) (F1 F2 : bmat) :
  filt !! "max error" = Some me -> me !! "NFLUX" = Some c ->
  ext1 !! "FLAG" = Some (Flags F1) -> ext1 !! "FLUX" = Some (Mat m1) ->
  ext2 !! "FLAG" = Some (Flags F2) -> ext2 !! "FLUX" = Some (Mat m2) ->
  let mean (m : mat) :=
    (fold_right Qplus 0 (concat m) / inject_Z (Z.of_nat (length (concat m))))%Q in
  let filt1 := (_filtFlag ext1 filt).1 in
  let filt2 := (_filtFlag ext2 filt1).1 in
  filt1 = <["max error" := <["FLUX" := (c * mean m1)%Q]> me]> filt /\
  rule filt1 "max error" "FLUX" = Some (c * mean m1)%Q /\
  rule filt1 "max error" "NFLUX" = Some c /\
  (me !! "FLUX" = None -> filt1 <> filt) /\
  filt2 = <["max error" := <["FLUX" := (c * mean m2)%Q]> me]> filt /\
  rule filt2 "max error" "FLUX" = Some (c * mean m2)%Q /\
  rule filt2 "max error" "NFLUX" = Some c /\
  (~ (c * mean m1 == c * mean m2)%Q -> filt2 <> filt1).
Proof.
  intros Hme Hc HF1 Hx1 HF2 Hx2 mean filt1 filt2.
  assert (H1 : filt1 = <["max error" := <["FLUX" := (c * mean m1)%Q]> me]> filt)
    by (eapply filtFlag_config; try eassumption; reflexivity).
  assert (H2 : filt2 = <["max error" := <["FLUX" := (c * mean m2)%Q]> me]> filt).
  { unfold filt2.
    rewrite (filtFlag_config ext2 filt1 (<["FLUX" := (c * mean m1)%Q]> me) c (mean m2)
               (Mat m2) F2); try assumption; try reflexivity.
    - rewrite H1. rewrite insert_insert_eq. rewrite insert_insert_eq. reflexivity.
    - rewrite H1. apply lookup_insert_eq.
    - rewrite lookup_insert_ne by discriminate. exact Hc. }
  assert (R1 : rule filt1 "max error" "FLUX" = Some (c * mean m1)%Q).
  { rewrite H1. unfold rule. rewrite lookup_insert_eq. simpl. apply lookup_insert_eq. }
  assert (R2 : rule filt2 "max error" "FLUX" = Some (c * mean m2)%Q).
  { rewrite H2. unfold rule. rewrite lookup_insert_eq. simpl. apply lookup_insert_eq. }
  split; [exact H1|]. split; [exact R1|]. split.
  { rewrite H1. unfold rule. rewrite lookup_insert_eq. simpl.
    rewrite lookup_insert_ne by discriminate. exact Hc. }
  split.
  { intros Hnone Heq. rewrite H1 in Heq.
    assert (Hl : (<["max error" := <["FLUX" := (c * mean m1)%Q]> me]> filt) !! "max error"
                 = Some me) by (rewrite Heq; exact Hme).
    rewrite lookup_insert_eq in Hl. injection Hl as Hl.
    assert (Hk : (<["FLUX" := (c * mean m1)%Q]> me) !! "FLUX" = None) by (rewrite Hl; exact Hnone).
    rewrite lookup_insert_eq in Hk. discriminate. }
  split; [exact H2|]. split; [exact R2|]. split.
  { rewrite H2. unfold rule. rewrite lookup_insert_eq. simpl.
    rewrite lookup_insert_ne by discriminate. exact Hc. }
  intros Hne Heq. apply Hne.
  assert (Hs : Some (c * mean m1)%Q = Some (c * mean m2)%Q)
    by (rewrite <- R1, <- R2, Heq; reflexivity).
  apply (f_equal (fun o => match o with Some q => q | None => 0%Q end)) in Hs.
  cbv beta iota in Hs. rewrite Hs. reflexivity.
Qed.

Lemma C10_filtFlag_mutates_configuration_witness :
  let filt1 := (_filtFlag (flux_table 2 4) c10_filt).1 in
  let filt2 := (_filtFlag (flux_table 10 30) filt1).1 in
  rule c10_filt "max error" "FLUX" = None /\
  rule filt1 "max error" "FLUX" = Some (6 # 20)%Q /\ (6 # 20 == (1 # 10) * 3)%Q /\
  rule filt2 "max error" "FLUX" = Some (40 # 20)%Q /\ (40 # 20 == (1 # 10) * 20)%Q /\
  filt1 <> c10_filt /\ filt2 <> filt1.
Proof.
  intros filt1 filt2.
  destruct (C10_filtFlag_mutates_configuration (flux_table 2 4) (flux_table 10 30) c10_filt
              {[ "NFLUX" := (1 # 10)%Q ]} (1 # 10) [[2; 4]%Q] [[10; 30]%Q]
              [[false; false]] [[false; false]]
              eq_refl eq_refl eq_refl eq_refl eq_refl eq_refl)
    as (_ & R1 & _ & Hne1 & _ & R2 & _ & Hne2).
  split; [reflexivity|]. split; [exact R1|]. split; [reflexivity|].
  split; [exact R2|]. split; [reflexivity|].
  split; [apply Hne1; reflexivity|]. apply Hne2. discriminate.
Defined.

(** ** Batch loads (C2) *)

Lemma load_batch_fold (disk : odict fitsfile) (insname targname : option string)
    (files : list string) (acc : list loaded) :
  Forall (fun f => is_Ok (load_file disk f insname targname)) files ->
  foldM (fun res f => tmp ← load_file disk f insname targname; Ok (res ++ tmp)) acc files
  = Ok (acc ++ successes disk files insname targname).
Proof.
  revert acc. induction files as [|f files IH]; intros acc H; simpl.
  - now rewrite app_nil_r.
  - inversion H as [|? ? Hf Hrest]; subst.
    destruct (load_file disk f insname targname) as [l|e]; [|destruct Hf].
    simpl. rewrite IH by assumption. unfold successes. now rewrite app_assoc.
Qed.

(** C2 (amended).  A batch whose files all load returns their datasets in
    order; a batch in which [f] is the first file to fail raises the error of
    [f], whatever follows it: no dataset is returned. *)
Theorem C2_batch_is_all_or_nothing (disk : odict fitsfile) (insname targname : option string)
    (pre post : list string) (f : string) (e : exn) :
  Forall (fun g => is_Ok (load_file disk g insname targname)) pre ->
  load_file disk f insname targname = Raise e ->
  load_batch disk pre insname targname = Ok (successes disk pre insname targname)
  /\ load_batch disk (pre ++ f :: post) insname targname = Raise e.
Proof.
  intros Hpre Hf. unfold load_batch. split.
  - now rewrite load_batch_fold.
  - assert (Happ : forall (xs ys : list string) acc,
               foldM (fun res f => tmp ← load_file disk f insname targname; Ok (res ++ tmp))
                     acc (xs ++ ys)
               = acc' ← foldM (fun res f => tmp ← load_file disk f insname targname;
                                            Ok (res ++ tmp)) acc xs;
                 foldM (fun res f => tmp ← load_file disk f insname targname; Ok (res ++ tmp))
                       acc' ys).
    { induction xs as [|x xs IH]; intros ys acc; simpl; [reflexivity|].
      destruct (load_file disk x insname targname); simpl; [apply IH | reflexivity]. }
    rewrite Happ, load_batch_fold by assumption. simpl. now rewrite Hf.
Qed.

(** C2, the claim as stated fails: of the two files the second loads, yet the
    batch raises the assertion error of the first instead of returning the
    one dataset. *)
Lemma C2_counterexample_batch_aborts :
  load_batch c2_disk ["bad.fits"; "good.fits"] None None
    = Raise (AssertionError "unknown target")
  /\ successes c2_disk ["bad.fits"; "good.fits"] None None
     = [Loaded "good.fits" "GRAVITY" "HD1" [2000000 # 1000000; 3000000 # 1000000]%Q
               [1000000 # 10000000; 1000000 # 10000000]%Q]
  /\ load_batch c2_disk ["bad.fits"; "good.fits"] None None
     <> Ok (successes c2_disk ["bad.fits"; "good.fits"] None None).
Proof. split; [reflexivity|]. split; [reflexivity | discriminate]. Qed.

Lemma C2_batch_is_all_or_nothing_witness :
  load_batch c2_disk ["good.fits"] None None
    = Ok (successes c2_disk ["good.fits"] None None)
  /\ load_batch c2_disk (["good.fits"] ++ "bad.fits" :: ["good.fits"]) None None
     = Raise (AssertionError "unknown target").
Proof.
  apply (C2_batch_is_all_or_nothing c2_disk None None ["good.fits"] ["good.fits"] "bad.fits"
           (AssertionError "unknown target")); [repeat constructor | reflexivity].
Defined.

(** ** The binned value (C6) *)

Section RebinFacts.
Local Open Scope R_scope.

Lemma select_cons {A} (b : bool) (w : list bool) (a : A) (l : list A) :
  select (b :: w) (a :: l) = if b then a :: select w l else select w l.
Proof. unfold select. simpl. destruct b; reflexivity. Qed.

Lemma map_seq_S {A} (f : nat -> A) (n : nat) :
  map f (seq 1 n) = map (fun j => f (S j)) (seq 0 n).
Proof. rewrite <- seq_shift, map_map. reflexivity. Qed.

Lemma rsum_cons (a : R) (l : list R) : rsum (a :: l) = a + rsum l.
Proof. reflexivity. Qed.

Lemma masked_numerator (kf : R -> R) (WL Trow : list R) (Frow : list bool)
    (E : option (list R)) :
  length Trow = length WL -> length Frow = length WL ->
  (forall Er, E = Some Er -> length Er = length WL) ->
  rsum (zip_with Rdiv
          (zip_with Rmult (map kf (select (map negb Frow) WL)) (select (map negb Frow) Trow))
          (masked_E (map negb Frow) Trow E))
  = rsum (map (fun j => if negb (nth j Frow true)
                        then kf (nth j WL 0) * nth j Trow 0 / E_at E j else 0)
              (seq 0 (length WL))).
Proof.
  revert Trow Frow E. induction WL as [|x WL IH]; intros Trow Frow E HT HF HE.
  - destruct Trow; [|discriminate]. destruct Frow; [|discriminate].
    destruct E as [[|]|]; reflexivity.
  - destruct Trow as [|t Trow]; [discriminate|]. destruct Frow as [|b Frow]; [discriminate|].
    simpl in HT, HF. injection HT as HT. injection HF as HF.
    cbn [length seq map]. rewrite map_seq_S.
    assert (HE' : forall Er, E_tail E = Some Er -> length Er = length WL).
    { intros Er H. destruct E as [[|e Er']|]; simpl in H; try discriminate.
      - specialize (HE [] eq_refl). discriminate.
      - injection H as <-. specialize (HE _ eq_refl). simpl in HE. lia. }
    specialize (IH Trow Frow (E_tail E) HT HF HE').
    cbn [nth]. 
    assert (Hrest : map (fun j => if negb (nth j Frow true)
                          then kf (nth j WL 0) * nth j Trow 0 / E_at E (S j) else 0)
                        (seq 0 (length WL))
                    = map (fun j => if negb (nth j Frow true)
                          then kf (nth j WL 0) * nth j Trow 0 / E_at (E_tail E) j else 0)
                        (seq 0 (length WL))).
    { apply map_ext. intros j. destruct E as [[|e Er']|]; simpl; try reflexivity.
      destruct j; reflexivity. }
    rewrite Hrest, rsum_cons, <- IH. clear IH Hrest.
    destruct E as [[|e Er]|].
    + specialize (HE [] eq_refl). discriminate.
    + unfold masked_E. simpl. rewrite !select_cons. destruct b; simpl; lra.
    + unfold masked_E. simpl. rewrite !select_cons. destruct b; simpl; lra.
Qed.

Lemma masked_denominator (kf : R -> R) (WL Trow : list R) (Frow : list bool)
    (E : option (list R)) :
  length Trow = length WL -> length Frow = length WL ->
  (forall Er, E = Some Er -> length Er = length WL) ->
  rsum (zip_with Rdiv (map kf (select (map negb Frow) WL)) (masked_E (map negb Frow) Trow E))
  = rsum (map (fun j => if negb (nth j Frow true) then kf (nth j WL 0) / E_at E j else 0)
              (seq 0 (length WL))).
Proof.
  revert Trow Frow E. induction WL as [|x WL IH]; intros Trow Frow E HT HF HE.
  - destruct Trow; [|discriminate]. destruct Frow; [|discriminate].
    destruct E as [[|]|]; reflexivity.
  - destruct Trow as [|t Trow]; [discriminate|]. destruct Frow as [|b Frow]; [discriminate|].
    simpl in HT, HF. injection HT as HT. injection HF as HF.
    cbn [length seq map]. rewrite map_seq_S.
    assert (HE' : forall Er, E_tail E = Some Er -> length Er = length WL).
    { intros Er H. destruct E as [[|e Er']|]; simpl in H; try discriminate.
      - specialize (HE [] eq_refl). discriminate.
      - injection H as <-. specialize (HE _ eq_refl). simpl in HE. lia. }
    specialize (IH Trow Frow (E_tail E) HT HF HE').
    cbn [nth].
    assert (Hrest : map (fun j => if negb (nth j Frow true)
                          then kf (nth j WL 0) / E_at E (S j) else 0)
                        (seq 0 (length WL))
                    = map (fun j => if negb (nth j Frow true)
                          then kf (nth j WL 0) / E_at (E_tail E) j else 0)
                        (seq 0 (length WL))).
    { apply map_ext. intros j. destruct E as [[|e Er']|]; simpl; try reflexivity.
      destruct j; reflexivity. }
    rewrite Hrest, rsum_cons, <- IH. clear IH Hrest.
    destruct E as [[|e Er]|].
    + specialize (HE [] eq_refl). discriminate.
    + unfold masked_E. simpl. rewrite !select_cons. destruct b; simpl; lra.
    + unfold masked_E. simpl. rewrite !select_cons. destruct b; simpl; lra.
Qed.

Lemma binVec_lookup (x X Y : list R) (E : option (list R)) (medFilt : option nat)
    (j : nat) (x0 : R) :
  x !! j = Some x0 ->
  _binVec x X Y E medFilt !! j
  = Some (let E' := match E with Some E => E | None => map (fun _ => 1) Y end in
          let k := map (kernel (npmedian (npdiff x)) x0) X in
          rsum (zip_with Rdiv (zip_with Rmult k Y) E') / rsum (zip_with Rdiv k E')).
Proof.
  intros H. unfold _binVec. rewrite list_lookup_fmap, H. reflexivity.
Qed.

(** C6.  For every row [i] and every output channel [j] centred at [x0],
    [binOI] returns [sum_j(k_j*Y_j/E_j) / sum_j(k_j/E_j)] over the unflagged
    samples of the old grid, with the Gaussian kernel of width [0.6*D], [D] the
    median spacing of the new grid, and [E_j = 1] without an error column;
    [medFilt] has no effect. *)
Theorem C6_binned_value (_wl WL : list R) (T : list (list R)) (F : list (list bool))
    (E : option (list (list R))) (medFilt : option nat) (i j : nat)
    (Trow : list R) (Frow : list bool) (x0 : R) :
  T !! i = Some Trow -> F !! i = Some Frow -> _wl !! j = Some x0 ->
  length Trow = length WL -> length Frow = length WL ->
  (forall Em, E = Some Em -> length (nth i Em []) = length WL) ->
  exists row,
    (binOI _wl WL T F E medFilt).1 !! i = Some row /\
    row !! j = Some (binned_spec _wl WL Trow Frow ((fun Em => nth i Em []) <$> E) x0).
Proof.
  intros HT HF Hj HlT HlF HlE.
  unfold binOI. cbn [fst]. rewrite list_lookup_fmap, list_lookup_imap, HT. cbn.
  eexists. split; [reflexivity|].
  assert (HFn : nth i F [] = Frow) by (apply nth_lookup_Some with (d := []) in HF; exact HF).
  rewrite HFn. unfold binOI_row. cbn [fst].
  rewrite (binVec_lookup _ _ _ _ _ _ _ Hj). f_equal.
  unfold binned_spec.
  set (Erow := (fun Em => nth i Em []) <$> E).
  assert (HEr : forall Er, Erow = Some Er -> length Er = length WL).
  { intros Er H. destruct E as [Em|]; [|discriminate]. injection H as <-. now apply HlE. }
  pose proof (masked_numerator (kernel (npmedian (npdiff _wl)) x0) WL Trow Frow Erow
                HlT HlF HEr) as Hn.
  pose proof (masked_denominator (kernel (npmedian (npdiff _wl)) x0) WL Trow Frow Erow
                HlT HlF HEr) as Hd.
  unfold masked_E, E_at, kernel in Hn, Hd. unfold kernel.
  cbv zeta. rewrite <- Hn, <- Hd. reflexivity.
Qed.
End RebinFacts.

(** ** Rebinning onto the same grid (C7) *)

Section RebinSameGrid.
Local Open Scope R_scope.

Lemma kernel_pos (dx x0 X : R) : 0 < kernel dx x0 X.
Proof. apply exp_pos. Qed.

Lemma select_In (Trow : list R) (Frow : list bool) (t : R) :
  In t (select (map negb Frow) Trow) ->
  exists j, Trow !! j = Some t /\ Frow !! j = Some false.
Proof.
  revert Trow. induction Frow as [|b Frow IH]; intros Trow H.
  - unfold select in H. simpl in H. destruct H.
  - destruct Trow as [|a Trow]; [unfold select in H; simpl in H; destruct H|].
    cbn [map] in H. rewrite select_cons in H. destruct b; simpl in H.
    + destruct (IH _ H) as (j & H1 & H2). exists (S j). auto.
    + destruct H as [<-|H].
      * exists 0%nat. auto.
      * destruct (IH _ H) as (j & H1 & H2). exists (S j). auto.
Qed.

Lemma select_length {A B} (w : list bool) (a : list A) (b : list B) :
  length a = length b -> length (select w a) = length (select w b).
Proof.
  revert a b. induction w as [|x w IH]; intros a b H; [reflexivity|].
  destruct a as [|a0 a], b as [|b0 b]; try discriminate; [reflexivity|].
  rewrite !select_cons. simpl in H. injection H as H.
  destruct x; simpl; auto.
Qed.

Lemma select_nonempty {A} (Frow : list bool) (a : list A) (j : nat) :
  length a = length Frow -> Frow !! j = Some false -> select (map negb Frow) a <> [].
Proof.
  revert a j. induction Frow as [|b Frow IH]; intros a j Hlen Hj; [destruct j; discriminate|].
  destruct a as [|a0 a]; [discriminate|]. cbn [map]. rewrite select_cons.
  destruct b; simpl.
  - destruct j as [|j]; [discriminate|]. simpl in Hj, Hlen. eapply IH; eauto.
  - discriminate.
Qed.

Lemma binOI_lookup (_wl WL : list R) (T : list (list R)) (F : list (list bool))
    (E : option (list (list R))) (medFilt : option nat) (i : nat)
    (Trow : list R) (Frow : list bool) :
  T !! i = Some Trow -> F !! i = Some Frow ->
  (binOI _wl WL T F E medFilt).1 !! i
  = Some (binOI_row _wl WL Trow Frow ((fun E => nth i E []) <$> E) medFilt).1 /\
  (binOI _wl WL T F E medFilt).2 !! i
  = Some (binOI_row _wl WL Trow Frow ((fun E => nth i E []) <$> E) medFilt).2.
Proof.
  intros HT HF. unfold binOI. cbn [fst snd].
  rewrite !list_lookup_fmap, list_lookup_imap, HT. cbn.
  apply nth_lookup_Some with (d := []) in HF. rewrite HF. split; reflexivity.
Qed.

Lemma npdiff_progression (start step : R) (a m : nat) :
  npdiff (map (fun i => start + INR i * step) (seq a (S m))) = repeat step m.
Proof.
  revert a. induction m as [|m IH]; intros a; [reflexivity|].
  change (seq a (S (S m))) with (a :: seq (S a) (S m)).
  rewrite map_cons. specialize (IH (S a)).
  change (seq (S a) (S m)) with (S a :: seq (S (S a)) m) in *.
  rewrite map_cons in *. cbn [npdiff]. cbn [npdiff] in IH.
  change (repeat step (S m)) with (step :: repeat step m). f_equal.
  - rewrite S_INR. ring.
  - exact IH.
Qed.

Lemma rsort_repeat (s : R) (m : nat) : rsort (repeat s m) = repeat s m.
Proof.
  induction m as [|m IH]; [reflexivity|].
  change (rsort (repeat s (S m))) with (rinsert s (rsort (repeat s m))). rewrite IH.
  destruct m as [|m]; [reflexivity|].
  simpl. destruct (Rle_dec s s) as [_|H]; [reflexivity|]. exfalso. apply H. lra.
Qed.

Lemma nth_repeat_lt (s : R) (m i : nat) : (i < m)%nat -> nth i (repeat s m) 0 = s.
Proof.
  revert i. induction m as [|m IH]; intros i Hi; [lia|].
  destruct i as [|i]; [reflexivity|]. simpl. apply IH. lia.
Qed.

Lemma npmedian_repeat (s : R) (m : nat) : (0 < m)%nat -> npmedian (repeat s m) = s.
Proof.
  intros Hm. unfold npmedian. rewrite rsort_repeat, repeat_length.
  assert (H2 : (m / 2 < m)%nat) by (apply Nat.div_lt; lia).
  destruct (Nat.even m).
  - rewrite !nth_repeat_lt by lia. lra.
  - now rewrite nth_repeat_lt.
Qed.

Lemma exp_mono (x y : R) : x <= y -> exp x <= exp y.
Proof.
  intros [H| ->]; [left; now apply exp_increasing | right; reflexivity].
Qed.

Lemma exp_m1_le : exp (Ropp 1) <= 4 / 9.
Proof.
  assert (H : 3 / 2 <= exp (1 / 2)).
  { pose proof (exp_ineq1_le (1 / 2)). lra. }
  assert (H1 : 9 / 4 <= exp 1).
  { replace 1 with (1 / 2 + 1 / 2) by lra. rewrite exp_plus. nra. }
  rewrite exp_Ropp. apply Rmult_le_reg_r with (r := exp 1); [lra|].
  rewrite Rinv_l by lra. lra.
Qed.

Lemma exp_m3_le : exp (Ropp 3) <= 64 / 729.
Proof.
  replace (Ropp 3) with (Ropp 1 + (Ropp 1 + Ropp 1)) by lra. rewrite !exp_plus.
  pose proof exp_m1_le as H. pose proof (exp_pos (Ropp 1)) as Hp.
  assert (H2 : exp (Ropp 1) * exp (Ropp 1) <= 4 / 9 * (4 / 9)) by (apply Rmult_le_compat; lra).
  assert (H3 : exp (Ropp 1) * (exp (Ropp 1) * exp (Ropp 1)) <= 4 / 9 * (4 / 9 * (4 / 9))).
  { apply Rmult_le_compat; try lra. apply Rmult_le_pos; lra. }
  lra.
Qed.

Lemma exp_geo (m : nat) : exp (- (1 + 3 * INR m)) = exp (Ropp 1) * exp (Ropp 3) ^ m.
Proof.
  induction m as [|m IH].
  - simpl. rewrite Rmult_1_r. f_equal. lra.
  - rewrite S_INR. replace (- (1 + 3 * (INR m + 1))) with (- (1 + 3 * INR m) + Ropp 3) by lra.
    rewrite exp_plus, IH. simpl. ring.
Qed.

(** The weight of a sample [S m] steps of index away. *)
Lemma exp_sq_bound (d : R) (m : nat) :
  Rabs d = INR (S m) -> exp (- d ^ 2) <= exp (Ropp 1) * exp (Ropp 3) ^ m.
Proof.
  intros Hd. rewrite <- exp_geo. apply exp_mono.
  assert (Hsq : d ^ 2 = INR (S m) ^ 2).
  { rewrite <- Hd. simpl. rewrite !Rmult_1_r. unfold Rabs. destruct (Rcase_abs d); ring. }
  rewrite Hsq, S_INR.
  assert (Hm : INR m <= INR m * INR m).
  { destruct m as [|m]; [simpl; lra|].
    assert (1 <= INR (S m)) by (rewrite S_INR; pose proof (pos_INR m); lra). nra. }
  nra.
Qed.

Lemma rsum_app (a b : list R) : rsum (a ++ b) = rsum a + rsum b.
Proof. unfold rsum. induction a as [|x a IH]; simpl; [lra | rewrite IH; lra]. Qed.

Lemma geo_weights (m : nat) : 0 <= exp (Ropp 1) * exp (Ropp 3) ^ m.
Proof.
  apply Rmult_le_pos; [left; apply exp_pos | apply pow_le; left; apply exp_pos].
Qed.

Lemma left_bound (i n a : nat) :
  (a + n <= i)%nat ->
  rsum (map (fun j => exp (- (INR j - INR i) ^ 2)) (seq a n)) * (1 - exp (Ropp 3))
  <= exp (Ropp 1) * exp (Ropp 3) ^ (i - (a + n)).
Proof.
  induction n as [|n IH]; intros Hle.
  - simpl. rewrite Rmult_0_l. apply geo_weights.
  - rewrite seq_S, map_app, rsum_app. cbn [map]. unfold rsum at 2. cbn [fold_right].
    specialize (IH ltac:(lia)).
    replace (i - (a + n))%nat with (S (i - (a + S n))) in IH by lia.
    set (K := (i - (a + S n))%nat) in *.
    assert (Ht : exp (- (INR (a + n) - INR i) ^ 2) <= exp (Ropp 1) * exp (Ropp 3) ^ K).
    { apply exp_sq_bound. rewrite Rabs_minus_sym, <- minus_INR by lia.
      rewrite Rabs_pos_eq by apply pos_INR. f_equal. unfold K. lia. }
    pose proof (geo_weights K) as Hg. pose proof exp_m3_le as H3.
    pose proof (exp_pos (Ropp 3)) as Hp. simpl in IH.
    set (S0 := rsum _) in *. set (G := exp (Ropp 1) * exp (Ropp 3) ^ K) in *.
    set (t := exp (Ropp 3)) in *. set (x := exp _) in *.
    replace (exp (Ropp 1) * (t * t ^ K)) with (G * t) in IH by (unfold G; ring).
    nra.
Qed.

Lemma right_bound (i n b : nat) :
  (i < b)%nat ->
  rsum (map (fun j => exp (- (INR j - INR i) ^ 2)) (seq b n)) * (1 - exp (Ropp 3))
  <= exp (Ropp 1) * exp (Ropp 3) ^ (b - i - 1).
Proof.
  revert b. induction n as [|n IH]; intros b Hlt.
  - simpl. rewrite Rmult_0_l. apply geo_weights.
  - cbn [seq map]. rewrite rsum_cons.
    specialize (IH (S b) ltac:(lia)).
    replace (S b - i - 1)%nat with (S (b - i - 1)) in IH by lia.
    set (K := (b - i - 1)%nat) in *.
    assert (Ht : exp (- (INR b - INR i) ^ 2) <= exp (Ropp 1) * exp (Ropp 3) ^ K).
    { apply exp_sq_bound. rewrite <- minus_INR by lia.
      rewrite Rabs_pos_eq by apply pos_INR. f_equal. unfold K. lia. }
    pose proof (geo_weights K) as Hg. pose proof exp_m3_le as H3.
    pose proof (exp_pos (Ropp 3)) as Hp. simpl in IH.
    set (S0 := rsum _) in *. set (G := exp (Ropp 1) * exp (Ropp 3) ^ K) in *.
    set (t := exp (Ropp 3)) in *. set (x := exp _) in *.
    replace (exp (Ropp 1) * (t * t ^ K)) with (G * t) in IH by (unfold G; ring).
    nra.
Qed.

(** The weights of all the samples of a separated grid, seen from one of
    them, sum to less than 2: the sample itself weighs 1. *)
Lemma index_weights_lt_2 (i N : nat) :
  (i < N)%nat -> rsum (map (fun j => exp (- (INR j - INR i) ^ 2)) (seq 0 N)) < 2.
Proof.
  intros Hi. replace N with (i + S (N - S i))%nat by lia.
  rewrite seq_app, map_app, rsum_app. cbn [seq map]. rewrite rsum_cons.
  pose proof (left_bound i i 0 ltac:(lia)) as HL.
  pose proof (right_bound i (N - S i) (S i) ltac:(lia)) as HR.
  replace (i - (0 + i))%nat with 0%nat in HL by lia.
  replace (S i - i - 1)%nat with 0%nat in HR by lia.
  change (exp (Ropp 3) ^ 0) with 1 in HL, HR. rewrite Rmult_1_r in HL, HR.
  change (0 + i)%nat with i.
  replace (INR i - INR i) with 0 by lra.
  replace (- 0 ^ 2) with 0 by (simpl; lra). rewrite exp_0.
  pose proof exp_m1_le. pose proof exp_m3_le. pose proof (exp_pos (Ropp 3)).
  set (SL := rsum (map _ (seq 0 i))) in *. set (SR := rsum (map _ (seq (S i) _))) in *.
  nra.
Qed.

Lemma rsum_pointwise (f : R -> R) (b : nat -> R) (g : list R) (a : nat) :
  (forall j xj, g !! j = Some xj -> f xj <= b (a + j)%nat) ->
  rsum (map f g) <= rsum (map b (seq a (length g))).
Proof.
  revert a. induction g as [|x g IH]; intros a H; [simpl; lra|].
  cbn [map length seq]. rewrite !rsum_cons.
  pose proof (H 0%nat x eq_refl) as H0. rewrite Nat.add_0_r in H0.
  specialize (IH (S a)).
  assert (H' : forall j xj, g !! j = Some xj -> f xj <= b (S a + j)%nat).
  { intros j xj Hj. specialize (H (S j) xj Hj). now replace (a + S j)%nat with (S a + j)%nat in H by lia. }
  specialize (IH H'). lra.
Qed.

Lemma kernel_separated (g : list R) (i j : nat) (x0 xj : R) :
  separated g -> npmedian (npdiff g) <> 0 ->
  g !! i = Some x0 -> g !! j = Some xj ->
  kernel (npmedian (npdiff g)) x0 xj <= exp (- (INR j - INR i) ^ 2).
Proof.
  intros Hsep HD Hi Hj. unfold kernel. apply exp_mono.
  specialize (Hsep j i xj x0 Hj Hi).
  set (D := npmedian (npdiff g)) in *.
  assert (Hw : 0 < (6 / 10 * D) ^ 2).
  { simpl. rewrite Rmult_1_r. assert (0 < D * D) by nra. nra. }
  assert (Hsq : (INR j - INR i) ^ 2 * (6 / 10 * D) ^ 2 <= (xj - x0) ^ 2).
  { assert (Ha : Rabs ((INR j - INR i) * (6 / 10 * D)) <= Rabs (xj - x0)).
    { rewrite Rabs_mult, (Rabs_mult (6 / 10)), (Rabs_pos_eq (6 / 10)) by lra. exact Hsep. }
    apply Rsqr_le_abs_1 in Ha. unfold Rsqr in Ha. simpl. nra. }
  unfold Rdiv. rewrite <- Ropp_mult_distr_l. apply Ropp_le_contravar.
  apply Rmult_le_reg_r with (r := (6 / 10 * D) ^ 2); [exact Hw|].
  rewrite Rmult_assoc, Rinv_l by lra. lra.
Qed.

Lemma kernel_self (dx x0 : R) : kernel dx x0 x0 = 1.
Proof.
  unfold kernel. replace (- (x0 - x0) ^ 2 / (6 / 10 * dx) ^ 2) with 0; [apply exp_0|].
  unfold Rdiv. replace (x0 - x0) with 0 by lra. simpl. ring.
Qed.

(** Twice the weighted sum of a row of flags against the sum of the
    weights. *)
Lemma flag_balance (k : list R) (Frow : list bool) :
  length k = length Frow -> Forall (fun x => 0 <= x) k ->
  let Y := map (fun b : bool => if b then 1 else 0) Frow in
  let A := rsum (zip_with Rdiv (zip_with Rmult k Y) (map (fun _ => 1) Y)) in
  let B := rsum (zip_with Rdiv k (map (fun _ => 1) Y)) in
  B = rsum k /\ - rsum k <= 2 * A - B <= rsum k /\
  forall i ki, k !! i = Some ki ->
    (Frow !! i = Some true -> 2 * ki - rsum k <= 2 * A - B) /\
    (Frow !! i = Some false -> 2 * A - B <= rsum k - 2 * ki).
Proof.
  revert Frow. induction k as [|x k IH]; intros Frow Hlen Hk.
  - destruct Frow; [|discriminate]. simpl. split; [lra|]. split; [lra|]. intros i ki H. destruct i; discriminate.
  - destruct Frow as [|b0 Frow]; [discriminate|]. injection Hlen as Hlen.
    apply Forall_cons_iff in Hk as [Hx Hk].
    destruct (IH Frow Hlen Hk) as (HB & Habs & Hat). clear IH.
    cbn zeta in *. cbn [map zip_with]. rewrite !rsum_cons.
    set (A := rsum (zip_with Rdiv (zip_with Rmult k _) _)) in *.
    set (B := rsum (zip_with Rdiv k _)) in *.
    assert (Hy : (if b0 then 1 else 0) = 0 \/ (if b0 then 1 else 0) = 1)
      by (destruct b0; auto).
    set (y := if b0 then 1 else 0) in *.
    unfold Rdiv at 1 2. rewrite !Rinv_1, !Rmult_1_r.
    split; [lra|]. split.
    + destruct Hy as [-> | ->]; lra.
    + intros [|i] ki Hki.
      * simpl in Hki. injection Hki as <-. unfold y.
        split; intros Hb; simpl in Hb; injection Hb as ->; lra.
      * simpl in Hki. destruct (Hat i ki Hki) as [Ht Hf].
        split; intros Hb; simpl in Hb; [specialize (Ht Hb) | specialize (Hf Hb)];
          destruct Hy as [-> | ->]; lra.
Qed.

(** On a separated grid every flag comes back as it was. *)
Lemma binVec_flags_separated (g : list R) (Frow : list bool) :
  npmedian (npdiff g) <> 0 -> separated g -> length Frow = length g ->
  map (fun y => if Rlt_dec (1 / 2) y then true else false)
      (_binVec g g (map (fun b : bool => if b then 1 else 0) Frow) None None)
  = Frow.
Proof.
  intros HD Hsep Hlen. apply list_eq. intros i.
  rewrite list_lookup_fmap.
  destruct (g !! i) as [x0|] eqn:Hi.
  - rewrite (binVec_lookup g g _ None None i x0 Hi). cbn [fmap option_fmap option_map]. cbv zeta.
    assert (HiN : (i < length g)%nat) by (now apply lookup_lt_Some in Hi).
    destruct (Frow !! i) as [b|] eqn:Hb;
      [|apply lookup_ge_None in Hb; lia].
    f_equal.
    set (k := map (kernel (npmedian (npdiff g)) x0) g).
    assert (Hk : length k = length Frow) by (unfold k; rewrite length_map; congruence).
    assert (Hk0 : Forall (fun x => 0 <= x) k).
    { unfold k. apply Forall_forall. intros y Hy. apply in_map_iff in Hy as (X & <- & _).
      left. apply kernel_pos. }
    destruct (flag_balance k Frow Hk Hk0) as (HB & _ & Hat). cbv zeta in HB, Hat.
    assert (Hki : k !! i = Some 1).
    { unfold k. rewrite list_lookup_fmap, Hi. simpl. now rewrite kernel_self. }
    destruct (Hat i 1 Hki) as [Ht Hf].
    assert (Hsum : rsum k < 2).
    { eapply Rle_lt_trans; [|apply (index_weights_lt_2 i (length g) HiN)].
      unfold k. apply rsum_pointwise. intros j xj Hj. simpl.
      now apply (kernel_separated g i j x0 xj). }
    assert (Hone : 1 <= rsum k).
    { clear -Hki Hk0. revert i Hki. induction Hk0 as [|x k Hx Hk0 IH]; intros i Hki.
      - destruct i; discriminate.
      - rewrite rsum_cons. destruct i as [|i]; simpl in Hki.
        + injection Hki as ->.
          assert (0 <= rsum k).
          { clear -Hk0. induction Hk0; [simpl; lra | rewrite rsum_cons; lra]. }
          lra.
        + specialize (IH i Hki). lra. }
    set (A := rsum (zip_with Rdiv (zip_with Rmult k _) _)) in *.
    set (B := rsum (zip_with Rdiv k _)) in *.
    destruct b.
    + specialize (Ht Hb).
      destruct (Rlt_dec (1 / 2) (A / B)) as [_|Hn]; [reflexivity|]. exfalso. apply Hn.
      apply Rmult_lt_reg_r with (r := B); [lra|].
      replace (A / B * B) with A by (field; lra). lra.
    + specialize (Hf Hb).
      destruct (Rlt_dec (1 / 2) (A / B)) as [Hn|_]; [|reflexivity]. exfalso.
      apply Rmult_lt_compat_r with (r := B) in Hn; [|lra].
      replace (A / B * B) with A in Hn by (field; lra). lra.
  - assert (Hnone : _binVec g g (map (fun b : bool => if b then 1 else 0) Frow) None None !! i = None).
    { apply lookup_ge_None. unfold _binVec. rewrite length_map.
      now apply lookup_ge_None in Hi. }
    rewrite Hnone. simpl. symmetry. apply lookup_ge_None.
    apply lookup_ge_None in Hi. lia.
Qed.

Lemma rsum_constant_E (k Y E : list R) (c : R) :
  Forall (fun y => y = c) Y -> length k = length Y ->
  rsum (zip_with Rdiv (zip_with Rmult k Y) E) = c * rsum (zip_with Rdiv k E).
Proof.
  unfold rsum.
  intros HY. revert k E. induction HY as [|y Y Hy HY IH]; intros k E Hlen.
  - destruct k; [|discriminate]. simpl. lra.
  - destruct k as [|x k]; [discriminate|]. simpl in Hlen. injection Hlen as Hlen.
    destruct E as [|e E]; [simpl; lra|].
    simpl. rewrite (IH k E Hlen). subst y. unfold Rdiv. ring.
Qed.

Lemma rsum_weights_pos_E (k E : list R) :
  Forall (fun x => 0 < x) k -> Forall (fun e => 0 < e) E -> length k = length E -> k <> [] ->
  0 < rsum (zip_with Rdiv k E).
Proof.
  intros Hk. revert E. induction Hk as [|x k Hx Hk IH]; intros E HE Hlen Hne; [congruence|].
  destruct E as [|e E]; [discriminate|]. injection Hlen as Hlen.
  apply Forall_cons_iff in HE as [He HE]. cbn [zip_with]. rewrite rsum_cons.
  assert (Hxe : 0 < x / e) by (apply Rdiv_lt_0_compat; assumption).
  destruct k as [|x' k'].
  - destruct E; [|discriminate]. simpl. lra.
  - specialize (IH E HE Hlen ltac:(discriminate)). lra.
Qed.

Lemma select_sub_Forall {A} (P : A -> Prop) (w : list bool) (a : list A) :
  Forall P a -> Forall P (select w a).
Proof.
  revert a. induction w as [|b w IH]; intros a Ha; [constructor|].
  destruct a as [|x a]; [constructor|]. rewrite select_cons.
  apply Forall_cons_iff in Ha as [Hx Ha]. destruct b; [constructor|]; auto.
Qed.

(** C7 (amended).  Rebinned onto its own grid, of median spacing not zero
    and with its samples at least one kernel width apart for each step of
    index (as on every evenly spaced grid), with or without a column of
    positive errors: every row of flags comes back as it was; and where the
    unflagged samples of a row of values all hold one value, every channel
    whose own sample is unflagged comes back with that input value. *)
Theorem C7_rebin_same_grid (g : list R) (T : list (list R)) (F : list (list bool))
    (E : option (list (list R))) (medFilt : option nat) (i : nat)
    (Trow : list R) (Frow : list bool) :
  npmedian (npdiff g) <> 0 -> separated g ->
  T !! i = Some Trow -> F !! i = Some Frow ->
  length Trow = length g -> length Frow = length g ->
  (forall Em, E = Some Em ->
     length (nth i Em []) = length g /\ Forall (fun e => 0 < e) (nth i Em [])) ->
  (binOI g g T F E medFilt).2 !! i = Some Frow /\
  exists row, (binOI g g T F E medFilt).1 !! i = Some row /\
    length row = length g /\
    forall j t, Frow !! j = Some false -> Trow !! j = Some t ->
      (forall l u, Frow !! l = Some false -> Trow !! l = Some u -> u = t) ->
      row !! j = Some t.
Proof.
  intros HD Hsep HT HF HlT HlF HE.
  destruct (binOI_lookup g g T F E medFilt i Trow Frow HT HF) as [Hv Hf].
  rewrite Hv, Hf. clear Hv Hf. unfold binOI_row. cbn [fst snd].
  split; [f_equal; now apply binVec_flags_separated|].
  eexists. split; [reflexivity|]. split; [unfold _binVec; now rewrite length_map|].
  intros j t Hfj Htj Hall.
  assert (Hgj : exists x0, g !! j = Some x0).
  { apply lookup_lt_is_Some. apply lookup_lt_Some in Htj. lia. }
  destruct Hgj as [x0 Hgj].
  rewrite (binVec_lookup g _ _ _ medFilt j x0 Hgj). f_equal. cbv zeta.
  set (w := map negb Frow).
  set (k := map (kernel (npmedian (npdiff g)) x0) (select w g)).
  assert (Hlen : length k = length (select w Trow)).
  { unfold k. rewrite length_map. apply select_length. congruence. }
  assert (HY : Forall (fun y => y = t) (select w Trow)).
  { apply Forall_forall. intros u Hu. apply select_In in Hu as (l & H1 & H2). eauto. }
  assert (Hkpos : Forall (fun x => 0 < x) k).
  { unfold k. apply Forall_forall. intros y Hy. apply in_map_iff in Hy as (X & <- & _).
    apply kernel_pos. }
  assert (Hkne : k <> []).
  { unfold k. intros Hnil. apply map_eq_nil in Hnil.
    eapply (select_nonempty Frow g j); [congruence | exact Hfj | exact Hnil]. }
  set (E' := match select w <$> ((fun E0 => nth i E0 []) <$> E) with
             | Some E0 => E0
             | None => map (fun _ => 1) (select w Trow)
             end).
  assert (HE' : Forall (fun e => 0 < e) E' /\ length k = length E').
  { unfold E'. destruct E as [Em|]; cbn [fmap option_fmap option_map].
    - destruct (HE Em eq_refl) as [HEl HEp]. split; [now apply select_sub_Forall|].
      rewrite Hlen. apply select_length. congruence.
    - split; [|now rewrite length_map].
      apply Forall_forall. intros e He. apply in_map_iff in He as (? & <- & _). lra. }
  destruct HE' as [HEp HEl].
  rewrite (rsum_constant_E k _ E' t HY Hlen).
  pose proof (rsum_weights_pos_E k E' Hkpos HEp HEl Hkne) as Hpos.
  field. lra.
Qed.

Lemma c7_spacing : npmedian (npdiff c7_grid) = 1.
Proof.
  unfold c7_grid, npmedian, rsort. simpl.
  destruct (Rle_dec (1 - 0) (2 - 1)); simpl; lra.
Qed.

Lemma exp_3_le : exp 3 <= 27.
Proof.
  replace 3 with (1 + (1 + 1)) by lra. rewrite !exp_plus.
  pose proof exp_le_3 as H. pose proof (exp_pos 1) as Hp.
  assert (H2 : exp 1 * exp 1 <= 3 * 3).
  { apply Rmult_le_compat; lra. }
  assert (H3 : exp 1 * (exp 1 * exp 1) <= 3 * (3 * 3)).
  { apply Rmult_le_compat; try lra. apply Rmult_le_pos; lra. }
  lra.
Qed.

Lemma kernel_neighbour_ge : / 27 <= exp (- (25 / 9)).
Proof.
  assert (H : exp (Ropp 3) <= exp (- (25 / 9))).
  { left. apply exp_increasing. lra. }
  rewrite (exp_Ropp 3) in H.
  pose proof exp_3_le as H3. pose proof (exp_pos 3) as Hp.
  assert (H27 : / 27 <= / exp 3) by (apply Rinv_le_contravar; lra).
  eapply Rle_trans; eassumption.
Qed.

Lemma c7_uneven_spacing : npmedian (npdiff c7_uneven) = 10.
Proof.
  unfold c7_uneven, npmedian, rsort. simpl.
  repeat (destruct Rle_dec; simpl; try lra).
Qed.

(** Every evenly spaced grid of two channels or more is separated. *)
Lemma evenly_spaced_separated (a s : R) (n : nat) :
  s <> 0 -> separated (map (fun m => a + INR m * s) (seq 0 (S (S n)))).
Proof.
  intros Hs. unfold separated.
  rewrite npdiff_progression, npmedian_repeat by lia.
  intros j l xj xl Hj Hl. rewrite list_lookup_fmap in Hj, Hl.
  destruct (seq 0 (S (S n)) !! j) as [j'|] eqn:Ej; [|discriminate].
  destruct (seq 0 (S (S n)) !! l) as [l'|] eqn:El; [|discriminate].
  apply lookup_seq in Ej as [-> _]. apply lookup_seq in El as [-> _].
  simpl in Hj, Hl. injection Hj as <-. injection Hl as <-.
  replace (a + INR j * s - (a + INR l * s)) with ((INR j - INR l) * s) by ring.
  rewrite Rabs_mult.
  pose proof (Rabs_pos (INR j - INR l)). pose proof (Rabs_pos s). nra.
Qed.

Lemma c7_grid_separated : separated c7_grid.
Proof.
  replace c7_grid with (map (fun m => 0 + INR m * 1) (seq 0 3)).
  - apply evenly_spaced_separated. lra.
  - unfold c7_grid. simpl. repeat f_equal; lra.
Qed.

Lemma flag_lookup (g : list R) (F : list (list bool)) (T : list (list R))
    (Trow : list R) (Frow : list bool) (i j : nat) (x0 : R) :
  T !! i = Some Trow -> F !! i = Some Frow -> g !! j = Some x0 ->
  (binOI g g T F None None).2 !! i ≫= (fun row => row !! j)
  = Some (let Y := map (fun b : bool => if b then 1 else 0) Frow in
          let k := map (kernel (npmedian (npdiff g)) x0) g in
          if Rlt_dec (1 / 2)
               (rsum (zip_with Rdiv (zip_with Rmult k Y) (map (fun _ => 1) Y))
                / rsum (zip_with Rdiv k (map (fun _ => 1) Y)))
          then true else false).
Proof.
  intros HT HF Hj.
  destruct (binOI_lookup g g T F None None i Trow Frow HT HF) as [_ Hf].
  rewrite Hf. cbn [mbind option_bind]. unfold binOI_row. cbn [snd].
  rewrite list_lookup_fmap, (binVec_lookup g g _ None None j x0 Hj). reflexivity.
Qed.

(** C7, the claim as stated fails in both of its parts.  The values: rebinned
    onto its own, evenly spaced, grid the row [0, 1, 0] comes back with its
    middle value lowered by more than 0.05 (it is [1/(1 + 2*exp(-25/9))],
    about 0.89), far beyond any floating-point tolerance.  The flags: on the
    grid [0, 10, 11, 21], of median spacing 10, the flag of the channel at 10
    is lost, the unflagged samples around it weighing more than 1. *)
Lemma C7_counterexample_rebin_smooths :
  (exists y, (binOI c7_grid c7_grid c7_T c7_F None None).1 !! 0%nat ≫= (fun row => row !! 1%nat)
             = Some y /\ 1 / 20 < Rabs (y - 1))
  /\ c7_uneven_F !! 0%nat ≫= (fun row => row !! 1%nat) = Some true
  /\ (binOI c7_uneven c7_uneven [[0; 0; 0; 0]] c7_uneven_F None None).2 !! 0%nat
       ≫= (fun row => row !! 1%nat) = Some false.
Proof.
  split; [|split; [reflexivity|]].
  - destruct (binOI_lookup c7_grid c7_grid c7_T c7_F None None 0 [0; 1; 0]
                [false; false; false] eq_refl eq_refl) as [Hv _].
    rewrite Hv. clear Hv. cbn [mbind option_bind]. unfold binOI_row.
    cbn [fst fmap option_fmap option_map].
    change (select (map negb [false; false; false]) c7_grid) with c7_grid.
    change (select (map negb [false; false; false]) [0; 1; 0]) with [0; 1; 0].
    rewrite (binVec_lookup c7_grid c7_grid [0; 1; 0] None None 1 1 eq_refl).
    eexists. split; [reflexivity|].
    cbv zeta. rewrite c7_spacing. unfold kernel, rsum, c7_grid.
    cbn [map zip_with fold_right].
    replace (- (0 - 1) ^ 2 / (6 / 10 * 1) ^ 2) with (- (25 / 9)) by field.
    replace (- (1 - 1) ^ 2 / (6 / 10 * 1) ^ 2) with 0 by field.
    replace (- (2 - 1) ^ 2 / (6 / 10 * 1) ^ 2) with (- (25 / 9)) by field.
    rewrite exp_0.
    pose proof kernel_neighbour_ge as Hk. set (e := exp (- (25 / 9))) in *.
    assert (He : 0 < e) by apply exp_pos.
    replace ((e * 0 / 1 + (1 * 1 / 1 + (e * 0 / 1 + 0))) / (e / 1 + (1 / 1 + (e / 1 + 0))) - 1)
      with (- (2 * e / (1 + 2 * e))) by (field; lra).
    rewrite Rabs_Ropp, Rabs_pos_eq.
    + apply Rmult_lt_reg_r with (r := 1 + 2 * e); [lra|].
      replace (2 * e / (1 + 2 * e) * (1 + 2 * e)) with (2 * e) by (field; lra).
      lra.
    + apply Rmult_le_pos; [lra|]. left. apply Rinv_0_lt_compat. lra.
  - rewrite (flag_lookup c7_uneven c7_uneven_F [[0; 0; 0; 0]] [0; 0; 0; 0]
               [false; true; false; false] 0 1 10 eq_refl eq_refl eq_refl).
    f_equal. cbv zeta. rewrite c7_uneven_spacing. unfold kernel, rsum, c7_uneven.
    cbn [map zip_with fold_right].
    replace (- (0 - 10) ^ 2 / (6 / 10 * 10) ^ 2) with (- (25 / 9)) by field.
    replace (- (10 - 10) ^ 2 / (6 / 10 * 10) ^ 2) with 0 by field.
    replace (- (11 - 10) ^ 2 / (6 / 10 * 10) ^ 2) with (- (1 / 36)) by field.
    rewrite exp_0.
    pose proof kernel_neighbour_ge as Hk. set (e := exp (- (25 / 9))) in *.
    pose proof (exp_ineq1_le (- (1 / 36))) as Hn. set (n := exp (- (1 / 36))) in *.
    pose proof (exp_pos (- (21 - 10) ^ 2 / (6 / 10 * 10) ^ 2)) as Hf.
    set (f := exp (- (21 - 10) ^ 2 / (6 / 10 * 10) ^ 2)) in *.
    destruct Rlt_dec as [Hlt|_]; [|reflexivity]. exfalso.
    set (B := e / 1 + (1 / 1 + (n / 1 + (f / 1 + 0)))) in *.
    assert (HB : 2 < B) by (unfold B; lra).
    set (A := e * 0 / 1 + (1 * 1 / 1 + (n * 0 / 1 + (f * 0 / 1 + 0)))) in *.
    assert (HA : A = 1) by (unfold A; lra).
    apply Rmult_lt_compat_r with (r := B) in Hlt; [|lra].
    replace (A / B * B) with A in Hlt by (field; lra). lra.
Qed.

Lemma C7_rebin_same_grid_witness :
  (binOI c7_grid c7_grid [[4; 4; 7]] [[false; false; true]] (Some [[1; 2; 1]]) None).2 !! 0%nat
  = Some [false; false; true] /\
  exists row,
    (binOI c7_grid c7_grid [[4; 4; 7]] [[false; false; true]] (Some [[1; 2; 1]]) None).1 !! 0%nat
    = Some row /\
    length row = 3%nat /\ row !! 0%nat = Some 4 /\ row !! 1%nat = Some 4.
Proof.
  assert (Hdx : npmedian (npdiff c7_grid) <> 0) by (rewrite c7_spacing; lra).
  assert (HE : forall Em, Some [[1; 2; 1]] = Some Em ->
                 length (nth 0 Em []) = length c7_grid /\ Forall (fun e => 0 < e) (nth 0 Em [])).
  { intros Em [= <-]. split; [reflexivity|]. repeat constructor; lra. }
  destruct (C7_rebin_same_grid c7_grid [[4; 4; 7]] [[false; false; true]] (Some [[1; 2; 1]])
              None 0 [4; 4; 7] [false; false; true] Hdx c7_grid_separated
              eq_refl eq_refl eq_refl eq_refl HE) as (Hf & row & Hr & Hl & Hv).
  assert (Hall : forall l u, [false; false; true] !! l = Some false ->
                   [4; 4; 7] !! l = Some u -> u = 4).
  { intros [|[|[|l]]] u H1 H2; simpl in H1, H2; try discriminate; now injection H2 as <-. }
  split; [exact Hf|]. exists row. split; [exact Hr|]. split; [exact Hl|].
  split; [apply (Hv 0%nat 4 eq_refl eq_refl Hall) | apply (Hv 1%nat 4 eq_refl eq_refl Hall)].
Defined.

Lemma C6_binned_value_witness :
  exists row,
    (binOI [1; 2] [0; 1; 2; 3] [[1; 2; 3; 4]] [[false; true; false; false]] None None).1 !! 0%nat
    = Some row /\
    row !! 1%nat
    = Some (binned_spec [1; 2] [0; 1; 2; 3] [1; 2; 3; 4] [false; true; false; false] None 2).
Proof.
  apply (C6_binned_value [1; 2] [0; 1; 2; 3] [[1; 2; 3; 4]] [[false; true; false; false]]
           None None 0 1 [1; 2; 3; 4] [false; true; false; false] 2);
    try reflexivity. discriminate.
Defined.

End RebinSameGrid.

(** ** Matching OI_VIS and OI_VIS2 at merge time (C3) *)

Lemma qinb_true (x : Q) (l : vec) :
  qinb x l = true <-> exists y, In y l /\ (x == y)%Q.
Proof.
  unfold qinb. rewrite existsb_exists. split; intros (y & Hy & H); exists y;
    (split; [exact Hy|]); now apply Qeq_bool_iff.
Qed.

Lemma qinb_In (x : Q) (l : vec) : In x l -> qinb x l = true.
Proof. intros H. apply qinb_true. exists x. split; [exact H | reflexivity]. Qed.

Lemma qinb_app (x : Q) (a b : vec) : qinb x (a ++ b) = qinb x a || qinb x b.
Proof. unfold qinb. apply existsb_app. Qed.

Lemma qdedup_length (l : vec) : (length (qdedup l) <= length l)%nat.
Proof.
  induction l as [|x l IH]; simpl; [lia|]. destruct (qinb x l); simpl; lia.
Qed.

Lemma qdedup_nodup (l : vec) : qnodupb l = true -> qdedup l = l.
Proof.
  induction l as [|x l IH]; simpl; [reflexivity|].
  intros H. apply andb_prop in H as [H1 H2]. apply negb_true_iff in H1.
  rewrite H1, IH by assumption. reflexivity.
Qed.

Lemma qdedup_absorb (a b : vec) :
  (forall x, In x a -> qinb x b = true) -> qdedup (a ++ b) = qdedup b.
Proof.
  induction a as [|x a IH]; intros H; simpl; [reflexivity|].
  rewrite qinb_app, (H x) by (now left). rewrite orb_true_r.
  apply IH. intros y Hy. apply H. now right.
Qed.

(** Removing the class of [x] lowers the number of classes by at most one. *)
Lemma qdedup_remove_class (x : Q) (l : vec) :
  (length (qdedup l)
   <= S (length (qdedup (List.filter (fun y => negb (Qeq_bool y x)) l))))%nat.
Proof.
  induction l as [|y l IH]; simpl; [lia|].
  assert (Hkeep : forall z, Qeq_bool z x = false ->
            qinb z (List.filter (fun y => negb (Qeq_bool y x)) l) = qinb z l).
  { intros z Hz. clear IH. induction l as [|t l IHl]; simpl; [reflexivity|].
    destruct (Qeq_bool t x) eqn:Et; simpl.
    - rewrite IHl. destruct (Qeq_bool z t) eqn:Ezt; [|reflexivity].
      apply Qeq_bool_iff in Ezt, Et.
      assert (Hzx : Qeq_bool z x = true) by (apply Qeq_bool_iff; now rewrite Ezt).
      congruence.
    - now rewrite IHl. }
  destruct (Qeq_bool y x) eqn:Eyx; simpl.
  - destruct (qinb y l) eqn:Ey; [exact IH|].
    assert (Hall : List.filter (fun y => negb (Qeq_bool y x)) l = l).
    { clear IH Hkeep. induction l as [|t l IHl]; simpl; [reflexivity|].
      simpl in Ey. apply orb_false_elim in Ey as [Eyt Ey].
      destruct (Qeq_bool t x) eqn:Et; simpl.
      - apply Qeq_bool_iff in Et, Eyx.
        assert (Qeq_bool y t = true) by (apply Qeq_bool_iff; now rewrite Eyx, Et).
        congruence.
      - now rewrite IHl. }
    rewrite Hall. simpl. lia.
  - rewrite (Hkeep y Eyx). destruct (qinb y l); simpl; lia.
Qed.

(** Pigeonhole: a list whose elements all occur in [a] has at most
    [length a] classes. *)
Lemma qdedup_le (a l : vec) :
  (forall y, In y l -> qinb y a = true) -> (length (qdedup l) <= length a)%nat.
Proof.
  revert l. induction a as [|x a IH]; intros l H.
  - destruct l as [|y l]; [simpl; lia|]. specialize (H y (or_introl eq_refl)). discriminate.
  - pose proof (qdedup_remove_class x l) as Hr.
    assert (Hl : (length (qdedup (List.filter (fun y => negb (Qeq_bool y x)) l))
                  <= length a)%nat).
    { apply IH. intros y Hy. apply filter_In in Hy as [Hy Hne].
      specialize (H y Hy). simpl in H. apply negb_true_iff in Hne.
      rewrite Hne in H. exact H. }
    simpl. lia.
Qed.

Lemma count_true_pos (w : list bool) : In true w -> (0 < count_true w)%nat.
Proof.
  unfold count_true. induction w as [|b w IH]; intros H; [destruct H|].
  simpl. destruct b; simpl; [lia|]. destruct H as [H|H]; [discriminate | auto].
Qed.

(** When the union has more epochs than [a], some epoch of [b] is new. *)
Lemma new_epoch_exists (a b : vec) :
  (length a < length (qdedup (a ++ b)))%nat ->
  (0 < count_true (map (fun x => negb (qinb x a)) b))%nat.
Proof.
  intros Hlt.
  destruct (existsb (fun x => negb (qinb x a)) b) eqn:E.
  - apply existsb_exists in E as (x & Hx & Hn). apply count_true_pos.
    apply in_map_iff. exists x. split; assumption.
  - exfalso. assert (Hall : forall y, In y (a ++ b) -> qinb y a = true).
    { intros y Hy. apply in_app_or in Hy as [Hy|Hy]; [now apply qinb_In|].
      destruct (qinb y a) eqn:Ey; [reflexivity|].
      assert (existsb (fun x => negb (qinb x a)) b = true).
      { apply existsb_exists. exists y. split; [exact Hy|]. now rewrite Ey. }
      congruence. }
    pose proof (qdedup_le a (a ++ b) Hall). lia.
Qed.

(** When the side [b] has pairwise distinct epochs and the union has another
    count, some epoch of [a'], which begins with [a], is new. *)
Lemma other_epoch_exists (a a' b : vec) :
  qnodupb b = true -> (forall x, In x a -> In x a') ->
  length b <> length (qdedup (a ++ b)) ->
  (0 < count_true (map (fun x => negb (qinb x b)) a'))%nat.
Proof.
  intros Hnd Hsup Hne.
  destruct (existsb (fun x => negb (qinb x b)) a') eqn:E.
  - apply existsb_exists in E as (x & Hx & Hn). apply count_true_pos.
    apply in_map_iff. exists x. split; assumption.
  - exfalso. apply Hne.
    assert (Hall : forall x, In x a -> qinb x b = true).
    { intros x Hx. destruct (qinb x b) eqn:Ex; [reflexivity|].
      assert (existsb (fun x => negb (qinb x b)) a' = true).
      { apply existsb_exists. exists x. split; [now apply Hsup | now rewrite Ex]. }
      congruence. }
    rewrite qdedup_absorb, qdedup_nodup by assumption. reflexivity.
Qed.

(** Case analysis of every field that a hypothesis [... = true] inspects. *)
Ltac inv_fields :=
  repeat match goal with
         | H : context [match ?T !! ?k with _ => _ end] |- _ =>
             let E := fresh "E" in
             destruct (T !! k) as [[]|] eqn:E; try discriminate H
         end;
  repeat match goal with
         | H : Nat.eqb _ _ = true |- _ => apply Nat.eqb_eq in H
         end.

(** Running the monadic code of a table operation on known fields. *)
Ltac run_table :=
  repeat first
    [ progress (unfold tget, tvec, tmat, tflags)
    | match goal with
      | E : ?T !! ?k = _ |- context [?T !! ?k] => rewrite E
      end
    | progress (rewrite ?lookup_insert_eq)
    | rewrite lookup_insert_ne by discriminate
    | progress cbn [foldM mbind result_bind mret result_ret fmap result_fmap] ].

Ltac lookups :=
  repeat first
    [ rewrite lookup_insert_eq
    | rewrite lookup_insert_ne by discriminate
    | rewrite lookup_empty
    | match goal with
      | E : ?T !! ?k = _ |- context [?T !! ?k] => rewrite E
      end ].

Lemma ones_like_unit (m : mat) : unit_rows (ones_like m).
Proof.
  unfold unit_rows, ones_like. apply Forall_forall. intros r Hr.
  apply in_map_iff in Hr as (r0 & <- & _). apply Forall_forall. intros x Hx.
  apply in_map_iff in Hx as (x0 & <- & _). ring.
Qed.

Lemma all_true_set (F : bmat) : set_rows (all_true F).
Proof.
  unfold set_rows, all_true. apply Forall_forall. intros r Hr.
  apply in_map_iff in Hr as (r0 & <- & _). apply Forall_forall. intros x Hx.
  apply in_map_iff in Hx as (x0 & <- & _). apply orb_true_r.
Qed.

Lemma ones_like_length (m : mat) : length (ones_like m) = length m.
Proof. apply length_map. Qed.

Lemma all_true_length (F : bmat) : length (all_true F) = length F.
Proof. apply length_map. Qed.

Lemma fabricate_vis (src : table) :
  fields_ok vis2_vals vis_vals src = true ->
  exists T, fabricate_side src "V2" vis_vals = Ok T /\
    fields_ok vis_vals vis2_vals T = true /\ grown vis_vals None T /\
    T !! "MJD" = src !! "MJD".
Proof.
  intros H. unfold fields_ok, is_vec in H. simpl in H.
  destruct (src !! "MJD") as [[mjd| | | | | | |]|] eqn:EM; try discriminate.
  split_andb. inv_fields.
  unfold fabricate_side, copied_keys, vis_vals.
  run_table.
  eexists. split; [reflexivity|]. split; [|split].
  - unfold fields_ok, is_vec, vis2_vals. cbn [forallb app]. lookups.
    rewrite !ones_like_length, all_true_length.
    repeat match goal with H : length _ = length mjd |- _ => rewrite H; clear H end.
    rewrite !Nat.eqb_refl. reflexivity.
  - exists [], mjd, [], (all_true m). split; [split; reflexivity|].
    split; [lookups; reflexivity|]. split; [lookups; reflexivity|].
    split; [rewrite all_true_length; assumption|]. split; [apply all_true_set|].
    repeat constructor; exists [], (ones_like m1);
      (split; [reflexivity|]); (split; [lookups; reflexivity|]);
      (split; [rewrite ones_like_length; assumption | apply ones_like_unit]).
  - lookups. reflexivity.
Qed.

Lemma fabricate_vis2 (src : table) :
  fields_ok vis_vals vis2_vals src = true ->
  exists T, fabricate_side src "|V|" vis2_vals = Ok T /\
    fields_ok vis2_vals vis_vals T = true /\ grown vis2_vals None T /\
    T !! "MJD" = src !! "MJD".
Proof.
  intros H. unfold fields_ok, is_vec in H. simpl in H.
  destruct (src !! "MJD") as [[mjd| | | | | | |]|] eqn:EM; try discriminate.
  split_andb. inv_fields.
  unfold fabricate_side, copied_keys, vis2_vals.
  run_table.
  eexists. split; [reflexivity|]. split; [|split].
  - unfold fields_ok, is_vec, vis_vals. cbn [forallb app]. lookups.
    rewrite !ones_like_length, all_true_length.
    repeat match goal with H : length _ = length mjd |- _ => rewrite H; clear H end.
    rewrite !Nat.eqb_refl. reflexivity.
  - exists [], mjd, [], (all_true m). split; [split; reflexivity|].
    split; [lookups; reflexivity|]. split; [lookups; reflexivity|].
    split; [rewrite all_true_length; assumption|]. split; [apply all_true_set|].
    repeat constructor; eexists [], (ones_like _);
      (split; [reflexivity|]); (split; [lookups; reflexivity|]);
      (split; [rewrite ones_like_length; assumption | apply ones_like_unit]).
  - lookups. reflexivity.
Qed.

Lemma select_count {A} (w : list bool) (a : list A) :
  length a = length w -> length (select w a) = count_true w.
Proof.
  revert a. induction w as [|b w IH]; intros a H; [reflexivity|].
  destruct a as [|x a]; [discriminate|]. rewrite select_cons.
  simpl in H. injection H as H. unfold count_true in *.
  destruct b; simpl; rewrite IH by exact H; reflexivity.
Qed.

Lemma flag_last_app (F0 F1 : bmat) (n : nat) :
  length F1 = n -> n <> 0%nat -> flag_last n (F0 ++ F1) = F0 ++ all_true F1.
Proof.
  intros H Hn. unfold flag_last. apply Nat.eqb_neq in Hn. rewrite Hn.
  rewrite length_app, H. replace (length F0 + n - n)%nat with (length F0) by lia.
  rewrite take_app_length, drop_app_length. reflexivity.
Qed.

Lemma extend_vis (src dst : table) (dm sm : vec) :
  fields_ok vis_vals vis2_vals dst = true -> fields_ok vis2_vals vis_vals src = true ->
  dst !! "MJD" = Some (Vec dm) -> src !! "MJD" = Some (Vec sm) ->
  count_true (map (fun x => negb (qinb x dm)) sm) <> 0%nat ->
  exists T, extend_side src dst "V2" vis_cols = Ok T /\
    fields_ok vis_vals vis2_vals T = true /\ grown vis_vals (Some dst) T /\
    T !! "MJD" = Some (Vec (dm ++ select (map (fun x => negb (qinb x dm)) sm) sm)).
Proof.
  intros Hd Hs Hdm Hsm Hc.
  unfold fields_ok, is_vec in Hd, Hs. rewrite Hdm in Hd. rewrite Hsm in Hs.
  simpl in Hd, Hs. split_andb. inv_fields.
  assert (Hc' : Nat.eqb (count_true (map (fun x => negb (qinb x dm)) sm)) 0 = false)
    by now apply Nat.eqb_neq.
  unfold extend_side, vis_cols.
  repeat first
    [ progress (unfold tget, tvec, tmat, tflags, extend_field, reshape_rows)
    | rewrite Hc'
    | match goal with
      | E : ?T !! ?k = _ |- context [?T !! ?k] => rewrite E
      end
    | progress (rewrite ?lookup_insert_eq)
    | rewrite lookup_insert_ne by discriminate
    | progress cbn [foldM mbind result_bind mret result_ret fmap result_fmap] ].
  eexists. split; [reflexivity|].
  set (w := map (fun x => negb (qinb x dm)) sm) in *.
  assert (Hsel : forall (A : Type) (x : list A),
             length x = length sm -> length (select w x) = count_true w).
  { intros A x Hx. apply select_count. unfold w. rewrite length_map. exact Hx. }
  rewrite (flag_last_app _ _ (count_true w)) by (auto using Hsel).
  split; [|split].
  - unfold fields_ok, is_vec, vis_vals, vis2_vals. cbn [forallb app]. lookups.
    rewrite !length_app, ?ones_like_length, ?all_true_length.
    repeat rewrite Hsel by (assumption || reflexivity).
    repeat match goal with H : length _ = length dm |- _ => rewrite H; clear H end.
    rewrite !Nat.eqb_refl. reflexivity.
  - do 4 eexists.
    split; [split; eassumption|].
    split; [lookups; reflexivity|]. split; [lookups; reflexivity|].
    split; [rewrite all_true_length; repeat rewrite Hsel by (assumption || reflexivity);
            reflexivity|].
    split; [apply all_true_set|].
    repeat constructor; eexists _, (ones_like (select w _));
      (split; [eassumption|]); (split; [lookups; reflexivity|]);
      (split; [rewrite ones_like_length; repeat rewrite Hsel by (assumption || reflexivity);
               reflexivity | apply ones_like_unit]).
  - lookups. reflexivity.
Qed.

Lemma extend_vis2 (src dst : table) (dm sm : vec) :
  fields_ok vis2_vals vis_vals dst = true -> fields_ok vis_vals vis2_vals src = true ->
  dst !! "MJD" = Some (Vec dm) -> src !! "MJD" = Some (Vec sm) ->
  count_true (map (fun x => negb (qinb x dm)) sm) <> 0%nat ->
  exists T, extend_side src dst "|V|" vis2_cols = Ok T /\
    fields_ok vis2_vals vis_vals T = true /\ grown vis2_vals (Some dst) T /\
    T !! "MJD" = Some (Vec (dm ++ select (map (fun x => negb (qinb x dm)) sm) sm)).
Proof.
  intros Hd Hs Hdm Hsm Hc.
  unfold fields_ok, is_vec in Hd, Hs. rewrite Hdm in Hd. rewrite Hsm in Hs.
  simpl in Hd, Hs. split_andb. inv_fields.
  assert (Hc' : Nat.eqb (count_true (map (fun x => negb (qinb x dm)) sm)) 0 = false)
    by now apply Nat.eqb_neq.
  unfold extend_side, vis2_cols.
  repeat first
    [ progress (unfold tget, tvec, tmat, tflags, extend_field, reshape_rows)
    | rewrite Hc'
    | match goal with
      | E : ?T !! ?k = _ |- context [?T !! ?k] => rewrite E
      end
    | progress (rewrite ?lookup_insert_eq)
    | rewrite lookup_insert_ne by discriminate
    | progress cbn [foldM mbind result_bind mret result_ret fmap result_fmap] ].
  eexists. split; [reflexivity|].
  set (w := map (fun x => negb (qinb x dm)) sm) in *.
  assert (Hsel : forall (A : Type) (x : list A),
             length x = length sm -> length (select w x) = count_true w).
  { intros A x Hx. apply select_count. unfold w. rewrite length_map. exact Hx. }
  rewrite (flag_last_app _ _ (count_true w)) by (auto using Hsel).
  split; [|split].
  - unfold fields_ok, is_vec, vis2_vals, vis_vals. cbn [forallb app]. lookups.
    rewrite !length_app, ?ones_like_length, ?all_true_length.
    repeat rewrite Hsel by (assumption || reflexivity).
    repeat match goal with H : length _ = length dm |- _ => rewrite H; clear H end.
    rewrite !Nat.eqb_refl. reflexivity.
  - do 4 eexists.
    split; [split; eassumption|].
    split; [lookups; reflexivity|]. split; [lookups; reflexivity|].
    split; [rewrite all_true_length; repeat rewrite Hsel by (assumption || reflexivity);
            reflexivity|].
    split; [apply all_true_set|].
    repeat constructor; eexists _, (ones_like (select w _));
      (split; [eassumption|]); (split; [lookups; reflexivity|]);
      (split; [rewrite ones_like_length; repeat rewrite Hsel by (assumption || reflexivity);
               reflexivity | apply ones_like_unit]).
  - lookups. reflexivity.
Qed.

Lemma grown_refl_vis (T : table) :
  fields_ok vis_vals vis2_vals T = true -> grown vis_vals (Some T) T.
Proof.
  intros H. unfold fields_ok, is_vec in H. simpl in H.
  destruct (T !! "MJD") as [[mjd| | | | | | |]|] eqn:EM; try discriminate.
  split_andb. inv_fields.
  exists mjd, [], m, []. rewrite !app_nil_r.
  split; [split; assumption|]. split; [assumption|]. split; [assumption|].
  split; [reflexivity|]. split; [constructor|].
  repeat constructor; eexists _, []; rewrite app_nil_r;
    (split; [eassumption|]); (split; [eassumption|]); (split; [reflexivity | constructor]).
Qed.

Lemma grown_refl_vis2 (T : table) :
  fields_ok vis2_vals vis_vals T = true -> grown vis2_vals (Some T) T.
Proof.
  intros H. unfold fields_ok, is_vec in H. simpl in H.
  destruct (T !! "MJD") as [[mjd| | | | | | |]|] eqn:EM; try discriminate.
  split_andb. inv_fields.
  exists mjd, [], m, []. rewrite !app_nil_r.
  split; [split; assumption|]. split; [assumption|]. split; [assumption|].
  split; [reflexivity|]. split; [constructor|].
  repeat constructor; eexists _, []; rewrite app_nil_r;
    (split; [eassumption|]); (split; [eassumption|]); (split; [reflexivity | constructor]).
Qed.

Lemma side_ok_inv (vals others : list string) (T : table) :
  side_ok vals others T = true ->
  fields_ok vals others T = true /\
  exists mjd, T !! "MJD" = Some (Vec mjd) /\ qnodupb mjd = true.
Proof.
  unfold side_ok. intros H. apply andb_prop in H as [H1 H2]. split; [exact H1|].
  destruct (T !! "MJD") as [[mjd| | | | | | |]|]; try discriminate. eauto.
Qed.

Lemma qdedup_self (a : vec) : qnodupb a = true -> qdedup (a ++ a) = a.
Proof.
  intros H. rewrite qdedup_absorb by (intros; now apply qinb_In).
  now apply qdedup_nodup.
Qed.

(** With no new epoch to append, [reshape(0, -1)] stops the extension. *)
Lemma extend_vis2_none (src dst : table) (dm sm : vec) :
  fields_ok vis2_vals vis_vals dst = true -> fields_ok vis_vals vis2_vals src = true ->
  dst !! "MJD" = Some (Vec dm) -> src !! "MJD" = Some (Vec sm) ->
  count_true (map (fun x => negb (qinb x dm)) sm) = 0%nat ->
  extend_side src dst "|V|" vis2_cols = Raise ValueError.
Proof.
  intros Hd Hs Hdm Hsm Hc.
  unfold fields_ok, is_vec in Hd, Hs. rewrite Hdm in Hd. rewrite Hsm in Hs.
  simpl in Hd, Hs. split_andb. inv_fields.
  unfold extend_side, vis2_cols.
  repeat first
    [ progress (unfold tget, tvec, tmat, tflags, extend_field, reshape_rows)
    | rewrite Hc
    | match goal with
      | E : ?T !! ?k = _ |- context [?T !! ?k] => rewrite E
      end
    | progress (rewrite ?lookup_insert_eq)
    | rewrite lookup_insert_ne by discriminate
    | progress cbn [foldM mbind result_bind mret result_ret fmap result_fmap Nat.eqb] ].
  reflexivity.
Qed.

Lemma count_true_none (w : list bool) :
  (forall b, In b w -> b = false) -> count_true w = 0%nat.
Proof.
  unfold count_true. induction w as [|b w IH]; intros H; [reflexivity|].
  simpl. rewrite (H b) by (now left). apply IH. intros c Hc. apply H. now right.
Qed.

Lemma no_new_epoch_self (m : vec) :
  count_true (map (fun x => negb (qinb x m)) m) = 0%nat.
Proof.
  apply count_true_none. intros b Hb. apply in_map_iff in Hb as (x & <- & Hx).
  now rewrite (qinb_In x m Hx).
Qed.

Lemma qdedup_twice_le (m : vec) : (length (qdedup (m ++ m)) <= length m)%nat.
Proof.
  apply qdedup_le. intros y Hy. apply qinb_In.
  apply in_app_or in Hy. tauto.
Qed.

Lemma oitem_Some {V} (d : odict V) (k : string) (v : V) :
  oget d k = Some v -> oitem d k = Ok v.
Proof. intros H. unfold oitem. now rewrite H. Qed.

Lemma tvec_Some (T : table) (k : string) (v : vec) :
  T !! k = Some (Vec v) -> tvec T k = Ok v.
Proof. intros H. unfold tvec, tget. now rewrite H. Qed.

Lemma side_ok_false (vals others : list string) (T : table) (mjd : vec) :
  T !! "MJD" = Some (Vec mjd) -> qnodupb mjd = false -> side_ok vals others T = false.
Proof. intros H Hn. unfold side_ok. rewrite H, Hn. apply andb_false_r. Qed.

Lemma fields_ok_epochs (vals others : list string) (T : table) :
  fields_ok vals others T = true -> exists mjd, T !! "MJD" = Some (Vec mjd).
Proof.
  unfold fields_ok. intros H.
  destruct (T !! "MJD") as [[mjd| | | | | | |]|]; try discriminate. eauto.
Qed.

(** Two sides with the same epochs: nothing is appended; the second test
    fails, on [reshape(0, -1)], when an epoch is repeated. *)
Lemma match_epochs_same (V V2 : odict table) (k : string) (T T2 : table) (mjd : vec) :
  oget V k = Some T -> oget V2 k = Some T2 ->
  fields_ok vis_vals vis2_vals T = true -> fields_ok vis2_vals vis_vals T2 = true ->
  T !! "MJD" = Some (Vec mjd) -> T2 !! "MJD" = Some (Vec mjd) ->
  match_epochs (V, V2) k = Ok (V, V2)
  \/ (match_epochs (V, V2) k = Raise ValueError /\ qnodupb mjd = false).
Proof.
  intros HV HV2 Hf Hf2 HT HT2. unfold match_epochs.
  rewrite (oitem_Some _ _ _ HV), (oitem_Some _ _ _ HV2). cbn [mbind result_bind].
  rewrite (tvec_Some _ _ _ HT), (tvec_Some _ _ _ HT2). cbn [mbind result_bind].
  pose proof (qdedup_twice_le mjd) as Hle.
  destruct (Nat.ltb (length mjd) (length (qdedup (mjd ++ mjd)))) eqn:Elt;
    [apply Nat.ltb_lt in Elt; lia|]. cbn [mbind result_bind].
  destruct (Nat.eqb (length mjd) (length (qdedup (mjd ++ mjd)))) eqn:Eeq; cbn [negb].
  - now left.
  - right. rewrite (oitem_Some _ _ _ HV). cbn [mbind result_bind].
    rewrite (extend_vis2_none T T2 mjd mjd Hf2 Hf HT2 HT (no_new_epoch_self mjd)).
    split; [reflexivity|].
    destruct (qnodupb mjd) eqn:En; [|reflexivity].
    rewrite (qdedup_self _ En), Nat.eqb_refl in Eeq. discriminate.
Qed.

(** The epochs one side lacks are appended to it as fabricated rows; the
    second test fails, on [reshape(0, -1)], only when an epoch of the squared
    visibilities is repeated. *)
Lemma match_epochs_spec (V V2 : odict table) (k : string) (T0 T20 : table) :
  oget V k = Some T0 -> oget V2 k = Some T20 ->
  fields_ok vis_vals vis2_vals T0 = true -> fields_ok vis2_vals vis_vals T20 = true ->
  (match_epochs (V, V2) k = Raise ValueError /\ side_ok vis2_vals vis_vals T20 = false)
  \/ exists V' V2' T T2,
       match_epochs (V, V2) k = Ok (V', V2') /\
       oget V' k = Some T /\ oget V2' k = Some T2 /\
       grown vis_vals (Some T0) T /\ grown vis2_vals (Some T20) T2 /\
       (forall k', k' <> k -> oget V' k' = oget V k' /\ oget V2' k' = oget V2 k').
Proof.
  intros HV HV2 Hf Hf2.
  destruct (fields_ok_epochs _ _ _ Hf) as (a & Ha).
  destruct (fields_ok_epochs _ _ _ Hf2) as (b & Hb).
  unfold match_epochs.
  rewrite (oitem_Some _ _ _ HV), (oitem_Some _ _ _ HV2). cbn [mbind result_bind].
  rewrite (tvec_Some _ _ _ Ha), (tvec_Some _ _ _ Hb). cbn [mbind result_bind].
  (* the side of the visibilities *)
  assert (HB : exists V' T a',
             (if Nat.ltb (length a) (length (qdedup (a ++ b))) then
                T ← extend_side T20 T0 "V2" vis_cols; Ok (oset V k T)
              else Ok V) = Ok V' /\
             oget V' k = Some T /\ fields_ok vis_vals vis2_vals T = true /\
             grown vis_vals (Some T0) T /\ T !! "MJD" = Some (Vec a') /\
             (forall x, In x a -> In x a') /\
             (forall k', k' <> k -> oget V' k' = oget V k')).
  { destruct (Nat.ltb (length a) (length (qdedup (a ++ b)))) eqn:Elt.
    - apply Nat.ltb_lt in Elt. apply new_epoch_exists in Elt.
      destruct (extend_vis T20 T0 a b Hf Hf2 Ha Hb ltac:(lia)) as (T & HT & HfT & Hg & Hm).
      rewrite HT. cbn [mbind result_bind].
      exists (oset V k T), T, (a ++ select (map (fun x => negb (qinb x a)) b) b).
      split; [reflexivity|]. split; [apply oget_oset_eq|].
      split; [exact HfT|]. split; [exact Hg|]. split; [exact Hm|].
      split; [intros x Hx; apply in_or_app; now left|].
      intros k' Hk'. apply oget_oset_ne. congruence.
    - exists V, T0, a. split; [reflexivity|]. split; [exact HV|].
      split; [exact Hf|]. split; [now apply grown_refl_vis|]. split; [exact Ha|].
      split; [tauto|]. reflexivity. }
  destruct HB as (V' & T & a' & HV' & HT & HfT & Hg & Hm & Hsup & Hframe).
  rewrite HV'. cbn [mbind result_bind].
  (* the side of the squared visibilities *)
  destruct (Nat.eqb (length b) (length (qdedup (a ++ b)))) eqn:Eeq; cbn [negb].
  - right. exists V', V2, T, T20. split; [reflexivity|]. split; [exact HT|].
    split; [exact HV2|]. split; [exact Hg|]. split; [now apply grown_refl_vis2|].
    intros k' Hk'. split; [now apply Hframe | reflexivity].
  - apply Nat.eqb_neq in Eeq.
    rewrite (oitem_Some _ _ _ HT). cbn [mbind result_bind].
    destruct (Nat.eq_dec (count_true (map (fun x => negb (qinb x b)) a')) 0) as [Hz|Hnz].
    + left. rewrite (extend_vis2_none T T20 b a' Hf2 HfT Hb Hm Hz).
      split; [reflexivity|]. apply (side_ok_false _ _ _ b Hb).
      destruct (qnodupb b) eqn:En; [|reflexivity].
      pose proof (other_epoch_exists a a' b En Hsup Eeq). lia.
    + right.
      destruct (extend_vis2 T T20 b a' Hf2 HfT Hb Hm Hnz) as (T2 & HT2 & HfT2 & Hg2 & Hm2).
      rewrite HT2. cbn [mbind result_bind].
      exists V', (oset V2 k T2), T, T2. split; [reflexivity|]. split; [exact HT|].
      split; [apply oget_oset_eq|]. split; [exact Hg|]. split; [exact Hg2|].
      intros k' Hk'. split; [now apply Hframe|]. apply oget_oset_ne. congruence.
Qed.

(** One turn of [for k in kz]. *)
Lemma match_name_spec (V V2 : odict table) (k : string) :
  omem V k || omem V2 k = true ->
  (forall T, oget V k = Some T -> fields_ok vis_vals vis2_vals T = true) ->
  (forall T, oget V2 k = Some T -> fields_ok vis2_vals vis_vals T = true) ->
  (match_name (V, V2) k = Raise ValueError /\ repeated_epoch V V2 k)
  \/ exists V' V2' T T2,
       match_name (V, V2) k = Ok (V', V2') /\
       oget V' k = Some T /\ oget V2' k = Some T2 /\
       grown vis_vals (oget V k) T /\ grown vis2_vals (oget V2 k) T2 /\
       (forall k', k' <> k -> oget V' k' = oget V k' /\ oget V2' k' = oget V2 k').
Proof.
  intros Hk HV HV2. unfold match_name, fabricate_name, omem, repeated_epoch in *.
  destruct (oget V k) as [T0|] eqn:EV; destruct (oget V2 k) as [T20|] eqn:EV2;
    try discriminate; cbn [negb mbind result_bind].
  - destruct (match_epochs_spec V V2 k T0 T20 EV EV2 (HV _ eq_refl) (HV2 _ eq_refl))
      as [[Hr Hbad]|Hok]; [left|right; exact Hok].
    split; [exact Hr|]. right. eauto.
  - (* the squared visibilities lack the name *)
    pose proof (HV _ eq_refl) as Hf. destruct (fields_ok_epochs _ _ _ Hf) as (a & Ha).
    unfold oitem. rewrite EV. cbn [mbind result_bind].
    destruct (fabricate_vis2 T0 Hf) as (T2 & HT2 & HfT2 & Hg2 & Hm2).
    fold vis2_vals. rewrite HT2. cbn [mbind result_bind].
    destruct (match_epochs_same V (oset V2 k T2) k T0 T2 a EV (oget_oset_eq _ _ _) Hf HfT2 Ha
                ltac:(congruence)) as [Hs|[Hr Hn]]; [right|left].
    + rewrite Hs.
      exists V, (oset V2 k T2), T0, T2. split; [reflexivity|]. split; [exact EV|].
      split; [apply oget_oset_eq|]. split; [now apply grown_refl_vis|]. split; [exact Hg2|].
      intros k' Hk'. split; [reflexivity|]. apply oget_oset_ne. congruence.
    + split; [exact Hr|]. left. exists T0. split; [reflexivity|].
      now apply (side_ok_false _ _ _ a).
  - (* the visibilities lack the name *)
    pose proof (HV2 _ eq_refl) as Hf2. destruct (fields_ok_epochs _ _ _ Hf2) as (b & Hb).
    unfold oitem. rewrite EV2. cbn [mbind result_bind].
    destruct (fabricate_vis T20 Hf2) as (T & HT & HfT & Hg & Hm).
    fold vis_vals. rewrite HT. cbn [mbind result_bind].
    destruct (match_epochs_same (oset V k T) V2 k T T20 b (oget_oset_eq _ _ _) EV2 HfT Hf2
                ltac:(congruence) Hb) as [Hs|[Hr Hn]]; [right|left].
    + rewrite Hs.
      exists (oset V k T), V2, T, T20. split; [reflexivity|]. split; [apply oget_oset_eq|].
      split; [exact EV2|]. split; [exact Hg|]. split; [now apply grown_refl_vis2|].
      intros k' Hk'. split; [|reflexivity]. apply oget_oset_ne. congruence.
    + split; [exact Hr|]. right. exists T20. split; [reflexivity|].
      now apply (side_ok_false _ _ _ b).
Qed.

(** The loop [for k in kz] over names without repetition. *)
Lemma match_names_spec (ks : list string) :
  List.NoDup ks -> forall V V2 : odict table,
  (forall k, In k ks -> omem V k || omem V2 k = true) ->
  (forall k T, In k ks -> oget V k = Some T -> fields_ok vis_vals vis2_vals T = true) ->
  (forall k T, In k ks -> oget V2 k = Some T -> fields_ok vis2_vals vis_vals T = true) ->
  (foldM match_name (V, V2) ks = Raise ValueError
   /\ exists k, In k ks /\ repeated_epoch V V2 k)
  \/ exists V' V2',
       foldM match_name (V, V2) ks = Ok (V', V2') /\
       (forall k, In k ks -> exists T T2,
           oget V' k = Some T /\ oget V2' k = Some T2 /\
           grown vis_vals (oget V k) T /\ grown vis2_vals (oget V2 k) T2) /\
       (forall k, ~ In k ks -> oget V' k = oget V k /\ oget V2' k = oget V2 k).
Proof.
  induction 1 as [|k ks Hnin Hnd IH]; intros V V2 Hmem HV HV2.
  - right. exists V, V2. split; [reflexivity|]. split; [intros k []|]. intros; split; reflexivity.
  - cbn [foldM].
    destruct (match_name_spec V V2 k (Hmem k (or_introl eq_refl))
                (fun T => HV k T (or_introl eq_refl)) (fun T => HV2 k T (or_introl eq_refl)))
      as [[Hr Hbad]|(V1 & V21 & T & T2 & Hok & HT & HT2 & Hg & Hg2 & Hframe)].
    + left. rewrite Hr. split; [reflexivity|]. exists k. split; [now left | exact Hbad].
    + rewrite Hok. cbn [mbind result_bind].
      assert (Hother : forall k', In k' ks -> k' <> k) by (intros k' Hin ->; contradiction).
      destruct (IH V1 V21) as [[Hr (k' & Hin & Hbad)]|(V' & V2' & Hfold & Hin & Hout)].
      * intros k' Hk'. unfold omem.
        destruct (Hframe k' (Hother k' Hk')) as [-> ->]. now apply Hmem; right.
      * intros k' T' Hk' HT'. destruct (Hframe k' (Hother k' Hk')) as [E _].
        rewrite E in HT'. eapply HV; [right|]; eassumption.
      * intros k' T' Hk' HT'. destruct (Hframe k' (Hother k' Hk')) as [_ E].
        rewrite E in HT'. eapply HV2; [right|]; eassumption.
      * left. split; [exact Hr|]. exists k'. split; [now right|].
        unfold repeated_epoch in *. destruct (Hframe k' (Hother k' Hin)) as [E1 E2].
        now rewrite E1, E2 in Hbad.
      * right. exists V', V2'. split; [exact Hfold|]. split.
        -- intros k' [<-|Hk'].
           ++ destruct (Hout k Hnin) as [E1 E2]. exists T, T2. rewrite E1, E2. tauto.
           ++ destruct (Hin k' Hk') as (T' & T2' & H1 & H2 & H3 & H4).
              destruct (Hframe k' (Hother k' Hk')) as [E1 E2]. rewrite E1, E2 in *. eauto 10.
        -- intros k' Hk'. destruct (Hout k' (fun H => Hk' (or_intror H))) as [E1 E2].
           destruct (Hframe k' ltac:(intros ->; apply Hk'; now left)) as [E3 E4].
           split; congruence.
Qed.

Lemma dedup_str_In (x : string) (l : list string) : In x (dedup_str l) <-> In x l.
Proof.
  induction l as [|y l IH]; simpl; [tauto|].
  destruct (inb y l) eqn:E.
  - apply inb_In in E. rewrite IH. split; [tauto|]. intros [<-|H]; assumption.
  - simpl. rewrite IH. tauto.
Qed.

Lemma dedup_str_NoDup (l : list string) : List.NoDup (dedup_str l).
Proof.
  induction l as [|y l IH]; simpl; [constructor|].
  destruct (inb y l) eqn:E; [exact IH|].
  constructor; [|exact IH]. rewrite dedup_str_In. intros H.
  apply inb_In in H. congruence.
Qed.

Lemma omem_keys {V} (d : odict V) (k : string) : omem d k = true <-> In k (okeys d).
Proof.
  unfold omem. pose proof (oget_None_keys d k) as H.
  destruct (oget d k); split; intros H'; try reflexivity; try discriminate.
  - destruct (in_dec String.string_dec k (okeys d)) as [Hi|Hn]; [exact Hi|].
    apply H in Hn. discriminate.
  - exfalso. now apply (proj1 H).
Qed.

Lemma oget_In {V} (d : odict V) (k : string) (v : V) : oget d k = Some v -> In (k, v) d.
Proof.
  induction d as [|[k' v'] d IH]; simpl; [discriminate|].
  destruct (String.eqb k k') eqn:E.
  - apply String.eqb_eq in E. subst. intros [= ->]. now left.
  - intros H. right. now apply IH.
Qed.



(** * Further properties *)

Lemma covers_refl (F : bmat) : covers F F.
Proof.
  unfold covers. induction F as [|row F IH]; constructor; [|exact IH].
  induction row; constructor; auto.
Qed.

Lemma Forall2_chain {A} (R : A -> A -> Prop) :
  (forall x y z, R x y -> R y z -> R x z) ->
  forall l1 l2 l3, Forall2 R l1 l2 -> Forall2 R l2 l3 -> Forall2 R l1 l3.
Proof.
  intros HR l1 l2 l3 H12. revert l3.
  induction H12 as [|x y l1 l2 Hxy H12 IH]; intros l3 H23; inversion H23; subst;
    constructor; eauto.
Qed.

Lemma covers_trans (F0 F1 F2 : bmat) : covers F0 F1 -> covers F1 F2 -> covers F0 F2.
Proof.
  unfold covers. apply Forall2_chain. intros r0 r1 r2.
  apply Forall2_chain. auto.
Qed.

Lemma shaped_of_table {r c : nat} {T : table} {k : string} {m : mat} :
  table_shape r c T -> T !! k = Some (Mat m) -> shaped r c m.
Proof.
  intros H Hk. destruct (H k _ Hk) as [Hr Hc]. split; [now apply Hr|].
  simpl in Hc. apply Forall_forall. intros row Hrow.
  rewrite forallb_forall in Hc. apply Nat.eqb_eq. apply Hc. exact Hrow.
Qed.

Lemma shaped_of_flags {r c : nat} {T : table} {k : string} {m : bmat} :
  table_shape r c T -> T !! k = Some (Flags m) -> shaped r c m.
Proof.
  intros H Hk. destruct (H k _ Hk) as [Hr Hc]. split; [now apply Hr|].
  simpl in Hc. apply Forall_forall. intros row Hrow.
  rewrite forallb_forall in Hc. apply Nat.eqb_eq. apply Hc. exact Hrow.
Qed.

Lemma shaped_map {A B} (r c : nat) (f : A -> B) (m : list (list A)) :
  shaped r c m -> shaped r c (map (map f) m).
Proof.
  intros [Hr Hc]. split; [now rewrite length_map|].
  apply Forall_forall. intros row Hrow. apply in_map_iff in Hrow as (row0 & <- & Hin).
  rewrite length_map. rewrite Forall_forall in Hc. now apply Hc.
Qed.

Lemma covers_shaped (r c : nat) (F0 F : bmat) : covers F0 F -> shaped r c F0 -> shaped r c F.
Proof.
  unfold covers, shaped. intros H [Hr Hc]. split.
  - rewrite <- Hr. symmetry. eapply Forall2_length. exact H.
  - clear Hr. induction H as [|r0 r1 F0 F1 Hrow H IH]; [constructor|].
    inversion Hc; subst. constructor; [|auto].
    symmetry. eapply Forall2_length. exact Hrow.
Qed.

(** [flag += err >= bound] on arrays of one shape keeps the flags that are
    set and sets those of the samples at or above their bound. *)
Lemma flag_ge_spec (r c : nat) (flag : bmat) (err bound : mat) :
  shaped r c flag -> shaped r c err -> shaped r c bound ->
  covers flag (flag_ge flag err bound) /\
  forall i j e b, mat_at err i j = Some e -> mat_at bound i j = Some b ->
    (b <= e)%Q -> mat_at (flag_ge flag err bound) i j = Some true.
Proof.
  intros [Hfr Hfc] [Her Hec] [Hbr Hbc]. subst r.
  revert err bound Her Hec Hbr Hbc.
  induction flag as [|fr flag IH]; intros err bound Her Hec Hbr Hbc.
  - destruct err; [|discriminate]. split; [constructor|].
    intros i j e b H. unfold mat_at in H. rewrite lookup_nil in H. discriminate.
  - destruct err as [|er err]; [discriminate|]. destruct bound as [|br bound]; [discriminate|].
    inversion Hfc as [|? ? Hf1 Hf2]; subst. inversion Hec as [|? ? He1 He2]; subst.
    inversion Hbc as [|? ? Hb1 Hb2]; subst.
    simpl in Her, Hbr. injection Her as Her. injection Hbr as Hbr.
    destruct (IH Hf2 err bound Her He2 Hbr Hb2) as [IH1 IH2].
    assert (Hrow : Forall2 (fun b0 b : bool => b0 = true -> b = true) fr
                     (zip_with (fun (f : bool) (eb : Q * Q) => f || Qle_bool eb.2 eb.1) fr
                        (zip_with pair er br))
                   /\ forall j e b, er !! j = Some e -> br !! j = Some b -> (b <= e)%Q ->
                        zip_with (fun (f : bool) (eb : Q * Q) => f || Qle_bool eb.2 eb.1) fr
                          (zip_with pair er br) !! j = Some true).
    { clear - He1 Hb1. revert er br He1 Hb1.
      induction fr as [|f fr IHr]; intros er br He1 Hb1.
      - destruct er; [|discriminate]. split; [constructor|]. intros j e b H. discriminate.
      - destruct er as [|e0 er]; [discriminate|]. destruct br as [|b0 br]; [discriminate|].
        simpl in He1, Hb1. injection He1 as He1. injection Hb1 as Hb1.
        destruct (IHr er br He1 Hb1) as [I1 I2]. split.
        + simpl. constructor; [|exact I1]. intros ->. reflexivity.
        + intros [|j] e b He Hb Hle; simpl in *.
          * injection He as ->. injection Hb as ->.
            apply Qle_bool_iff in Hle. rewrite Hle. now rewrite orb_true_r.
          * eapply I2; eassumption. }
    destruct Hrow as [R1 R2]. split.
    + unfold flag_ge, mat_map2. simpl. constructor; [exact R1 | exact IH1].
    + intros [|i] j e b He Hb Hle; unfold mat_at in *; simpl in *.
      * eapply R2; eassumption.
      * eapply IH2; eassumption.
Qed.

Lemma mat_at_const {A B} (m : list (list A)) (b : B) (i j : nat) (a : A) :
  mat_at m i j = Some a -> mat_at (map (map (fun _ => b)) m) i j = Some b.
Proof.
  unfold mat_at. rewrite list_lookup_fmap.
  destruct (m !! i) as [row|]; [|discriminate]. simpl.
  rewrite list_lookup_fmap. intros ->. reflexivity.
Qed.

Lemma mat_at_map {A B} (f : A -> B) (m : list (list A)) (i j : nat) :
  mat_at (map (map f) m) i j = f <$> mat_at m i j.
Proof.
  unfold mat_at. rewrite list_lookup_fmap.
  destruct (m !! i) as [row|]; [|reflexivity]. simpl. apply list_lookup_fmap.
Qed.

Lemma covers_at (F0 F : bmat) (i j : nat) :
  covers F0 F -> mat_at F0 i j = Some true -> mat_at F i j = Some true.
Proof.
  unfold covers, mat_at. intros H. revert i.
  induction H as [|r0 r1 F0 F1 Hrow H IH]; intros [|i]; simpl; try discriminate; [|apply IH].
  clear - Hrow. revert j. induction Hrow as [|b0 b1 r0 r1 Hb Hrow IH]; intros [|j]; simpl;
    try discriminate; [|apply IH].
  intros [= ->]. now rewrite Hb.
Qed.

Lemma max_error_step_covers (r c : nat) (ext : table) (me : gmap string Q) (flag flag' : bmat)
    (k : string) :
  table_shape r c ext -> shaped r c flag ->
  max_error_step ext me flag k = Ok flag' -> covers flag flag'.
Proof.
  intros Hs Hf. unfold max_error_step.
  destruct (me !! _) as [b|]; [|intros [= <-]; apply covers_refl].
  destruct (ext !! _) as [f|] eqn:E; [|intros [= <-]; apply covers_refl].
  unfold tmat, tget. rewrite E. simpl. destruct f; try discriminate. intros [= <-].
  pose proof (shaped_of_table Hs E) as He.
  apply (flag_ge_spec r c); auto using shaped_map.
Qed.

Lemma max_relative_step_covers (r c : nat) (ext : table) (mr : gmap string Q)
    (flag flag' : bmat) (k : string) :
  table_shape r c ext -> shaped r c flag ->
  max_relative_step ext mr flag k = Ok flag' -> covers flag flag'.
Proof.
  intros Hs Hf. unfold max_relative_step.
  destruct (mr !! _) as [b|]; [|intros [= <-]; apply covers_refl].
  destruct (ext !! ("E" +:+ k)) as [f|] eqn:E; [|intros [= <-]; apply covers_refl].
  unfold tmat, tget. rewrite E. simpl. destruct f; try discriminate.
  destruct (ext !! k) as [[]|] eqn:Ek; simpl; try discriminate. intros [= <-].
  pose proof (shaped_of_table Hs E) as He. pose proof (shaped_of_table Hs Ek) as Hx.
  apply (flag_ge_spec r c); auto using shaped_map.
Qed.

Lemma foldM_covers {A} (r c : nat) (step : bmat -> A -> result bmat) (ks : list A) :
  (forall flag flag' k, shaped r c flag -> step flag k = Ok flag' -> covers flag flag') ->
  forall flag flag', shaped r c flag -> foldM step flag ks = Ok flag' -> covers flag flag'.
Proof.
  intros Hstep. induction ks as [|k ks IH]; intros flag flag' Hf; simpl.
  - intros [= <-]. apply covers_refl.
  - destruct (step flag k) as [flag1|] eqn:E; simpl; [|discriminate].
    intros H. pose proof (Hstep _ _ _ Hf E) as H1.
    eapply covers_trans; [exact H1|]. eapply IH; [|exact H].
    eapply covers_shaped; eassumption.
Qed.

Lemma filt_flags_covers (r c : nat) (ext : table) (filt : config) (flag flag' : bmat) :
  table_shape r c ext -> shaped r c flag ->
  filt_flags ext filt flag = Ok flag' -> covers flag flag'.
Proof.
  intros Hs Hf. unfold filt_flags.
  set (first := match filt !! "max error" with
                | Some me => foldM (max_error_step ext me) flag (map fst (map_to_list me))
                | None => Ok flag
                end).
  assert (H1 : forall flag1, first = Ok flag1 -> covers flag flag1).
  { intros flag1. unfold first. destruct (filt !! "max error") as [me|].
    - apply (foldM_covers r c); [|exact Hf]. intros. eapply max_error_step_covers; eassumption.
    - intros [= <-]. apply covers_refl. }
  destruct first as [flag1|]; simpl; [|discriminate].
  specialize (H1 flag1 eq_refl). intros H.
  eapply covers_trans; [exact H1|].
  destruct (filt !! "max relative error") as [mr|].
  - eapply (foldM_covers r c); [| |exact H].
    + intros. eapply max_relative_step_covers; eassumption.
    + eapply covers_shaped; eassumption.
  - injection H as <-. apply covers_refl.
Qed.

(** X1.  [_filtFlag] only adds flags: what it returns has the shape of
    [ext['FLAG']] and every flag set there is set in it. *)
Theorem filtFlag_keeps_flags (r c : nat) (ext : table) (filt : config) (F0 F : bmat) :
  table_shape r c ext -> ext !! "FLAG" = Some (Flags F0) ->
  (_filtFlag ext filt).2 = Ok F -> covers F0 F.
Proof.
  intros Hs HF. pose proof (shaped_of_flags Hs HF) as Hsh.
  unfold _filtFlag, tflags, tget. rewrite HF. simpl.
  destruct (filt !! "max error") as [me|] eqn:Eme.
  - destruct (ext !! "FLUX") as [fx|].
    + destruct (me !! "NFLUX") as [c0|].
      * destruct (field_mean fx) as [mu|]; simpl; [|discriminate].
        apply (filt_flags_covers r c); assumption.
      * apply (filt_flags_covers r c); assumption.
    + apply (filt_flags_covers r c); assumption.
  - destruct (filt !! "max relative error") as [mr|] eqn:Emr.
    + destruct (ext !! "FLUX") as [fx|]; apply (filt_flags_covers r c); assumption.
    + simpl. intros [= <-]. apply covers_refl.
Qed.

Lemma filtFlag_keeps_flags_witness :
  covers [[false; true]] [[true; true]].
Proof.
  apply (filtFlag_keeps_flags 1 2 (flux_table_err 2 4 1 (1 # 10) false true)
           {[ "max error" := {[ "FLUX" := (1 # 2)%Q ]} ]} [[false; true]] [[true; true]]).
  - apply table_shapeb_spec. vm_compute. reflexivity.
  - reflexivity.
  - vm_compute. reflexivity.
Defined.

Lemma max_error_step_sets (r c : nat) (ext : table) (me : gmap string Q) (flag flag' : bmat)
    (k : string) (cb : Q) (err : mat) (i j : nat) (e : Q) :
  table_shape r c ext -> shaped r c flag -> k <> "DPHI" ->
  me !! k = Some cb -> ext !! ("E" +:+ k) = Some (Mat err) ->
  mat_at err i j = Some e -> (cb <= e)%Q ->
  max_error_step ext me flag k = Ok flag' -> mat_at flag' i j = Some true.
Proof.
  intros Hs Hf Hk Hme He Hij Hle. unfold max_error_step.
  destruct (String.eqb k "DPHI") eqn:Ek; [apply String.eqb_eq in Ek; contradiction|].
  rewrite Hme, He. unfold tmat, tget. rewrite He. simpl. intros [= <-].
  pose proof (shaped_of_table Hs He) as Hsh.
  eapply (flag_ge_spec r c); eauto using shaped_map.
  eapply mat_at_const. exact Hij.
Qed.

Lemma foldM_sets {A} (r c : nat) (step : bmat -> A -> result bmat) (ks : list A) (k : A)
    (i j : nat) :
  (forall flag flag' k, shaped r c flag -> step flag k = Ok flag' -> covers flag flag') ->
  (forall flag flag', shaped r c flag -> step flag k = Ok flag' ->
     mat_at flag' i j = Some true) ->
  In k ks ->
  forall flag flag', shaped r c flag -> foldM step flag ks = Ok flag' ->
    mat_at flag' i j = Some true.
Proof.
  intros Hcov Hset. induction ks as [|k0 ks IH]; intros Hin flag flag' Hf; [destruct Hin|].
  simpl. destruct (step flag k0) as [flag1|] eqn:E; simpl; [|discriminate].
  intros H. pose proof (Hcov _ _ _ Hf E) as H1.
  pose proof (covers_shaped r c _ _ H1 Hf) as Hf1.
  destruct Hin as [->|Hin].
  - eapply covers_at; [|exact (Hset _ _ Hf E)].
    eapply (foldM_covers r c); eassumption.
  - eapply IH; eassumption.
Qed.

(** The flags that the loop on the ['max error'] rules sets. *)
Lemma filtFlag_flags_at (r c : nat) (ext : table) (filt : config)
    (me : gmap string Q) (k : string) (cb : Q) (err : mat) (F0 F : bmat) (i j : nat) (e : Q) :
  table_shape r c ext -> ext !! "FLAG" = Some (Flags F0) ->
  (_filtFlag ext filt).1 !! "max error" = Some me -> me !! k = Some cb -> k <> "DPHI" ->
  ext !! ("E" +:+ k) = Some (Mat err) -> mat_at err i j = Some e -> (cb <= e)%Q ->
  (_filtFlag ext filt).2 = Ok F -> mat_at F i j = Some true.
Proof.
  intros Hs HF Hme Hk Hd He Hij Hle HF'.
  pose proof (shaped_of_flags Hs HF) as Hsh.
  assert (Hrun : filt_flags ext (_filtFlag ext filt).1 F0 = Ok F).
  { revert Hme HF'. unfold _filtFlag, tflags, tget. rewrite HF. simpl.
    destruct (filt !! "max error") as [me0|] eqn:Eme.
    - destruct (ext !! "FLUX") as [fx|]; [|auto].
      destruct (me0 !! "NFLUX") as [c0|]; [|auto].
      destruct (field_mean fx) as [mu|]; simpl; intros ? ?; (assumption || discriminate).
    - destruct (filt !! "max relative error") as [mr|] eqn:Emr.
      + destruct (ext !! "FLUX") as [fx|]; auto.
      + simpl. rewrite Eme. discriminate. }
  revert Hrun. unfold filt_flags. rewrite Hme.
  destruct (foldM (max_error_step ext me) F0 (map fst (map_to_list me))) as [F1|] eqn:E1;
    simpl; [|discriminate].
  assert (H1 : mat_at F1 i j = Some true).
  { eapply (foldM_sets r c (max_error_step ext me) _ k); [| | |exact Hsh|exact E1].
    - intros. eapply max_error_step_covers; eassumption.
    - intros. eapply max_error_step_sets; eassumption.
    - apply in_map_iff. exists (k, cb). split; [reflexivity|].
      apply list_elem_of_In. now apply elem_of_map_to_list. }
  assert (Hsh1 : shaped r c F1).
  { eapply covers_shaped; [|exact Hsh]. eapply (foldM_covers r c); [|exact Hsh|exact E1].
    intros. eapply max_error_step_covers; eassumption. }
  intros H2. eapply covers_at; [|exact H1].
  destruct ((_filtFlag ext filt).1 !! "max relative error") as [mr|].
  - eapply (foldM_covers r c); [|exact Hsh1|exact H2].
    intros. eapply max_relative_step_covers; eassumption.
  - injection H2 as <-. apply covers_refl.
Qed.

(** The rule of ['DPHI'] alone: the loop reads the rule of ['PHI'], and finds
    none. *)
Lemma filtFlag_dphi_alone (ext : table) (F0 : bmat) (cb : Q) :
  ext !! "FLAG" = Some (Flags F0) ->
  (_filtFlag ext {[ "max error" := {[ "DPHI" := cb ]} ]}).2 = Ok F0.
Proof.
  intros HF. unfold _filtFlag, tflags, tget. rewrite HF. cbn [mbind result_bind].
  rewrite lookup_singleton_eq.
  assert (Hrun : filt_flags ext {[ "max error" := {[ "DPHI" := cb ]} ]} F0 = Ok F0).
  { unfold filt_flags. rewrite lookup_singleton_eq, map_to_list_singleton.
    cbn [map fst foldM]. unfold max_error_step. cbn [String.eqb Ascii.eqb Bool.eqb].
    rewrite lookup_singleton_ne by discriminate. cbn [mbind result_bind].
    rewrite lookup_singleton_ne by discriminate. reflexivity. }
  destruct (ext !! "FLUX") as [fx|]; [|exact Hrun].
  rewrite lookup_singleton_ne by discriminate. exact Hrun.
Qed.

(** X2.  A sample whose error is at or above the bound that the configuration
    holds, once [_filtFlag] has edited it, for an observable other than
    ['DPHI'] comes back flagged.  For ['DPHI'] the loop renames the key to
    ['PHI'] and reads the rule of ['PHI'], so the bound given for ['DPHI'] is
    never compared: a configuration whose only rule is a bound for ['DPHI']
    returns the flags as they were, whatever the errors. *)
Theorem filtFlag_flags_large_errors (r c : nat) (ext : table) (F0 : bmat) :
  table_shape r c ext -> ext !! "FLAG" = Some (Flags F0) ->
  (forall (filt : config) (me : gmap string Q) (k : string) (cb : Q) (err : mat) (F : bmat)
          (i j : nat) (e : Q),
     (_filtFlag ext filt).1 !! "max error" = Some me -> me !! k = Some cb -> k <> "DPHI" ->
     ext !! ("E" +:+ k) = Some (Mat err) -> mat_at err i j = Some e -> (cb <= e)%Q ->
     (_filtFlag ext filt).2 = Ok F -> mat_at F i j = Some true) /\
  (forall cb : Q, (_filtFlag ext {[ "max error" := {[ "DPHI" := cb ]} ]}).2 = Ok F0).
Proof.
  intros Hs HF. split.
  - intros filt me k cb err F i j e. now apply (filtFlag_flags_at r c ext filt me k cb err F0).
  - intros cb. now apply filtFlag_dphi_alone.
Qed.

Lemma filtFlag_flags_large_errors_witness :
  (exists F, (_filtFlag (flux_table_err 2 4 1 (1 # 10) false true)
                {[ "max error" := {[ "NFLUX" := (1 # 10)%Q ]} ]}).2 = Ok F /\
             mat_at F 0 0 = Some true) /\
  (_filtFlag phi_table_err {[ "max error" := {[ "DPHI" := 1%Q ]} ]}).2
  = Ok [[false; false]].
Proof.
  split.
  - exists [[true; true]]. split; [vm_compute; reflexivity|].
    assert (Hs : table_shape 1 2 (flux_table_err 2 4 1 (1 # 10) false true))
      by (apply table_shapeb_spec; vm_compute; reflexivity).
    apply (proj1 (filtFlag_flags_large_errors 1 2 (flux_table_err 2 4 1 (1 # 10) false true)
                    [[false; true]] Hs eq_refl)
             {[ "max error" := {[ "NFLUX" := (1 # 10)%Q ]} ]}
             (<["FLUX" := ((1 # 10) * mat_mean [[2; 4]%Q])%Q]> {[ "NFLUX" := (1 # 10)%Q ]})
             "FLUX" ((1 # 10) * mat_mean [[2; 4]%Q])%Q [[1; 1 # 10]%Q] [[true; true]] 0 0 1%Q).
    + vm_compute. reflexivity.
    + reflexivity.
    + discriminate.
    + reflexivity.
    + reflexivity.
    + vm_compute. discriminate.
    + vm_compute. reflexivity.
  - assert (Hs : table_shape 1 2 phi_table_err)
      by (apply table_shapeb_spec; vm_compute; reflexivity).
    apply (proj2 (filtFlag_flags_large_errors 1 2 phi_table_err [[false; false]] Hs eq_refl)).
Defined.

Lemma at_least_bound (b e : Q) : (b <= at_least b e)%Q /\ (e <= at_least b e)%Q.
Proof.
  unfold at_least. destruct (Qltb e b) eqn:E.
  - apply Qltb_lt in E. split; [apply Qle_refl | now apply Qlt_le_weak].
  - apply Qltb_ge in E. split; [exact E | apply Qle_refl].
Qed.

Lemma mat_at_map2 {A B C} (f : A -> B -> C) (a : list (list A)) (b : list (list B))
    (i j : nat) :
  mat_at (mat_map2 f a b) i j
  = match mat_at a i j, mat_at b i j with
    | Some x, Some y => Some (f x y)
    | _, _ => None
    end.
Proof.
  unfold mat_at, mat_map2. rewrite lookup_zip_with.
  destruct (a !! i) as [ra|]; simpl; [|reflexivity].
  destruct (b !! i) as [rb|]; simpl.
  - rewrite lookup_zip_with. destruct (ra !! j); simpl; [|reflexivity].
    destruct (rb !! j); reflexivity.
  - destruct (ra !! j); reflexivity.
Qed.

Lemma shaped_at {A} (r c : nat) (m : list (list A)) (i j : nat) :
  shaped r c m -> (i < r)%nat -> (j < c)%nat -> is_Some (mat_at m i j).
Proof.
  intros [Hr Hc] Hi Hj. unfold mat_at.
  destruct (lookup_lt_is_Some_2 m i ltac:(lia)) as [row Hrow]. rewrite Hrow. simpl.
  apply lookup_lt_is_Some_2. rewrite Forall_forall in Hc.
  rewrite (Hc row); [exact Hj|]. eapply list_elem_of_lookup_2 in Hrow.
  now apply list_elem_of_In.
Qed.

Lemma at_shaped {A} (r c : nat) (m : list (list A)) (i j : nat) (a : A) :
  shaped r c m -> mat_at m i j = Some a -> (i < r)%nat /\ (j < c)%nat.
Proof.
  intros [Hr Hc]. unfold mat_at. destruct (m !! i) as [row|] eqn:Hrow; [|discriminate].
  simpl. intros Hj. split.
  - rewrite <- Hr. eapply lookup_lt_Some. exact Hrow.
  - rewrite Forall_forall in Hc. rewrite <- (Hc row).
    + eapply lookup_lt_Some. exact Hj.
    + eapply list_elem_of_lookup_2 in Hrow. now apply list_elem_of_In.
Qed.

Lemma shaped_map2 {A B C} (r c : nat) (f : A -> B -> C) (a : list (list A))
    (b : list (list B)) :
  shaped r c a -> shaped r c b -> shaped r c (mat_map2 f a b).
Proof.
  intros [Ha Hca] [Hb Hcb]. subst r. unfold mat_map2. revert b Hb Hcb.
  induction a as [|ra a IH]; intros b Hb Hcb.
  - split; [reflexivity | constructor].
  - destruct b as [|rb b]; [discriminate|]. simpl in Hb. injection Hb as Hb.
    inversion Hca; subst. inversion Hcb; subst.
    destruct (IH ltac:(assumption) b Hb ltac:(assumption)) as [I1 I2]. split.
    + simpl. now rewrite I1.
    + simpl. constructor; [|exact I2].
      rewrite length_zip_with. lia.
Qed.

(** X3.  [_filtErr] returns an array of the shape of [ext['E'+t]]; each error in it
    is at least the ['min error'] bound and at least the ['min relative error']
    bound times the absolute value of the sample; without a ['mult error']
    factor no error is lowered, and without any rule the errors are those of
    the table. *)
Theorem filtErr_bounds (r c : nat) (t : string) (ext : table) (filt : config)
    (err err' : mat) :
  table_shape r c ext -> ext !! ("E" +:+ t) = Some (Mat err) ->
  _filtErr t ext filt = Ok err' ->
  shaped r c err' /\
  forall i j e, mat_at err i j = Some e ->
    exists e', mat_at err' i j = Some e' /\
      (rule filt "mult error" t = None -> (e <= e')%Q) /\
      (forall cm, rule filt "min error" t = Some cm -> (cm <= e')%Q) /\
      (forall cr X x, rule filt "min relative error" t = Some cr ->
         ext !! t = Some (Mat X) -> mat_at X i j = Some x -> (cr * Qabs x <= e')%Q) /\
      (rule filt "mult error" t = None -> rule filt "min error" t = None ->
       rule filt "min relative error" t = None -> e' = e).
Proof.
  intros Hs He. pose proof (shaped_of_table Hs He) as Hsh.
  unfold _filtErr, tmat, tget. rewrite He. simpl.
  set (err1 := match rule filt "mult error" t with
               | Some c0 => map (map (fun e => (e * c0)%Q)) err
               | None => err
               end).
  set (err2 := match rule filt "min error" t with
               | Some c0 => map (map (fun e => if Qltb e c0 then c0 else e)) err1
               | None => err1
               end).
  assert (Hsh1 : shaped r c err1).
  { unfold err1. destruct (rule filt "mult error" t); auto using shaped_map. }
  assert (Hsh2 : shaped r c err2).
  { unfold err2. destruct (rule filt "min error" t); auto using shaped_map. }
  assert (H1 : forall i j e, mat_at err i j = Some e ->
             exists e1, mat_at err1 i j = Some e1 /\
               (rule filt "mult error" t = None -> e1 = e)).
  { intros i j e Hij. unfold err1. destruct (rule filt "mult error" t) as [c0|].
    - rewrite mat_at_map, Hij. simpl. eexists. split; [reflexivity | discriminate].
    - exists e. auto. }
  assert (H2 : forall i j e1, mat_at err1 i j = Some e1 ->
             exists e2, mat_at err2 i j = Some e2 /\ (e1 <= e2)%Q /\
               (forall cm, rule filt "min error" t = Some cm -> (cm <= e2)%Q) /\
               (rule filt "min error" t = None -> e2 = e1)).
  { intros i j e1 Hij. unfold err2. destruct (rule filt "min error" t) as [c0|].
    - rewrite mat_at_map, Hij. simpl. eexists. split; [reflexivity|].
      destruct (at_least_bound c0 e1) as [Ha Hb]. unfold at_least in Ha, Hb.
      split; [exact Hb|]. split; [intros cm [= <-]; exact Ha | discriminate].
    - exists e1. split; [exact Hij|]. split; [apply Qle_refl|]. split; [discriminate | auto]. }
  destruct (rule filt "min relative error" t) as [cr|] eqn:Er.
  - destruct (ext !! t) as [[| X | | | | | |]|] eqn:Ex; simpl; try discriminate.
    intros [= <-]. pose proof (shaped_of_table Hs Ex) as HshX.
    split; [now apply shaped_map2|].
    intros i j e Hij. destruct (H1 i j e Hij) as (e1 & He1 & Hm1).
    destruct (H2 i j e1 He1) as (e2 & He2 & Hle2 & Hmin & _).
    destruct (at_shaped r c _ i j e Hsh Hij) as [Hi Hj].
    destruct (shaped_at r c X i j HshX Hi Hj) as [x Hx].
    rewrite mat_at_map2, He2, Hx. eexists. split; [reflexivity|].
    destruct (at_least_bound (cr * Qabs x) e2) as [Ha Hb]. unfold at_least in Ha, Hb.
    split; [|split; [|split]].
    + intros Hn. rewrite <- (Hm1 Hn). eapply Qle_trans; eassumption.
    + intros cm Hcm. eapply Qle_trans; [apply (Hmin cm Hcm) | exact Hb].
    + intros cr' X' x' [= <-] [= <-] Hx'. rewrite Hx in Hx'. injection Hx' as <-. exact Ha.
    + discriminate.
  - intros [= <-]. split; [exact Hsh2|].
    intros i j e Hij. destruct (H1 i j e Hij) as (e1 & He1 & Hm1).
    destruct (H2 i j e1 He1) as (e2 & He2 & Hle2 & Hmin & Hn2).
    exists e2. split; [exact He2|]. split; [|split; [|split]].
    + intros Hn. now rewrite <- (Hm1 Hn).
    + exact Hmin.
    + discriminate.
    + intros Hn1 Hn2' _. now rewrite (Hn2 Hn2'), (Hm1 Hn1).
Qed.

Lemma filtErr_bounds_witness :
  shaped 1 2 [[(1 # 10); (3 # 10)]%Q] /\
  forall i j e, mat_at [[(1 # 100); (3 # 10)]%Q] i j = Some e ->
    exists e', mat_at [[(1 # 10); (3 # 10)]%Q] i j = Some e' /\
      (rule {[ "min error" := {[ "V2" := (1 # 10)%Q ]} ]} "mult error" "V2" = None ->
       (e <= e')%Q) /\
      (forall cm, rule {[ "min error" := {[ "V2" := (1 # 10)%Q ]} ]} "min error" "V2" = Some cm ->
         (cm <= e')%Q) /\
      (forall cr X x,
         rule {[ "min error" := {[ "V2" := (1 # 10)%Q ]} ]} "min relative error" "V2" = Some cr ->
         v2_table_err (1 # 2) (1 # 3) (1 # 100) (3 # 10) !! "V2" = Some (Mat X) ->
         mat_at X i j = Some x -> (cr * Qabs x <= e')%Q) /\
      (rule {[ "min error" := {[ "V2" := (1 # 10)%Q ]} ]} "mult error" "V2" = None ->
       rule {[ "min error" := {[ "V2" := (1 # 10)%Q ]} ]} "min error" "V2" = None ->
       rule {[ "min error" := {[ "V2" := (1 # 10)%Q ]} ]} "min relative error" "V2" = None ->
       e' = e).
Proof.
  apply (filtErr_bounds 1 2 "V2" (v2_table_err (1 # 2) (1 # 3) (1 # 100) (3 # 10))
           {[ "min error" := {[ "V2" := (1 # 10)%Q ]} ]}).
  - apply table_shapeb_spec. vm_compute. reflexivity.
  - reflexivity.
  - vm_compute. reflexivity.
Defined.

Lemma inb_false (x : string) (l : list string) : inb x l = false <-> ~ In x l.
Proof.
  rewrite <- inb_In. destruct (inb x l); split; intros H; congruence.
Qed.

Lemma ledger_ok_app (sta2 M : list string) (x : string) :
  ledger_ok sta2 M -> ~ In x sta2 -> ~ In x M -> ledger_ok sta2 (M ++ [x]).
Proof.
  intros [Hnd Hdis] Hs HM. split.
  - apply NoDup_app; [exact Hnd | constructor; [intros [] | constructor] |].
    intros y Hy [<-|[]]. contradiction.
  - intros m Hm. apply in_app_or in Hm as [Hm|[<-|[]]]; auto.
Qed.

(** One leg, whichever of the three: the legs differ by the names they try. *)
Lemma leg_step (sta2 M : list string) (f r : string) (l : leg) :
  ledger_ok sta2 M ->
  l = (if inb f sta2 || inb f M then (f, 1%Z, M)
       else if inb r sta2 || inb r M then (r, (-1)%Z, M)
       else (f, 1%Z, M ++ [f]))
  \/ l = (if inb f sta2 || inb f M then (f, 1%Z, M)
          else if inb r sta2 || inb f M then (r, (-1)%Z, M)
          else (f, 1%Z, M ++ [f])) ->
  ledger_ok sta2 l.2 /\ leg_ok sta2 M l.
Proof.
  intros Hok Hl.
  destruct (inb f sta2) eqn:Efs; [|destruct (inb f M) eqn:EfM]; simpl in Hl.
  - assert (l = (f, 1%Z, M)) as -> by tauto. apply inb_In in Efs.
    split; [exact Hok|]. split; [now left|]. split; [now left | exists []; now rewrite app_nil_r].
  - assert (l = (f, 1%Z, M)) as -> by tauto. apply inb_In in EfM.
    split; [exact Hok|]. split; [now left|]. split; [now right | exists []; now rewrite app_nil_r].
  - apply inb_false in Efs, EfM.
    destruct (inb r sta2) eqn:Ers; simpl in Hl.
    + assert (l = (r, (-1)%Z, M)) as -> by tauto. apply inb_In in Ers.
      split; [exact Hok|]. split; [now right|]. split; [now left | exists []; now rewrite app_nil_r].
    + destruct (inb r M) eqn:ErM.
      * destruct Hl as [->| ->].
        -- apply inb_In in ErM. split; [exact Hok|]. split; [now right|].
           split; [now right | exists []; now rewrite app_nil_r].
        -- split; [now apply ledger_ok_app|]. split; [now left|].
           split; [right; apply in_or_app; right; now left | now exists [f]].
      * assert (l = (f, 1%Z, M ++ [f])) as -> by tauto.
        split; [now apply ledger_ok_app|]. split; [now left|].
        split; [right; apply in_or_app; right; now left | now exists [f]].
Qed.

Lemma find_triangle_ok (n : nat) (sta2 M : list string) (k : string) :
  ledger_ok sta2 M ->
  let '(t, s, M') := find_triangle n sta2 M k in
  ledger_ok sta2 M' /\ (exists N, M' = M ++ N) /\
  length t = 3%nat /\ length s = 3%nat /\
  Forall (fun x => In x sta2 \/ In x M') t /\
  Forall (fun z => z = 1%Z \/ z = (-1)%Z) s.
Proof.
  intros Hok. unfold find_triangle.
  destruct (leg1 n sta2 M k) as [[t1 s1] M1] eqn:E1.
  destruct (leg_step sta2 M (fwd1 n k) (rev1 n k) (t1, s1, M1) Hok) as [Hok1 (Hs1 & Ht1 & N1 & HN1)];
    [right; rewrite <- E1; reflexivity|].
  destruct (leg2 n sta2 M1 k) as [[t2 s2] M2] eqn:E2.
  destruct (leg_step sta2 M1 (fwd2 n k) (rev2 n k) (t2, s2, M2) Hok1) as [Hok2 (Hs2 & Ht2 & N2 & HN2)];
    [left; rewrite <- E2; reflexivity|].
  destruct (leg3 n sta2 M2 k) as [[t3 s3] M3] eqn:E3.
  destruct (leg_step sta2 M2 (fwd3 n k) (rev3 n k) (t3, s3, M3) Hok2) as [Hok3 (Hs3 & Ht3 & N3 & HN3)];
    [left; rewrite <- E3; reflexivity|].
  simpl in *. subst M1 M2 M3.
  split; [exact Hok3|]. split; [exists (N1 ++ N2 ++ N3); now rewrite !app_assoc|].
  split; [reflexivity|]. split; [reflexivity|]. split.
  - constructor; [|constructor; [|constructor; [|constructor]]].
    + destruct Ht1 as [H|H]; [now left | right; apply in_or_app; left; apply in_or_app; now left].
    + destruct Ht2 as [H|H]; [now left | right; apply in_or_app; now left].
    + exact Ht3.
  - constructor; [|constructor; [|constructor; [|constructor]]]; assumption.
Qed.

(** X4.  The scan of the triangles keeps the ledger free of repetitions and of
    known baselines, and only appends to it.  Each triangle gets three legs
    with signs [+1] or [-1], and each leg's name is a known baseline or a name
    of the final ledger. *)
Theorem scan_triangles_ledger (n : nat) (sta2 M : list string) (ks : list string) :
  List.NoDup M -> (forall m, In m M -> ~ In m sta2) ->
  let '(fs, M') := scan_triangles n sta2 M ks in
  List.NoDup M' /\ (forall m, In m M' -> ~ In m sta2) /\ (exists N, M' = M ++ N) /\
  map fst fs = ks /\
  Forall (fun kts => length kts.2.1 = 3%nat /\ length kts.2.2 = 3%nat /\
                     Forall (fun x => In x sta2 \/ In x M') kts.2.1 /\
                     Forall (fun z => z = 1%Z \/ z = (-1)%Z) kts.2.2) fs.
Proof.
  intros Hnd Hdis. assert (Hok : ledger_ok sta2 M) by (split; assumption). clear Hnd Hdis.
  revert M Hok. induction ks as [|k ks IH]; intros M Hok; simpl.
  - destruct Hok as [H1 H2]. split; [exact H1|]. split; [exact H2|].
    split; [exists []; now rewrite app_nil_r|]. split; [reflexivity | constructor].
  - pose proof (find_triangle_ok n sta2 M k Hok) as Hk.
    destruct (find_triangle n sta2 M k) as [[t s] M1].
    destruct Hk as (Hok1 & (N1 & ->) & Ht & Hs & Hin & Hsg).
    specialize (IH _ Hok1).
    destruct (scan_triangles n sta2 (M ++ N1) ks) as [fs M2].
    destruct IH as (Hnd2 & Hdis2 & (N2 & ->) & Hfs & Hall).
    split; [exact Hnd2|]. split; [exact Hdis2|].
    split; [exists (N1 ++ N2); now rewrite app_assoc|].
    split; [simpl; now rewrite Hfs|].
    constructor; [|exact Hall]. simpl. split; [exact Ht|]. split; [exact Hs|].
    split; [|exact Hsg].
    eapply Forall_impl; [|exact Hin]. intros x [H|H]; [now left|].
    right. apply in_or_app. now left.
Qed.

Lemma scan_triangles_ledger_witness :
  let '(fs, M') := scan_triangles 1 ["CD"] [] ["ABC"; "BAD"] in
  List.NoDup M' /\ (forall m, In m M' -> ~ In m ["CD"]) /\ (exists N, M' = [] ++ N) /\
  map fst fs = ["ABC"; "BAD"] /\
  Forall (fun kts : string * (list string * list Z) =>
            length kts.2.1 = 3%nat /\ length kts.2.2 = 3%nat /\
            Forall (fun x => In x ["CD"] \/ In x M') kts.2.1 /\
            Forall (fun z => z = 1%Z \/ z = (-1)%Z) kts.2.2) fs.
Proof.
  apply (scan_triangles_ledger 1 ["CD"] [] ["ABC"; "BAD"]).
  - constructor.
  - intros m [].
Defined.

Lemma wavelengths_of_app (f g : fitsfile) (ins : string) :
  wavelengths_of (f ++ g) ins
  = match wavelengths_of g ins with
    | Some wl => Some wl
    | None => wavelengths_of f ins
    end.
Proof.
  unfold wavelengths_of. rewrite fold_left_app.
  match goal with |- fold_left ?F g ?w = _ => generalize w end.
  induction g as [|h g IH] using rev_ind; intros w0; [reflexivity|].
  rewrite !fold_left_app. simpl.
  destruct (is_ext "OI_WAVELENGTH" h && String.eqb (h_insname h) ins); [reflexivity|].
  apply IH.
Qed.

(** Every instrument that the file announces has a wavelength table. *)
Lemma wavelengths_of_instrument (f : fitsfile) (ins : string) :
  In ins (instruments_of f) -> is_Some (wavelengths_of f ins).
Proof.
  induction f as [|h f IH] using rev_ind; [intros []|].
  unfold instruments_of. rewrite filter_app, map_app, in_app_iff.
  rewrite wavelengths_of_app. intros [Hin|Hin].
  - destruct (wavelengths_of [h] ins); [eauto|]. now apply IH.
  - simpl in Hin. unfold wavelengths_of. simpl.
    destruct (is_ext "OI_WAVELENGTH" h); [|destruct Hin].
    destruct Hin as [<-|[]]. simpl. rewrite String.eqb_refl. eauto.
Qed.

(** X5.  With more than one instrument and no [insname], the file is loaded once
    per instrument by calls that do not pass [targname] on: unless the file
    has exactly one target, the load fails with the assertion on the target,
    whatever [targname] was given. *)
Theorem load_file_per_instrument_forgets_target (disk : odict fitsfile) (filename : string)
    (f : fitsfile) (targets : odict (list Z)) (targname : option string) :
  oget disk filename = Some f -> targets_of f = Some targets ->
  length targets <> 1%nat -> (2 <= length (instruments_of f))%nat ->
  load_file disk filename None targname = Raise (AssertionError "unknown target").
Proof.
  intros Hf Ht Hn Hi. unfold load_file. rewrite Hf, Ht.
  assert (Hnone : load_instrument filename f None
                  = fun _ => Raise (AssertionError "unknown target")).
  { unfold load_instrument. rewrite Ht.
    destruct targets as [|[k ids] [|]]; try reflexivity. now elim Hn. }
  assert (Htn : match targname, targets with
                | None, [(k, _)] => Some k
                | _, _ => targname
                end = targname).
  { destruct targname; [reflexivity|]. destruct targets as [|[k ids] [|]]; try reflexivity.
    now elim Hn. }
  rewrite Htn. destruct targname as [tn|]; [|reflexivity].
  destruct (omem targets tn); [|reflexivity].
  destruct (instruments_of f) as [|i1 [|i2 inss]]; simpl in Hi; try lia.
  rewrite Hnone. reflexivity.
Qed.

Lemma load_file_per_instrument_forgets_target_witness :
  load_file [("two.fits", two_ins_two_targets_file)] "two.fits" None (Some "HD1")
  = Raise (AssertionError "unknown target").
Proof.
  apply (load_file_per_instrument_forgets_target _ "two.fits" two_ins_two_targets_file
           [("HD1", [1%Z]); ("HD2", [2%Z])] (Some "HD1")).
  - reflexivity.
  - reflexivity.
  - discriminate.
  - vm_compute. lia.
Defined.

Lemma load_instrument_single (filename : string) (f : fitsfile) (tn : string)
    (ids : list Z) (ins : string) (wl dwl : vec) :
  targets_of f = Some [(tn, ids)] -> In ins (instruments_of f) ->
  wavelengths_of f ins = Some (wl, dwl) ->
  load_instrument filename f None ins = Ok (Loaded filename ins tn wl dwl).
Proof.
  intros Ht Hins Hwl. unfold load_instrument. rewrite Ht. unfold omem. cbn [oget].
  rewrite String.eqb_refl. apply inb_In in Hins. rewrite Hins, Hwl. reflexivity.
Qed.

Lemma mapM_load (filename : string) (f : fitsfile) (tn : string) (ids : list Z)
    (inss : list string) :
  targets_of f = Some [(tn, ids)] ->
  (forall ins, In ins inss -> In ins (instruments_of f)) ->
  exists l, mapM (load_instrument filename f None) inss = Ok l /\
    map ld_insname l = inss /\
    Forall (fun d => ld_filename d = filename /\ ld_targname d = tn /\
                     wavelengths_of f (ld_insname d) = Some (ld_WL d, ld_dWL d)) l.
Proof.
  intros Ht. induction inss as [|ins inss IH]; intros Hin.
  - exists []. repeat split; constructor.
  - destruct IH as (l & Hl & Hnames & Hall); [intros; apply Hin; now right|].
    pose proof (Hin ins (or_introl eq_refl)) as Hins.
    destruct (wavelengths_of_instrument f ins Hins) as [[wl dwl] Hwl].
    exists (Loaded filename ins tn wl dwl :: l).
    split; [|split; [simpl; now rewrite Hnames | constructor; [simpl; auto | exact Hall]]].
    cbn [mapM]. rewrite (load_instrument_single filename f tn ids ins wl dwl Ht Hins Hwl).
    cbn [mbind result_bind]. rewrite Hl. reflexivity.
Qed.

Lemma mapM_bind {A B C} (h : A -> result B) (r : B -> result C) (l : list A)
    (heads : list B) :
  mapM h l = Ok heads -> mapM (fun x => y ← h x; r y) l = mapM r heads.
Proof.
  revert heads. induction l as [|x l IH]; intros heads H.
  - injection H as <-. reflexivity.
  - cbn [mapM] in H |- *. destruct (h x) as [y|]; [|discriminate].
    cbn [mbind result_bind] in H |- *.
    destruct (mapM h l) as [ys|]; [|discriminate]. injection H as <-.
    rewrite (IH ys eq_refl). reflexivity.
Qed.

Lemma mapM_Forall2 {A B} (r : A -> result B) (l : list A) (out : list B) :
  mapM r l = Ok out <-> Forall2 (fun x y => r x = Ok y) l out.
Proof.
  revert out. induction l as [|x l IH]; intros out.
  - split.
    + intros [= <-]. constructor.
    + intros H. inversion H. reflexivity.
  - cbn [mapM]. split.
    + destruct (r x) as [y|] eqn:Ex; [|discriminate]. cbn [mbind result_bind].
      destruct (mapM r l) as [ys|]; [|discriminate]. intros [= <-].
      constructor; [exact Ex | now apply IH].
    + intros H. inversion H as [|? y ? ys Hx Hl]; subst. rewrite Hx.
      cbn [mbind result_bind]. apply IH in Hl. rewrite Hl. reflexivity.
Qed.

(** X6.  A file with a single target, loaded without [insname] and without
    binning: the head of [loadOI] resolves one dataset per wavelength table of
    the file, in the order of the extensions, each for the file's target and
    with the wavelengths and bandwidths of its instrument (in micrometres),
    and the remainder of [loadOI] is run on each of them in this order.  The
    load returns their results, one dataset per instrument, when every run
    returns, and raises what the first failing run raises otherwise. *)
Theorem load_file_one_per_instrument {D : Type} (rest : fitsfile -> loaded -> result D)
    (disk : odict fitsfile) (filename : string)
    (f : fitsfile) (tn : string) (ids : list Z) (targname : option string) :
  oget disk filename = Some f -> targets_of f = Some [(tn, ids)] ->
  targname = None \/ targname = Some tn ->
  exists heads,
    map ld_insname heads = instruments_of f /\
    Forall (fun d => ld_filename d = filename /\ ld_targname d = tn /\
                     wavelengths_of f (ld_insname d) = Some (ld_WL d, ld_dWL d)) heads /\
    loadOI_file rest disk filename None targname = mapM (rest f) heads /\
    (forall l, loadOI_file rest disk filename None targname = Ok l <->
               Forall2 (fun d r => rest f d = Ok r) heads l) /\
    (forall l, loadOI_file rest disk filename None targname = Ok l ->
               length l = length (instruments_of f)).
Proof.
  intros Hf Ht Htn.
  destruct (mapM_load filename f tn ids (instruments_of f) Ht (fun _ H => H))
    as (heads & Hl & Hnames & Hall).
  assert (Hrun : loadOI_file rest disk filename None targname = mapM (rest f) heads).
  { unfold loadOI_file. rewrite Hf, Ht.
    replace (match targname, [(tn, ids)] with
             | None, [(k, _)] => Some k
             | _, _ => targname
             end) with (Some tn) by (destruct Htn as [-> | ->]; reflexivity).
    unfold omem. simpl. rewrite String.eqb_refl.
    pose proof (mapM_bind (load_instrument filename f None) (rest f) (instruments_of f)
                  heads Hl) as Hb.
    destruct (instruments_of f) as [|i1 [|i2 inss]] eqn:Ei.
    - exact Hb.
    - assert (Hsame : load_instrument filename f targname i1
                      = load_instrument filename f None i1).
      { unfold load_instrument. rewrite Ht. destruct Htn as [-> | ->]; reflexivity. }
      unfold loadOI_instrument. rewrite Hsame. rewrite <- Hb. cbn [mapM].
      destruct (load_instrument filename f None i1) as [d|]; [|reflexivity].
      cbn [mbind result_bind]. destruct (rest f d); reflexivity.
    - exact Hb. }
  exists heads. split; [exact Hnames|]. split; [exact Hall|]. split; [exact Hrun|].
  split.
  - intros l. rewrite Hrun. apply mapM_Forall2.
  - intros l Hok. rewrite Hrun in Hok. apply mapM_Forall2 in Hok.
    apply Forall2_length in Hok. rewrite <- Hok, <- Hnames. now rewrite length_map.
Qed.

Lemma load_file_one_per_instrument_witness :
  (exists l, loadOI_file rest_head [("two.fits", two_ins_file)] "two.fits" None None = Ok l /\
     map ld_insname l = ["GRAVITY_SC"; "GRAVITY_FT"] /\
     Forall (fun d => ld_filename d = "two.fits" /\ ld_targname d = "HD1" /\
                      wavelengths_of two_ins_file (ld_insname d) = Some (ld_WL d, ld_dWL d)) l) /\
  loadOI_file rest_unbound [("two.fits", two_ins_file)] "two.fits" None None
  = Raise (NameError "sta2").
Proof.
  split.
  - destruct (load_file_one_per_instrument rest_head [("two.fits", two_ins_file)] "two.fits"
                two_ins_file "HD1" [1%Z] None eq_refl eq_refl (or_introl eq_refl))
      as (heads & Hnames & Hall & Hrun & _ & _).
    exists heads. split; [|split; [exact Hnames | exact Hall]].
    rewrite Hrun. apply mapM_Forall2. clear.
    induction heads as [|d heads IH]; constructor; [reflexivity | exact IH].
  - destruct (load_file_one_per_instrument rest_unbound [("two.fits", two_ins_file)] "two.fits"
                two_ins_file "HD1" [1%Z] None eq_refl eq_refl (or_introl eq_refl))
      as (heads & Hnames & _ & Hrun & _ & _).
    rewrite Hrun. destruct heads as [|d heads]; [discriminate Hnames | reflexivity].
Defined.

Lemma targets_fold (rows : list (string * Z)) (acc : odict (list Z)) (k : string) :
  oget (fold_left (fun tg '(k, id) =>
                     match oget tg k with
                     | None => oset tg k [id]
                     | Some ids => oset tg k (ids ++ [id])
                     end) rows acc) k
  = match oget acc k, ids_of rows k with
    | None, [] => None
    | None, new => Some new
    | Some ids, new => Some (ids ++ new)
    end.
Proof.
  revert acc. induction rows as [|[k0 id] rows IH]; intros acc.
  - simpl. destruct (oget acc k); [now rewrite app_nil_r | reflexivity].
  - cbn [fold_left]. rewrite IH. unfold ids_of. cbn [List.filter fst].
    destruct (String.eqb k0 k) eqn:E.
    + apply String.eqb_eq in E. subst k0. cbn [map snd].
      destruct (oget acc k) as [ids|]; rewrite oget_oset_eq.
      * now rewrite <- app_assoc.
      * reflexivity.
    + apply String.eqb_neq in E.
      destruct (oget acc k0) as [ids0|]; rewrite oget_oset_ne by exact E; reflexivity.
Qed.

Lemma ids_of_In (rows : list (string * Z)) (k : string) (x : Z) :
  In x (ids_of rows k) <-> In (k, x) rows.
Proof.
  unfold ids_of. rewrite in_map_iff. split.
  - intros ([k' x'] & <- & Hin). apply filter_In in Hin as [Hin Hk].
    simpl in Hk. apply String.eqb_eq in Hk. now subst.
  - intros Hin. exists (k, x). split; [reflexivity|]. apply filter_In.
    split; [exact Hin|]. simpl. apply String.eqb_refl.
Qed.


Section RebinBounds.
Local Open Scope R_scope.

(** A weighted mean with positive weights lies between the bounds of the
    values. *)
Lemma weighted_sums_between (lo hi : R) (k Y E : list R) :
  Forall (fun x => 0 < x) k -> Forall (fun e => 0 < e) E ->
  Forall (fun y => lo <= y <= hi) Y ->
  length k = length Y -> length E = length Y ->
  lo * rsum (zip_with Rdiv k E) <= rsum (zip_with Rdiv (zip_with Rmult k Y) E)
  /\ rsum (zip_with Rdiv (zip_with Rmult k Y) E) <= hi * rsum (zip_with Rdiv k E)
  /\ (Y <> [] -> 0 < rsum (zip_with Rdiv k E)).
Proof.
  unfold rsum. intros Hk. revert Y E.
  induction Hk as [|x k Hx Hk IH]; intros Y E HE HY Hlk HlE.
  - destruct Y; [|discriminate]. simpl. split; [lra|]. split; [lra|]. congruence.
  - destruct Y as [|y Y]; [discriminate|]. destruct E as [|e E]; [discriminate|].
    inversion HE as [|? ? He HE']; subst. inversion HY as [|? ? Hy HY']; subst.
    simpl in Hlk, HlE. injection Hlk as Hlk. injection HlE as HlE.
    destruct (IH Y E HE' HY' Hlk HlE) as (I1 & I2 & I3). simpl.
    assert (Hw : 0 < x / e) by (apply Rdiv_lt_0_compat; assumption).
    assert (Hterm : x * y / e = (x / e) * y) by (field; lra).
    rewrite Hterm.
    assert (H1 : lo * (x / e) <= x / e * y) by (rewrite Rmult_comm; apply Rmult_le_compat_l; lra).
    assert (H2 : x / e * y <= hi * (x / e))
      by (rewrite (Rmult_comm hi); apply Rmult_le_compat_l; lra).
    split; [lra|]. split; [lra|]. intros _.
    destruct Y as [|y' Y'].
    + destruct k; [|discriminate]. destruct E; [|discriminate]. simpl. lra.
    + specialize (I3 ltac:(discriminate)). lra.
Qed.

Lemma binVec_between (lo hi : R) (x X Y : list R) (E : option (list R))
    (medFilt : option nat) (j : nat) (x0 : R) :
  length X = length Y -> Y <> [] ->
  (forall Er, E = Some Er -> length Er = length Y /\ Forall (fun e => 0 < e) Er) ->
  Forall (fun y => lo <= y <= hi) Y ->
  x !! j = Some x0 ->
  exists y, _binVec x X Y E medFilt !! j = Some y /\ lo <= y <= hi.
Proof.
  intros HX HY HE Hb Hj. rewrite (binVec_lookup _ _ _ _ _ _ _ Hj). eexists. split; [reflexivity|].
  cbv zeta.
  set (k := map (kernel (npmedian (npdiff x)) x0) X).
  set (E' := match E with Some E0 => E0 | None => map (fun _ => 1) Y end).
  assert (Hk : Forall (fun v => 0 < v) k).
  { unfold k. apply Forall_forall. intros v Hv. apply in_map_iff in Hv as (X0 & <- & _).
    apply kernel_pos. }
  assert (HE' : length E' = length Y /\ Forall (fun e => 0 < e) E').
  { unfold E'. destruct E as [Er|]; [now apply HE|]. split; [apply length_map|].
    apply Forall_forall. intros e He. apply in_map_iff in He as (? & <- & _). lra. }
  destruct HE' as [HlE HpE].
  assert (Hlk : length k = length Y) by (unfold k; now rewrite length_map).
  destruct (weighted_sums_between lo hi k Y E' Hk HpE Hb Hlk HlE) as (H1 & H2 & H3).
  specialize (H3 HY). set (S := rsum (zip_with Rdiv k E')) in *.
  set (N := rsum (zip_with Rdiv (zip_with Rmult k Y) E')) in *.
  split.
  - apply Rmult_le_reg_r with (r := S); [exact H3|].
    replace (N / S * S) with N by (field; lra). exact H1.
  - apply Rmult_le_reg_r with (r := S); [exact H3|].
    replace (N / S * S) with N by (field; lra). exact H2.
Qed.

Lemma select_Forall {A} (P : A -> Prop) (w : list bool) (a : list A) :
  (forall j t, a !! j = Some t -> w !! j = Some true -> P t) -> Forall P (select w a).
Proof.
  revert a. induction w as [|b w IH]; intros a H; [constructor|].
  destruct a as [|t a]; [constructor|]. rewrite select_cons.
  assert (Hrest : Forall P (select w a)).
  { apply IH. intros j t' H1 H2. apply (H (S j) t'); assumption. }
  destruct b; [|exact Hrest]. constructor; [|exact Hrest].
  apply (H 0%nat t); reflexivity.
Qed.


End RebinBounds.


Lemma npargmin_nearest (M : vec) (mjd : Q) :
  M <> [] -> exists i, npargmin (absdiff M mjd) = Ok i /\ nearest M mjd i.
Proof.
  intros HM. assert (Hd : absdiff M mjd <> []).
  { unfold absdiff. intros H. apply map_eq_nil in H. contradiction. }
  destruct (argmin_spec (absdiff M mjd) Hd) as [Hlt Hall].
  exists (argmin (absdiff M mjd)). split.
  - unfold npargmin. destruct (absdiff M mjd); [congruence | reflexivity].
  - assert (Hl : length (absdiff M mjd) = length M) by apply length_map.
    rewrite Hl in Hlt. split; [exact Hlt|].
    rewrite absdiff_nth in Hall by exact Hlt.
    apply Forall_forall. intros x Hx. rewrite Forall_forall in Hall.
    apply Hall. unfold absdiff. apply in_map_iff. exists x. auto.
Qed.

Lemma legs_in_true (c : odict table) (t : list string) :
  length t = 3%nat -> Forall (fun tj => omem c tj = true) t -> legs_in c t = Ok true.
Proof.
  intros Hl Hall. destruct t as [|t0 [|t1 [|t2 [|]]]]; try discriminate.
  inversion Hall as [|? ? H0 Hall1]; subst. inversion Hall1 as [|? ? H1 Hall2]; subst.
  inversion Hall2 as [|? ? H2 _]; subst.
  unfold legs_in, item. simpl. rewrite H0. simpl. rewrite H1. simpl. now rewrite H2.
Qed.

Lemma legs_have_mem (c : odict table) (t : list string) :
  legs_have_epochs c t -> length t = 3%nat /\ Forall (fun tj => omem c tj = true) t.
Proof.
  intros [Hl Hall]. split; [exact Hl|]. eapply Forall_impl; [|exact Hall].
  intros tj (B & M & HB & _). unfold omem. now rewrite HB.
Qed.

Lemma nearest_row_ok (cats : odict (odict table)) (key : string) (c : odict table)
    (t : list string) (j : nat) (mjd : Q) (tj : string) (B : table) (M : vec) :
  oget cats key = Some c -> t !! j = Some tj -> oget c tj = Some B ->
  B !! "MJD" = Some (Vec M) -> M <> [] ->
  exists i, nearest_row cats (Some key) t j mjd = Ok i /\ nearest M mjd i.
Proof.
  intros Hc Ht HB HM Hne. unfold nearest_row, oitem, item, tvec, tget.
  rewrite Hc. cbn [mbind result_bind]. rewrite Ht. cbn [mbind result_bind].
  rewrite HB. cbn [mbind result_bind]. rewrite HM. cbn [mbind result_bind].
  now apply npargmin_nearest.
Qed.

Lemma nearest_rows_ok (cats : odict (odict table)) (key : string) (c : odict table)
    (t : list string) (T : table) (mjds : vec) :
  oget cats key = Some c -> legs_have_epochs c t -> T !! "MJD" = Some (Vec mjds) ->
  exists w0 w1 w2, nearest_rows cats (Some key) t T = Ok (w0, w1, w2) /\
    Forall (fun jw : nat * list nat =>
              exists tj B M, t !! jw.1 = Some tj /\ oget c tj = Some B /\
                B !! "MJD" = Some (Vec M) /\
                Forall2 (fun mjd i => nearest M mjd i) mjds jw.2)
           [(0%nat, w0); (1%nat, w1); (2%nat, w2)].
Proof.
  intros Hc [Hl Hall] HT. destruct t as [|t0 [|t1 [|t2 [|]]]]; try discriminate.
  inversion Hall as [|? ? (B0 & M0 & HB0 & HM0 & Hn0) Hall1]; subst.
  inversion Hall1 as [|? ? (B1 & M1 & HB1 & HM1 & Hn1) Hall2]; subst.
  inversion Hall2 as [|? ? (B2 & M2 & HB2 & HM2 & Hn2) _]; subst.
  unfold nearest_rows, tvec, tget. rewrite HT. cbn [mbind result_bind].
  assert (Hgen : forall a0 a1 a2 : list nat,
    exists v0 v1 v2,
      foldM (fun '(w0, w1, w2) mjd =>
               i0 ← nearest_row cats (Some key) [t0; t1; t2] 0 mjd;
               i1 ← nearest_row cats (Some key) [t0; t1; t2] 1 mjd;
               i2 ← nearest_row cats (Some key) [t0; t1; t2] 2 mjd;
               Ok (w0 ++ [i0], w1 ++ [i1], w2 ++ [i2])) (a0, a1, a2) mjds
      = Ok (a0 ++ v0, a1 ++ v1, a2 ++ v2) /\
      Forall2 (fun mjd i => nearest M0 mjd i) mjds v0 /\
      Forall2 (fun mjd i => nearest M1 mjd i) mjds v1 /\
      Forall2 (fun mjd i => nearest M2 mjd i) mjds v2).
  { clear HT. induction mjds as [|mjd mjds IH]; intros a0 a1 a2.
    - exists [], [], []. rewrite !app_nil_r. repeat split; constructor.
    - destruct (nearest_row_ok cats key c [t0; t1; t2] 0 mjd t0 B0 M0 Hc eq_refl HB0 HM0 Hn0)
        as (i0 & E0 & N0).
      destruct (nearest_row_ok cats key c [t0; t1; t2] 1 mjd t1 B1 M1 Hc eq_refl HB1 HM1 Hn1)
        as (i1 & E1 & N1).
      destruct (nearest_row_ok cats key c [t0; t1; t2] 2 mjd t2 B2 M2 Hc eq_refl HB2 HM2 Hn2)
        as (i2 & E2 & N2).
      destruct (IH (a0 ++ [i0]) (a1 ++ [i1]) (a2 ++ [i2])) as (v0 & v1 & v2 & Hf & F0 & F1 & F2).
      exists (i0 :: v0), (i1 :: v1), (i2 :: v2). split.
      + cbn [foldM]. rewrite E0. cbn [mbind result_bind]. rewrite E1. cbn [mbind result_bind].
        rewrite E2. cbn [mbind result_bind]. rewrite Hf. now rewrite <- !app_assoc.
      + repeat split; constructor; assumption. }
  destruct (Hgen [] [] []) as (v0 & v1 & v2 & Hf & F0 & F1 & F2).
  exists v0, v1, v2. split; [exact Hf|].
  constructor; [|constructor; [|constructor; [|constructor]]]; cbn [fst snd].
  - exists t0, B0, M0. auto.
  - exists t1, B1, M1. auto.
  - exists t2, B2, M2. auto.
Qed.

Lemma recompute_formula_ready (cats : odict (odict table)) (T : table) :
  triangle_ready cats T ->
  exists T', recompute_formula cats T = Ok (Some T') /\ triangle_recomputed cats T T'.
Proof.
  intros (s & t & w0 & w1 & w2 & mjds & key & c & Hf & HM & Hk & Hc & Hl).
  destruct (nearest_rows_ok cats key c t T mjds Hc Hl HM) as (v0 & v1 & v2 & Hrows & Hnear).
  exists (<["formula" := Form (FList s t v0 v1 v2)]> T). split.
  - unfold recompute_formula, tget. rewrite Hf. cbn [mbind result_bind].
    rewrite Hk. cbn [mbind result_bind]. rewrite Hrows. reflexivity.
  - split; [intros k Hne; now rewrite lookup_insert_ne by congruence|].
    exists s, t, w0, w1, w2, mjds, key, c, (Form (FList s t v0 v1 v2)).
    split; [exact Hf|]. split; [exact HM|]. split; [exact Hk|]. split; [exact Hc|].
    split; [apply lookup_insert_eq|]. exists v0, v1, v2. split; [reflexivity | exact Hnear].
Qed.

(** X9.  After a merge, when every triangle has epochs and the category chosen
    for its legs holds a table with epochs for each of them, every triangle is
    kept, in order, and its formula holds for each epoch a row of each leg's
    table whose epoch is nearest. *)
Theorem recompute_formulas_nearest (cats : odict (odict table)) (c3 : odict table) :
  oget cats "OI_T3" = Some c3 ->
  Forall (fun kT => triangle_ready cats kT.2) c3 ->
  exists c3', recompute_formulas cats = Ok (oset cats "OI_T3" c3') /\
    Forall2 (fun kT kT' => kT'.1 = kT.1 /\ triangle_recomputed cats kT.2 kT'.2) c3 c3'.
Proof.
  intros H3 Hall. unfold recompute_formulas. rewrite H3.
  assert (Hgen : forall acc : odict table,
    exists c3', foldM (fun acc kT =>
                         o ← recompute_formula cats kT.2;
                         Ok (match o with
                             | Some T' => acc ++ [(kT.1, T')]
                             | None => acc
                             end)) acc c3 = Ok (acc ++ c3') /\
      Forall2 (fun kT kT' => kT'.1 = kT.1 /\ triangle_recomputed cats kT.2 kT'.2) c3 c3').
  { clear H3. induction Hall as [|[k T] c3r Hready Hall IH]; intros acc.
    - exists []. rewrite app_nil_r. split; [reflexivity | constructor].
    - destruct (recompute_formula_ready cats T Hready) as (T' & HT' & Hrec).
      destruct (IH (acc ++ [(k, T')])) as (c3' & Hf & Hall').
      exists ((k, T') :: c3'). split.
      + cbn [foldM snd fst]. rewrite HT'. cbn [mbind result_bind]. rewrite Hf.
        now rewrite <- app_assoc.
      + constructor; [split; [reflexivity | exact Hrec] | exact Hall']. }
  destruct (Hgen []) as (c3' & Hf & Hall'). rewrite Hf. cbn [mbind result_bind].
  exists c3'. split; [reflexivity | exact Hall'].
Qed.

Lemma recompute_formulas_nearest_witness :
  exists c3', recompute_formulas merged_cats = Ok (oset merged_cats "OI_T3" c3') /\
    Forall2 (fun kT kT' : string * table =>
               kT'.1 = kT.1 /\ triangle_recomputed merged_cats kT.2 kT'.2)
            [("ABC", merged_t3)] c3'.
Proof.
  apply (recompute_formulas_nearest merged_cats [("ABC", merged_t3)]); [reflexivity|].
  constructor; [|constructor].
  exists [1; 1; -1]%Z, ["AB"; "BC"; "CA"], [0; 0]%nat, [0; 0]%nat, [0; 0]%nat, [5; 6]%Q,
    "OI_VIS2", [("AB", vis2_table2 5 6 10 0); ("BC", vis2_table 6 0 10);
                ("CA", vis2_table 5 (-10) (-10))].
  split; [reflexivity|]. split; [reflexivity|]. split; [reflexivity|]. split; [reflexivity|].
  split; [reflexivity|].
  constructor; [|constructor; [|constructor; [|constructor]]].
  - exists (vis2_table2 5 6 10 0), [5; 6]%Q. split; [reflexivity|]. split; [reflexivity|].
    discriminate.
  - exists (vis2_table 6 0 10), [6]%Q. split; [reflexivity|]. split; [reflexivity|].
    discriminate.
  - exists (vis2_table 5 (-10) (-10)), [5]%Q. split; [reflexivity|]. split; [reflexivity|].
    discriminate.
Defined.

Lemma recompute_formula_no_category (cats : odict (odict table)) (T : table)
    (s : list Z) (t : list string) (w0 w1 w2 : list nat) (mjds : vec) :
  T !! "formula" = Some (Form (FList s t w0 w1 w2)) -> T !! "MJD" = Some (Vec mjds) ->
  formula_key cats t = Ok None ->
  recompute_formula cats T
  = match mjds with
    | [] => Ok (Some (<["formula" := Form (FList s t [] [] [])]> T))
    | _ :: _ => Raise (KeyError "None")
    end.
Proof.
  intros Hf HM Hk. unfold recompute_formula, tget. rewrite Hf. cbn [mbind result_bind].
  rewrite Hk. cbn [mbind result_bind]. unfold nearest_rows, tvec, tget. rewrite HM.
  cbn [mbind result_bind]. destruct mjds as [|m mjds]; reflexivity.
Qed.

Lemma formula_key_present (cats : odict (odict table)) (t : list string) (key : string) :
  formula_key cats t = Ok (Some key) -> omem cats key = true.
Proof.
  unfold formula_key, omem.
  destruct (oget cats "OI_VIS") as [c|] eqn:E1.
  - destruct (legs_in c t) as [[]|]; cbn [mbind result_bind]; try discriminate.
    + intros [= <-]. now rewrite E1.
    + destruct (oget cats "OI_VIS2") as [c2|] eqn:E2; cbn [mbind result_bind]; [|discriminate].
      destruct (legs_in c2 t) as [[]|]; cbn [mbind result_bind]; try discriminate.
      intros [= <-]. now rewrite E2.
  - cbn [mbind result_bind].
    destruct (oget cats "OI_VIS2") as [c2|] eqn:E2; cbn [mbind result_bind]; [|discriminate].
    destruct (legs_in c2 t) as [[]|]; cbn [mbind result_bind]; try discriminate.
    intros [= <-]. now rewrite E2.
Qed.

(** Whatever the [try] meets, a triangle either gets through or leaves the
    merge on [KeyError: None]. *)
Lemma recompute_formula_outcomes (cats : odict (odict table)) (T : table)
    (s : list Z) (t : list string) (w0 w1 w2 : list nat) (key : option string) :
  T !! "formula" = Some (Form (FList s t w0 w1 w2)) -> formula_key cats t = Ok key ->
  (exists o, recompute_formula cats T = Ok o)
  \/ recompute_formula cats T = Raise (KeyError "None").
Proof.
  intros Hf Hk. unfold recompute_formula, tget. rewrite Hf. cbn [mbind result_bind].
  rewrite Hk. cbn [mbind result_bind].
  destruct (nearest_rows cats key t T) as [[[v0 v1] v2]|e]; [eauto|].
  destruct key as [key|]; [|now right].
  apply formula_key_present in Hk. unfold omem in Hk. unfold oitem.
  destruct (oget cats key); [|discriminate]. cbn [mbind result_bind]. eauto.
Qed.

(** X10.  A triangle with an epoch whose three legs are together in neither
    category stops the merge: the [except] clause that should set it aside
    reads [r[key]] with [key = None], and the [KeyError] leaves [mergeOI]. *)
Theorem recompute_formulas_stops_without_category (cats : odict (odict table))
    (c3 : odict table) (k : string) (T : table) (s : list Z) (t : list string)
    (w0 w1 w2 : list nat) (m : Q) (mjds : vec) :
  oget cats "OI_T3" = Some c3 ->
  Forall (fun kT : string * table =>
            exists s t w0 w1 w2 key,
              kT.2 !! "formula" = Some (Form (FList s t w0 w1 w2)) /\
              formula_key cats t = Ok key) c3 ->
  In (k, T) c3 ->
  T !! "formula" = Some (Form (FList s t w0 w1 w2)) -> T !! "MJD" = Some (Vec (m :: mjds)) ->
  formula_key cats t = Ok None ->
  recompute_formulas cats = Raise (KeyError "None").
Proof.
  intros H3 Hall Hin Hf HM Hk. unfold recompute_formulas. rewrite H3. clear H3.
  assert (Hgen : forall acc : odict table,
            foldM (fun acc kT =>
                     o ← recompute_formula cats kT.2;
                     Ok (match o with
                         | Some T' => acc ++ [(kT.1, T')]
                         | None => acc
                         end)) acc c3 = Raise (KeyError "None")).
  { induction Hall as [|[k' T'] c3r (s' & t' & v0 & v1 & v2 & key & Hf' & Hk') Hall IH];
      intros acc; [destruct Hin|].
    cbn [foldM snd fst]. destruct Hin as [Heq|Hin].
    - injection Heq as -> ->.
      rewrite (recompute_formula_no_category cats T s t w0 w1 w2 (m :: mjds) Hf HM Hk).
      reflexivity.
    - destruct (recompute_formula_outcomes cats T' s' t' v0 v1 v2 key Hf' Hk') as [[o Ho]|Hr].
      + rewrite Ho. cbn [mbind result_bind]. apply IH. exact Hin.
      + rewrite Hr. reflexivity. }
  rewrite Hgen. reflexivity.
Qed.

Lemma recompute_formulas_stops_without_category_witness :
  recompute_formulas [("OI_VIS2", [("AB", vis2_table 5 10 0)]); ("OI_T3", [("ABC", merged_t3)])]
  = Raise (KeyError "None").
Proof.
  apply (recompute_formulas_stops_without_category
           [("OI_VIS2", [("AB", vis2_table 5 10 0)]); ("OI_T3", [("ABC", merged_t3)])]
           [("ABC", merged_t3)] "ABC" merged_t3 [1; 1; -1]%Z ["AB"; "BC"; "CA"]
           [0; 0]%nat [0; 0]%nat [0; 0]%nat 5%Q [6]%Q); try reflexivity.
  - constructor; [|constructor].
    exists [1; 1; -1]%Z, ["AB"; "BC"; "CA"], [0; 0]%nat, [0; 0]%nat, [0; 0]%nat, None.
    split; reflexivity.
  - now left.
Defined.

Lemma rows_of_concat {A} (c : nat) (m : list (list A)) :
  Forall (fun row => length row = c) m -> rows_of (length m) c (concat m) = m.
Proof.
  induction 1 as [|row m Hrow _ IH]; [reflexivity|].
  simpl. rewrite take_app_length' by (now symmetry). rewrite drop_app_length' by (now symmetry).
  now rewrite IH.
Qed.

Lemma concat_length_shaped {A} (r c : nat) (m : list (list A)) :
  shaped r c m -> length (concat m) = (r * c)%nat.
Proof.
  intros [<- Hc]. induction Hc as [|row m Hrow _ IH]; [reflexivity|].
  simpl. rewrite length_app, IH, Hrow. reflexivity.
Qed.

Lemma shaped_app {A} (r1 r2 c : nat) (a b : list (list A)) :
  shaped r1 c a -> shaped r2 c b -> shaped (r1 + r2) c (a ++ b).
Proof.
  intros [Ha Hca] [Hb Hcb]. split.
  - rewrite length_app. lia.
  - apply Forall_app. split; assumption.
Qed.

Lemma width_shaped {A} (r c : nat) (m : list (list A)) :
  shaped r c m -> (0 < r)%nat -> width m = c.
Proof.
  intros [Hr Hc] Hpos. destruct m as [|row m]; [simpl in Hr; lia|].
  apply Forall_inv in Hc. exact Hc.
Qed.

(** Flattening two arrays of one width and cutting the result into rows of
    that width gives the rows of the first followed by those of the second. *)
Lemma npreshape_append {A} (r1 r2 c : nat) (a b : list (list A)) :
  shaped r1 c a -> shaped r2 c b -> (0 < r1)%nat ->
  npreshape (length a + r2) (width a) (concat a ++ concat b) = Ok (a ++ b).
Proof.
  intros Ha Hb Hpos. pose proof (shaped_app _ _ _ _ _ Ha Hb) as Hab.
  rewrite (width_shaped r1 c a Ha Hpos). unfold npreshape.
  rewrite <- concat_app, (concat_length_shaped _ _ _ Hab).
  destruct Ha as [Hla _]. rewrite Hla, Nat.eqb_refl.
  destruct Hab as [Hl Hc]. rewrite <- Hl. now rewrite rows_of_concat.
Qed.

Lemma npreshape_mismatch {A} (r1 r2 c1 c2 : nat) (a b : list (list A)) :
  shaped r1 c1 a -> shaped r2 c2 b -> (0 < r1)%nat -> (0 < r2)%nat -> c1 <> c2 ->
  npreshape (length a + r2) (width a) (concat a ++ concat b) = Raise ValueError.
Proof.
  intros Ha Hb Hp1 Hp2 Hne. rewrite (width_shaped r1 c1 a Ha Hp1). unfold npreshape.
  rewrite length_app, (concat_length_shaped _ _ _ Ha), (concat_length_shaped _ _ _ Hb).
  destruct Ha as [-> _].
  destruct (Nat.eqb (r1 * c1 + r2 * c2) ((r1 + r2) * c1)) eqn:E; [|reflexivity].
  apply Nat.eqb_eq in E. exfalso. apply Hne.
  assert (r2 * c2 = r2 * c1)%nat by lia. nia.
Qed.

Lemma filtErr_shaped (r c : nat) (t : string) (ext : table) (filt : config) (e : mat) :
  table_shape r c ext -> _filtErr t ext filt = Ok e -> shaped r c e.
Proof.
  intros Hs. unfold _filtErr, tmat, tget.
  destruct (ext !! ("E" +:+ t)) as [[| err | | | | | |]|] eqn:He; simpl; try discriminate.
  pose proof (shaped_of_table Hs He) as Hsh.
  set (err1 := match rule filt "mult error" t with
               | Some c0 => map (map (fun e => (e * c0)%Q)) err
               | None => err
               end).
  set (err2 := match rule filt "min error" t with
               | Some c0 => map (map (fun e => if Qltb e c0 then c0 else e)) err1
               | None => err1
               end).
  assert (Hsh1 : shaped r c err1).
  { unfold err1. destruct (rule filt "mult error" t); auto using shaped_map. }
  assert (Hsh2 : shaped r c err2).
  { unfold err2. destruct (rule filt "min error" t); auto using shaped_map. }
  destruct (rule filt "min relative error" t) as [cr|].
  - destruct (ext !! t) as [[| X | | | | | |]|] eqn:Ex; simpl; try discriminate.
    intros [= <-]. apply shaped_map2; [exact Hsh2|]. exact (shaped_of_table Hs Ex).
  - intros [= <-]. exact Hsh2.
Qed.

Lemma filtFlag_shaped (r c : nat) (ext : table) (filt : config) (F : bmat) :
  table_shape r c ext -> (_filtFlag ext filt).2 = Ok F -> shaped r c F.
Proof.
  intros Hs. unfold _filtFlag, tflags, tget.
  destruct (ext !! "FLAG") as [[| | F0 | | | | |]|] eqn:HF; simpl; try discriminate.
  pose proof (shaped_of_flags Hs HF) as Hsh.
  assert (Hff : forall filt', filt_flags ext filt' F0 = Ok F -> shaped r c F).
  { intros filt' H. eapply covers_shaped; [|exact Hsh].
    eapply filt_flags_covers; eassumption. }
  destruct (filt !! "max error") as [me|] eqn:Eme.
  - destruct (ext !! "FLUX") as [fx|].
    + destruct (me !! "NFLUX") as [c0|].
      * destruct (field_mean fx) as [mu|]; simpl; [|discriminate]. apply Hff.
      * apply Hff.
    + apply Hff.
  - destruct (filt !! "max relative error") as [mr|] eqn:Emr.
    + destruct (ext !! "FLUX") as [fx|]; apply Hff.
    + simpl. intros [= <-]. exact Hsh.
Qed.

(** [_filtFlag] writes under ['max error'] only. *)
Lemma filtFlag_config_other (ext : table) (filt : config) (kind : string) :
  kind <> "max error" -> (_filtFlag ext filt).1 !! kind = filt !! kind.
Proof.
  intros Hk. unfold _filtFlag.
  destruct (tflags ext "FLAG") as [flag|]; [|reflexivity].
  destruct (filt !! "max error") as [me|] eqn:Eme.
  - destruct (ext !! "FLUX") as [fx|]; [|reflexivity].
    destruct (me !! "NFLUX") as [c0|]; [|reflexivity].
    destruct (field_mean fx) as [mu|]; [|reflexivity].
    simpl. now rewrite lookup_insert_ne.
  - destruct (filt !! "max relative error");
      [destruct (ext !! "FLUX") as [fx|]; reflexivity | reflexivity].
Qed.

(** [_filtErr] reads the three kinds of rules on errors only. *)
Lemma filtErr_rules (t : string) (ext : table) (filt filt' : config) :
  (forall kind, kind <> "max error" -> filt' !! kind = filt !! kind) ->
  _filtErr t ext filt' = _filtErr t ext filt.
Proof.
  intros H. unfold _filtErr, rule. rewrite !H by discriminate. reflexivity.
Qed.

Lemma merge_tmp_inv (oiT : table) (fit fitc : option config) (t : string)
    (ks : list string) :
  fit_inv fit fitc (t :: ks) -> ~ In t ks ->
  (merge_tmp oiT fitc t).2 = (merge_tmp oiT fit t).2 /\
  fit_inv fit (merge_tmp oiT fitc t).1 ks /\
  (t = "FLAG" -> (merge_tmp oiT fitc t).1 = (fun filt => (_filtFlag oiT filt).1) <$> fit) /\
  (t <> "FLAG" -> (merge_tmp oiT fitc t).1 = fitc).
Proof.
  intros Hinv Hnin. unfold fit_inv in Hinv.
  destruct fit as [filt|], fitc as [fc|]; try contradiction.
  - destruct Hinv as [Hflag Hrules]. unfold merge_tmp.
    destruct (String.prefix "E" t && bool_decide (is_Some (oiT !! slice_from 1 t))) eqn:E.
    + simpl. split; [now rewrite (filtErr_rules _ _ filt fc Hrules)|].
      assert (Hne : t <> "FLAG").
      { intros ->. simpl in E. discriminate. }
      split; [|split; [contradiction | reflexivity]].
      split; [intros H; apply Hflag; now right | exact Hrules].
    + destruct (String.eqb t "FLAG") eqn:Et.
      * apply String.eqb_eq in Et. subst t.
        rewrite (Hflag (or_introl eq_refl)).
        destruct (_filtFlag oiT filt) as [filt' F] eqn:EF. simpl.
        split; [reflexivity|]. split; [|split; [intros _; now rewrite EF | congruence]].
        split; [contradiction|]. intros kind Hk.
        pose proof (filtFlag_config_other oiT filt kind Hk) as H. now rewrite EF in H.
      * apply String.eqb_neq in Et. simpl. split; [reflexivity|].
        split; [|split; [contradiction | reflexivity]].
        split; [intros H; apply Hflag; now right | exact Hrules].
  - simpl. auto.
Qed.

Section MergeRows.
Variables (r1 r2 c : nat) (T oiT : table).
Hypothesis HT : table_shape r1 c T.
Hypothesis HoiT : table_shape r2 c oiT.
Hypothesis Hpos : (0 < r1)%nat.

Lemma merge_ext1_fold (ks : list string) :
  List.NoDup ks -> forall Tc T',
  (forall t, In t ks -> Tc !! t = T !! t) ->
  foldM (merge_ext1 oiT) Tc ks = Ok T' ->
  (forall t, In t ks -> exists a b, T !! t = Some (Vec a) /\ oiT !! t = Some (Vec b) /\
                                    T' !! t = Some (Vec (a ++ b))) /\
  (forall t, ~ In t ks -> T' !! t = Tc !! t).
Proof.
  induction 1 as [|k ks Hk Hnd IH]; intros Tc T' Hsame Hrun.
  - injection Hrun as <-. split; [intros t [] | reflexivity].
  - cbn [foldM] in Hrun.
    destruct (merge_ext1 oiT Tc k) as [T1|] eqn:E1; simpl in Hrun; [|discriminate].
    unfold merge_ext1, tvec, tget in E1. rewrite (Hsame k (or_introl eq_refl)) in E1.
    destruct (T !! k) as [[a| | | | | | |]|] eqn:Ea; simpl in E1; try discriminate.
    destruct (oiT !! k) as [[b| | | | | | |]|] eqn:Eb; simpl in E1; try discriminate.
    injection E1 as <-.
    destruct (IH (<[k := Vec (a ++ b)]> Tc) T') as [I1 I2].
    + intros t Ht. rewrite lookup_insert_ne by (intros ->; contradiction).
      apply Hsame. now right.
    + exact Hrun.
    + split.
      * intros t [<-|Ht]; [|now apply I1].
        exists a, b. rewrite (I2 k Hk), lookup_insert_eq. auto.
      * intros t Ht. rewrite (I2 t) by (intros H; apply Ht; now right).
        apply lookup_insert_ne. intros ->. apply Ht. now left.
Qed.

Lemma merge_ext2_step (fit : option config) (Tc : table) (t : string)
    (fit' : option config) (T' : table) :
  Tc !! t = T !! t ->
  merge_ext2 oiT (fit, Tc) t = Ok (fit', T') ->
  exists f, (merge_tmp oiT fit t).2 = Ok f /\ fit' = (merge_tmp oiT fit t).1 /\
    T' = <[t := match T !! t, f with
                | Some (Mat a), Mat b => Mat (a ++ b)
                | Some (Flags a), Flags b => Flags (a ++ b)
                | _, _ => f
                end]> Tc /\
    rows_appended r2 c T T' t f.
Proof.
  intros Hsame. unfold merge_ext2, tget. rewrite Hsame.
  destruct (T !! t) as [fa|] eqn:Ea; simpl; [|discriminate].
  destruct (oiT !! t) as [fb|] eqn:Eb; simpl; [|discriminate].
  destruct (field_rows fb) as [n2|] eqn:En; simpl; [|discriminate].
  assert (Hn2 : n2 = r2) by (destruct (HoiT t fb Eb) as [H _]; now apply H).
  subst n2.
  assert (Htmp : forall f, (merge_tmp oiT fit t).2 = Ok f ->
            match f with
            | Mat m => shaped r2 c m
            | Flags m => shaped r2 c m
            | _ => True
            end).
  { intros f. unfold merge_tmp. destruct fit as [filt|].
    - destruct (String.prefix "E" t && bool_decide (is_Some (oiT !! slice_from 1 t))).
      + simpl. destruct (_filtErr (slice_from 1 t) oiT filt) as [e|] eqn:Ee; simpl;
          [|discriminate].
        intros [= <-]. eapply filtErr_shaped; eassumption.
      + destruct (String.eqb t "FLAG").
        * pose proof (filtFlag_shaped r2 c oiT filt) as HF.
          destruct (_filtFlag oiT filt) as [filt' [F|]]; simpl in *; [|discriminate].
          intros [= <-]. now apply HF.
        * simpl. unfold tget. rewrite Eb. intros [= <-].
          destruct fb; try exact I.
          -- exact (shaped_of_table HoiT Eb).
          -- exact (shaped_of_flags HoiT Eb).
    - simpl. unfold tget. rewrite Eb. intros [= <-].
      destruct fb; try exact I.
      + exact (shaped_of_table HoiT Eb).
      + exact (shaped_of_flags HoiT Eb). }
  destruct (merge_tmp oiT fit t) as [fitn [f|]] eqn:Em; simpl in *; [|discriminate].
  specialize (Htmp f eq_refl).
  destruct fa as [va | a | a | | | | |]; destruct f as [vb | b | b | | | | |];
    simpl; try discriminate.
  - rewrite (npreshape_append r1 r2 c a b (shaped_of_table HT Ea) Htmp Hpos). simpl.
    intros [= <- <-]. exists (Mat b). split; [reflexivity|]. split; [reflexivity|].
    split; [reflexivity|]. left. exists a, b. rewrite lookup_insert_eq. auto.
  - rewrite (npreshape_append r1 r2 c a b (shaped_of_flags HT Ea) Htmp Hpos). simpl.
    intros [= <- <-]. exists (Flags b). split; [reflexivity|]. split; [reflexivity|].
    split; [reflexivity|]. right. exists a, b. rewrite lookup_insert_eq. auto.
Qed.

Lemma merge_ext2_fold (fit : option config) (ks : list string) :
  List.NoDup ks -> forall fitc Tc fit' T',
  (forall t, In t ks -> Tc !! t = T !! t) ->
  fit_inv fit fitc ks ->
  foldM (merge_ext2 oiT) (fitc, Tc) ks = Ok (fit', T') ->
  (forall t, In t ks -> exists f, (merge_tmp oiT fit t).2 = Ok f /\
                                  rows_appended r2 c T T' t f) /\
  (forall t, ~ In t ks -> T' !! t = Tc !! t) /\
  (In "FLAG" ks -> fit' = (fun filt => (_filtFlag oiT filt).1) <$> fit) /\
  (~ In "FLAG" ks -> fit' = fitc).
Proof.
  induction 1 as [|k ks Hk Hnd IH]; intros fitc Tc fit' T' Hsame Hinv Hrun.
  - injection Hrun as <- <-. split; [intros t []|]. split; [reflexivity|].
    split; [intros [] | reflexivity].
  - cbn [foldM] in Hrun.
    destruct (merge_ext2 oiT (fitc, Tc) k) as [[fit1 T1]|] eqn:E1; simpl in Hrun;
      [|discriminate].
    destruct (merge_ext2_step fitc Tc k fit1 T1 (Hsame k (or_introl eq_refl)) E1)
      as (f & Hf & Hfit1 & HT1 & Happ).
    destruct (merge_tmp_inv oiT fit fitc k ks Hinv Hk) as (Heq & Hinv1 & Hflag & Hnflag).
    rewrite <- Hfit1 in Hinv1, Hflag, Hnflag.
    destruct (IH fit1 T1 fit' T') as (I1 & I2 & I3 & I4).
    + intros t Ht. rewrite HT1, lookup_insert_ne by (intros ->; contradiction).
      apply Hsame. now right.
    + exact Hinv1.
    + exact Hrun.
    + split; [|split; [|split]].
      * intros t [<-|Ht]; [|now apply I1].
        exists f. split; [now rewrite <- Heq|].
        unfold rows_appended in *. rewrite (I2 k Hk). exact Happ.
      * intros t Ht. rewrite (I2 t) by (intros H; apply Ht; now right).
        rewrite HT1. apply lookup_insert_ne. intros ->. apply Ht. now left.
      * intros [Hkf|Hin]; [|now apply I3].
        rewrite (I4 ltac:(now rewrite <- Hkf)). now apply Hflag.
      * intros Hn. rewrite I4 by (intros H; apply Hn; now right).
        apply Hnflag. intros ->. apply Hn. now left.
Qed.

End MergeRows.

Lemma NoDup_app_disjoint (a b : list string) :
  List.NoDup (a ++ b) -> forall t, In t a -> In t b -> False.
Proof.
  induction a as [|k a IH]; intros Hnd t Ha Hb; [destruct Ha|].
  simpl in Hnd. apply NoDup_cons_iff in Hnd as [Hk Hnd]. destruct Ha as [->|Ha].
  - apply Hk. apply in_or_app. now right.
  - exact (IH Hnd t Ha Hb).
Qed.

Lemma merge_cols_lists (l : string) (ext1 ext2 : list string) :
  merge_cols l = Some (ext1, ext2) ->
  List.NoDup (ext1 ++ ext2) /\ In "FLAG" ext2 /\ ext2 <> [] /\
  Forall (fun t => String.prefix "E" t = true -> t = "E" +:+ slice_from 1 t) ext2.
Proof.
  unfold merge_cols. intros H.
  assert (Hnd : forall ks : list string,
            (fix nodupb (ks : list string) : bool :=
               match ks with
               | [] => true
               | k :: ks' => negb (inb k ks') && nodupb ks'
               end) ks = true -> List.NoDup ks).
  { induction ks as [|k ks IH]; [constructor|].
    intros Hb. apply andb_prop in Hb as [H1 H2]. constructor; [|now apply IH].
    intros Hin. apply inb_In in Hin. rewrite Hin in H1. discriminate. }
  destruct (String.eqb l "OI_T3");
    [|destruct (String.eqb l "OI_FLUX");
      [|destruct (String.eqb l "OI_VIS2"); [|destruct (String.eqb l "OI_VIS")]]];
    try discriminate; injection H as <- <-;
    (split; [apply Hnd; vm_compute; reflexivity|]);
    (split; [simpl; tauto|]); (split; [discriminate|]);
    repeat constructor; simpl; try discriminate.
Qed.

(** X11.  Merging the table [oiT] of one dataset into the table [T] that holds the
    merged data of its setup, both [c] channels wide: when the merge returns,
    each column of one value per row holds the values of [T] followed by
    those of [oiT]; each column of one value per row and channel holds the
    rows of [T] followed by the rows of [oiT], the errors as [_filtErr] and
    the flags as [_filtFlag] edit them when the dataset has a ['fit'], which
    is left as [_filtFlag] leaves it; the other entries of [T] are kept; and
    a table whose arrays are all among these columns has [r1 + r2] rows of
    [c] channels in every array. *)
Theorem merge_table_appends_rows (l : string) (ext1 ext2 : list string) (r1 r2 c : nat)
    (T oiT : table) (fit fit' : option config) (T' : table) :
  merge_cols l = Some (ext1, ext2) ->
  table_shape r1 c T -> table_shape r2 c oiT -> (0 < r1)%nat ->
  merge_table l oiT fit T = Ok (fit', T') ->
  (forall t, In t ext1 ->
     exists a b, T !! t = Some (Vec a) /\ oiT !! t = Some (Vec b) /\
                 T' !! t = Some (Vec (a ++ b))) /\
  (forall t, In t ext2 ->
     exists f, (merge_tmp oiT fit t).2 = Ok f /\ rows_appended r2 c T T' t f) /\
  (forall t, ~ In t (ext1 ++ ext2) -> T' !! t = T !! t) /\
  fit' = (fun filt => (_filtFlag oiT filt).1) <$> fit /\
  ((forall t f n, T !! t = Some f -> field_rows f = Some n -> In t (ext1 ++ ext2)) ->
   table_shape (r1 + r2) c T').
Proof.
  intros Hcols HT HoiT Hpos Hrun.
  destruct (merge_cols_lists l ext1 ext2 Hcols) as (Hnd & Hflag & _ & _).
  unfold merge_table in Hrun. rewrite Hcols in Hrun.
  destruct (foldM (merge_ext1 oiT) T ext1) as [T1|] eqn:E1; simpl in Hrun; [|discriminate].
  apply NoDup_app_remove_l in Hnd as Hnd2. apply NoDup_app_remove_r in Hnd as Hnd1.
  pose proof (NoDup_app_disjoint ext1 ext2 Hnd) as Hdisj.
  destruct (merge_ext1_fold T oiT ext1 Hnd1 T T1 (fun _ _ => eq_refl) E1) as [A1 A2].
  destruct (merge_ext2_fold r1 r2 c T oiT HT HoiT Hpos fit ext2 Hnd2 fit T1 fit' T')
    as (B1 & B2 & B3 & _).
  - intros t Ht. apply A2. intros H1. exact (Hdisj t H1 Ht).
  - unfold fit_inv. destruct fit; auto.
  - exact Hrun.
  - assert (C1 : forall t, In t ext1 ->
              exists a b, T !! t = Some (Vec a) /\ oiT !! t = Some (Vec b) /\
                          T' !! t = Some (Vec (a ++ b))).
    { intros t Ht. destruct (A1 t Ht) as (a & b & Ha & Hb & Hab).
      exists a, b. rewrite (B2 t) by (intros H2; exact (Hdisj t Ht H2)). auto. }
    assert (C3 : forall t, ~ In t (ext1 ++ ext2) -> T' !! t = T !! t).
    { intros t Ht. rewrite (B2 t), (A2 t); [reflexivity | |];
        intros H; apply Ht; apply in_or_app; auto. }
    split; [exact C1|]. split; [exact B1|]. split; [exact C3|].
    split; [now apply B3|].
    intros Hall t f Hf. destruct (in_dec String.string_dec t ext1) as [H1|H1].
    + destruct (C1 t H1) as (a & b & Ha & Hb & Hab). rewrite Hab in Hf. injection Hf as <-.
      split; [|reflexivity]. intros n [= <-]. rewrite length_app.
      destruct (HT t _ Ha) as [Hra _]. destruct (HoiT t _ Hb) as [Hrb _].
      rewrite <- (Hra _ eq_refl), <- (Hrb _ eq_refl). reflexivity.
    + destruct (in_dec String.string_dec t ext2) as [H2|H2].
      * destruct (B1 t H2) as (f0 & _ & [(a & b & Ha & _ & Hb & Hab)|(a & b & Ha & _ & Hb & Hab)]);
          rewrite Hab in Hf; injection Hf as <-.
        -- pose proof (shaped_app _ _ _ _ _ (shaped_of_table HT Ha) Hb) as [Hl Hc].
           split; [intros n [= <-]; exact Hl|]. simpl. apply forallb_forall.
           intros row Hrow. apply Nat.eqb_eq. rewrite Forall_forall in Hc. now apply Hc.
        -- pose proof (shaped_app _ _ _ _ _ (shaped_of_flags HT Ha) Hb) as [Hl Hc].
           split; [intros n [= <-]; exact Hl|]. simpl. apply forallb_forall.
           intros row Hrow. apply Nat.eqb_eq. rewrite Forall_forall in Hc. now apply Hc.
      * assert (Hnin : ~ In t (ext1 ++ ext2)).
        { intros H. apply in_app_or in H. tauto. }
        rewrite (C3 t Hnin) in Hf. destruct (field_rows f) as [n|] eqn:En.
        -- exfalso. apply Hnin. eapply Hall; eassumption.
        -- split; [discriminate|]. destruct f; try reflexivity; discriminate.
Qed.

Lemma merge_table_appends_rows_witness :
  (forall t, In t ["u"; "v"; "MJD"] ->
     exists a b, vis2_table 5 3 4 !! t = Some (Vec a) /\
                 vis2_table2 6 7 3 4 !! t = Some (Vec b) /\
                 merged_vis2 !! t = Some (Vec (a ++ b))) /\
  (forall t, In t ["V2"; "EV2"; "FLAG"; "u/wl"; "v/wl"; "B/wl"; "PA"] ->
     exists f, (merge_tmp (vis2_table2 6 7 3 4) (Some mult_fit) t).2 = Ok f /\
               rows_appended 2 2 (vis2_table 5 3 4) merged_vis2 t f) /\
  (forall t, ~ In t (["u"; "v"; "MJD"] ++ ["V2"; "EV2"; "FLAG"; "u/wl"; "v/wl"; "B/wl"; "PA"]) ->
     merged_vis2 !! t = vis2_table 5 3 4 !! t) /\
  Some mult_fit = (fun filt => (_filtFlag (vis2_table2 6 7 3 4) filt).1) <$> Some mult_fit /\
  ((forall t f n, vis2_table 5 3 4 !! t = Some f -> field_rows f = Some n ->
      In t (["u"; "v"; "MJD"] ++ ["V2"; "EV2"; "FLAG"; "u/wl"; "v/wl"; "B/wl"; "PA"])) ->
   table_shape (1 + 2) 2 merged_vis2).
Proof.
  apply (merge_table_appends_rows "OI_VIS2" ["u"; "v"; "MJD"]
           ["V2"; "EV2"; "FLAG"; "u/wl"; "v/wl"; "B/wl"; "PA"] 1 2 2
           (vis2_table 5 3 4) (vis2_table2 6 7 3 4) (Some mult_fit) (Some mult_fit)
           merged_vis2).
  - reflexivity.
  - apply table_shapeb_spec. vm_compute. reflexivity.
  - apply table_shapeb_spec. vm_compute. reflexivity.
  - lia.
  - vm_compute. reflexivity.
Defined.

Lemma foldM_returns {A S} (P : S -> Prop) (step : S -> A -> result S) (ks : list A) :
  (forall s k, In k ks -> P s -> exists s', step s k = Ok s' /\ P s') ->
  forall s, P s -> exists s', foldM step s ks = Ok s' /\ P s'.
Proof.
  induction ks as [|k ks IH]; intros Hstep s Hs; [exists s; auto|].
  destruct (Hstep s k (or_introl eq_refl) Hs) as (s1 & E1 & H1).
  destruct (IH (fun s0 k0 Hk => Hstep s0 k0 (or_intror Hk)) s1 H1) as (s' & E' & H').
  exists s'. split; [|exact H']. cbn [foldM]. rewrite E1. exact E'.
Qed.

Lemma filtErr_returns (t : string) (ext : table) (filt : config) :
  is_mat ext ("E" +:+ t) = true -> is_mat ext t = true ->
  exists e, _filtErr t ext filt = Ok e.
Proof.
  unfold is_mat, _filtErr, tmat, tget. intros He Hx.
  destruct (ext !! ("E" +:+ t)) as [[| err | | | | | |]|]; try discriminate.
  destruct (ext !! t) as [[| X | | | | | |]|]; try discriminate. simpl.
  destruct (rule filt "min relative error" t); simpl; eauto.
Qed.

Lemma filt_flags_returns (ext : table) (filt : config) (flag : bmat) :
  filter_ready ext -> exists F, filt_flags ext filt flag = Ok F.
Proof.
  intros [Hready _]. unfold filt_flags.
  assert (H1 : forall me flag0, exists F,
             foldM (max_error_step ext me) flag0 (map fst (map_to_list me)) = Ok F).
  { intros me flag0.
    destruct (foldM_returns (fun _ => True) (max_error_step ext me) (map fst (map_to_list me)))
      with (s := flag0) as (F & HF & _); [|exact I|eauto].
    intros s k _ _. unfold max_error_step.
    set (k' := if String.eqb k "DPHI" then "PHI" else k).
    destruct (me !! k') as [c0|]; [|eauto].
    destruct (ext !! ("E" +:+ k')) as [f|] eqn:E; [|eauto].
    destruct (Hready k') as [Hm _]; [rewrite E; eauto|].
    unfold is_mat in Hm. unfold tmat, tget. rewrite E in *.
    destruct f; try discriminate. simpl. eauto. }
  assert (H2 : forall mr flag0, exists F,
             foldM (max_relative_step ext mr) flag0 (map fst (map_to_list mr)) = Ok F).
  { intros mr flag0.
    destruct (foldM_returns (fun _ => True) (max_relative_step ext mr)
                (map fst (map_to_list mr)))
      with (s := flag0) as (F & HF & _); [|exact I|eauto].
    intros s k _ _. unfold max_relative_step.
    destruct (mr !! k) as [c0|]; [|eauto].
    destruct (ext !! ("E" +:+ k)) as [f|] eqn:E; [|eauto].
    destruct (Hready k) as [Hm Hx]; [rewrite E; eauto|].
    unfold is_mat in Hm, Hx. unfold tmat, tget. rewrite E in *.
    destruct f; try discriminate. simpl.
    destruct (ext !! k) as [[| X | | | | | |]|]; try discriminate. simpl. eauto. }
  destruct (filt !! "max error") as [me|].
  - destruct (H1 me flag) as [F1 ->]. simpl.
    destruct (filt !! "max relative error") as [mr|]; [apply H2 | eauto].
  - simpl. destruct (filt !! "max relative error") as [mr|]; [apply H2 | eauto].
Qed.

Lemma filtFlag_returns (ext : table) (filt : config) :
  is_flags ext "FLAG" = true -> filter_ready ext ->
  exists F, (_filtFlag ext filt).2 = Ok F.
Proof.
  intros HF Hready. unfold is_flags in HF. unfold _filtFlag, tflags, tget.
  destruct (ext !! "FLAG") as [[| | F0 | | | | |]|]; try discriminate. simpl.
  destruct (filt !! "max error") as [me|].
  - destruct (ext !! "FLUX") as [fx|] eqn:Ex.
    + destruct (me !! "NFLUX") as [c0|].
      * destruct Hready as [H1 H2]. pose proof (H2 ltac:(eauto)) as Hm.
        unfold is_mat in Hm. rewrite Ex in Hm. destruct fx; try discriminate.
        simpl. apply filt_flags_returns. split; assumption.
      * now apply filt_flags_returns.
    + now apply filt_flags_returns.
  - destruct (filt !! "max relative error") as [mr|].
    + destruct (ext !! "FLUX"); now apply filt_flags_returns.
    + simpl. eauto.
Qed.

Section MergeWidths.
Variables (r1 r2 c1 c2 : nat) (T oiT : table).
Hypothesis HT : table_shape r1 c1 T.
Hypothesis HoiT : table_shape r2 c2 oiT.
Hypothesis Hpos1 : (0 < r1)%nat.
Hypothesis Hpos2 : (0 < r2)%nat.

Lemma merge_tmp_returns (fitc : option config) (t : string) :
  (is_Some fitc -> filter_ready oiT) ->
  (if String.eqb t "FLAG" then is_flags oiT t = true else is_mat oiT t = true) ->
  (String.prefix "E" t = true -> t = "E" +:+ slice_from 1 t) ->
  exists f, (merge_tmp oiT fitc t).2 = Ok f /\
    match f with
    | Mat m => t <> "FLAG" /\ shaped r2 c2 m
    | Flags m => t = "FLAG" /\ shaped r2 c2 m
    | _ => False
    end.
Proof.
  intros Hready Hty HE.
  assert (Hplain : exists f, tget oiT t = Ok f /\
            match f with
            | Mat m => t <> "FLAG" /\ shaped r2 c2 m
            | Flags m => t = "FLAG" /\ shaped r2 c2 m
            | _ => False
            end).
  { unfold tget. destruct (String.eqb t "FLAG") eqn:Et.
    - apply String.eqb_eq in Et. unfold is_flags in Hty.
      destruct (oiT !! t) as [[| | F | | | | |]|] eqn:E; try discriminate.
      eexists. split; [reflexivity|]. split; [exact Et | exact (shaped_of_flags HoiT E)].
    - apply String.eqb_neq in Et. unfold is_mat in Hty.
      destruct (oiT !! t) as [[| m | | | | | |]|] eqn:E; try discriminate.
      eexists. split; [reflexivity|]. split; [exact Et | exact (shaped_of_table HoiT E)]. }
  unfold merge_tmp. destruct fitc as [filt|]; [|exact Hplain].
  specialize (Hready ltac:(eauto)).
  destruct (String.prefix "E" t && bool_decide (is_Some (oiT !! slice_from 1 t))) eqn:E.
  - apply andb_prop in E as [Ep Etail]. specialize (HE Ep).
    assert (Hne : t <> "FLAG") by (intros ->; discriminate).
    destruct Hready as [H1 _]. destruct (H1 (slice_from 1 t)) as [Hm Hx].
    { rewrite <- HE. apply String.eqb_neq in Hne. rewrite Hne in Hty.
      unfold is_mat in Hty. destruct (oiT !! t); [eauto | discriminate]. }
    destruct (filtErr_returns (slice_from 1 t) oiT filt Hm Hx) as [e He].
    simpl. rewrite He. simpl. eexists. split; [reflexivity|]. split; [exact Hne|].
    eapply filtErr_shaped; eassumption.
  - destruct (String.eqb t "FLAG") eqn:Et; [|exact Hplain].
    apply String.eqb_eq in Et. subst t.
    destruct (filtFlag_returns oiT filt Hty Hready) as [F HF].
    pose proof (filtFlag_shaped r2 c2 oiT filt F HoiT HF) as Hsh.
    destruct (_filtFlag oiT filt) as [filt' rF]. simpl in *. subst rF. simpl.
    eexists. split; [reflexivity|]. split; [reflexivity | exact Hsh].
Qed.

Lemma merge_ext2_step_cases (fitc : option config) (Tc : table) (t : string) :
  Tc !! t = T !! t ->
  (is_Some fitc -> filter_ready oiT) ->
  (if String.eqb t "FLAG" then is_flags T t = true else is_mat T t = true) ->
  (if String.eqb t "FLAG" then is_flags oiT t = true else is_mat oiT t = true) ->
  (String.prefix "E" t = true -> t = "E" +:+ slice_from 1 t) ->
  (c1 = c2 -> exists f, merge_ext2 oiT (fitc, Tc) t
                        = Ok ((merge_tmp oiT fitc t).1, <[t := f]> Tc)) /\
  (c1 <> c2 -> merge_ext2 oiT (fitc, Tc) t = Raise ValueError).
Proof.
  intros Hsame Hready HtyT Hty HE.
  destruct (merge_tmp_returns fitc t Hready Hty HE) as (f & Hf & Hshape).
  unfold merge_ext2, tget. rewrite Hsame.
  assert (Hrows : exists b, oiT !! t = Some b /\ field_rows b = Some r2).
  { destruct (String.eqb t "FLAG"); unfold is_flags, is_mat in Hty;
      destruct (oiT !! t) as [b|] eqn:Eb; try discriminate;
      destruct b; try discriminate; eexists; (split; [reflexivity|]); simpl; f_equal;
      [exact (proj1 (shaped_of_flags HoiT Eb)) | exact (proj1 (shaped_of_table HoiT Eb))]. }
  destruct Hrows as (b & -> & Hb).
  destruct (merge_tmp oiT fitc t) as [fitn rf]. simpl in Hf. subst rf.
  destruct (String.eqb t "FLAG") eqn:Et.
  - apply String.eqb_eq in Et. unfold is_flags in HtyT.
    destruct (T !! t) as [[| | a | | | | |]|] eqn:Ea; try discriminate.
    destruct f as [| m | m | | | | |]; try contradiction; [destruct Hshape; contradiction|].
    destruct Hshape as [_ Hm]. simpl. rewrite Hb. simpl.
    pose proof (shaped_of_flags HT Ea) as Ha. split.
    + intros <-. rewrite (npreshape_append r1 r2 c1 a m Ha Hm Hpos1). simpl. eauto.
    + intros Hne. now rewrite (npreshape_mismatch r1 r2 c1 c2 a m Ha Hm Hpos1 Hpos2 Hne).
  - apply String.eqb_neq in Et. unfold is_mat in HtyT.
    destruct (T !! t) as [[| a | | | | | |]|] eqn:Ea; try discriminate.
    destruct f as [| m | m | | | | |]; try contradiction; [|destruct Hshape; contradiction].
    destruct Hshape as [_ Hm]. simpl. rewrite Hb. simpl.
    pose proof (shaped_of_table HT Ea) as Ha. split.
    + intros <-. rewrite (npreshape_append r1 r2 c1 a m Ha Hm Hpos1). simpl. eauto.
    + intros Hne. now rewrite (npreshape_mismatch r1 r2 c1 c2 a m Ha Hm Hpos1 Hpos2 Hne).
Qed.

Lemma merge_tmp_fit (fitc : option config) (t : string) :
  is_Some (merge_tmp oiT fitc t).1 -> is_Some fitc.
Proof.
  unfold merge_tmp. destruct fitc as [filt|]; [eauto|]. simpl. auto.
Qed.

Lemma merge_ext2_returns (ks : list string) :
  List.NoDup ks -> c1 = c2 ->
  (forall t, In t ks ->
     if String.eqb t "FLAG" then is_flags T t = true else is_mat T t = true) ->
  (forall t, In t ks ->
     if String.eqb t "FLAG" then is_flags oiT t = true else is_mat oiT t = true) ->
  (forall t, In t ks -> String.prefix "E" t = true -> t = "E" +:+ slice_from 1 t) ->
  forall fitc Tc, (is_Some fitc -> filter_ready oiT) ->
  (forall t, In t ks -> Tc !! t = T !! t) ->
  exists res, foldM (merge_ext2 oiT) (fitc, Tc) ks = Ok res.
Proof.
  intros Hnd Hc. induction Hnd as [|k ks Hk Hnd IH]; intros HtyT Hty HE fitc Tc Hready Hsame;
    [simpl; eauto|].
  destruct (merge_ext2_step_cases fitc Tc k (Hsame k (or_introl eq_refl)) Hready
              (HtyT k (or_introl eq_refl)) (Hty k (or_introl eq_refl))
              (HE k (or_introl eq_refl))) as [Hok _].
  destruct (Hok Hc) as [f Hf]. cbn [foldM]. rewrite Hf. simpl.
  apply IH.
  - intros t Ht. apply HtyT. now right.
  - intros t Ht. apply Hty. now right.
  - intros t Ht. apply HE. now right.
  - intros H. apply Hready. exact (merge_tmp_fit fitc k H).
  - intros t Ht. rewrite lookup_insert_ne by (intros ->; contradiction).
    apply Hsame. now right.
Qed.

End MergeWidths.

Lemma merge_ext1_returns (T oiT : table) (ks : list string) :
  List.NoDup ks ->
  (forall t, In t ks -> is_vec T t = true) -> (forall t, In t ks -> is_vec oiT t = true) ->
  forall Tc, (forall t, In t ks -> Tc !! t = T !! t) ->
  exists T', foldM (merge_ext1 oiT) Tc ks = Ok T' /\
             forall t, ~ In t ks -> T' !! t = Tc !! t.
Proof.
  induction 1 as [|k ks Hk Hnd IH]; intros HT Ho Tc Hsame; [exists Tc; auto|].
  pose proof (HT k (or_introl eq_refl)) as Ha. pose proof (Ho k (or_introl eq_refl)) as Hb.
  unfold is_vec in Ha, Hb.
  destruct (T !! k) as [[a| | | | | | |]|] eqn:Ea; try discriminate.
  destruct (oiT !! k) as [[b| | | | | | |]|] eqn:Eb; try discriminate.
  assert (E1 : merge_ext1 oiT Tc k = Ok (<[k := Vec (a ++ b)]> Tc)).
  { unfold merge_ext1, tvec, tget. rewrite (Hsame k (or_introl eq_refl)), Ea, Eb.
    reflexivity. }
  destruct (IH (fun t H => HT t (or_intror H)) (fun t H => Ho t (or_intror H))
              (<[k := Vec (a ++ b)]> Tc)) as (T' & HT' & Hrest).
  - intros t Ht. rewrite lookup_insert_ne by (intros ->; contradiction).
    apply Hsame. now right.
  - exists T'. split; [cbn [foldM]; rewrite E1; exact HT'|]. intros t Ht.
    rewrite Hrest by (intros H; apply Ht; now right).
    apply lookup_insert_ne. intros ->. apply Ht. now left.
Qed.

(** X12.  The merge of a table needs one width.  With the columns that [loadOI]
    gives a table of the category on both sides, and what the filters read
    when the dataset has a ['fit']: the merge of tables of the same number of
    channels returns; when the numbers of channels differ, the first
    [reshape] raises a [ValueError]. *)
Theorem merge_table_needs_one_width (l : string) (ext1 ext2 : list string)
    (r1 r2 c1 c2 : nat) (T oiT : table) (fit : option config) :
  merge_cols l = Some (ext1, ext2) ->
  table_shape r1 c1 T -> table_shape r2 c2 oiT -> (0 < r1)%nat -> (0 < r2)%nat ->
  cols_typed ext1 ext2 T -> cols_typed ext1 ext2 oiT ->
  (is_Some fit -> filter_ready oiT) ->
  (c1 = c2 -> exists fit' T', merge_table l oiT fit T = Ok (fit', T')) /\
  (c1 <> c2 -> merge_table l oiT fit T = Raise ValueError).
Proof.
  intros Hcols HT HoiT Hp1 Hp2 [HT1 HT2] [Ho1 Ho2] Hready.
  destruct (merge_cols_lists l ext1 ext2 Hcols) as (Hnd & _ & Hne & HE).
  unfold merge_table. rewrite Hcols.
  apply NoDup_app_remove_l in Hnd as Hnd2. apply NoDup_app_remove_r in Hnd as Hnd1.
  pose proof (NoDup_app_disjoint ext1 ext2 Hnd) as Hdisj.
  destruct (merge_ext1_returns T oiT ext1 Hnd1 HT1 Ho1 T (fun _ _ => eq_refl))
    as (T1 & -> & Hrest). simpl.
  assert (Hsame : forall t, In t ext2 -> T1 !! t = T !! t).
  { intros t Ht. apply Hrest. intros H1. exact (Hdisj t H1 Ht). }
  rewrite Forall_forall in HE. split.
  - intros Hc.
    destruct (merge_ext2_returns r1 r2 c1 c2 T oiT HT HoiT Hp1 Hp2 ext2 Hnd2 Hc
                HT2 Ho2 HE fit T1 Hready Hsame) as [[fit' T'] Hrun].
    eauto.
  - intros Hc. destruct ext2 as [|t ks]; [congruence|]. cbn [foldM].
    destruct (merge_ext2_step_cases r1 r2 c1 c2 T oiT HT HoiT Hp1 Hp2 fit T1 t) as [_ H];
      [apply Hsame; now left | exact Hready | apply HT2; now left | apply Ho2; now left
      | apply HE; now left |].
    now rewrite (H Hc).
Qed.

Lemma vis2_table2_filter_ready (mjd1 mjd2 u v : Q) : filter_ready (vis2_table2 mjd1 mjd2 u v).
Proof.
  split.
  - intros k [f Hf]. unfold vis2_table2 in Hf. cbv zeta in Hf.
    apply elem_of_list_to_map_2 in Hf.
    repeat (apply elem_of_cons in Hf as [Hf|Hf];
            [injection Hf as Hk _; simpl in Hk; try discriminate|]);
      [|inversion Hf].
    compute in Hk. subst k. split; reflexivity.
  - intros [f Hf]. discriminate.
Qed.

Lemma merge_table_needs_one_width_witness :
  (2%nat = 2%nat ->
   exists fit' T', merge_table "OI_VIS2" (vis2_table2 6 7 3 4) (Some mult_fit)
                     (vis2_table 5 3 4) = Ok (fit', T')) /\
  (2%nat <> 2%nat ->
   merge_table "OI_VIS2" (vis2_table2 6 7 3 4) (Some mult_fit) (vis2_table 5 3 4)
   = Raise ValueError).
Proof.
  apply (merge_table_needs_one_width "OI_VIS2" ["u"; "v"; "MJD"]
           ["V2"; "EV2"; "FLAG"; "u/wl"; "v/wl"; "B/wl"; "PA"] 1 2 2 2
           (vis2_table 5 3 4) (vis2_table2 6 7 3 4) (Some mult_fit)).
  - reflexivity.
  - apply table_shapeb_spec. vm_compute. reflexivity.
  - apply table_shapeb_spec. vm_compute. reflexivity.
  - lia.
  - lia.
  - split; intros t Ht; simpl in Ht; repeat (destruct Ht as [<-|Ht]; [reflexivity|]);
      destruct Ht.
  - split; intros t Ht; simpl in Ht; repeat (destruct Ht as [<-|Ht]; [reflexivity|]);
      destruct Ht.
  - intros _. apply vis2_table2_filter_ready.
Defined.

Lemma Qeq_bool_trans_l (a b c : Q) :
  Qeq_bool a b = true -> Qeq_bool c a = Qeq_bool c b.
Proof.
  intros Hab. apply Qeq_bool_iff in Hab.
  destruct (Qeq_bool c a) eqn:E1, (Qeq_bool c b) eqn:E2; try reflexivity.
  - apply Qeq_bool_iff in E1. assert (H : (c == b)%Q) by (now rewrite E1).
    apply Qeq_bool_iff in H. congruence.
  - apply Qeq_bool_iff in E2. assert (H : (c == a)%Q) by (now rewrite E2, Hab).
    apply Qeq_bool_iff in H. congruence.
Qed.

Lemma qget_qset {V} (d : list (Q * V)) (k k' : Q) (v : V) :
  qget (qset d k v) k' = if Qeq_bool k' k then Some v else qget d k'.
Proof.
  induction d as [|[k0 v0] d IH]; [reflexivity|].
  simpl. destruct (Qeq_bool k k0) eqn:E.
  - simpl. rewrite (Qeq_bool_trans_l k k0 k' E). now destruct (Qeq_bool k' k0).
  - simpl. rewrite IH. destruct (Qeq_bool k' k0) eqn:E0; [|reflexivity].
    destruct (Qeq_bool k' k) eqn:E1; [|reflexivity].
    apply Qeq_bool_iff in E0, E1. assert (H : (k == k0)%Q) by (now rewrite <- E1, E0).
    apply Qeq_bool_iff in H. congruence.
Qed.

Lemma qget_proper {V} (d : list (Q * V)) (a b : Q) :
  (a == b)%Q -> qget d a = qget d b.
Proof.
  intros H. induction d as [|[k0 v0] d IH]; [reflexivity|].
  simpl. rewrite IH.
  assert (E : Qeq_bool a k0 = Qeq_bool b k0).
  { destruct (Qeq_bool a k0) eqn:E1, (Qeq_bool b k0) eqn:E2; try reflexivity.
    - apply Qeq_bool_iff in E1. assert (H' : (b == k0)%Q) by (now rewrite <- H).
      apply Qeq_bool_iff in H'. congruence.
    - apply Qeq_bool_iff in E2. assert (H' : (a == k0)%Q) by (now rewrite H).
      apply Qeq_bool_iff in H'. congruence. }
  now rewrite E.
Qed.

Lemma conf_add_listed (k : string) (conf : list (Q * list string)) (m mjd : Q) (k' : string) :
  listed (conf_add k conf m) mjd k' <-> listed conf mjd k' \/ (k' = k /\ (m == mjd)%Q).
Proof.
  unfold listed, conf_add. destruct (qget conf m) as [ks|] eqn:Em.
  - destruct (inb k ks) eqn:Ek.
    + split; [auto|]. intros [H|[-> Hm]]; [exact H|].
      exists ks. split; [|now apply inb_In]. rewrite <- (qget_proper conf m mjd Hm). exact Em.
    + split.
      * intros (ks' & Hg & Hin). rewrite qget_qset in Hg.
        destruct (Qeq_bool mjd m) eqn:E.
        -- injection Hg as <-. apply Qeq_bool_iff in E.
           apply in_app_or in Hin as [Hin|[<-|[]]].
           ++ left. exists ks. split; [|exact Hin].
              rewrite (qget_proper conf mjd m E). exact Em.
           ++ right. split; [reflexivity | now symmetry].
        -- left. eauto.
      * intros [(ks' & Hg & Hin)|[-> Hm]].
        -- rewrite qget_qset. destruct (Qeq_bool mjd m) eqn:E.
           ++ apply Qeq_bool_iff in E. rewrite (qget_proper conf mjd m E), Em in Hg.
              injection Hg as <-. eexists. split; [reflexivity|]. apply in_or_app. now left.
           ++ eauto.
        -- rewrite qget_qset. assert (E : Qeq_bool mjd m = true)
             by (apply Qeq_bool_iff; now symmetry).
           rewrite E. eexists. split; [reflexivity|]. apply in_or_app. right. now left.
  - split.
    + intros (ks' & Hg & Hin). rewrite qget_qset in Hg.
      destruct (Qeq_bool mjd m) eqn:E.
      * injection Hg as <-. destruct Hin as [<-|[]]. right.
        apply Qeq_bool_iff in E. split; [reflexivity | now symmetry].
      * left. eauto.
    + intros [(ks' & Hg & Hin)|[-> Hm]].
      * rewrite qget_qset. destruct (Qeq_bool mjd m) eqn:E; [|eauto].
        apply Qeq_bool_iff in E. rewrite (qget_proper conf mjd m E), Em in Hg. discriminate.
      * rewrite qget_qset. assert (E : Qeq_bool mjd m = true)
          by (apply Qeq_bool_iff; now symmetry).
        rewrite E. eexists. split; [reflexivity|]. now left.
Qed.

Lemma conf_add_nodup (k : string) (conf : list (Q * list string)) (m : Q) :
  conf_nodup conf -> conf_nodup (conf_add k conf m).
Proof.
  unfold conf_nodup, conf_add. intros Hnd mjd ks'.
  destruct (qget conf m) as [ks|] eqn:Em.
  - destruct (inb k ks) eqn:Ek; [apply Hnd|].
    rewrite qget_qset. destruct (Qeq_bool mjd m); [|apply Hnd].
    intros [= <-]. apply NoDup_app; [exact (Hnd m ks Em) | constructor; [intros []|constructor] |].
    intros x Hx [<-|[]]. apply inb_In in Hx. congruence.
  - rewrite qget_qset. destruct (Qeq_bool mjd m); [|apply Hnd].
    intros [= <-]. constructor; [intros [] | constructor].
Qed.

Lemma conf_fold (k : string) (mjds : vec) (conf : list (Q * list string)) :
  (forall mjd k', listed (fold_left (conf_add k) mjds conf) mjd k'
                  <-> listed conf mjd k' \/ (k' = k /\ exists m, In m mjds /\ (m == mjd)%Q)) /\
  (conf_nodup conf -> conf_nodup (fold_left (conf_add k) mjds conf)).
Proof.
  revert conf. induction mjds as [|m mjds IH]; intros conf.
  - split; [|auto]. intros mjd k'. simpl. split; [auto|].
    intros [H|(_ & m & [] & _)]. exact H.
  - destruct (IH (conf_add k conf m)) as [I1 I2]. split.
    + intros mjd k'. cbn [fold_left]. rewrite I1, conf_add_listed. split.
      * intros [[H|[-> Hm]]|(-> & m' & Hin & Hm)]; auto.
        -- right. split; [reflexivity|]. exists m. split; [now left | exact Hm].
        -- right. split; [reflexivity|]. exists m'. split; [now right | exact Hm].
      * intros [H|(-> & m' & [<-|Hin] & Hm)]; auto.
        right. split; [reflexivity|]. eauto.
    + intros Hnd. cbn [fold_left]. apply I2. now apply conf_add_nodup.
Qed.

Lemma conf_tables (c : odict table) :
  (forall k T, In (k, T) c -> is_vec T "MJD" = true) ->
  forall conf, exists conf',
    foldM (fun conf (kT : string * table) =>
             mjds ← tvec kT.2 "MJD";
             Ok (fold_left (conf_add kT.1) mjds conf)) conf c = Ok conf' /\
    (forall mjd k, listed conf' mjd k <-> listed conf mjd k \/ seen_in c mjd k) /\
    (conf_nodup conf -> conf_nodup conf').
Proof.
  induction c as [|[k T] c IH]; intros Hvec conf.
  - exists conf. split; [reflexivity|]. split; [|auto]. intros mjd k0. split; [auto|].
    intros [H|(T & M & m & [] & _)]. exact H.
  - pose proof (Hvec k T (or_introl eq_refl)) as HT. unfold is_vec in HT.
    destruct (T !! "MJD") as [[M| | | | | | |]|] eqn:EM; try discriminate.
    destruct (conf_fold k M conf) as [F1 F2].
    destruct (IH (fun k0 T0 H => Hvec k0 T0 (or_intror H)) (fold_left (conf_add k) M conf))
      as (conf' & Hrun & I1 & I2).
    exists conf'. split; [|split].
    + cbn [foldM].
      assert (E1 : (mjds ← tvec (k, T).2 "MJD"; Ok (fold_left (conf_add (k, T).1) mjds conf))
                   = Ok (fold_left (conf_add k) M conf)).
      { unfold tvec, tget. cbn [fst snd]. rewrite EM. reflexivity. }
      rewrite E1. exact Hrun.
    + intros mjd k0. rewrite I1, F1. unfold seen_in. split.
      * intros [[H|(-> & m & Hin & Hm)]|(T0 & M0 & m & Hin & HM & Hm & Heq)]; auto.
        -- right. exists T, M, m. split; [now left | auto].
        -- right. exists T0, M0, m. split; [now right | auto].
      * intros [H|(T0 & M0 & m & [Heq|Hin] & HM & Hm & Hmjd)]; auto.
        -- injection Heq as <- <-. rewrite EM in HM. injection HM as <-.
           left. right. split; [reflexivity|]. eauto.
        -- right. exists T0, M0, m. auto.
    + intros Hnd. apply I2, F2, Hnd.
Qed.

(** X13.  When every table of the four categories of data has epochs,
    ['configurations per MJD'] lists a name at an epoch exactly when a table of
    that name has a row of that epoch, and lists no name twice. *)
Theorem confperMJD_lists_what_is_observed (cats : odict (odict table)) :
  cats_have_epochs cats ->
  exists conf, confperMJD cats = Ok conf /\
    (forall mjd k, listed conf mjd k <-> observed cats mjd k) /\
    conf_nodup conf.
Proof.
  intros Hvec. unfold confperMJD.
  set (step := fun (conf : list (Q * list string)) (lc : string * odict table) =>
                 if inb lc.1 ["OI_VIS"; "OI_VIS2"; "OI_T3"; "OI_FLUX"] then
                   foldM (fun conf (kT : string * table) =>
                            mjds ← tvec kT.2 "MJD";
                            Ok (fold_left (conf_add kT.1) mjds conf)) conf lc.2
                 else Ok conf).
  assert (H : forall conf, exists conf',
             foldM step conf cats = Ok conf' /\
             (forall mjd k, listed conf' mjd k <-> listed conf mjd k \/ observed cats mjd k) /\
             (conf_nodup conf -> conf_nodup conf')).
  { unfold cats_have_epochs in Hvec. induction cats as [|[l c] cats IH]; intros conf.
    - exists conf. split; [reflexivity|]. split; [|auto]. intros mjd k. split; [auto|].
      intros [H|(l & c & [] & _)]. exact H.
    - assert (Hstep : exists conf1, step conf (l, c) = Ok conf1 /\
                (forall mjd k, listed conf1 mjd k
                   <-> listed conf mjd k
                       \/ (In l ["OI_VIS"; "OI_VIS2"; "OI_T3"; "OI_FLUX"] /\ seen_in c mjd k)) /\
                (conf_nodup conf -> conf_nodup conf1)).
      { unfold step. cbn [fst snd].
        destruct (inb l ["OI_VIS"; "OI_VIS2"; "OI_T3"; "OI_FLUX"]) eqn:El.
        - apply inb_In in El.
          destruct (conf_tables c (fun k T H => Hvec l c k T (or_introl eq_refl) El H) conf)
            as (conf1 & Hrun & I1 & I2).
          exists conf1. split; [exact Hrun|]. split; [|exact I2].
          intros mjd k. rewrite I1. tauto.
        - exists conf. split; [reflexivity|]. split; [|auto].
          intros mjd k. split; [auto|]. intros [H|[Hin _]]; [exact H|].
          apply inb_In in Hin. congruence. }
      destruct Hstep as (conf1 & Hs & S1 & S2).
      destruct (IH (fun l0 c0 k T H => Hvec l0 c0 k T (or_intror H)) conf1)
        as (conf' & Hrun & I1 & I2).
      exists conf'. split; [|split].
      + cbn [foldM]. rewrite Hs. exact Hrun.
      + intros mjd k. rewrite I1, S1. unfold observed. split.
        * intros [[H|[Hl Hseen]]|(l0 & c0 & Hin & Hl & Hseen)]; auto.
          -- right. exists l, c. split; [now left | auto].
          -- right. exists l0, c0. split; [now right | auto].
        * intros [H|(l0 & c0 & [Heq|Hin] & Hl & Hseen)]; auto.
          -- injection Heq as <- <-. auto.
          -- right. exists l0, c0. auto.
      + intros Hnd. apply I2, S2, Hnd. }
  destruct (H []) as (conf' & Hrun & I1 & I2).
  exists conf'. split; [exact Hrun|]. split.
  - intros mjd k. rewrite I1. split; [|auto]. intros [(ks & Hg & _)|Hobs]; [discriminate | exact Hobs].
  - apply I2. intros mjd ks Hg. discriminate.
Qed.

Lemma confperMJD_lists_what_is_observed_witness :
  exists conf, confperMJD [("OI_VIS2", c3_V2); ("OI_VIS", c3_V)] = Ok conf /\
    (forall mjd k, listed conf mjd k
                   <-> observed [("OI_VIS2", c3_V2); ("OI_VIS", c3_V)] mjd k) /\
    conf_nodup conf.
Proof.
  apply (confperMJD_lists_what_is_observed [("OI_VIS2", c3_V2); ("OI_VIS", c3_V)]).
  intros l c k T Hl _ Hk. simpl in Hl.
  destruct Hl as [[= <- <-]|[[= <- <-]|[]]]; simpl in Hk.
  - destruct Hk as [[= <- <-]|[[= <- <-]|[]]]; reflexivity.
  - destruct Hk as [[= <- <-]|[]]; reflexivity.
Defined.

Section BinnedGrid.
Local Open Scope R_scope.

Lemma last_map_seq (f : nat -> R) (n : nat) :
  map f (seq 0 (S n)) !! n = Some (f n).
Proof.
  rewrite list_lookup_fmap, lookup_seq_lt by lia. reflexivity.
Qed.

(** X14.  The binned grid of a file with at least [2*binning] wavelengths that are
    not all equal: it has [len(WL)//binning] points, evenly spaced from the
    least to the greatest wavelength of the file, and the median of its
    spacings, from which [binOI] takes the width of its kernel, is this
    spacing and is positive. *)
Theorem binned_grid_evenly_spaced (WL : list R) (binning : positive) (lo hi : R) :
  npmin WL = Ok lo -> npmax WL = Ok hi -> lo < hi ->
  (2 * Pos.to_nat binning <= length WL)%nat ->
  exists grid, binned_grid WL binning = Ok grid /\
    length grid = (length WL / Pos.to_nat binning)%nat /\
    (forall i x, grid !! i = Some x ->
       x = lo + INR i * ((hi - lo) / INR (length grid - 1)) /\ lo <= x <= hi) /\
    head grid = Some lo /\ grid !! (length grid - 1)%nat = Some hi /\
    npmedian (npdiff grid) = (hi - lo) / INR (length grid - 1) /\
    0 < npmedian (npdiff grid).
Proof.
  intros Hlo Hhi Hlt Hlen. unfold binned_grid. rewrite Hlo, Hhi. cbn [mbind result_bind].
  set (n := (length WL / Pos.to_nat binning)%nat).
  assert (Hn : (2 <= n)%nat).
  { unfold n. apply Nat.div_le_lower_bound; lia. }
  destruct n as [|[|m]] eqn:En; try lia.
  eexists. split; [reflexivity|].
  set (step := (hi - lo) / INR (S (S m) - 1)).
  assert (Hden : 0 < INR (S (S m) - 1)).
  { apply lt_0_INR. lia. }
  assert (Hstep : 0 < step) by (apply Rdiv_lt_0_compat; lra).
  assert (Hl : length (nplinspace lo hi (S (S m))) = S (S m)).
  { unfold nplinspace. now rewrite length_map, length_seq. }
  rewrite Hl. fold step. unfold nplinspace. fold step.
  split; [reflexivity|]. split; [|split; [|split; [|split]]].
  - intros i x Hi. rewrite list_lookup_fmap in Hi.
    destruct (seq 0 (S (S m)) !! i) as [j|] eqn:Ej; [|discriminate].
    apply lookup_seq in Ej as [-> Hj]. simpl in Hi. injection Hi as <-.
    split; [reflexivity|].
    assert (H0 : 0 <= INR i) by apply pos_INR.
    assert (H1 : INR i <= INR (S (S m) - 1)) by (apply le_INR; lia).
    split; [nra|].
    assert (Hs : INR (S (S m) - 1) * step = hi - lo) by (unfold step; field; lra).
    nra.
  - simpl. f_equal. ring.
  - assert (Hs : INR (S (S m) - 1) * step = hi - lo) by (unfold step; field; lra).
    change (S (S m) - 1)%nat with (S m) in *.
    rewrite (last_map_seq (fun i => lo + INR i * step) (S m)).
    apply (f_equal Some). lra.
  - rewrite npdiff_progression. apply npmedian_repeat. lia.
  - rewrite npdiff_progression, npmedian_repeat by lia. exact Hstep.
Qed.

End BinnedGrid.

Lemma binned_grid_evenly_spaced_witness :
  exists grid, binned_grid [1; 2; 3; 5]%R 2 = Ok grid /\
    length grid = (length [1; 2; 3; 5]%R / Pos.to_nat 2)%nat /\
    (forall i x, grid !! i = Some x ->
       x = (1 + INR i * ((5 - 1) / INR (length grid - 1)))%R /\ (1 <= x <= 5)%R) /\
    head grid = Some 1%R /\ grid !! (length grid - 1)%nat = Some 5%R /\
    npmedian (npdiff grid) = ((5 - 1) / INR (length grid - 1))%R /\
    (0 < npmedian (npdiff grid))%R.
Proof.
  apply (binned_grid_evenly_spaced [1; 2; 3; 5]%R 2 1 5).
  - unfold npmin. simpl.
    rewrite (Rmin_left 1 2), (Rmin_left 1 3), (Rmin_left 1 5) by lra. reflexivity.
  - unfold npmax. simpl.
    rewrite (Rmax_right 1 2), (Rmax_right 2 3), (Rmax_right 3 5) by lra. reflexivity.
  - lra.
  - simpl. lia.
Defined.

Lemma trim_step_lookup (fit tmp : config) (k k' : string) :
  tmp !! k = None ->
  trim_step fit tmp k !! k' = if String.eqb k' k then differential (fit !! k) else tmp !! k'.
Proof.
  intros Hk. unfold trim_step, trim_entry. simpl.
  destruct (String.eqb k' k) eqn:E.
  - apply String.eqb_eq in E. subst k'. unfold differential.
    destruct (fit !! k) as [d|]; [|exact Hk].
    destruct (d !! "DPHI") as [a|], (d !! "NFLUX") as [b|]; rewrite ?Hk, ?lookup_insert_eq;
      reflexivity.
  - apply String.eqb_neq in E.
    destruct (fit !! k) as [d|]; [|reflexivity].
    destruct (d !! "DPHI") as [a|], (d !! "NFLUX") as [b|]; rewrite ?Hk, ?lookup_insert_eq;
      rewrite ?lookup_insert_ne by congruence; reflexivity.
Qed.

Lemma trim_fold_lookup (fit : config) (ks : list string) :
  List.NoDup ks -> forall tmp, (forall k, In k ks -> tmp !! k = None) ->
  forall k', fold_left (trim_step fit) ks tmp !! k'
             = if inb k' ks then differential (fit !! k') else tmp !! k'.
Proof.
  induction 1 as [|k ks Hk Hnd IH]; intros tmp Hfree k'; [reflexivity|].
  cbn [fold_left]. rewrite IH.
  - rewrite trim_step_lookup by (apply Hfree; now left).
    unfold inb. cbn [existsb]. fold (inb k' ks).
    destruct (String.eqb k' k) eqn:E.
    + apply String.eqb_eq in E. subst k'.
      destruct (inb k ks) eqn:Ein; [|reflexivity]. reflexivity.
    + reflexivity.
  - intros k0 Hk0. rewrite trim_step_lookup by (apply Hfree; now left).
    destruct (String.eqb k0 k) eqn:E.
    + apply String.eqb_eq in E. subst k0. contradiction.
    + apply Hfree. now right.
Qed.

Lemma kept_fold_lookup (fit : config) (ks : list string) (k : string) :
  forall acc : config,
  fold_left (fun acc k => match fit !! k with
                          | Some d => <[k := d]> acc
                          | None => acc
                          end) ks acc !! k
  = if inb k ks then match fit !! k with Some d => Some d | None => acc !! k end
    else acc !! k.
Proof.
  induction ks as [|k0 ks IH]; intros acc; [reflexivity|].
  cbn [fold_left]. rewrite IH. unfold inb. cbn [existsb]. fold (inb k ks).
  assert (H : match fit !! k0 with Some d => <[k0 := d]> acc | None => acc end !! k
              = if String.eqb k k0
                then match fit !! k with Some d => Some d | None => acc !! k end
                else acc !! k).
  { destruct (String.eqb k k0) eqn:E.
    - apply String.eqb_eq in E. subst k0. destruct (fit !! k); [|reflexivity].
      now rewrite lookup_insert_eq.
    - apply String.eqb_neq in E. destruct (fit !! k0); [|reflexivity].
      now rewrite lookup_insert_ne by congruence. }
  rewrite H. destruct (String.eqb k k0), (inb k ks), (fit !! k); reflexivity.
Qed.

Lemma trim_fit_lookup (fit : config) (k : string) :
  trim_fit fit !! k
  = match differential (fit !! k) with
    | Some d => Some d
    | None => if inb k kept_keys then fit !! k else None
    end.
Proof.
  unfold trim_fit. rewrite lookup_union, kept_fold_lookup, lookup_empty.
  rewrite trim_fold_lookup.
  - rewrite lookup_empty.
    assert (Hk : inb k (map fst (map_to_list fit)) = false -> fit !! k = None).
    { intros Hn. destruct (fit !! k) as [d|] eqn:E; [|reflexivity].
      apply elem_of_map_to_list in E. apply list_elem_of_In in E.
      assert (Hin : In k (map fst (map_to_list fit))).
      { apply in_map_iff. exists (k, d). auto. }
      apply inb_In in Hin. congruence. }
    assert (HX : (if inb k (map fst (map_to_list fit)) then differential (fit !! k) else None)
                 = differential (fit !! k)).
    { destruct (inb k (map fst (map_to_list fit))); [reflexivity|]. now rewrite (Hk eq_refl). }
    rewrite HX.
    assert (HY : match fit !! k with Some d => Some d | None => None end = fit !! k)
      by (now destruct (fit !! k)).
    rewrite HY. destruct (differential (fit !! k)) as [d|];
      destruct (if inb k kept_keys then fit !! k else None); reflexivity.
  - apply NoDup_ListNoDup, NoDup_fst_map_to_list.
  - intros. apply lookup_empty.
Qed.

Lemma differential_lookup (d : option (gmap string Q)) (t : string) :
  differential d ≫= (fun d => d !! t)
  = if String.eqb t "DPHI" || String.eqb t "NFLUX" then d ≫= (fun d => d !! t) else None.
Proof.
  unfold differential. destruct d as [d|]; [|now destruct (_ || _)]. simpl.
  destruct (String.eqb t "DPHI") eqn:E1.
  - apply String.eqb_eq in E1. subst t. simpl.
    destruct (d !! "DPHI") as [a|], (d !! "NFLUX") as [b|]; reflexivity.
  - apply String.eqb_neq in E1. destruct (String.eqb t "NFLUX") eqn:E2; simpl.
    + apply String.eqb_eq in E2. subst t.
      destruct (d !! "DPHI") as [a|], (d !! "NFLUX") as [b|]; reflexivity.
    + apply String.eqb_neq in E2.
      destruct (d !! "DPHI") as [a|], (d !! "NFLUX") as [b|]; simpl; try reflexivity;
        rewrite ?lookup_insert_ne by congruence; apply lookup_singleton_ne; congruence.
Qed.

(** X15.  What [mergeOI] leaves of the rules of ['fit']: under a key other than the
    four that are copied whole, the rules for ['DPHI'] and ['NFLUX'] and no
    other.  With the configuration that a merged dataset carries, [_filtErr]
    therefore returns the errors of any other observable as they are. *)
Theorem trim_fit_keeps_differential_rules (fit : config) :
  (forall kind t, ~ In kind kept_keys ->
     rule (trim_fit fit) kind t
     = if String.eqb t "DPHI" || String.eqb t "NFLUX" then rule fit kind t else None) /\
  (forall t ext, t <> "DPHI" -> t <> "NFLUX" ->
     _filtErr t ext (trim_fit fit) = tmat ext ("E" +:+ t)).
Proof.
  assert (H : forall kind t, ~ In kind kept_keys ->
            rule (trim_fit fit) kind t
            = if String.eqb t "DPHI" || String.eqb t "NFLUX" then rule fit kind t else None).
  { intros kind t Hk. unfold rule. rewrite trim_fit_lookup.
    assert (Hn : inb kind kept_keys = false).
    { destruct (inb kind kept_keys) eqn:E; [|reflexivity]. apply inb_In in E. contradiction. }
    rewrite Hn. rewrite <- differential_lookup.
    now destruct (differential (fit !! kind)). }
  split; [exact H|].
  intros t ext H1 H2.
  assert (Hno : forall kind, ~ In kind kept_keys -> rule (trim_fit fit) kind t = None).
  { intros kind Hk. rewrite (H kind t Hk).
    apply String.eqb_neq in H1, H2. now rewrite H1, H2. }
  unfold _filtErr. rewrite !Hno.
  - destruct (tmat ext ("E" +:+ t)); reflexivity.
  - unfold kept_keys. simpl. intuition discriminate.
  - unfold kept_keys. simpl. intuition discriminate.
  - unfold kept_keys. simpl. intuition discriminate.
Qed.

Lemma collapse_field_comb (rows : nat) (tmp : table) (d : string) (f : field) :
  loaded_field f = true ->
  match tmp !! d with None => True | Some g => acc_kind g f = true end ->
  collapse_field rows tmp (d, f) = Ok (<[d := comb rows (tmp !! d) f]> tmp).
Proof.
  intros Hf Hacc. unfold collapse_field, comb.
  destruct (tmp !! d) as [g|].
  - destruct f as [| | | | [|]| | |]; try discriminate;
      destruct g; try discriminate; reflexivity.
  - destruct f as [| | | | [|]| | |]; try discriminate; reflexivity.
Qed.

Lemma collapse_fields (rows : nat) (l : list (string * field)) :
  List.NoDup (map fst l) -> forall tmp0,
  (forall d f, In (d, f) l ->
     loaded_field f = true /\
     match tmp0 !! d with None => True | Some g => acc_kind g f = true end) ->
  exists tmp1, foldM (collapse_field rows) tmp0 l = Ok tmp1 /\
    (forall d f, In (d, f) l -> tmp1 !! d = Some (comb rows (tmp0 !! d) f)) /\
    (forall d, ~ In d (map fst l) -> tmp1 !! d = tmp0 !! d).
Proof.
  induction l as [|[d0 f0] l IH]; intros Hnd tmp0 Hok.
  - exists tmp0. split; [reflexivity|]. split; [intros d f []|reflexivity].
  - simpl in Hnd. apply NoDup_cons_iff in Hnd as [Hd0 Hnd].
    destruct (Hok d0 f0 (or_introl eq_refl)) as [Hl Hacc].
    destruct (IH Hnd (<[d0 := comb rows (tmp0 !! d0) f0]> tmp0)) as (tmp1 & Hrun & I1 & I2).
    { intros d f Hin. destruct (Hok d f (or_intror Hin)) as [Hl' Hacc'].
      split; [exact Hl'|]. rewrite lookup_insert_ne; [exact Hacc'|].
      intros ->. apply Hd0. apply in_map_iff. exists (d, f). auto. }
    exists tmp1. split; [|split].
    + cbn [foldM]. rewrite (collapse_field_comb rows tmp0 d0 f0 Hl Hacc). exact Hrun.
    + intros d f [[= -> ->]|Hin].
      * rewrite (I2 d Hd0). apply lookup_insert_eq.
      * rewrite (I1 d f Hin). rewrite lookup_insert_ne; [reflexivity|].
        intros ->. apply Hd0. apply in_map_iff. exists (d, f). auto.
    + intros d Hd. rewrite I2 by (intros H; apply Hd; now right).
      apply lookup_insert_ne. intros ->. apply Hd. now left.
Qed.

(** One table folded into the collapse. *)
Lemma collapse_table_comb (tmp0 : table) (k : string) (T : table) (nm : list string) :
  tmp0 !! "NAME" = Some (Names nm) -> T !! "NAME" = None -> is_vec T "MJD" = true ->
  (forall d f, T !! d = Some f ->
     loaded_field f = true /\
     match tmp0 !! d with None => True | Some g => acc_kind g f = true end) ->
  exists tmp1, collapse_table tmp0 (k, T) = Ok tmp1 /\
    tmp1 !! "NAME" = Some (Names (nm ++ replicate (nrows T) k)) /\
    forall d, d <> "NAME" ->
      tmp1 !! d = match T !! d with
                  | Some f => Some (comb (nrows T) (tmp0 !! d) f)
                  | None => tmp0 !! d
                  end.
Proof.
  intros Hnm HTn Hmjd Hok. unfold collapse_table, tvec, tget, nrows, vec_col.
  unfold is_vec in Hmjd.
  destruct (T !! "MJD") as [[mjds| | | | | | |]|] eqn:EM; try discriminate.
  cbn [mbind result_bind]. rewrite Hnm. cbn [mbind result_bind].
  set (tmpn := <["NAME" := Names (nm ++ replicate (length mjds) k)]> tmp0).
  destruct (collapse_fields (length mjds) (map_to_list T)) with (tmp0 := tmpn)
    as (tmp1 & Hrun & I1 & I2).
  - apply NoDup_ListNoDup, NoDup_fst_map_to_list.
  - intros d f Hin. apply list_elem_of_In, elem_of_map_to_list in Hin.
    destruct (Hok d f Hin) as [Hl Hacc]. split; [exact Hl|].
    unfold tmpn. rewrite lookup_insert_ne by congruence. exact Hacc.
  - exists tmp1. split; [exact Hrun|]. split.
    + rewrite I2.
      * unfold tmpn. apply lookup_insert_eq.
      * intros Hin. apply in_map_iff in Hin as ([d f] & Hd & Hin). simpl in Hd. subst d.
        apply list_elem_of_In, elem_of_map_to_list in Hin. congruence.
    + intros d Hd. destruct (T !! d) as [f|] eqn:Ed.
      * rewrite (I1 d f) by (apply list_elem_of_In, elem_of_map_to_list; exact Ed).
        unfold tmpn. now rewrite lookup_insert_ne by congruence.
      * rewrite I2.
        -- unfold tmpn. now rewrite lookup_insert_ne by congruence.
        -- intros Hin. apply in_map_iff in Hin as ([d' f] & Hd' & Hin). simpl in Hd'. subst d'.
           apply list_elem_of_In, elem_of_map_to_list in Hin. congruence.
Qed.


Lemma collapsibleb_spec (c : odict table) : collapsibleb c = true -> collapsible c.
Proof.
  unfold collapsibleb, collapsible. intros H. apply andb_prop in H as [H1 H2]. split.
  - apply Forall_forall. intros kT Hin. rewrite forallb_forall in H1.
    specialize (H1 kT Hin). apply andb_prop in H1 as [H1 Hl]. apply andb_prop in H1 as [Hm Hn].
    split; [exact Hm|]. split; [now destruct (kT.2 !! "NAME")|].
    intros d f Hf. rewrite forallb_forall in Hl.
    apply (Hl (d, f)). apply list_elem_of_In, elem_of_map_to_list. exact Hf.
  - intros kT kT' d f g Hin Hin' Hf Hg. rewrite forallb_forall in H2.
    specialize (H2 kT Hin). rewrite forallb_forall in H2. specialize (H2 kT' Hin').
    rewrite forallb_forall in H2.
    specialize (H2 (d, f) ltac:(apply list_elem_of_In, elem_of_map_to_list; exact Hf)).
    simpl in H2. now rewrite Hg in H2.
Qed.

Lemma acc_kind_same (g f0 f : field) :
  acc_kind g f0 = true -> same_kind f0 f = true -> acc_kind g f = true.
Proof.
  destruct g, f0 as [| | | | [|]| | |], f as [| | | | [|]| | |]; simpl; congruence.
Qed.

Lemma acc_kind_comb (rows : nat) (g : option field) (f : field) :
  loaded_field f = true ->
  match g with None => True | Some g => acc_kind g f = true end ->
  acc_kind (comb rows g f) f = true.
Proof.
  destruct g as [g|]; [destruct g|]; destruct f as [| | | | [|]| | |]; simpl;
    congruence.
Qed.

Lemma collapse_inv_nil : collapse_inv [] (<["NAME" := Names []]> ∅).
Proof.
  unfold collapse_inv. split; [apply lookup_insert_eq|].
  split; [intros d g Hd; rewrite lookup_insert_ne by congruence; discriminate|].
  split; [intros d Hd _; now rewrite lookup_insert_ne by congruence|].
  repeat split; intros d _ H; now elim H.
Qed.

Lemma collapse_inv_step (c0 : odict table) (tmp tmp1 : table) (k : string) (T : table) :
  collapse_inv c0 tmp ->
  (forall d f, T !! d = Some f ->
     loaded_field f = true /\
     match tmp !! d with None => True | Some g => acc_kind g f = true end) ->
  tmp1 !! "NAME" = Some (Names (flat_map (fun kT => replicate (nrows kT.2) kT.1) c0
                                ++ replicate (nrows T) k)) ->
  (forall d, d <> "NAME" ->
     tmp1 !! d = match T !! d with
                 | Some f => Some (comb (nrows T) (tmp !! d) f)
                 | None => tmp !! d
                 end) ->
  collapse_inv (c0 ++ [(k, T)]) tmp1.
Proof.
  intros (I1 & I2 & I3 & I4 & I5 & I6 & I7) Hok Hn Hd.
  assert (Hkind : forall (P : table -> string -> bool) d,
            Forall (fun kT : string * table => P kT.2 d = true) (c0 ++ [(k, T)]) ->
            Forall (fun kT : string * table => P kT.2 d = true) c0 /\ P T d = true).
  { intros P d H. apply Forall_app in H as [H1 H2]. split; [exact H1|].
    now apply Forall_inv in H2. }
  assert (Hempty : forall d, d <> "NAME" -> c0 = [] -> tmp !! d = None).
  { intros d Hne ->. apply I3; [exact Hne | constructor]. }
  unfold collapse_inv. split; [|split; [|split; [|split; [|split; [|split]]]]].
  - rewrite flat_map_app. simpl. now rewrite app_nil_r.
  - intros d g Hne Hg. rewrite (Hd d Hne) in Hg. destruct (T !! d) as [f|] eqn:Ef.
    + injection Hg as <-. exists (k, T), f. split; [apply in_or_app; right; now left|].
      split; [exact Ef|]. destruct (Hok d f Ef) as [Hl Hacc]. now apply acc_kind_comb.
    + destruct (I2 d g Hne Hg) as (kT & f & Hin & Hf & Hacc).
      exists kT, f. split; [apply in_or_app; now left | auto].
  - intros d Hne H. apply Forall_app in H as [H1 H2]. apply Forall_inv in H2. simpl in H2.
    rewrite (Hd d Hne), H2. now apply I3.
  - intros d Hne _ H. destruct (Hkind is_vec d H) as [H1 H2].
    unfold is_vec in H2. destruct (T !! d) as [[v| | | | | | |]|] eqn:Ef; try discriminate.
    rewrite (Hd d Hne), Ef, flat_map_app. simpl. unfold vec_col at 2. rewrite Ef, app_nil_r.
    destruct c0 as [|kT0 c0'].
    + now rewrite (Hempty d Hne eq_refl).
    + now rewrite (I4 d Hne ltac:(discriminate) H1).
  - intros d Hne _ H. destruct (Hkind is_mat d H) as [H1 H2].
    unfold is_mat in H2. destruct (T !! d) as [[| m | | | | | |]|] eqn:Ef; try discriminate.
    rewrite (Hd d Hne), Ef, flat_map_app. simpl. unfold mat_col at 2. rewrite Ef, app_nil_r.
    destruct c0 as [|kT0 c0'].
    + now rewrite (Hempty d Hne eq_refl).
    + now rewrite (I5 d Hne ltac:(discriminate) H1).
  - intros d Hne _ H. destruct (Hkind is_flags d H) as [H1 H2].
    unfold is_flags in H2. destruct (T !! d) as [[| | m | | | | |]|] eqn:Ef; try discriminate.
    rewrite (Hd d Hne), Ef, flat_map_app. simpl. unfold flags_col at 2. rewrite Ef, app_nil_r.
    destruct c0 as [|kT0 c0'].
    + now rewrite (Hempty d Hne eq_refl).
    + now rewrite (I6 d Hne ltac:(discriminate) H1).
  - intros d Hne _ H. destruct (Hkind is_flist d H) as [H1 H2].
    unfold is_flist in H2.
    destruct (T !! d) as [[| | | | [|s t w0 w1 w2] | | |]|] eqn:Ef; try discriminate.
    rewrite (Hd d Hne), Ef, flat_map_app. simpl. unfold form_col at 2. rewrite Ef, app_nil_r.
    destruct c0 as [|kT0 c0'].
    + now rewrite (Hempty d Hne eq_refl).
    + now rewrite (I7 d Hne ltac:(discriminate) H1).
Qed.

Lemma collapse_tables (c1 : odict table) :
  forall c0 tmp, collapsible (c0 ++ c1) -> collapse_inv c0 tmp ->
  exists tmp', foldM collapse_table tmp c1 = Ok tmp' /\ collapse_inv (c0 ++ c1) tmp'.
Proof.
  induction c1 as [|[k T] c1 IH]; intros c0 tmp Hc Hinv.
  - exists tmp. rewrite app_nil_r. auto.
  - destruct Hc as [Hall Hsame].
    assert (HT : is_vec T "MJD" = true /\ T !! "NAME" = None /\
                 forall d f, T !! d = Some f -> loaded_field f = true).
    { apply Forall_app in Hall as [_ H]. now apply Forall_inv in H. }
    destruct HT as (Hmjd & HTn & Hloaded).
    assert (Hok : forall d f, T !! d = Some f ->
              loaded_field f = true /\
              match tmp !! d with None => True | Some g => acc_kind g f = true end).
    { intros d f Hf. split; [now apply (Hloaded d)|].
      destruct (tmp !! d) as [g|] eqn:Eg; [|exact I].
      destruct (String.eqb d "NAME") eqn:Ed.
      - apply String.eqb_eq in Ed. subst d. congruence.
      - apply String.eqb_neq in Ed.
        destruct Hinv as (_ & I2 & _). destruct (I2 d g Ed Eg) as (kT0 & f0 & Hin & Hf0 & Hacc).
        apply (acc_kind_same g f0 f Hacc).
        apply (Hsame kT0 (k, T) d f0 f); [apply in_or_app; now left | | exact Hf0 | exact Hf].
        apply in_or_app. right. now left. }
    destruct Hinv as (I1 & Irest).
    destruct (collapse_table_comb tmp k T _ I1 HTn Hmjd Hok) as (tmp1 & Hrun & Hn & Hd).
    pose proof (collapse_inv_step c0 tmp tmp1 k T (conj I1 Irest) Hok Hn Hd) as Hinv1.
    destruct (IH (c0 ++ [(k, T)]) tmp1) as (tmp' & Hrun' & Hinv').
    + rewrite <- app_assoc. split; assumption.
    + exact Hinv1.
    + exists tmp'. split; [cbn [foldM]; rewrite Hrun; exact Hrun'|].
      now rewrite <- app_assoc in Hinv'.
Qed.

(** X16.  The collapse of a category whose tables are of one make returns; the
    pseudo-table ['all'] names each row after the table it comes from, and
    each of its columns holds the values, the rows or the formulas of the
    tables that have that column, in the order of the tables. *)
Theorem collapse_cat_stacks_tables (cats : odict (odict table)) (e : string)
    (c : odict table) :
  oget cats e = Some c -> collapsible (stacked_tables c) ->
  exists tmp, collapse_cat cats e = Ok (oset cats e (oset c "all" tmp)) /\
    tmp !! "NAME"
    = Some (Names (flat_map (fun kT => replicate (nrows kT.2) kT.1) (stacked_tables c))) /\
    (forall d, d <> "NAME" -> stacked_tables c <> [] ->
       (Forall (fun kT : string * table => is_vec kT.2 d = true) (stacked_tables c) ->
        tmp !! d = Some (Vec (flat_map (fun kT => vec_col kT.2 d) (stacked_tables c)))) /\
       (Forall (fun kT : string * table => is_mat kT.2 d = true) (stacked_tables c) ->
        tmp !! d = Some (Mat (flat_map (fun kT => mat_col kT.2 d) (stacked_tables c)))) /\
       (Forall (fun kT : string * table => is_flags kT.2 d = true) (stacked_tables c) ->
        tmp !! d = Some (Flags (flat_map (fun kT => flags_col kT.2 d) (stacked_tables c)))) /\
       (Forall (fun kT : string * table => is_flist kT.2 d = true) (stacked_tables c) ->
        tmp !! d = Some (Forms (flat_map (fun kT => form_col kT.2 d) (stacked_tables c))))) /\
    (forall d, d <> "NAME" ->
       Forall (fun kT : string * table => kT.2 !! d = None) (stacked_tables c) ->
       tmp !! d = None).
Proof.
  intros Hc Hcoll. unfold collapse_cat. rewrite Hc. fold (stacked_tables c).
  destruct (collapse_tables (stacked_tables c) [] _ Hcoll collapse_inv_nil)
    as (tmp & Hrun & I1 & I2 & I3 & I4 & I5 & I6 & I7).
  simpl in *. exists tmp. rewrite Hrun. split; [reflexivity|]. split; [exact I1|].
  split; [|exact I3]. intros d Hne Hnil. repeat split; auto.
Qed.

Lemma collapse_cat_stacks_tables_witness :
  exists tmp, collapse_cat [("OI_VIS2", c3_V2)] "OI_VIS2"
              = Ok (oset [("OI_VIS2", c3_V2)] "OI_VIS2" (oset c3_V2 "all" tmp)) /\
    tmp !! "NAME"
    = Some (Names (flat_map (fun kT => replicate (nrows kT.2) kT.1) (stacked_tables c3_V2))) /\
    (forall d, d <> "NAME" -> stacked_tables c3_V2 <> [] ->
       (Forall (fun kT : string * table => is_vec kT.2 d = true) (stacked_tables c3_V2) ->
        tmp !! d = Some (Vec (flat_map (fun kT => vec_col kT.2 d) (stacked_tables c3_V2)))) /\
       (Forall (fun kT : string * table => is_mat kT.2 d = true) (stacked_tables c3_V2) ->
        tmp !! d = Some (Mat (flat_map (fun kT => mat_col kT.2 d) (stacked_tables c3_V2)))) /\
       (Forall (fun kT : string * table => is_flags kT.2 d = true) (stacked_tables c3_V2) ->
        tmp !! d = Some (Flags (flat_map (fun kT => flags_col kT.2 d) (stacked_tables c3_V2)))) /\
       (Forall (fun kT : string * table => is_flist kT.2 d = true) (stacked_tables c3_V2) ->
        tmp !! d = Some (Forms (flat_map (fun kT => form_col kT.2 d) (stacked_tables c3_V2))))) /\
    (forall d, d <> "NAME" ->
       Forall (fun kT : string * table => kT.2 !! d = None) (stacked_tables c3_V2) ->
       tmp !! d = None).
Proof.
  apply (collapse_cat_stacks_tables [("OI_VIS2", c3_V2)] "OI_VIS2" c3_V2).
  - reflexivity.
  - apply collapsibleb_spec. vm_compute. reflexivity.
Defined.

Lemma same_columnsb_spec (c : odict table) : same_columnsb c = true -> same_columns c.
Proof.
  unfold same_columnsb, same_columns. intros H kT kT' d Hin Hin' [f Hf].
  rewrite forallb_forall in H. specialize (H kT Hin). rewrite forallb_forall in H.
  specialize (H kT' Hin'). rewrite forallb_forall in H.
  specialize (H (d, f) ltac:(apply list_elem_of_In, elem_of_map_to_list; exact Hf)).
  simpl in H. destruct (kT'.2 !! d); [eauto | discriminate].
Qed.

Lemma flat_map_rows {A B} (f : A -> list B) (h : A -> nat) (l : list A) :
  Forall (fun a => length (f a) = h a) l ->
  length (flat_map f l) = sum_list (map h l).
Proof.
  induction 1 as [|a l Ha _ IH]; [reflexivity|].
  simpl. rewrite length_app, Ha, IH. reflexivity.
Qed.

Lemma flat_map_Forall {A B} (P : B -> Prop) (f : A -> list B) (l : list A) :
  Forall (fun a => Forall P (f a)) l -> Forall P (flat_map f l).
Proof.
  induction 1 as [|a l Ha _ IH]; [constructor|]. simpl. apply Forall_app. auto.
Qed.

(** X17.  The collapse keeps the shape: when the tables of a category are of one
    make, have the same columns and each has arrays of as many rows as it has
    epochs and of [nwl] channels, every array of the pseudo-table ['all'] has
    [nwl] channels and as many rows as the tables have together. *)
Theorem collapse_cat_keeps_shape (cats : odict (odict table)) (e : string)
    (c : odict table) (nwl : nat) :
  oget cats e = Some c -> collapsible (stacked_tables c) -> same_columns (stacked_tables c) ->
  Forall (fun kT : string * table => table_shape (nrows kT.2) nwl kT.2) (stacked_tables c) ->
  exists tmp, collapse_cat cats e = Ok (oset cats e (oset c "all" tmp)) /\
    table_shape (sum_list (map (fun kT : string * table => nrows kT.2) (stacked_tables c)))
                nwl tmp.
Proof.
  intros Hc Hcoll Hcols Hshape. unfold collapse_cat. rewrite Hc. fold (stacked_tables c).
  set (sc := stacked_tables c) in *.
  destruct (collapse_tables sc [] _ Hcoll collapse_inv_nil)
    as (tmp & Hrun & I1 & I2 & I3 & I4 & I5 & I6 & I7).
  simpl in *. exists tmp. rewrite Hrun. split; [reflexivity|].
  destruct Hcoll as [Hall Hsame].
  intros d g Hg. destruct (String.eqb d "NAME") eqn:Ed.
  - apply String.eqb_eq in Ed. subst d. rewrite I1 in Hg. injection Hg as <-.
    split; [|reflexivity]. intros n [= <-]. apply flat_map_rows.
    apply Forall_forall. intros kT _. apply length_replicate.
  - apply String.eqb_neq in Ed.
    destruct (I2 d g Ed Hg) as (kT0 & f0 & Hin0 & Hf0 & Hacc).
    assert (Hne : sc <> []) by (intros E; rewrite E in Hin0; destruct Hin0).
    assert (Hkind : forall kT, In kT sc -> exists f, kT.2 !! d = Some f /\
                                                     same_kind f0 f = true).
    { intros kT Hin. destruct (Hcols kT0 kT d Hin0 Hin ltac:(eauto)) as [f Hf].
      exists f. split; [exact Hf|]. exact (Hsame kT0 kT d f0 f Hin0 Hin Hf0 Hf). }
    rewrite Forall_forall in Hshape.
    destruct f0 as [v0 | m0 | m0 | | [|s t w0 w1 w2] | | |]; destruct g; try discriminate.
    + assert (Hv : Forall (fun kT : string * table => is_vec kT.2 d = true) sc).
      { apply Forall_forall. intros kT Hin. destruct (Hkind kT Hin) as (f & Hf & Hk).
        unfold is_vec. rewrite Hf. destruct f; try discriminate. reflexivity. }
      rewrite (I4 d Ed Hne Hv) in Hg. injection Hg as <-. split; [|reflexivity].
      intros n [= <-]. apply flat_map_rows. apply Forall_forall. intros kT Hin.
      destruct (Hkind kT Hin) as (f & Hf & Hk). destruct f; try discriminate.
      unfold vec_col at 1. rewrite Hf. destruct (Hshape kT Hin d _ Hf) as [Hr _].
      now apply Hr.
    + assert (Hv : Forall (fun kT : string * table => is_mat kT.2 d = true) sc).
      { apply Forall_forall. intros kT Hin. destruct (Hkind kT Hin) as (f & Hf & Hk).
        unfold is_mat. rewrite Hf. destruct f; try discriminate. reflexivity. }
      rewrite (I5 d Ed Hne Hv) in Hg. injection Hg as <-. split.
      * intros n [= <-]. apply flat_map_rows. apply Forall_forall. intros kT Hin.
        destruct (Hkind kT Hin) as (f & Hf & Hk). destruct f; try discriminate.
        unfold mat_col at 1. rewrite Hf. destruct (Hshape kT Hin d _ Hf) as [Hr _].
        now apply Hr.
      * simpl. apply forallb_forall. intros row Hrow.
        assert (HF : Forall (fun row : list Q => Nat.eqb (length row) nwl = true)
                       (flat_map (fun kT : string * table => mat_col kT.2 d) sc)).
        { apply flat_map_Forall. apply Forall_forall. intros kT Hin.
          destruct (Hkind kT Hin) as (f & Hf & Hk). destruct f; try discriminate.
          unfold mat_col. rewrite Hf. destruct (Hshape kT Hin d _ Hf) as [_ Hcok].
          simpl in Hcok. apply Forall_forall. intros r Hr. rewrite forallb_forall in Hcok.
          now apply Hcok. }
        rewrite Forall_forall in HF. now apply HF.
    + assert (Hv : Forall (fun kT : string * table => is_flags kT.2 d = true) sc).
      { apply Forall_forall. intros kT Hin. destruct (Hkind kT Hin) as (f & Hf & Hk).
        unfold is_flags. rewrite Hf. destruct f; try discriminate. reflexivity. }
      rewrite (I6 d Ed Hne Hv) in Hg. injection Hg as <-. split.
      * intros n [= <-]. apply flat_map_rows. apply Forall_forall. intros kT Hin.
        destruct (Hkind kT Hin) as (f & Hf & Hk). destruct f; try discriminate.
        unfold flags_col at 1. rewrite Hf. destruct (Hshape kT Hin d _ Hf) as [Hr _].
        now apply Hr.
      * simpl. apply forallb_forall. intros row Hrow.
        assert (HF : Forall (fun row : list bool => Nat.eqb (length row) nwl = true)
                       (flat_map (fun kT : string * table => flags_col kT.2 d) sc)).
        { apply flat_map_Forall. apply Forall_forall. intros kT Hin.
          destruct (Hkind kT Hin) as (f & Hf & Hk). destruct f; try discriminate.
          unfold flags_col. rewrite Hf. destruct (Hshape kT Hin d _ Hf) as [_ Hcok].
          simpl in Hcok. apply Forall_forall. intros r Hr. rewrite forallb_forall in Hcok.
          now apply Hcok. }
        rewrite Forall_forall in HF. now apply HF.
    + split; [discriminate | reflexivity].
Qed.

Lemma collapse_cat_keeps_shape_witness :
  exists tmp, collapse_cat [("OI_VIS2", c3_V2)] "OI_VIS2"
              = Ok (oset [("OI_VIS2", c3_V2)] "OI_VIS2" (oset c3_V2 "all" tmp)) /\
    table_shape (sum_list (map (fun kT : string * table => nrows kT.2) (stacked_tables c3_V2)))
                2 tmp.
Proof.
  apply (collapse_cat_keeps_shape [("OI_VIS2", c3_V2)] "OI_VIS2" c3_V2 2).
  - reflexivity.
  - apply collapsibleb_spec. vm_compute. reflexivity.
  - apply same_columnsb_spec. vm_compute. reflexivity.
  - change (stacked_tables c3_V2) with c3_V2. unfold c3_V2.
    constructor; [|constructor; [|constructor]]; apply table_shapeb_spec; vm_compute;
      reflexivity.
Defined.

Lemma vlti_block_keeps (n_JHK : vec -> Q -> Q -> Q -> vec) (h : header)
    (res : gmap string rval) :
  res !! "WL" = None ->
  vlti_block n_JHK h res
  = match opl_of h with Ok OPL => <["OPL" := ROPL OPL]> res | Raise _ => res end.
Proof.
  intros Hwl. unfold vlti_block. destruct (opl_of h) as [OPL|]; [|reflexivity].
  unfold n_lab_of.
  destruct (cardnum h "ESO ISS TEMP TUN1"); [|reflexivity].
  destruct (cardnum h "ESO ISS TEMP TUN2"); [|reflexivity].
  destruct (cardnum h "ESO ISS TEMP TUN3"); [|reflexivity].
  destruct (cardnum h "ESO ISS TEMP TUN4"); [|reflexivity].
  destruct (cardnum h "ESO ISS AMBI PRES"); [|reflexivity].
  destruct (cardnum h "ESO ISS AMBI RHUM"); [|reflexivity].
  cbn [mbind result_bind]. rewrite lookup_insert_ne by discriminate. now rewrite Hwl.
Qed.

(** X18.  [loadOI] never stores the refractive index of the air: the [try] that
    computes ['n_lab'] reads [res['WL']] before the wavelength table has been
    loaded, and the [KeyError] is swallowed.  What the [try] leaves is
    ['OPL'], when the header holds the cards of the four stations. *)
Theorem load_head_never_sets_n_lab (n_JHK : vec -> Q -> Q -> Q -> vec)
    (filename insname targname : string) (h : header) (withHeader : bool) :
  load_head n_JHK filename insname targname h withHeader !! "n_lab" = None /\
  load_head n_JHK filename insname targname h withHeader !! "OPL"
  = match opl_of h with Ok OPL => Some (ROPL OPL) | Raise _ => None end.
Proof.
  unfold load_head.
  set (res := if withHeader then _ else _).
  assert (Hres : res !! "WL" = None /\ res !! "n_lab" = None /\ res !! "OPL" = None).
  { unfold res. destruct withHeader, (h !! "ESO PRO REC1 PIPE ID");
      repeat split; reflexivity. }
  destruct Hres as (Hwl & Hn & Ho). rewrite (vlti_block_keeps n_JHK h res Hwl).
  destruct (opl_of h) as [OPL|].
  - split; [now rewrite lookup_insert_ne by discriminate | apply lookup_insert_eq].
  - split; assumption.
Qed.

Lemma store_grows_refl (h : store) : store_grows h h.
Proof. intros l. exists []. now rewrite app_nil_r. Qed.

Lemma store_grows_trans (h1 h2 h3 : store) :
  store_grows h1 h2 -> store_grows h2 h3 -> store_grows h1 h3.
Proof.
  intros H12 H23 l. destruct (H12 l) as [m1 E1]. destruct (H23 l) as [m2 E2].
  exists (m1 ++ m2). now rewrite E2, E1, app_assoc.
Qed.

Lemma store_grows_In (h h' : store) (l : nat) (k : string) :
  store_grows h h' -> In k (names_at h l) -> In k (names_at h' l).
Proof.
  intros H Hin. destruct (H l) as [more ->]. apply in_or_app. now left.
Qed.

Lemma conf_extend_step (lr : nat) (ks : list string) :
  forall h : store,
  let h' := fold_left (fun h k => if inb k (names_at h lr) then h
                                  else <[lr := names_at h lr ++ [k]]> h) ks h in
  store_grows h h' /\ forall k, In k ks -> In k (names_at h' lr).
Proof.
  induction ks as [|k0 ks IH]; intros h; simpl.
  - split; [apply store_grows_refl | intros k []].
  - set (h1 := if inb k0 (names_at h lr) then h else <[lr := names_at h lr ++ [k0]]> h).
    assert (H1 : store_grows h h1 /\ In k0 (names_at h1 lr)).
    { unfold h1. destruct (inb k0 (names_at h lr)) eqn:E.
      - split; [apply store_grows_refl | now apply inb_In].
      - split.
        + intros l. destruct (Nat.eq_dec l lr) as [->|Hne].
          * exists [k0]. unfold names_at at 1. now rewrite lookup_insert_eq.
          * exists []. unfold names_at. rewrite lookup_insert_ne by congruence.
            now rewrite app_nil_r.
        + unfold names_at at 1. rewrite lookup_insert_eq. simpl.
          apply in_or_app. right. now left. }
    destruct H1 as [Hg Hin]. destruct (IH h1) as [Hg' Hall]. split.
    + eapply store_grows_trans; eassumption.
    + intros k [<-|Hk]; [|now apply Hall].
      eapply store_grows_In; eassumption.
Qed.

Lemma conf_extend_spec (lr lo : nat) (h : store) :
  store_grows h (conf_extend lr lo h) /\
  forall k, In k (names_at h lo) -> In k (names_at (conf_extend lr lo h) lr).
Proof. apply (conf_extend_step lr (names_at h lo) h). Qed.

Lemma conf_merge_entry_grows (st : store * list (Q * nat)) (e : Q * nat) :
  store_grows st.1 (conf_merge_entry st e).1 /\
  forall m l, qget st.2 m = Some l -> qget (conf_merge_entry st e).2 m = Some l.
Proof.
  unfold conf_merge_entry. destruct (qget st.2 e.1) as [lr|] eqn:E; simpl.
  - split; [apply conf_extend_spec | auto].
  - split; [apply store_grows_refl|]. intros m l Hm. rewrite qget_qset.
    destruct (Qeq_bool m e.1) eqn:Em; [|exact Hm].
    apply Qeq_bool_iff in Em. rewrite (qget_proper st.2 m e.1 Em) in Hm. congruence.
Qed.

Lemma conf_merge_grows (oi : list (Q * nat)) (st : store * list (Q * nat)) :
  store_grows st.1 (conf_merge st oi).1 /\
  forall m l, qget st.2 m = Some l -> qget (conf_merge st oi).2 m = Some l.
Proof.
  unfold conf_merge. revert st. induction oi as [|e oi IH]; intros st; simpl.
  - split; [apply store_grows_refl | auto].
  - destruct (conf_merge_entry_grows st e) as [G1 S1].
    destruct (IH (conf_merge_entry st e)) as [G2 S2]. split.
    + eapply store_grows_trans; eassumption.
    + intros m l Hm. apply S2, S1, Hm.
Qed.

(** An epoch that [res] lacks and [oi] has: [res] gets the list of [oi]. *)
Lemma conf_merge_shares (oi : list (Q * nat)) (st : store * list (Q * nat)) (m : Q)
    (lo : nat) :
  qget st.2 m = None -> qget oi m = Some lo -> qget (conf_merge st oi).2 m = Some lo.
Proof.
  unfold conf_merge. revert st. induction oi as [|[m0 l0] oi IH]; intros st Hres Hoi;
    [discriminate|].
  simpl in Hoi. cbn [fold_left]. destruct (Qeq_bool m m0) eqn:E.
  - injection Hoi as ->. apply Qeq_bool_iff in E.
    apply (proj2 (conf_merge_grows oi _)).
    unfold conf_merge_entry. cbn [fst snd].
    rewrite <- (qget_proper st.2 m m0 E), Hres. cbn [snd].
    rewrite qget_qset. assert (E' : Qeq_bool m m0 = true) by (now apply Qeq_bool_iff).
    now rewrite E'.
  - apply IH; [|exact Hoi].
    unfold conf_merge_entry. cbn [fst snd]. destruct (qget st.2 m0) as [lr|]; [exact Hres|].
    cbn [snd]. rewrite qget_qset, E. exact Hres.
Qed.

(** An epoch that both have: the names of the list of [oi] are in the list of
    [res]. *)
Lemma conf_merge_fills (oi : list (Q * nat)) (st : store * list (Q * nat)) (m : Q)
    (lr lo : nat) (k : string) :
  qget st.2 m = Some lr -> qget oi m = Some lo -> In k (names_at st.1 lo) ->
  In k (names_at (conf_merge st oi).1 lr).
Proof.
  unfold conf_merge. revert st. induction oi as [|[m0 l0] oi IH]; intros st Hres Hoi Hk;
    [discriminate|].
  simpl in Hoi. cbn [fold_left].
  destruct (conf_merge_entry_grows st (m0, l0)) as [G1 S1].
  destruct (Qeq_bool m m0) eqn:E.
  - injection Hoi as ->. apply Qeq_bool_iff in E.
    apply (store_grows_In _ _ lr k (proj1 (conf_merge_grows oi _))).
    unfold conf_merge_entry. cbn [fst snd].
    rewrite <- (qget_proper st.2 m m0 E), Hres. cbn [fst].
    now apply conf_extend_spec.
  - apply IH; [now apply S1 | exact Hoi |].
    eapply store_grows_In; eassumption.
Qed.

Lemma conf_merge_n_grows (n : nat) (oi : list (Q * nat)) (st : store * list (Q * nat)) :
  store_grows st.1 (conf_merge_n n st oi).1 /\
  forall m l, qget st.2 m = Some l -> qget (conf_merge_n n st oi).2 m = Some l.
Proof.
  unfold conf_merge_n. induction n as [|n [G S]]; simpl.
  - split; [apply store_grows_refl | auto].
  - destruct (conf_merge_grows oi (Nat.iter n (fun st => conf_merge st oi) st)) as [G' S'].
    split; [eapply store_grows_trans; eassumption|]. intros m l Hm. apply S', S, Hm.
Qed.

Lemma conf_merge_n_S (n : nat) (oi : list (Q * nat)) (st : store * list (Q * nat)) :
  conf_merge_n (S n) st oi = conf_merge_n n (conf_merge st oi) oi.
Proof.
  unfold conf_merge_n. induction n as [|n IH]; [reflexivity|].
  change (Nat.iter (S (S n)) (fun st => conf_merge st oi) st)
    with (conf_merge (Nat.iter (S n) (fun st => conf_merge st oi) st) oi).
  now rewrite IH.
Qed.

(** X19.  [mergeOI] writes into the datasets it is given.  When the dataset that
    holds the merged data of a setup lacks an epoch, it takes over the list of
    configurations of the first dataset [oi2] that has this epoch; the names
    that a later dataset [oi3] has at this epoch are then appended to that
    list, which is still the list of [oi2]: it only grows, and holds every
    name of the list of [oi3]. *)
Theorem conf_merge_extends_input_list (h : store) (res oi2 oi3 : list (Q * nat))
    (n2 n3 : nat) (m : Q) (l2 l3 : nat) (k : string) :
  (0 < n2)%nat -> (0 < n3)%nat ->
  qget res m = None -> qget oi2 m = Some l2 -> qget oi3 m = Some l3 ->
  In k (names_at h l3) -> ~ In k (names_at h l2) ->
  let st := conf_merge_n n3 (conf_merge_n n2 (h, res) oi2) oi3 in
  qget st.2 m = Some l2 /\
  (exists more, names_at st.1 l2 = names_at h l2 ++ more /\ In k more).
Proof.
  intros Hn2 Hn3 Hres H2 H3 Hk Hnk st.
  destruct n2 as [|n2]; [lia|]. destruct n3 as [|n3]; [lia|].
  set (st1 := conf_merge (h, res) oi2).
  assert (R1 : qget st1.2 m = Some l2) by (now apply conf_merge_shares).
  pose proof (proj1 (conf_merge_grows oi2 (h, res))) as G1. fold st1 in G1. simpl in G1.
  set (st2 := conf_merge_n n2 st1 oi2).
  destruct (conf_merge_n_grows n2 oi2 st1) as [G2 S2]. fold st2 in G2, S2.
  assert (R2 : qget st2.2 m = Some l2) by (now apply S2).
  set (st3 := conf_merge st2 oi3).
  assert (K3 : In k (names_at st3.1 l2)).
  { apply (conf_merge_fills oi3 st2 m l2 l3 k R2 H3).
    eapply store_grows_In; [exact G2|]. eapply store_grows_In; [exact G1|]. exact Hk. }
  destruct (conf_merge_grows oi3 st2) as [G3 S3]. fold st3 in G3, S3.
  destruct (conf_merge_n_grows n3 oi3 st3) as [G4 S4].
  assert (Est : st = conf_merge_n n3 st3 oi3).
  { unfold st. rewrite (conf_merge_n_S n2 oi2 (h, res)). fold st1. fold st2.
    rewrite (conf_merge_n_S n3 oi3 st2). reflexivity. }
  rewrite Est. split; [apply S4, S3, R2|].
  assert (G : store_grows h (conf_merge_n n3 st3 oi3).1).
  { eapply store_grows_trans; [exact G1|]. eapply store_grows_trans; [exact G2|].
    eapply store_grows_trans; [exact G3 | exact G4]. }
  destruct (G l2) as [more Hmore]. exists more. split; [exact Hmore|].
  assert (Hin : In k (names_at (conf_merge_n n3 st3 oi3).1 l2)).
  { eapply store_grows_In; [exact G4 | exact K3]. }
  rewrite Hmore in Hin. apply in_app_or in Hin as [Hin|Hin]; [contradiction | exact Hin].
Qed.

Lemma conf_merge_extends_input_list_witness :
  let st := conf_merge_n 1 (conf_merge_n 1 ({[ 0%nat := ["AB"]; 1%nat := ["AB"];
                                              2%nat := ["CD"] ]}, [(5%Q, 0%nat)])
                                         [(6%Q, 1%nat)]) [(6%Q, 2%nat)] in
  qget st.2 6%Q = Some 1%nat /\
  (exists more, names_at st.1 1%nat
                = names_at ({[ 0%nat := ["AB"]; 1%nat := ["AB"]; 2%nat := ["CD"] ]} : store)
                           1%nat ++ more /\ In "CD" more).
Proof.
  apply (conf_merge_extends_input_list
           {[ 0%nat := ["AB"]; 1%nat := ["AB"]; 2%nat := ["CD"] ]}
           [(5%Q, 0%nat)] [(6%Q, 1%nat)] [(6%Q, 2%nat)] 1 1 6%Q 1 2 "CD").
  - lia.
  - lia.
  - reflexivity.
  - reflexivity.
  - reflexivity.
  - vm_compute. now left.
  - vm_compute. intros [H|[]]. discriminate.
Defined.
